(** * A shallow embedding of the cellular fluid simulator

    Sources embedded here:
    - [include/fixed.h]        : Q-format fixed point on a 64-bit backing integer;
    - [include/vector_field.h] : the directional field [VectorField<T>];
    - [include/simulator.h]    : [FluidSimulator], dynamic (heap-vector) path.

    Undefined behaviour of the C++ source (reads and writes outside a
    container, signed overflow, division by zero) is modelled as an explicit
    error result, never as a value. *)

From Stdlib Require Import ZArith Lia Bool Ascii String.
From stdpp Require Import base tactics option list.

Local Open Scope Z_scope.

(** ** Results of fallible code *)

Inductive Error : Type :=
| OutOfBounds      (* access outside a vector, string or array *)
| InvalidDelta     (* [throw std::runtime_error("Invalid delta values")] *)
| AssertFailed     (* a failed [assert] *)
| ArithFault       (* signed overflow or division by zero *)
| Thrown (msg : string)         (* any other exception that is thrown *)
| OutOfFuel.       (* the model's recursion budget ran out *)

Inductive Res (A : Type) : Type :=
| Ok (a : A)
| Err (e : Error).
Arguments Ok {A} a.
Arguments Err {A} e.

(** ** Machine integers *)

(** [int64_t] range and the value kept by a two's complement 64-bit store. *)
Definition int64_min : Z := - 2 ^ 63.
Definition int64_max : Z := 2 ^ 63 - 1.
Definition in_int64 (z : Z) : bool := (int64_min <=? z) && (z <=? int64_max).
Definition wrap64 (z : Z) : Z := (z + 2 ^ 63) mod 2 ^ 64 - 2 ^ 63.

(** [size_t] (64 bit, unsigned) and [int] (32 bit, signed) conversions. *)
Definition to_size (z : Z) : Z := z mod 2 ^ 64.
Definition to_int (z : Z) : Z := (z + 2 ^ 31) mod 2 ^ 32 - 2 ^ 31.

(** ** fixed.h *)

Module FixedPoint.

(** [Fixed<N,K>]: the only data member is [IntType v] with
    [IntType = int64_t], whatever [N] is. *)
Record Fixed : Type := from_raw { v : Z }.

Section Ops.
(** The template parameter [K] (fraction bits). *)
Variable K : Z.

(** [operator+]: [from_raw(a.v + b.v)], stored in an [int64_t]. *)
Definition add (a b : Fixed) : Fixed := from_raw (wrap64 (v a + v b)).

(** [operator-]: [from_raw(a.v - b.v)]. *)
Definition sub (a b : Fixed) : Fixed := from_raw (wrap64 (v a - v b)).

(** [operator*]: [from_raw((a.v * b.v) >> K)]; [>>] on a signed
    operand is the arithmetic shift. *)
Definition mul (a b : Fixed) : Fixed :=
  from_raw (Z.shiftr (wrap64 (v a * v b)) K).

(** [operator/]: [from_raw((a.v << K) / b.v)]; integer [/] truncates.
    A zero divisor, and [INT64_MIN / -1], have no result. *)
Definition div (a b : Fixed) : option Fixed :=
  let n := wrap64 (Z.shiftl (v a) K) in
  if v b =? 0 then None
  else if (n =? int64_min) && (v b =? -1) then None
  else Some (from_raw (Z.quot n (v b))).

(** Unary [operator-] and [abs]. *)
Definition neg (x : Fixed) : Fixed := from_raw (wrap64 (- v x)).
Definition abs (x : Fixed) : Fixed :=
  if v x <? 0 then from_raw (wrap64 (- v x)) else x.

(** The defaulted [operator<=>] and [operator==] compare [v]. *)
Definition ltb (a b : Fixed) : bool := v a <? v b.
Definition leb (a b : Fixed) : bool := v a <=? v b.
Definition eqb (a b : Fixed) : bool := v a =? v b.
End Ops.

End FixedPoint.

(** ** vector_field.h *)

Module VectorField.

(** [delta_array = std::array<std::pair<int,int>, 4>]. *)
Definition delta_array : Type := list (Z * Z).

(** [std::array<T,4>], the per-cell vector. *)
Definition arr4 (T : Type) : Type := (T * T * T * T)%type.

Definition arr_get {T} (a : arr4 T) (i : nat) : option T :=
  let '(a0, a1, a2, a3) := a in
  match i with
  | 0%nat => Some a0 | 1%nat => Some a1 | 2%nat => Some a2 | 3%nat => Some a3
  | _ => None
  end.

Definition arr_set {T} (a : arr4 T) (i : nat) (x : T) : arr4 T :=
  let '(a0, a1, a2, a3) := a in
  match i with
  | 0%nat => (x, a1, a2, a3) | 1%nat => (a0, x, a2, a3)
  | 2%nat => (a0, a1, x, a3) | 3%nat => (a0, a1, a2, x)
  | _ => a
  end.

Definition arr_fill {T} (x : T) : arr4 T := (x, x, x, x).

(** [std::distance(deltas.begin(), std::find(deltas.begin(), deltas.end(),
    std::make_pair(dx, dy)))]: the position of the first match, the length
    of the table when there is none. *)
Fixpoint find_index (deltas : delta_array) (dx dy : Z) : nat :=
  match deltas with
  | [] => 0%nat
  | (ex, ey) :: rest =>
      if (ex =? dx) && (ey =? dy) then 0%nat else S (find_index rest dx dy)
  end.

(** [v : std::vector<std::vector<std::array<T,4>>>]. *)
Abbreviation field T := (list (list (arr4 T))).

Definition rows {T} (f : field T) : Z := Z.of_nat (length f).
Definition cols {T} (f : field T) : Z :=
  match f with [] => 0 | r :: _ => Z.of_nat (length r) end.
Definition is_valid_position {T} (f : field T) (x y : Z) : bool :=
  (x <? rows f) && (y <? cols f).

(** A raw [v[x][y]] with [size_type] indices. *)
Definition cell {T} (f : field T) (x y : Z) : option (arr4 T) :=
  if (x <? 0) || (y <? 0) then None
  else match f !! Z.to_nat x with
       | Some row => row !! Z.to_nat y
       | None => None
       end.

Definition set_cell {T} (f : field T) (x y : Z) (a : arr4 T) : field T :=
  alter (fun row => <[Z.to_nat y := a]> row) (Z.to_nat x) f.

(** [init(rows, cols)]: resize, then zero-fill every cell. *)
Definition init {T} (zero : T) (r c : Z) : field T :=
  replicate (Z.to_nat r) (replicate (Z.to_nat c) (arr_fill zero)).

Section Access.
Context {T : Type}.
(** [T::operator+=], which may have no result. *)
Variable plus : T -> T -> option T.

(** [add(x, y, dx, dy, dv, deltas)]: asserts the position, throws on a
    delta that is not in the table, then [v[x][y][i] += dv].  The result
    is the new field and the updated entry. *)
Definition add (f : field T) (x y dx dy : Z) (dv : T) (deltas : delta_array)
  : Res (field T * T) :=
  if negb ((0 <=? x) && (0 <=? y) && is_valid_position f x y) then Err AssertFailed
  else
    let i := find_index deltas dx dy in
    if (i =? length deltas)%nat then Err InvalidDelta
    else match cell f x y with
         | None => Err OutOfBounds
         | Some a =>
             match arr_get a i with
             | None => Err OutOfBounds
             | Some old =>
                 match plus old dv with
                 | None => Err ArithFault
                 | Some new => Ok (set_cell f x y (arr_set a i new), new)
                 end
             end
         end.

(** [get(x, y, dx, dy, deltas)]: [v[x][y][i]] with [i] straight from the
    search; nothing is checked. *)
Definition get (f : field T) (x y dx dy : Z) (deltas : delta_array) : Res T :=
  let i := find_index deltas dx dy in
  match cell f x y with
  | None => Err OutOfBounds
  | Some a =>
      match arr_get a i with
      | None => Err OutOfBounds
      | Some x => Ok x
      end
  end.

(** An assignment through the reference returned by [get]:
    [get(x, y, dx, dy, deltas) = val]. *)
Definition put (f : field T) (x y dx dy : Z) (deltas : delta_array) (val : T)
  : Res (field T) :=
  let i := find_index deltas dx dy in
  match cell f x y with
  | None => Err OutOfBounds
  | Some a =>
      match arr_get a i with
      | None => Err OutOfBounds
      | Some _ => Ok (set_cell f x y (arr_set a i val))
      end
  end.

(** [get_array(x, y)] returns [v[x][y]]; [set_array(x, y, arr)] stores it. *)
Definition get_array (f : field T) (x y : Z) : Res (arr4 T) :=
  match cell f x y with
  | None => Err OutOfBounds
  | Some a => Ok a
  end.

Definition set_array (f : field T) (x y : Z) (a : arr4 T) : Res (field T) :=
  match cell f x y with
  | None => Err OutOfBounds
  | Some _ => Ok (set_cell f x y a)
  end.
End Access.

(** [reset()]: every cell of every row is filled with [T(0)]; no row
    changes its length. *)
Definition reset {T} (zero : T) (f : field T) : field T :=
  List.map (List.map (fun _ => arr_fill zero)) f.

(** [is_valid_delta(dx, dy, deltas)]: [std::find(...) != deltas.end()]. *)
Definition is_valid_delta (dx dy : Z) (deltas : delta_array) : bool :=
  negb (find_index deltas dx dy =? length deltas)%nat.

(** [at(x, y, i)]: asserts the position and [i < 4], then [v[x][y][i]]. *)
Definition at_index {T} (f : field T) (x y i : Z) : Res T :=
  if negb ((0 <=? x) && (0 <=? y) && is_valid_position f x y && (0 <=? i) && (i <? 4))
  then Err AssertFailed
  else match cell f x y with
       | None => Err OutOfBounds
       | Some a =>
           match arr_get a (Z.to_nat i) with
           | None => Err OutOfBounds
           | Some t => Ok t
           end
       end.

(** [operator[](i)]: asserts [i < rows()], then the row [v[i]]. *)
Definition row_at {T} (f : field T) (i : Z) : Res (list (arr4 T)) :=
  if negb ((0 <=? i) && (i <? rows f)) then Err AssertFailed
  else match f !! Z.to_nat i with
       | Some row => Ok row
       | None => Err OutOfBounds
       end.

(** [empty()] and [swap(other)]. *)
Definition empty {T} (f : field T) : bool :=
  match f with [] => true | _ => false end.

Definition swap {T} (f other : field T) : field T * field T := (other, f).

End VectorField.

(** [StaticVectorField<T, N, K>]: the same interface on
    [std::array<std::array<std::array<T, 4>, K>, N>].  The extents are the
    template arguments, and both [add] and [get] assert the position and
    the index found in the table. *)

Module StaticVectorField.

Section Static.
Context {T : Type}.
Variables N K : Z.

(** [reset()], which is also the constructor, and [init(rows, cols)], which
    ignores its arguments and value-initialises the array. *)
Definition reset (zero : T) : VectorField.field T :=
  replicate (Z.to_nat N) (replicate (Z.to_nat K) (VectorField.arr_fill zero)).

Definition init (zero : T) (rows cols : Z) : VectorField.field T := reset zero.

Definition is_valid_position (x y : Z) : bool := (x <? N) && (y <? K).

Definition empty : bool := (N =? 0) || (K =? 0).

Variable plus : T -> T -> option T.

Definition add (f : VectorField.field T) (x y dx dy : Z) (dv : T)
  (deltas : VectorField.delta_array) : Res (VectorField.field T * T) :=
  if negb ((0 <=? x) && (0 <=? y) && is_valid_position x y) then Err AssertFailed
  else
    let i := VectorField.find_index deltas dx dy in
    if negb (i <? length deltas)%nat then Err AssertFailed
    else match VectorField.cell f x y with
         | None => Err OutOfBounds
         | Some a =>
             match VectorField.arr_get a i with
             | None => Err OutOfBounds
             | Some old =>
                 match plus old dv with
                 | None => Err ArithFault
                 | Some new => Ok (VectorField.set_cell f x y (VectorField.arr_set a i new), new)
                 end
             end
         end.

Definition get (f : VectorField.field T) (x y dx dy : Z)
  (deltas : VectorField.delta_array) : Res T :=
  if negb ((0 <=? x) && (0 <=? y) && is_valid_position x y) then Err AssertFailed
  else
    let i := VectorField.find_index deltas dx dy in
    if negb (i <? length deltas)%nat then Err AssertFailed
    else match VectorField.cell f x y with
         | None => Err OutOfBounds
         | Some a =>
             match VectorField.arr_get a i with
             | None => Err OutOfBounds
             | Some t => Ok t
             end
         end.

(** [at(x, y, i)]. *)
Definition at_index (f : VectorField.field T) (x y i : Z) : Res T :=
  if negb ((0 <=? x) && (0 <=? y) && is_valid_position x y && (0 <=? i) && (i <? 4))
  then Err AssertFailed
  else match VectorField.cell f x y with
       | None => Err OutOfBounds
       | Some a =>
           match VectorField.arr_get a (Z.to_nat i) with
           | None => Err OutOfBounds
           | Some t => Ok t
           end
       end.

(** [get_array(x, y)] and [set_array(x, y, arr)]: no assertion. *)
Definition get_array (f : VectorField.field T) (x y : Z) : Res (VectorField.arr4 T) :=
  match VectorField.cell f x y with
  | None => Err OutOfBounds
  | Some a => Ok a
  end.

Definition set_array (f : VectorField.field T) (x y : Z) (a : VectorField.arr4 T)
  : Res (VectorField.field T) :=
  match VectorField.cell f x y with
  | None => Err OutOfBounds
  | Some _ => Ok (VectorField.set_cell f x y a)
  end.
End Static.

End StaticVectorField.

(** The offset table of the engine:
    [deltas{{{-1, 0}, {1, 0}, {0, -1}, {0, 1}}}]. *)
Definition deltas : VectorField.delta_array := [(-1, 0); (1, 0); (0, -1); (0, 1)].


(** ** The numeric slots

    [FluidSimulator] is a template over the scalar types.  The operations it
    uses are collected in a class; an operation without a result stands for
    undefined behaviour of the scalar type (signed overflow, division by
    zero).  The engine below uses one scalar type for the pressure and the
    velocity slot. *)

Class Numeric (T : Type) : Type := {
  nzero : T;                       (* [T(0)] and the literal [0] *)
  nof_int : Z -> T;                (* conversion of an [int] *)
  nrho_default : T;                (* [PType(0.01)] *)
  nadd : T -> T -> option T;
  nsub : T -> T -> option T;
  nmul : T -> T -> option T;
  ndiv : T -> T -> option T;
  nscale08 : T -> option T;        (* [force *= 0.8] *)
  nlt : T -> T -> bool;
  nle : T -> T -> bool;
  neqb : T -> T -> bool
}.

(** [std::min(a, b)] is [(b < a) ? b : a]. *)
Definition nmin {T} `{Numeric T} (a b : T) : T := if nlt b a then b else a.

(** [std::mt19937] together with [std::uniform_real_distribution<T>(0, 1)]. *)
Class Prng (T Rng : Type) : Type := {
  mt19937_seed : Z -> Rng;
  uniform_real01 : Rng -> T * Rng
}.

(** The text conversions of the standard library used on the input lines:
    [ss >> rows >> cols], [std::stod] and [rho_ss >> symbol >> equals >> value]. *)
Class Parsers (T : Type) : Type := {
  parse_extents : list ascii -> Z * Z;
  parse_real : list ascii -> option T;
  parse_density : list ascii -> option (ascii * T)
}.

(** Raw [operator[]] of [std::vector]: no result outside the vector. *)
Definition vec_at {A} (l : list A) (i : Z) : Res A :=
  if i <? 0 then Err OutOfBounds
  else match l !! Z.to_nat i with
       | Some a => Ok a
       | None => Err OutOfBounds
       end.

(** [g[x][y]] on a vector of vectors, read and write. *)
Definition grid_at {A} (gr : list (list A)) (x y : Z) : Res A :=
  match vec_at gr x with
  | Ok row => vec_at row y
  | Err e => Err e
  end.

Definition grid_set {A} (gr : list (list A)) (x y : Z) (a : A) : Res (list (list A)) :=
  match grid_at gr x y with
  | Ok _ => Ok (alter (fun row => <[Z.to_nat y := a]> row) (Z.to_nat x) gr)
  | Err e => Err e
  end.

(** [field_data[x][y]] on a vector of [std::string]: reading the position
    one past the last character of a string gives the terminating zero. *)
Definition field_at (fd : list (list ascii)) (x y : Z) : Res ascii :=
  match vec_at fd x with
  | Ok row => if y =? Z.of_nat (length row) then Ok Ascii.zero else vec_at row y
  | Err e => Err e
  end.

Definition is_wall (c : ascii) : bool := Ascii.eqb c "#"%char.

(** [rho[(int) c]] and [rho[static_cast<size_t>(c)]]: [char] is signed, so a
    code above 127 becomes a negative index. *)
Definition char_index (c : ascii) : Z :=
  let n := Z.of_N (N_of_ascii c) in if n <? 128 then n else n - 256.

(** Row-major enumeration of [0 <= x < rws], [0 <= y < cls]. *)
Definition cells (rws cls : Z) : list (Z * Z) :=
  List.flat_map (fun x => List.map (fun y => (x, y)) (seqZ 0 cls)) (seqZ 0 rws).

Definition out_of_grid (rws cls nx ny : Z) : bool :=
  (nx <? 0) || (ny <? 0) || (rws <=? to_size nx) || (cls <=? to_size ny).

Definition out_of_grid_int (rws cls nx ny : Z) : bool :=
  (to_int rws <=? nx) || (to_int cls <=? ny) || (nx <? 0) || (ny <? 0).

(** ** A state and error monad for the member functions *)

Definition M (St A : Type) : Type := St -> Res (A * St).

Definition ret {St A} (a : A) : M St A := fun s => Ok (a, s).
Definition bind {St A B} (m : M St A) (f : A -> M St B) : M St B :=
  fun s => match m s with
           | Ok (a, s') => f a s'
           | Err e => Err e
           end.
Definition fail {St A} (e : Error) : M St A := fun _ => Err e.
Definition gets {St A} (f : St -> A) : M St A := fun s => Ok (f s, s).
Definition modify {St} (f : St -> St) : M St unit := fun s => Ok (tt, f s).
Definition lift {St A} (r : Res A) : M St A :=
  fun s => match r with
           | Ok a => Ok (a, s)
           | Err e => Err e
           end.
Definition arith {St A} (o : option A) : M St A :=
  match o with
  | Some x => ret x
  | None => fail ArithFault
  end.

Declare Scope sim_scope.
Delimit Scope sim_scope with sim.
Notation "'let*' x := m 'in' k" := (bind m (fun x => k))
  (at level 10, x name, m at level 200, k at level 200, only parsing) : sim_scope.
Notation "'let*' ' pat := m 'in' k" := (bind m (fun x => match x with pat => k end))
  (at level 10, pat pattern, m at level 200, k at level 200, only parsing) : sim_scope.

(** [for (auto b : l) a = f(a, b)] with the state threaded through. *)
Fixpoint foldM {St A B} (f : A -> B -> M St A) (l : list B) (a : A) : M St A :=
  match l with
  | [] => ret a
  | b :: l' => bind (f a b) (foldM f l')
  end.

Definition forM {St B} (f : B -> M St unit) (l : list B) : M St unit :=
  foldM (fun _ b => f b) l tt.

(** ** simulator.h: the engine state *)

Section Engine.
Context {T Rng : Type} {NT : Numeric T} {PR : Prng T Rng}.

(** The data members of [FluidSimulator] used on the dynamic path.
    [static_field] is the member [field] of the static path;
    [total_delta_p] is the local of [run], kept here so that the loop bodies
    can update it; [printed] collects the grids written to [std::cout] by
    the ["Tick"] printout; [flow_calls] is a ghost counter of the entries
    into [propagate_flow] and is read by nothing. *)
Record Sim : Type := mkSim {
  field_data : list (list ascii);
  p : list (list T);
  old_p : list (list T);
  velocity : VectorField.field T;
  velocity_flow : VectorField.field T;
  last_use : list (list Z);
  rnd : Rng;
  rows : Z;
  cols : Z;
  UT : Z;
  rho : list T;
  g : T;
  static_field : list (list ascii);
  total_delta_p : T;
  printed : list (list (list ascii));
  flow_calls : nat
}.

Definition with_field_data (s : Sim) (x : list (list ascii)) : Sim :=
  mkSim x (p s) (old_p s) (velocity s) (velocity_flow s) (last_use s) (rnd s)
        (rows s) (cols s) (UT s) (rho s) (g s) (static_field s)
        (total_delta_p s) (printed s) (flow_calls s).
Definition with_p (s : Sim) (x : list (list T)) : Sim :=
  mkSim (field_data s) x (old_p s) (velocity s) (velocity_flow s) (last_use s) (rnd s)
        (rows s) (cols s) (UT s) (rho s) (g s) (static_field s)
        (total_delta_p s) (printed s) (flow_calls s).
Definition with_old_p (s : Sim) (x : list (list T)) : Sim :=
  mkSim (field_data s) (p s) x (velocity s) (velocity_flow s) (last_use s) (rnd s)
        (rows s) (cols s) (UT s) (rho s) (g s) (static_field s)
        (total_delta_p s) (printed s) (flow_calls s).
Definition with_velocity (s : Sim) (x : VectorField.field T) : Sim :=
  mkSim (field_data s) (p s) (old_p s) x (velocity_flow s) (last_use s) (rnd s)
        (rows s) (cols s) (UT s) (rho s) (g s) (static_field s)
        (total_delta_p s) (printed s) (flow_calls s).
Definition with_velocity_flow (s : Sim) (x : VectorField.field T) : Sim :=
  mkSim (field_data s) (p s) (old_p s) (velocity s) x (last_use s) (rnd s)
        (rows s) (cols s) (UT s) (rho s) (g s) (static_field s)
        (total_delta_p s) (printed s) (flow_calls s).
Definition with_last_use (s : Sim) (x : list (list Z)) : Sim :=
  mkSim (field_data s) (p s) (old_p s) (velocity s) (velocity_flow s) x (rnd s)
        (rows s) (cols s) (UT s) (rho s) (g s) (static_field s)
        (total_delta_p s) (printed s) (flow_calls s).
Definition with_rnd (s : Sim) (x : Rng) : Sim :=
  mkSim (field_data s) (p s) (old_p s) (velocity s) (velocity_flow s) (last_use s) x
        (rows s) (cols s) (UT s) (rho s) (g s) (static_field s)
        (total_delta_p s) (printed s) (flow_calls s).
Definition with_UT (s : Sim) (x : Z) : Sim :=
  mkSim (field_data s) (p s) (old_p s) (velocity s) (velocity_flow s) (last_use s) (rnd s)
        (rows s) (cols s) x (rho s) (g s) (static_field s)
        (total_delta_p s) (printed s) (flow_calls s).
Definition with_total_delta_p (s : Sim) (x : T) : Sim :=
  mkSim (field_data s) (p s) (old_p s) (velocity s) (velocity_flow s) (last_use s) (rnd s)
        (rows s) (cols s) (UT s) (rho s) (g s) (static_field s)
        x (printed s) (flow_calls s).
Definition with_printed (s : Sim) (x : list (list (list ascii))) : Sim :=
  mkSim (field_data s) (p s) (old_p s) (velocity s) (velocity_flow s) (last_use s) (rnd s)
        (rows s) (cols s) (UT s) (rho s) (g s) (static_field s)
        (total_delta_p s) x (flow_calls s).
Definition with_flow_calls (s : Sim) (x : nat) : Sim :=
  mkSim (field_data s) (p s) (old_p s) (velocity s) (velocity_flow s) (last_use s) (rnd s)
        (rows s) (cols s) (UT s) (rho s) (g s) (static_field s)
        (total_delta_p s) (printed s) x.

Local Open Scope sim_scope.
Abbreviation SM := (M Sim).

(** *** Member access *)

Definition F_at (x y : Z) : SM ascii :=
  fun s => lift (field_at (field_data s) x y) s.
Definition F_set (x y : Z) (c : ascii) : SM unit :=
  fun s => match grid_set (field_data s) x y c with
           | Ok fd => Ok (tt, with_field_data s fd)
           | Err e => Err e
           end.
Definition P_at (x y : Z) : SM T := fun s => lift (grid_at (p s) x y) s.
Definition P_set (x y : Z) (a : T) : SM unit :=
  fun s => match grid_set (p s) x y a with
           | Ok gr => Ok (tt, with_p s gr)
           | Err e => Err e
           end.
Definition oldP_at (x y : Z) : SM T := fun s => lift (grid_at (old_p s) x y) s.
Definition L_at (x y : Z) : SM Z := fun s => lift (grid_at (last_use s) x y) s.
Definition L_set (x y : Z) (a : Z) : SM unit :=
  fun s => match grid_set (last_use s) x y a with
           | Ok gr => Ok (tt, with_last_use s gr)
           | Err e => Err e
           end.
Definition rho_at (c : ascii) : SM T := fun s => lift (vec_at (rho s) (char_index c)) s.

(** [velocity.get], [velocity.get(...) = a], [velocity.add] and the same on
    [velocity_flow], always with the engine's own table. *)
Definition V_get (x y dx dy : Z) : SM T :=
  fun s => lift (VectorField.get (velocity s) x y dx dy deltas) s.
Definition V_put (x y dx dy : Z) (a : T) : SM unit :=
  fun s => match VectorField.put (velocity s) x y dx dy deltas a with
           | Ok f => Ok (tt, with_velocity s f)
           | Err e => Err e
           end.
Definition V_add (x y dx dy : Z) (dv : T) : SM unit :=
  fun s => match VectorField.add nadd (velocity s) x y dx dy dv deltas with
           | Ok (f, _) => Ok (tt, with_velocity s f)
           | Err e => Err e
           end.
Definition Vf_get (x y dx dy : Z) : SM T :=
  fun s => lift (VectorField.get (velocity_flow s) x y dx dy deltas) s.
Definition Vf_add (x y dx dy : Z) (dv : T) : SM unit :=
  fun s => match VectorField.add nadd (velocity_flow s) x y dx dy dv deltas with
           | Ok (f, _) => Ok (tt, with_velocity_flow s f)
           | Err e => Err e
           end.

(** [random01()]: one draw, the generator advances. *)
Definition random01 : SM T :=
  fun s => let '(u, r) := uniform_real01 (rnd s) in Ok (u, with_rnd s r).

(** *** [ParticleParams] *)

Record ParticleParams : Type := mkPP {
  pp_type : ascii;
  pp_cur_p : T;
  pp_v : VectorField.arr4 T
}.

(** [ParticleParams pp{}]. *)
Definition pp_empty : ParticleParams := mkPP Ascii.zero nzero (VectorField.arr_fill nzero).

(** [swap_with(sim, x, y)], dynamic branch: two [std::swap]s, then
    [v = sim->velocity.get_array(x, y); sim->velocity.set_array(x, y, v)]. *)
Definition swap_with (pp : ParticleParams) (x y : Z) : SM ParticleParams :=
  let* c := F_at x y in
  let* _ := F_set x y (pp_type pp) in
  let* q := P_at x y in
  let* _ := P_set x y (pp_cur_p pp) in
  let* a := (fun s => lift (VectorField.get_array (velocity s) x y) s) in
  let* _ := (fun s => match VectorField.set_array (velocity s) x y a with
                    | Ok f => Ok (tt, with_velocity s f)
                    | Err e => Err e
                    end) in
  ret (mkPP c q a).

(** The three calls at the end of [propagate_move]:
    [ParticleParams pp{}; pp.swap_with(this, x, y);
     pp.swap_with(this, target_x, target_y); pp.swap_with(this, x, y)]. *)
Definition rotate (x y tx ty : Z) : SM ParticleParams :=
  let* pp1 := swap_with pp_empty x y in
  let* pp2 := swap_with pp1 tx ty in
  swap_with pp2 x y.

(** *** [propagate_flow] *)

Definition flow_result : Type := (T * bool * (Z * Z))%type.

(** The [for] loop over [deltas] of [propagate_flow], with the statements
    after the loop in the empty case; [rec] is the recursive call and [acc]
    the local [ret]. *)
Fixpoint flow_dirs (rec : Z -> Z -> T -> SM flow_result) (x y : Z) (lim acc : T)
  (ds : list (Z * Z)) : SM flow_result :=
  match ds with
  | [] =>
      let* ut := gets UT in
      let* _ := L_set x y (to_int ut) in
      ret (acc, false, (0, 0))
  | (dx, dy) :: rest =>
      let nx := x + dx in
      let ny := y + dy in
      let* rws := gets rows in
      let* cls := gets cols in
      if out_of_grid rws cls nx ny then flow_dirs rec x y lim acc rest
      else
        let* c := F_at nx ny in
        if is_wall c then flow_dirs rec x y lim acc rest
        else
          let* l := L_at nx ny in
          let* ut := gets UT in
          if to_size l <? ut then
            let* cap := V_get x y dx dy in
            let* flow := Vf_get x y dx dy in
            if neqb flow cap then flow_dirs rec x y lim acc rest
            else
              let* d := arith (nsub cap flow) in
              let vp := nmin lim d in
              if to_size l =? to_size (ut - 1) then
                let* _ := Vf_add x y dx dy vp in
                let* _ := L_set x y (to_int ut) in
                ret (vp, true, (nx, ny))
              else
                let* '(t, prop, fin) := rec nx ny vp in
                let* acc' := arith (nadd acc t) in
                if prop then
                  let* _ := Vf_add x y dx dy t in
                  let* _ := L_set x y (to_int ut) in
                  ret (t, prop && negb ((fst fin =? x) && (snd fin =? y)), fin)
                else flow_dirs rec x y lim acc' rest
          else flow_dirs rec x y lim acc rest
  end.

(** [propagate_flow(x, y, lim)]; the first statement is the store
    [last_use[x][y] = UT - 1], before any check. *)
Fixpoint propagate_flow (fuel : nat) (x y : Z) (lim : T) : SM flow_result :=
  match fuel with
  | O => fail OutOfFuel
  | S fuel' =>
      let* _ := modify (fun s => with_flow_calls s (S (flow_calls s))) in
      let* ut := gets UT in
      let* _ := L_set x y (to_int (to_size (ut - 1))) in
      let* rws := gets rows in
      let* cls := gets cols in
      if out_of_grid rws cls x y then ret (nzero, false, (0, 0))
      else
        let* c := F_at x y in
        if is_wall c then ret (nzero, false, (0, 0))
        else flow_dirs (propagate_flow fuel') x y lim nzero deltas
  end.

(** *** [propagate_stop] *)

(** The first loop of [propagate_stop]: [true] when it leaves with
    [stop = false]. *)
Fixpoint stop_blocked (x y : Z) (ds : list (Z * Z)) : SM bool :=
  match ds with
  | [] => ret false
  | (dx, dy) :: rest =>
      let nx := x + dx in
      let ny := y + dy in
      let* rws := gets rows in
      let* cls := gets cols in
      if (0 <=? nx) && (0 <=? ny) && (nx <? to_int rws) && (ny <? to_int cls) then
        let* c := F_at nx ny in
        if is_wall c then stop_blocked x y rest
        else
          let* l := L_at nx ny in
          let* ut := gets UT in
          if to_size l <? to_size (ut - 1) then
            let* w := V_get x y dx dy in
            if nlt nzero w then ret true else stop_blocked x y rest
          else stop_blocked x y rest
      else stop_blocked x y rest
  end.

(** The second loop of [propagate_stop]. *)
Fixpoint stop_dirs (rec : Z -> Z -> SM unit) (x y : Z) (ds : list (Z * Z)) : SM unit :=
  match ds with
  | [] => ret tt
  | (dx, dy) :: rest =>
      let nx := x + dx in
      let ny := y + dy in
      let* rws := gets rows in
      let* cls := gets cols in
      if out_of_grid rws cls nx ny then stop_dirs rec x y rest
      else
        let* c := F_at nx ny in
        if is_wall c then stop_dirs rec x y rest
        else
          let* l := L_at nx ny in
          let* ut := gets UT in
          if to_size l =? ut then stop_dirs rec x y rest
          else
            let* w := V_get x y dx dy in
            if nlt nzero w then stop_dirs rec x y rest
            else
              let* _ := rec nx ny in
              stop_dirs rec x y rest
  end.

(** [propagate_stop(x, y, force)]. *)
Fixpoint propagate_stop (fuel : nat) (x y : Z) (force : bool) : SM unit :=
  match fuel with
  | O => fail OutOfFuel
  | S fuel' =>
      let* blocked := (if force then ret false else stop_blocked x y deltas) in
      if blocked then ret tt
      else
        let* ut := gets UT in
        let* _ := L_set x y (to_int ut) in
        stop_dirs (fun nx ny => propagate_stop fuel' nx ny false) x y deltas
  end.

(** *** [move_prob] *)

(** [move_prob(x, y)]: the neighbour is read without a bounds check. *)
Fixpoint move_prob_dirs (x y : Z) (sum : T) (ds : list (Z * Z)) : SM T :=
  match ds with
  | [] => ret sum
  | (dx, dy) :: rest =>
      let nx := x + dx in
      let ny := y + dy in
      let* c := F_at nx ny in
      if is_wall c then move_prob_dirs x y sum rest
      else
        let* l := L_at nx ny in
        let* ut := gets UT in
        if to_size l =? ut then move_prob_dirs x y sum rest
        else
          let* w := V_get x y dx dy in
          if nle nzero w then
            let* sum' := arith (nadd sum w) in
            move_prob_dirs x y sum' rest
          else move_prob_dirs x y sum rest
  end.

Definition move_prob (x y : Z) : SM T := move_prob_dirs x y nzero deltas.

(** *** [propagate_move] *)

Definition MAX_DEPTH : Z := 1000.

(** The loop filling [thresholds]: an entry that is skipped keeps the zero
    of [thresholds{}].  The array [velocities] is only written and is left
    out.  The result is the array and the final [sum]. *)
Fixpoint move_thresholds (x y : Z) (sum : T) (ds : list (Z * Z)) : SM (list T * T) :=
  match ds with
  | [] => ret ([], sum)
  | (dx, dy) :: rest =>
      let nx := x + dx in
      let ny := y + dy in
      let skip :=
        let* '(ths, total) := move_thresholds x y sum rest in
        ret (nzero :: ths, total) in
      let* rws := gets rows in
      let* cls := gets cols in
      if out_of_grid_int rws cls nx ny then skip
      else
        let* c := F_at nx ny in
        if is_wall c then skip
        else
          let* l := L_at nx ny in
          let* ut := gets UT in
          if to_size l =? ut then skip
          else
            let* w := V_get x y dx dy in
            if nlt w nzero then
              let* '(ths, total) := move_thresholds x y sum rest in
              ret (sum :: ths, total)
            else
              let* sum' := arith (nadd sum w) in
              let* '(ths, total) := move_thresholds x y sum' rest in
              ret (sum' :: ths, total)
  end.

(** The search for [dir]: the first [i] with [thresholds[i] > r]. *)
Fixpoint pick_dir (ths : list T) (r : T) (i : nat) : option nat :=
  match ths with
  | [] => None
  | t :: rest => if nlt r t then Some i else pick_dir rest r (S i)
  end.

(** The [do ... while (!ret)] loop of [propagate_move]; the result is
    [ret] and the last [target_x], [target_y]. *)
Fixpoint move_loop (rec : Z -> Z -> SM bool) (n : nat) (x y tx ty : Z)
  : SM (bool * Z * Z) :=
  match n with
  | O => fail OutOfFuel
  | S n' =>
      let* '(ths, sum) := move_thresholds x y nzero deltas in
      if neqb sum nzero then ret (false, tx, ty)
      else
        let* u := random01 in
        let* r := arith (nmul u sum) in
        let dir := default 0%nat (pick_dir ths r 0%nat) in
        let '(dx, dy) := nth dir deltas (0, 0) in
        let tx' := x + dx in
        let ty' := y + dy in
        let* rws := gets rows in
        let* cls := gets cols in
        if (tx' <? 0) || (ty' <? 0) || (to_int rws <=? tx') || (to_int cls <=? ty')
        then move_loop rec n' x y tx' ty'
        else
          let* l := L_at tx' ty' in
          let* ut := gets UT in
          let* moved := (if to_size l =? to_size (ut - 1) then ret true
                         else rec tx' ty') in
          if moved then ret (true, tx', ty')
          else move_loop rec n' x y tx' ty'
  end.

(** The loop after [last_use[x][y] = UT] in [propagate_move]. *)
Fixpoint move_stop_dirs (stop : Z -> Z -> SM unit) (x y : Z) (ds : list (Z * Z))
  : SM unit :=
  match ds with
  | [] => ret tt
  | (dx, dy) :: rest =>
      let nx := x + dx in
      let ny := y + dy in
      let* rws := gets rows in
      let* cls := gets cols in
      if (-1 <? nx) && (-1 <? ny) && (to_size nx <? rws) && (to_size ny <? cls) then
        let* c := F_at nx ny in
        if is_wall c then move_stop_dirs stop x y rest
        else
          let* l := L_at nx ny in
          let* ut := gets UT in
          if to_size l <? to_size (ut - 1) then
            let* w := V_get x y dx dy in
            if nlt w nzero then
              let* _ := stop nx ny in
              move_stop_dirs stop x y rest
            else move_stop_dirs stop x y rest
          else move_stop_dirs stop x y rest
      else move_stop_dirs stop x y rest
  end.

(** [propagate_move(x, y, is_first, depth)]. *)
Fixpoint propagate_move (fuel : nat) (x y : Z) (is_first : bool) (depth : Z) : SM bool :=
  match fuel with
  | O => fail OutOfFuel
  | S fuel' =>
      let* ut := gets UT in
      let* _ := L_set x y (to_int (to_size (ut - (if is_first then 1 else 0)))) in
      if MAX_DEPTH <? depth then ret false
      else
        let* '(moved, tx, ty) :=
          move_loop (fun tx ty => propagate_move fuel' tx ty false (depth + 1))
                    fuel' x y (-1) (-1) in
        let* _ := L_set x y (to_int ut) in
        let* _ := move_stop_dirs (fun nx ny => propagate_stop fuel' nx ny false)
                                 x y deltas in
        if moved && negb is_first then
          let* _ := rotate x y tx ty in
          ret moved
        else ret moved
  end.

(** *** [run] *)

Fixpoint mapM {A B} (f : A -> SM B) (l : list A) : SM (list B) :=
  match l with
  | [] => ret []
  | a :: l' =>
      let* b := f a in
      let* bs := mapM f l' in
      ret (b :: bs)
  end.

(** The table [dirs]: [x + dx] and [y + dy] are computed in [size_t]. *)
Definition dirs_count (x y : Z) : SM Z :=
  foldM (fun d '(dx, dy) =>
           let nx := to_size (x + dx) in
           let ny := to_size (y + dy) in
           let* rws := gets rows in
           let* cls := gets cols in
           if (0 <=? nx) && (nx <? rws) && (0 <=? ny) && (ny <? cls) then
             let* c := F_at nx ny in
             ret (d + (if is_wall c then 0 else 1))
           else ret d) deltas 0.

Definition dirs_cell (x y : Z) : SM Z :=
  let* c := F_at x y in
  if is_wall c then ret 0 else dirs_count x y.

Definition compute_dirs : SM (list (list Z)) :=
  let* rws := gets rows in
  let* cls := gets cols in
  mapM (fun x => mapM (fun y => dirs_cell x y) (seqZ 0 cls)) (seqZ 0 rws).

Definition add_total_delta_p (q : T) : SM unit :=
  let* tdp := gets total_delta_p in
  let* tdp' := arith (nadd tdp q) in
  modify (fun s => with_total_delta_p s tdp').

Definition sub_total_delta_p (q : T) : SM unit :=
  let* tdp := gets total_delta_p in
  let* tdp' := arith (nsub tdp q) in
  modify (fun s => with_total_delta_p s tdp').

(** Gravity: [field_data[x + 1][y]] is read without a bounds check. *)
Definition gravity_cell (c : Z * Z) : SM unit :=
  let '(x, y) := c in
  let* here := F_at x y in
  if is_wall here then ret tt
  else
    let* south := F_at (x + 1) y in
    if is_wall south then ret tt
    else
      let* gv := gets g in
      V_add x y 1 0 gv.

Definition phase_gravity : SM unit :=
  let* rws := gets rows in
  let* cls := gets cols in
  forM gravity_cell (cells rws cls).

(** Pressure-driven acceleration, one direction of one cell. *)
Definition pressure_dir (dirs : list (list Z)) (x y : Z) (d : Z * Z) : SM unit :=
  let '(dx, dy) := d in
  let nx := x + dx in
  let ny := y + dy in
  let* rws := gets rows in
  let* cls := gets cols in
  if out_of_grid rws cls nx ny then ret tt
  else
    let* cn := F_at nx ny in
    if is_wall cn then ret tt
    else
      let* pn := oldP_at nx ny in
      let* pc := oldP_at x y in
      if nlt pn pc then
        let* force := arith (nsub pc pn) in
        let* contr := V_get nx ny (- dx) (- dy) in
        let* rn := rho_at cn in
        let* m := arith (nmul contr rn) in
        if nle force m then
          let* q := arith (ndiv force rn) in
          let* contr' := arith (nsub contr q) in
          V_put nx ny (- dx) (- dy) contr'
        else
          let* force' := arith (nsub force m) in
          let* _ := V_put nx ny (- dx) (- dy) nzero in
          let* here := F_at x y in
          let* rc := rho_at here in
          let* q := arith (ndiv force' rc) in
          let* _ := V_add x y dx dy q in
          let* dd := lift (grid_at dirs x y) in
          let* q' := arith (ndiv force' (nof_int dd)) in
          let* pxy := P_at x y in
          let* pxy' := arith (nsub pxy q') in
          let* _ := P_set x y pxy' in
          sub_total_delta_p q'
      else ret tt.

Definition pressure_cell (dirs : list (list Z)) (c : Z * Z) : SM unit :=
  let '(x, y) := c in
  let* here := F_at x y in
  if is_wall here then ret tt
  else forM (pressure_dir dirs x y) deltas.

Definition phase_pressure (dirs : list (list Z)) : SM unit :=
  let* _ := modify (fun s => with_old_p s (p s)) in
  let* rws := gets rows in
  let* cls := gets cols in
  forM (pressure_cell dirs) (cells rws cls).

(** One sweep of the flow propagation, and the [do ... while (prop)] loop
    around it. *)
Definition flow_sweep_cell (fuel : nat) (prop : bool) (c : Z * Z) : SM bool :=
  let '(x, y) := c in
  let* here := F_at x y in
  if is_wall here then ret prop
  else
    let* l := L_at x y in
    let* ut := gets UT in
    if to_size l =? ut then ret prop
    else
      let* '(t, _, _) := propagate_flow fuel x y (nof_int 1) in
      ret (if nlt nzero t then true else prop).

Definition flow_sweep (fuel : nat) : SM bool :=
  let* _ := modify (fun s => with_UT s (to_size (UT s + 2))) in
  let* rws := gets rows in
  let* cls := gets cols in
  foldM (flow_sweep_cell fuel) (cells rws cls) false.

Fixpoint flow_sweeps (n fuel : nat) : SM unit :=
  match n with
  | O => fail OutOfFuel
  | S n' =>
      let* prop := flow_sweep fuel in
      if prop then flow_sweeps n' fuel else ret tt
  end.

Definition phase_flow (fuel : nat) : SM unit :=
  let* _ := modify (fun s => with_velocity_flow s
                               (VectorField.init nzero (rows s) (cols s))) in
  flow_sweeps fuel fuel.

(** The loop after the sweeps: the committed flow replaces the velocity and
    the difference is credited to a pressure. *)
Definition credit_pressure (x y : Z) (q : T) : SM unit :=
  let* pxy := P_at x y in
  let* pxy' := arith (nadd pxy q) in
  let* _ := P_set x y pxy' in
  add_total_delta_p q.

Definition settle_dir (dirs : list (list Z)) (x y : Z) (d : Z * Z) : SM unit :=
  let '(dx, dy) := d in
  let nx := x + dx in
  let ny := y + dy in
  let* rws := gets rows in
  let* cls := gets cols in
  if out_of_grid rws cls nx ny then ret tt
  else
    let* old_v := V_get x y dx dy in
    let* new_v := Vf_get x y dx dy in
    if nlt nzero old_v then
      if negb (nle new_v old_v) then fail AssertFailed
      else
        let* _ := V_put x y dx dy new_v in
        let* diff := arith (nsub old_v new_v) in
        let* here := F_at x y in
        let* rc := rho_at here in
        let* force := arith (nmul diff rc) in
        let* here' := F_at x y in
        let* force' := (if Ascii.eqb here' "."%char then arith (nscale08 force)
                        else ret force) in
        let* cn := F_at nx ny in
        if is_wall cn then
          let* dd := lift (grid_at dirs x y) in
          let* q := arith (ndiv force' (nof_int dd)) in
          credit_pressure x y q
        else
          let* dd := lift (grid_at dirs nx ny) in
          let* q := arith (ndiv force' (nof_int dd)) in
          credit_pressure nx ny q
    else ret tt.

Definition settle_cell (dirs : list (list Z)) (c : Z * Z) : SM unit :=
  let '(x, y) := c in
  let* here := F_at x y in
  if is_wall here then ret tt
  else forM (settle_dir dirs x y) deltas.

Definition phase_settle (dirs : list (list Z)) : SM unit :=
  let* rws := gets rows in
  let* cls := gets cols in
  forM (settle_cell dirs) (cells rws cls).

(** The movement sweep. *)
Definition move_cell (fuel : nat) (prop : bool) (c : Z * Z) : SM bool :=
  let '(x, y) := c in
  let* here := F_at x y in
  if is_wall here then ret prop
  else
    let* l := L_at x y in
    let* ut := gets UT in
    if to_size l =? ut then ret prop
    else
      let* pr := random01 in
      let* pr1 := move_prob x y in
      if nlt pr pr1 then
        let* _ := propagate_move fuel x y true 0 in
        ret true
      else
        let* _ := propagate_stop fuel x y true in
        ret prop.

Definition phase_move (fuel : nat) : SM bool :=
  let* _ := modify (fun s => with_UT s (to_size (UT s + 2))) in
  let* rws := gets rows in
  let* cls := gets cols in
  foldM (move_cell fuel) (cells rws cls) false.

(** The ["Tick"] printout: [field_data[x]] for every [x < rows]. *)
Definition print_field : SM unit :=
  let* rws := gets rows in
  let* lines := mapM (fun x => fun s => lift (vec_at (field_data s) x) s) (seqZ 0 rws) in
  modify (fun s => with_printed s (printed s ++ [lines])).

(** The body of the step loop of [run], dynamic branch; the result is the
    flag [prop] that makes the loop skip a step number. *)
Definition tick (fuel : nat) (dirs : list (list Z)) : SM bool :=
  let* _ := modify (fun s => with_total_delta_p s nzero) in
  let* _ := phase_gravity in
  let* _ := phase_pressure dirs in
  let* _ := phase_flow fuel in
  let* _ := phase_settle dirs in
  let* prop := phase_move fuel in
  let* _ := (if prop then print_field else ret tt) in
  ret prop.

(** [for (size_t step = 0; step < steps; ++step)] with the [step++] of the
    printout; [n] bounds the number of iterations. *)
Fixpoint run_loop (n fuel : nat) (dirs : list (list Z)) (step steps : Z) : SM unit :=
  match n with
  | O => ret tt
  | S n' =>
      if step <? steps then
        let* prop := tick fuel dirs in
        let step' := if prop then step + 1 else step in
        run_loop n' fuel dirs (step' + 1) steps
      else ret tt
  end.

(** [run(steps, checkpoint_interval)]; the second argument is not used by
    the source. *)
Definition run (fuel : nat) (steps checkpoint_interval : Z) : SM unit :=
  let* dirs := compute_dirs in
  run_loop (Z.to_nat steps) fuel dirs 0 steps.

(** *** Construction *)

Context {PA : Parsers T}.

(** The density lines: [rho[static_cast<size_t>(symbol)] = PType(value)]. *)
Fixpoint read_densities (lines : list (list ascii)) (rh : list T) : Res (list T) :=
  match lines with
  | [] => Ok rh
  | line :: rest =>
      match line with
      | [] => read_densities rest rh
      | _ =>
          match parse_density line with
          | Some (symbol, value) =>
              match vec_at rh (char_index symbol) with
              | Ok _ => read_densities rest (<[Z.to_nat (char_index symbol) := value]> rh)
              | Err e => Err e
              end
          | None => read_densities rest rh
          end
      end
  end.

(** The copy [field[x][y] = field_lines[x][y]] of the static branch into the
    zero-filled [std::array<std::array<char, K + 1>, N>]. *)
Definition fill_static (N K rws cls : Z) (field_lines : list (list ascii))
  : Res (list (list ascii)) :=
  List.fold_left
    (fun acc c =>
       match acc with
       | Err e => Err e
       | Ok fld =>
           match field_at field_lines (fst c) (snd c) with
           | Ok ch => grid_set fld (fst c) (snd c) ch
           | Err e => Err e
           end
       end)
    (cells rws cls)
    (Ok (replicate (Z.to_nat N) (replicate (Z.to_nat (K + 1)) Ascii.zero))).

(** The constructor with [initialize_field], for the template arguments
    [N] and [K]; [rows] and [cols] are [size_t]. *)
Definition construct (N K : Z) (field_data_input : list (list ascii)) : Res Sim :=
  match vec_at field_data_input 0 with
  | Err e => Err e
  | Ok line0 =>
      let rws := to_size (fst (parse_extents line0)) in
      let cls := to_size (snd (parse_extents line0)) in
      match vec_at field_data_input 1 with
      | Err e => Err e
      | Ok line1 =>
          match parse_real line1 with
          | None => Err (Thrown "stod")
          | Some gv =>
              if (N <? rws) && negb (N =? 0) then Err (Thrown "Invalid rows")
              else if (K <? cls) && negb (K =? 0) then Err (Thrown "Invalid cols")
              else if (rws =? 0) || (cls =? 0) then Err (Thrown "Invalid rows or cols")
              else if Z.of_nat (length field_data_input) <? 2 + rws then Err OutOfBounds
              else
                let field_lines := take (Z.to_nat rws) (drop 2 field_data_input) in
                match read_densities (drop (Z.to_nat (2 + rws)) field_data_input)
                                     (replicate 256 nrho_default) with
                | Err e => Err e
                | Ok rh =>
                    if (0 <? N) && (0 <? K) then
                      match fill_static N K rws cls field_lines with
                      | Err e => Err e
                      | Ok fld =>
                          Ok (mkSim field_data_input [] [] [] [] [] (mt19937_seed 1337)
                                    rws cls 0 rh gv fld nzero [] 0%nat)
                      end
                    else
                      Ok (mkSim field_lines
                                (replicate (Z.to_nat rws) (replicate (Z.to_nat cls) nzero))
                                (replicate (Z.to_nat rws) (replicate (Z.to_nat cls) nzero))
                                (VectorField.init nzero rws cls)
                                (VectorField.init nzero rws cls)
                                (replicate (Z.to_nat rws) (replicate (Z.to_nat cls) 0))
                                (mt19937_seed 1337)
                                rws cls 0 rh gv [] nzero [] 0%nat)
                end
          end
      end
  end.

(** *** [save_state] *)

(** What [operator<<] is applied to, in order; every inner list is one line
    ended by [std::endl]. *)
Inductive Token : Type :=
| TkSize (z : Z)
| TkNum (t : T)
| TkText (l : list ascii)
| TkChar (c : ascii).

(** The loop over [rho]: one line for every entry that differs from
    [PType(0.01)]. *)
Fixpoint density_lines (i : nat) (rh : list T) : list (list Token) :=
  match rh with
  | [] => []
  | r :: rest =>
      if neqb r nrho_default then density_lines (S i) rest
      else [TkChar (ascii_of_nat i); TkText (list_ascii_of_string " = "); TkNum r]
             :: density_lines (S i) rest
  end.

Fixpoint collect {A} (l : list (Res A)) : Res (list A) :=
  match l with
  | [] => Ok []
  | Ok a :: rest =>
      match collect rest with
      | Ok l' => Ok (a :: l')
      | Err e => Err e
      end
  | Err e :: _ => Err e
  end.

(** [save_state(filename)] for an engine with [use_static] as given; the
    result is the content of the file. *)
Definition save_state (use_static : bool) (s : Sim) : Res (list (list Token)) :=
  let header := [[TkSize (rows s); TkText (list_ascii_of_string " "); TkSize (cols s)];
                 [TkNum (g s)]] in
  let grid :=
    if use_static then
      collect (List.map (fun x =>
                 match collect (List.map (fun y => grid_at (static_field s) x y)
                                         (seqZ 0 (cols s))) with
                 | Ok chars => Ok (List.map TkChar chars)
                 | Err e => Err e
                 end) (seqZ 0 (rows s)))
    else
      collect (List.map (fun x =>
                 match vec_at (field_data s) x with
                 | Ok row => Ok [TkText row]
                 | Err e => Err e
                 end) (seqZ 0 (rows s))) in
  match grid with
  | Ok lines => Ok (header ++ lines ++ density_lines 0 (rho s))
  | Err e => Err e
  end.

(** What [main] does with a grid description: construct the engine of the
    dynamic path, then [run(steps, checkpoint_interval)]. *)
Definition simulate (fuel : nat) (input : list (list ascii)) (steps : Z) : Res Sim :=
  match construct 0 0 input with
  | Ok s => match run fuel steps 1 s with
            | Ok (_, s') => Ok s'
            | Err e => Err e
            end
  | Err e => Err e
  end.


End Engine.

Arguments Sim T Rng : clear implicits.
Arguments Token T : clear implicits.
Arguments simulate {T Rng NT PR PA} fuel input steps.
Arguments ParticleParams T : clear implicits.

(** ** utils.cpp *)

(** The line feed that ends a line. *)
Definition newline : ascii := "010"%char.

(** The loop [while (std::getline(file, line)) lines.push_back(line)]:
    [text] is what is left of the file and [line] holds the characters of
    the line being read.  A line ends at a line feed, which is dropped; the
    characters after the last line feed are a line when there are any. *)
Fixpoint getlines (text line : list ascii) : list (list ascii) :=
  match text with
  | [] => match line with [] => [] | _ => [line] end
  | c :: rest =>
      if Ascii.eqb c newline then line :: getlines rest []
      else getlines rest (line ++ [c])
  end.

(** [utils::readFieldFromFile(filename)]; [file] is the content of the file
    of that name, when it can be opened. *)
Definition readFieldFromFile (file : option (list ascii)) (filename : string)
  : Res (list (list ascii)) :=
  match file with
  | None => Err (Thrown ("Error opening file: " ++ filename))
  | Some text => Ok (getlines text [])
  end.

(** [str.find_first_not_of(" \t\n\r")]. *)
Definition is_trimmed (c : ascii) : bool :=
  let n := Z.of_N (N_of_ascii c) in (n =? 32) || (n =? 9) || (n =? 10) || (n =? 13).

Fixpoint find_first_not_trimmed (str : list ascii) : option nat :=
  match str with
  | [] => None
  | c :: rest => if is_trimmed c then S <$> find_first_not_trimmed rest else Some 0%nat
  end.

(** [trim_leading_whitespace(str)]: [""] when every character is trimmed,
    [str.substr(start)] otherwise. *)
Definition trim_leading_whitespace (str : list ascii) : list ascii :=
  match find_first_not_trimmed str with
  | None => []
  | Some start => drop start str
  end.

(** ** The text of a checkpoint *)

(** [operator<<] of [std::ostream] on a [size_t] and on the scalar type. *)
Class Printers (T : Type) : Type := {
  print_size : Z -> list ascii;
  print_real : T -> list ascii
}.

(** Every line is followed by the line feed of [std::endl]. *)
Definition write_lines (lines : list (list ascii)) : list ascii :=
  List.flat_map (fun l => l ++ [newline]) lines.

Section Checkpoint.
Context {T Rng : Type} {NT : Numeric T} {PR : Prng T Rng} {PA : Parsers T} {PT : Printers T}.

Definition render_token (t : Token T) : list ascii :=
  match t with
  | TkSize z => print_size z
  | TkNum x => print_real x
  | TkText l => l
  | TkChar c => [c]
  end.

Definition render_line (l : list (Token T)) : list ascii := List.flat_map render_token l.

(** The characters of the file that [save_state] leaves. *)
Definition file_text (file : list (list (Token T))) : list ascii :=
  write_lines (List.map render_line file).

(** A checkpoint used as a grid description: [save_state] on the dynamic
    path, then [readFieldFromFile] on that file and the constructor, as
    [main] does with the file it is given. *)
Definition reload (s : Sim T Rng) : Res (Sim T Rng) :=
  match save_state false s with
  | Ok file => construct 0 0 (getlines (file_text file) [])
  | Err e => Err e
  end.

(** The entry [r] at index [i] of the density table comes back from its
    line: it is the default and has no line, or its line
    [static_cast<char>(i) << " = " << r] has no line feed, is read as the
    same symbol and value, and the symbol is not negative as a [char]. *)
Definition density_printable (i : nat) (r : T) : Prop :=
  if neqb r nrho_default then r = nrho_default
  else (i < 128)%nat /\ i <> 10%nat /\ ~ In newline (print_real r) /\
       parse_density (ascii_of_nat i :: list_ascii_of_string " = " ++ print_real r)
       = Some (ascii_of_nat i, r).

(** What the text conversions have to give back for the state [s]. *)
Definition checkpointable (s : Sim T Rng) : Prop :=
  0 < rows s < 2 ^ 64 /\ 0 < cols s < 2 ^ 64 /\
  length (field_data s) = Z.to_nat (rows s) /\
  Forall (fun row => ~ In newline row) (field_data s) /\
  ~ In newline (print_size (rows s)) /\ ~ In newline (print_size (cols s)) /\
  parse_extents (print_size (rows s) ++ list_ascii_of_string " " ++ print_size (cols s))
  = (rows s, cols s) /\
  ~ In newline (print_real (g s)) /\
  parse_real (print_real (g s)) = Some (g s) /\
  length (rho s) = 256%nat /\
  (forall i r, rho s !! i = Some r -> density_printable i r).
End Checkpoint.

(** ** Predicates on engine states *)

(** A vector of [r] vectors of length [c]. *)
Definition grid_shape {A} (gr : list (list A)) (r c : Z) : Prop :=
  length gr = Z.to_nat r /\ Forall (fun row => length row = Z.to_nat c) gr.

Section Predicates.
Context {T Rng : Type}.

(** The cell [(x, y)] of the character field is a wall. *)
Definition wall (s : Sim T Rng) (x y : Z) : Prop :=
  grid_at (field_data s) x y = Ok "#"%char.

(** A rectangular grid whose only cell that is not a wall is [(x0, y0)]. *)
Definition single_fluid (s : Sim T Rng) (x0 y0 : Z) : Prop :=
  0 < rows s < 2 ^ 31 /\ 0 < cols s < 2 ^ 31 /\
  grid_shape (field_data s) (rows s) (cols s) /\
  grid_shape (last_use s) (rows s) (cols s) /\
  0 <= x0 < rows s /\ 0 <= y0 < cols s /\
  ~ wall s x0 y0 /\
  (forall x y, 0 <= x < rows s -> 0 <= y < cols s -> (x, y) <> (x0, y0) -> wall s x y).

(** What the flow phase keeps on a grid with one fluid cell. *)
Definition flow_kept (s s' : Sim T Rng) : Prop :=
  field_data s' = field_data s /\ rows s' = rows s /\ cols s' = cols s /\
  velocity_flow s' = velocity_flow s /\ velocity s' = velocity s /\
  p s' = p s /\ UT s' = UT s /\
  grid_shape (last_use s') (rows s) (cols s).

End Predicates.

(** ** The neighbour count of a cell *)

(** The cell [(x, y)] lies in the [rws x cls] grid and does not hold a wall. *)
Definition is_open (fd : list (list ascii)) (rws cls x y : Z) : bool :=
  (0 <=? x) && (x <? rws) && (0 <=? y) && (y <? cls) &&
  match field_at fd x y with
  | Ok c => negb (is_wall c)
  | Err _ => false
  end.

(** The number of edge neighbours of [(x, y)] that are open; a wall has
    none by convention. *)
Definition open_neighbours (fd : list (list ascii)) (rws cls x y : Z) : Z :=
  if is_open fd rws cls x y then
    Z.of_nat (length (List.filter (fun d => is_open fd rws cls (x + fst d) (y + snd d))
                                  deltas))
  else 0.

(** The density assignments of the lines after the grid, in order: an empty
    line and a line that does not read as [symbol equals value] give none. *)
Definition density_assignments {T} `{Parsers T} (lines : list (list ascii))
  : list (ascii * T) :=
  List.flat_map (fun line => match line with
                             | [] => []
                             | _ => match parse_density line with
                                    | Some a => [a]
                                    | None => []
                                    end
                             end) lines.

(** The value that the assignments leave at index [i] of a table that held
    [old] there: the value of the last assignment to [i]. *)
Definition assigned {T} (assignments : list (ascii * T)) (i : Z) (old : option T)
  : option T :=
  match last (List.filter (fun a => char_index (fst a) =? i) assignments) with
  | Some a => Some (snd a)
  | None => old
  end.

(** ** Predicates for the flow sweep *)

(** The stamp [l] lets [propagate_flow] recurse into its cell:
    [last_use < UT] and not [last_use == UT - 1]. *)
Definition fresh (ut l : Z) : bool :=
  (to_size l <? ut) && negb (to_size l =? to_size (ut - 1)).

(** The number of fresh stamps, and the number of cells, of a grid. *)
Fixpoint count_row (ut : Z) (row : list Z) : nat :=
  match row with
  | [] => 0
  | l :: rest => ((if fresh ut l then 1 else 0) + count_row ut rest)%nat
  end.

Fixpoint count_fresh (ut : Z) (gr : list (list Z)) : nat :=
  match gr with
  | [] => 0
  | row :: rest => (count_row ut row + count_fresh ut rest)%nat
  end.

Fixpoint entries {A} (gr : list (list A)) : nat :=
  match gr with
  | [] => 0
  | row :: rest => (length row + entries rest)%nat
  end.

(** The stamp [l] is not the current [UT]: [propagate_stop] and
    [propagate_move] may still enter its cell. *)
Definition unstamped (ut l : Z) : bool := negb (to_size l =? ut).

Fixpoint count_row_unstamped (ut : Z) (row : list Z) : nat :=
  match row with
  | [] => 0
  | l :: rest => ((if unstamped ut l then 1 else 0) + count_row_unstamped ut rest)%nat
  end.

Fixpoint count_unstamped (ut : Z) (gr : list (list Z)) : nat :=
  match gr with
  | [] => 0
  | row :: rest => (count_row_unstamped ut row + count_unstamped ut rest)%nat
  end.

(** [run m s bad Q]: started in [s], [m] does not stop with an error in
    [bad], and a result satisfies [Q]. *)
Definition runs {St A} (bad : Error -> Prop) (m : M St A) (s : St)
  (Q : A -> St -> Prop) : Prop :=
  (forall e, m s = Err e -> ~ bad e) /\ (forall a s', m s = Ok (a, s') -> Q a s').

(** The only error of the model that is not an error of the source. *)
Definition fuel_only (e : Error) : Prop := e = OutOfFuel.

Section FlowPredicates.
Context {T Rng : Type}.

(** The tick counter is in the range where the conversions to [int] keep it. *)
Definition ut_ok (s : Sim T Rng) : Prop := 1 <= UT s < 2 ^ 31.

(** Every stamp of [gr'] is the one of [gr], or was fresh and is now [ut]. *)
Definition stamps_move (ut : Z) (gr gr' : list (list Z)) : Prop :=
  forall i j,
    grid_at gr' i j = grid_at gr i j \/
    (exists l, grid_at gr i j = Ok l /\ fresh ut l = true /\
               grid_at gr' i j = Ok (to_int ut)).

(** No stamp is above [ut] or in the claimed state [ut - 1]. *)
Definition stamps_settled (ut : Z) (gr : list (list Z)) : Prop :=
  forall i j l, grid_at gr i j = Ok l -> 0 <= l <= ut /\ l <> ut - 1.

(** What a call of [propagate_flow] on a fresh cell guarantees. *)
Definition flow_post (s s' : Sim T Rng) : Prop :=
  UT s' = UT s /\ rows s' = rows s /\ cols s' = cols s /\
  field_data s' = field_data s /\
  stamps_move (UT s) (last_use s) (last_use s') /\
  (flow_calls s' + count_fresh (UT s) (last_use s')
   <= flow_calls s + count_fresh (UT s) (last_use s))%nat /\
  (flow_calls s <= flow_calls s')%nat.

(** What the direction loop of [propagate_flow] at [(x, y)] guarantees. *)
Definition loop_post (x y : Z) (s s' : Sim T Rng) : Prop :=
  UT s' = UT s /\ rows s' = rows s /\ cols s' = cols s /\
  field_data s' = field_data s /\
  (forall i j, (i = x /\ j = y) \/ grid_at (last_use s') i j = grid_at (last_use s) i j \/
     (exists l, grid_at (last_use s) i j = Ok l /\ fresh (UT s) l = true /\
                grid_at (last_use s') i j = Ok (to_int (UT s)))) /\
  grid_at (last_use s') x y = Ok (to_int (UT s)) /\
  (flow_calls s' + count_fresh (UT s) (last_use s')
   <= flow_calls s + count_fresh (UT s) (last_use s))%nat /\
  (flow_calls s <= flow_calls s')%nat.
End FlowPredicates.

(** What a call of [propagate_stop] or of [propagate_move] does to the
    visit stamps: the tick counter and the extents stay, a stamp that changes
    becomes the current [UT], and so no cell becomes enterable again. *)
Definition stamps_post {T Rng} (s s' : Sim T Rng) : Prop :=
  UT s' = UT s /\ rows s' = rows s /\ cols s' = cols s /\
  (forall i j, grid_at (last_use s') i j = grid_at (last_use s) i j \/
               grid_at (last_use s') i j = Ok (to_int (UT s))) /\
  (count_unstamped (UT s) (last_use s') <= count_unstamped (UT s) (last_use s))%nat.

(** The number of cells of a field that hold the character [c]. *)
Fixpoint count_row_char (c : ascii) (row : list ascii) : nat :=
  match row with
  | [] => 0
  | ch :: rest => ((if Ascii.eqb ch c then 1 else 0) + count_row_char c rest)%nat
  end.

Fixpoint count_char (c : ascii) (fd : list (list ascii)) : nat :=
  match fd with
  | [] => 0
  | row :: rest => (count_row_char c row + count_char c rest)%nat
  end.

(** The field of [s] holds every character as often as the field of [s0]. *)
Definition chars_kept {T Rng} (s0 s : Sim T Rng) : Prop :=
  forall c, count_char c (field_data s) = count_char c (field_data s0).

(** A relation between engine states that every store of the phases of a
    tick keeps: the stores into the grids, the draws, the counters. *)
Class Preserved {T Rng} `{Numeric T} `{Prng T Rng}
  (R : Sim T Rng -> Sim T Rng -> Prop) : Prop := {
  pr_refl : forall s, R s s;
  pr_trans : forall s1 s2 s3, R s1 s2 -> R s2 s3 -> R s1 s3;
  pr_field_data : forall s x y c fd,
    grid_set (field_data s) x y c = Ok fd -> R s (with_field_data s fd);
  pr_p : forall s x y a gr, grid_set (p s) x y a = Ok gr -> R s (with_p s gr);
  pr_last_use : forall s x y a gr,
    grid_set (last_use s) x y a = Ok gr -> R s (with_last_use s gr);
  pr_put : forall s x y dx dy a f,
    VectorField.put (velocity s) x y dx dy deltas a = Ok f -> R s (with_velocity s f);
  pr_add : forall s x y dx dy a f b,
    VectorField.add nadd (velocity s) x y dx dy a deltas = Ok (f, b) ->
    R s (with_velocity s f);
  pr_set_array : forall s x y a f,
    VectorField.set_array (velocity s) x y a = Ok f -> R s (with_velocity s f);
  pr_flow : forall s f, R s (with_velocity_flow s f);
  pr_old_p : forall s, R s (with_old_p s (p s));
  pr_rnd : forall s, R s (with_rnd s (snd (uniform_real01 (rnd s))));
  pr_UT : forall s u, R s (with_UT s u);
  pr_total_delta_p : forall s q, R s (with_total_delta_p s q);
  pr_flow_calls : forall s n, R s (with_flow_calls s n)
}.

(** The extents, the gravity and the densities of [s'] are those of [s],
    and the character field, the pressures, the visit stamps and the
    velocities of [s'] have as many rows, each as long, as those of [s]. *)
Definition same_shape {T Rng} (s s' : Sim T Rng) : Prop :=
  rows s' = rows s /\ cols s' = cols s /\ g s' = g s /\ rho s' = rho s /\
  map length (field_data s') = map length (field_data s) /\
  map length (p s') = map length (p s) /\
  map length (last_use s') = map length (last_use s) /\
  map length (velocity s') = map length (velocity s).

(** What a run adds to the ["Tick"] printouts of [s]: [blocks], each of
    [rows] lines. *)
Definition prints {T Rng} (s s' : Sim T Rng) (blocks : list (list (list ascii))) : Prop :=
  printed s' = printed s ++ blocks /\ rows s' = rows s /\
  Forall (fun b => length b = Z.to_nat (rows s)) blocks.


(** The generator after [k] calls of [random01]. *)
Definition draws {T Rng} `{Prng T Rng} (k : nat) (gen : Rng) : Rng :=
  Nat.iter k (fun x => snd (uniform_real01 x)) gen.

(** The generator of [s'] is the one of [s] after some draws. *)
Definition advanced {T Rng} `{Prng T Rng} (s s' : Sim T Rng) : Prop :=
  exists k, rnd s' = draws k (rnd s).

(** The cells gravity acts on: inside the extents, not a wall, and with a
    character below ([field_data[x + 1][y]]) that is not a wall. *)
Definition falls {T Rng} (s : Sim T Rng) (x y : Z) : bool :=
  (0 <=? x) && (x <? rows s) && (0 <=? y) && (y <? cols s) &&
  match field_at (field_data s) x y, field_at (field_data s) (x + 1) y with
  | Ok here, Ok south => negb (is_wall here) && negb (is_wall south)
  | _, _ => false
  end.

(** What the velocity field is after gravity has visited the cells of [l]:
    at a visited cell that falls the entry of direction [(1, 0)], index 1
    of the table, went from some [v] to [v + g]; every other cell is as
    before.  Nothing but the velocity field differs. *)
Definition gravity_done {T Rng} `{Numeric T} (s s' : Sim T Rng) (l : list (Z * Z)) : Prop :=
  s' = with_velocity s (velocity s') /\
  forall x y,
    (In (x, y) l -> falls s x y = true ->
     exists a v v',
       VectorField.cell (velocity s) x y = Some a /\
       VectorField.arr_get a 1 = Some v /\ nadd v (g s) = Some v' /\
       VectorField.cell (velocity s') x y = Some (VectorField.arr_set a 1 v')) /\
    (~ (In (x, y) l /\ falls s x y = true) ->
     VectorField.cell (velocity s') x y = VectorField.cell (velocity s) x y).

(** The stamp [propagate_move] writes on entry: [UT - is_first]. *)
Definition entry_stamp (ut : Z) (is_first : bool) : Z :=
  to_int (to_size (ut - (if is_first then 1 else 0))).

(** A neighbour that [propagate_move] can pick as its target: inside the
    grid, with a stamp that is not the current [UT]. *)
Definition open_target {T Rng} (s : Sim T Rng) (nx ny : Z) : Prop :=
  out_of_grid_int (rows s) (cols s) nx ny = false /\
  exists l, grid_at (last_use s) nx ny = Ok l /\ unstamped (UT s) l = true.

(** What [move_thresholds] returns at [(x, y)] in terms of the stamps: an
    entry that is not the zero of a skipped direction belongs to such a
    neighbour, the final sum is the initial one or one of the entries, and
    it is not negative when the initial one is not. *)
Definition thresholds_open {T Rng} `{Numeric T} (s : Sim T Rng) (x y : Z)
  (ds : list (Z * Z)) (sum : T) (ths : list T) (total : T) : Prop :=
  Forall2 (fun d th => th = nzero \/ open_target s (x + fst d) (y + snd d)) ds ths /\
  (total = sum \/ In total ths) /\
  (nlt sum nzero = false -> nlt total nzero = false).

(** What holds between two top-level calls of a sweep that started in [s1]. *)
Definition sweep_inv {T Rng} (s1 : Sim T Rng) (s' : Sim T Rng) : Prop :=
  UT s' = UT s1 /\ rows s' = rows s1 /\ cols s' = cols s1 /\
  field_data s' = field_data s1 /\
  stamps_settled (UT s1) (last_use s') /\
  (flow_calls s' + count_fresh (UT s1) (last_use s')
   <= flow_calls s1 + count_fresh (UT s1) (last_use s1))%nat /\
  (flow_calls s1 <= flow_calls s')%nat.

(** ** Predicates for the walls *)

(** No error is excluded: only the results of completed calls matter. *)
Definition any_error (e : Error) : Prop := False.

Section WallPredicates.
Context {T Rng : Type} {NT : Numeric T}.

(** The walls of [s] are those of [s0], and at every wall the pressure, the
    velocity vector, the flow vector and the visit stamp of [s] are those
    of [s0]. *)
Definition walls_kept (s0 s : Sim T Rng) : Prop :=
  rows s = rows s0 /\ cols s = cols s0 /\
  (forall x y, wall s x y <-> wall s0 x y) /\
  (forall x y, wall s0 x y ->
     grid_at (p s) x y = grid_at (p s0) x y /\
     VectorField.cell (velocity s) x y = VectorField.cell (velocity s0) x y /\
     VectorField.cell (velocity_flow s) x y = VectorField.cell (velocity_flow s0) x y /\
     grid_at (last_use s) x y = grid_at (last_use s0) x y).

(** The flow vectors at the walls are those of a field that was just
    initialised, as after construction. *)
Definition flow_clear (s0 : Sim T Rng) : Prop :=
  forall x y, wall s0 x y ->
    VectorField.cell (velocity_flow s0) x y
    = VectorField.cell (VectorField.init nzero (rows s0) (cols s0)) x y.

(** What [move_thresholds] returns at [(x, y)]: an entry that is not the
    zero of a skipped direction belongs to a neighbour that is not a wall,
    the final sum is the initial one or one of the entries, and it is not
    negative when the initial one is not. *)
Definition thresholds_ok (s0 : Sim T Rng) (x y : Z) (ds : list (Z * Z)) (sum : T)
  (ths : list T) (total : T) : Prop :=
  Forall2 (fun d th => th = nzero \/ ~ wall s0 (x + fst d) (y + snd d)) ds ths /\
  (total = sum \/ In total ths) /\
  (nlt sum nzero = false -> nlt total nzero = false).
End WallPredicates.

(** ** What the proofs ask of the scalar type and of the generator *)

(** The order facts about [0] used by the engine proofs. *)
Class NumericLaws (T : Type) `{Numeric T} : Prop := {
  nlt_zero_zero : nlt nzero nzero = false;
  neqb_zero_zero : neqb nzero nzero = true;
  nadd_nonneg : forall a b c : T,
    nlt a nzero = false -> nlt b nzero = false -> nadd a b = Some c ->
    nlt c nzero = false;
  npos_of_nonneg : forall a : T,
    nlt a nzero = false -> neqb a nzero = false -> nlt nzero a = true
}.

(** A draw scaled by a positive [sum] lies in [0, sum). *)
Class PrngLaws (T Rng : Type) `{Numeric T} `{Prng T Rng} : Prop := {
  draw_scaled : forall (r : Rng) (sum x : T),
    nlt nzero sum = true ->
    nmul (fst (uniform_real01 r)) sum = Some x ->
    nlt x nzero = false /\ nlt x sum = true;
  draw_nonneg : forall r : Rng, nlt (fst (uniform_real01 r)) nzero = false
}.

(** ** A runnable instance: the Q16.16 operations of fixed.h

    The arithmetic of [Fixed<32,16>] with every signed overflow and every
    division without a result reported as such. *)

Module Q16.
Import FixedPoint.

Definition K : Z := 16.

Definition checked (z : Z) : option Fixed :=
  if in_int64 z then Some (from_raw z) else None.

Definition qadd (a b : Fixed) : option Fixed := checked (v a + v b).
Definition qsub (a b : Fixed) : option Fixed := checked (v a - v b).
Definition qmul (a b : Fixed) : option Fixed :=
  if in_int64 (v a * v b) then Some (mul K a b) else None.
Definition qdiv (a b : Fixed) : option Fixed :=
  if in_int64 (Z.shiftl (v a) K) then div K a b else None.

(** [Fixed(double f)] is [static_cast<IntType>(f * (1ULL << K))]; for the
    constant [0.01] that is [655], [a * 0.8] keeps the integer part of
    [a.v * 0.8], and an [int] is converted by its value. *)
Definition q001 : Fixed := from_raw 655.
Definition qscale08 (a : Fixed) : option Fixed := checked (Z.quot (v a * 4) 5).

#[export] Instance numeric : Numeric Fixed := {|
  nzero := from_raw 0;
  nof_int := fun z => from_raw (wrap64 (z * 2 ^ K));
  nrho_default := q001;
  nadd := qadd;
  nsub := qsub;
  nmul := qmul;
  ndiv := qdiv;
  nscale08 := qscale08;
  nlt := ltb;
  nle := leb;
  neqb := eqb
|}.

(** A small linear congruential generator standing in for [std::mt19937];
    a draw is a raw value below [2^16], that is a number in [0, 1). *)
Definition lcg_next (r : Z) : Z := (r * 1103515245 + 12345) mod 2 ^ 31.

#[export] Instance prng : Prng Fixed Z := {|
  mt19937_seed := fun seed => seed mod 2 ^ 31;
  uniform_real01 := fun r => (from_raw (Z.shiftr (lcg_next r) 15), lcg_next r)
|}.

(** Decimal readers for the input lines. *)
Definition is_digit (c : ascii) : bool :=
  let n := Z.of_N (N_of_ascii c) in (48 <=? n) && (n <=? 57).
Definition is_space (c : ascii) : bool :=
  let n := Z.of_N (N_of_ascii c) in (n =? 32) || ((9 <=? n) && (n <=? 13)).

Fixpoint skip_spaces (l : list ascii) : list ascii :=
  match l with
  | c :: rest => if is_space c then skip_spaces rest else l
  | [] => []
  end.

(** The digits at the front of [l] read as a number on top of [acc], how
    many there were, and what follows them. *)
Fixpoint read_digits (l : list ascii) (acc : Z) (n : nat) : Z * nat * list ascii :=
  match l with
  | c :: rest =>
      if is_digit c then read_digits rest (acc * 10 + (Z.of_N (N_of_ascii c) - 48)) (S n)
      else (acc, n, l)
  | [] => (acc, n, [])
  end.

Fixpoint skip_token (l : list ascii) : list ascii :=
  match l with
  | c :: rest => if is_space c then l else skip_token rest
  | [] => []
  end.

Definition read_extents (l : list ascii) : Z * Z :=
  let '(r, n, rest) := read_digits (skip_spaces l) 0 0%nat in
  match n with
  | O => (0, 0)
  | _ => let '(c, m, _) := read_digits (skip_spaces rest) 0 0%nat in
         match m with O => (r, 0) | _ => (r, c) end
  end.

(** An unsigned decimal with an optional fraction, as a raw Q16.16 value. *)
Definition read_real (l : list ascii) : option Fixed :=
  let '(ip, n, rest) := read_digits (skip_spaces l) 0 0%nat in
  match rest with
  | "."%char :: frac =>
      let '(fp, m, _) := read_digits frac 0 0%nat in
      match n, m with
      | O, O => None
      | _, _ => Some (from_raw ((ip * 10 ^ Z.of_nat m + fp) * 2 ^ K / 10 ^ Z.of_nat m))
      end
  | _ => match n with
         | O => None
         | _ => Some (from_raw (ip * 2 ^ K))
         end
  end.

Definition read_density (l : list ascii) : option (ascii * Fixed) :=
  match skip_spaces l with
  | symbol :: rest =>
      match skip_spaces rest with
      | [] => None
      | tok => match read_real (skip_token tok) with
               | Some x => Some (symbol, x)
               | None => None
               end
      end
  | [] => None
  end.

#[export] Instance parsers : Parsers Fixed := {|
  parse_extents := read_extents;
  parse_real := read_real;
  parse_density := read_density
|}.

Definition text (l : list string) : list (list ascii) := List.map list_ascii_of_string l.

(** Two stacked fluid cells inside walls. *)
Definition column_input : list (list ascii) :=
  text ["4 3"; "0.1"; "###"; "# #"; "# #"; "###"]%string.

(** One fluid cell inside walls. *)
Definition single_input : list (list ascii) :=
  text ["3 3"; "0.1"; "###"; "# #"; "###"]%string.

(** One fluid cell and nothing else. *)
Definition open_input : list (list ascii) :=
  text ["1 1"; "0.1"; " "]%string.

(** A row of three fluid cells inside walls. *)
Definition row_input : list (list ascii) :=
  text ["3 5"; "0.1"; "#####"; "#ab #"; "#####"; "a = 2.5"]%string.

(** A fluid cell on the west border of the grid. *)
Definition west_input : list (list ascii) :=
  text ["3 3"; "0.1"; "###"; "  #"; "###"]%string.


Definition engine_of (input : list (list ascii)) : Res (Sim Fixed Z) := construct 0 0 input.

(** The state left by a member function, started on the result of another. *)
Definition after {A} (m : M (Sim Fixed Z) A) (r : Res (Sim Fixed Z)) : Res (Sim Fixed Z) :=
  match r with
  | Ok s => match m s with
            | Ok (_, s') => Ok s'
            | Err e => Err e
            end
  | Err e => Err e
  end.

(** The engine of an input, or an empty engine when there is none. *)
Definition blank : Sim Fixed Z :=
  mkSim [] [] [] [] [] [] 0 0 0 0 [] (from_raw 0) [] (from_raw 0) [] 0%nat.

Definition engine_or_blank (input : list (list ascii)) : Sim Fixed Z :=
  match engine_of input with
  | Ok s => s
  | Err _ => blank
  end.

(** The engine of [row_input] with distinct pressures and velocities in the
    cells of [a] and [b]. *)
Definition two_particles : Res (Sim Fixed Z) :=
  after (P_set 1 2 (from_raw 7))
    (after (V_add 1 2 0 1 (from_raw 9))
       (after (V_add 1 1 0 1 (from_raw 5)) (engine_of row_input))).

End Q16.

(** Decimal writers for the Q16.16 instance: a [size_t] in decimal, and a
    raw value that is not negative as its exact decimal expansion with 16
    digits after the point, which [read_real] reads back exactly. *)

Module Q16Text.
Import FixedPoint Q16.

Definition digit (d : Z) : ascii := ascii_of_nat (48 + Z.to_nat d).

Fixpoint digits_of (fuel : nat) (n : Z) (acc : list ascii) : list ascii :=
  match fuel with
  | O => acc
  | S fuel' =>
      if n <? 10 then digit n :: acc
      else digits_of fuel' (n / 10) (digit (n mod 10) :: acc)
  end.

Definition print_decimal (n : Z) : list ascii := digits_of 64 n [].

Fixpoint padded_digits (k : nat) (n : Z) (acc : list ascii) : list ascii :=
  match k with
  | O => acc
  | S k' => padded_digits k' (n / 10) (digit (n mod 10) :: acc)
  end.

Definition print_fixed (a : Fixed) : list ascii :=
  (if v a <? 0 then ["-"%char] else [])
  ++ print_decimal (Z.abs (v a) / 2 ^ K)
  ++ "."%char :: padded_digits 16 ((Z.abs (v a) mod 2 ^ K) * 10 ^ 16 / 2 ^ K) [].

#[export] Instance printers : Printers Fixed := {|
  print_size := print_decimal;
  print_real := print_fixed
|}.

(** The row [#ab #] after one tick. *)
Definition row_engine : Sim Fixed Z :=
  Eval vm_compute in
    match simulate 20 row_input 1 with
    | Ok s => s
    | Err _ => blank
    end.

(** A grid description whose only row is shorter than its extent. *)
Definition short_row_input : list (list ascii) :=
  text ["1 3"; "0.1"; "#"]%string.

Definition short_row_engine : Sim Fixed Z :=
  Eval vm_compute in engine_or_blank short_row_input.

End Q16Text.

(** ** config.h *)

Module Config.

(** [struct TypeInfo { std::string base_type; size_t N{0}; size_t K{0}; }]. *)
Record TypeInfo : Type := mkTypeInfo {
  base_type : list ascii;
  TypeInfo_N : Z;
  TypeInfo_K : Z
}.

(** [str.find(ch, pos)]: the first position from [pos] on that holds [ch];
    no position ([npos]) when there is none or [pos] is past the end. *)
Fixpoint find_char (ch : ascii) (str : list ascii) : option nat :=
  match str with
  | [] => None
  | c :: rest => if Ascii.eqb c ch then Some 0%nat else S <$> find_char ch rest
  end.

Definition find (str : list ascii) (ch : ascii) (pos : nat) : option nat :=
  (fun i => (pos + i)%nat) <$> find_char ch (drop pos str).

(** [str.substr(pos, n)]: throws [std::out_of_range] when [pos] is past the
    end, and is cut at the end of the string. *)
Definition substr (str : list ascii) (pos n : nat) : Res (list ascii) :=
  if (length str <? pos)%nat then Err (Thrown "basic_string::substr")
  else Ok (take n (drop pos str)).

(** [std::stoul(str)]: white space, an optional sign, then decimal digits;
    what follows the digits is ignored.  It throws [std::invalid_argument]
    when there is no digit and [std::out_of_range] when the digits do not
    fit [unsigned long]; both report ["stoul"].  A minus sign negates the
    value in [unsigned long]. *)
Definition stoul (str : list ascii) : Res Z :=
  let body := Q16.skip_spaces str in
  let '(negative, digits) :=
    match body with
    | "-"%char :: rest => (true, rest)
    | "+"%char :: rest => (false, rest)
    | _ => (false, body)
    end in
  let '(n, count, _) := Q16.read_digits digits 0 0%nat in
  match count with
  | O => Err (Thrown "stoul")
  | _ => if 2 ^ 64 <=? n then Err (Thrown "stoul")
         else Ok (if negative then to_size (- n) else n)
  end.

Definition str_is (str : list ascii) (lit : string) : bool :=
  String.eqb (string_of_list_ascii str) lit.

(** [parse_type_info(type_str)]. *)
Definition parse_type_info (type_str : list ascii) : Res TypeInfo :=
  if str_is type_str "FLOAT" then Ok (mkTypeInfo (list_ascii_of_string "float") 0 0)
  else if str_is type_str "DOUBLE" then Ok (mkTypeInfo (list_ascii_of_string "double") 0 0)
  else
    let invalid :=
      Err (Thrown ("Invalid type format: " ++ string_of_list_ascii type_str)) in
    match find type_str "("%char 0 with
    | None => invalid
    | Some pos =>
        match substr type_str 0 pos with
        | Err e => Err e
        | Ok base =>
            match find type_str ","%char pos with
            | None => invalid
            | Some comma_pos =>
                match find type_str ")"%char comma_pos with
                | None => invalid
                | Some close_pos =>
                    match substr type_str (pos + 1) (comma_pos - pos - 1) with
                    | Err e => Err e
                    | Ok n_str =>
                        match stoul n_str with
                        | Err e => Err e
                        | Ok n =>
                            match substr type_str (comma_pos + 1)
                                         (close_pos - comma_pos - 1) with
                            | Err e => Err e
                            | Ok k_str =>
                                match stoul k_str with
                                | Err e => Err e
                                | Ok k => Ok (mkTypeInfo base n k)
                                end
                            end
                        end
                    end
                end
            end
        end
    end.

(** The types that [matches_type_info<T>] is instantiated with: the
    elements of [SupportedTypes]. *)
Inductive SimType : Type :=
| Float
| Double
| FixedOf (n k : Z)
| FastFixedOf (n k : Z).

Definition SupportedTypes : list SimType :=
  [Float; Double; FixedOf 32 16; FixedOf 64 32; FastFixedOf 16 8; FastFixedOf 32 16].

(** [std::is_base_of_v<Fixed<n, k>, T>]: a class is a base of itself, and
    [FastFixed<n, k>] derives from [Fixed<n, k>]. *)
Definition is_base_of_Fixed (n k : Z) (t : SimType) : bool :=
  match t with
  | FixedOf n' k' | FastFixedOf n' k' => (n =? n') && (k =? k')
  | _ => false
  end.

Definition is_base_of_FastFixed (n k : Z) (t : SimType) : bool :=
  match t with
  | FastFixedOf n' k' => (n =? n') && (k =? k')
  | _ => false
  end.

(** [matches_type_info<T>(info)]; for a fixed-point [T] the branch on
    [Fixed<T::Bits, T::Fraction>] comes first. *)
Definition matches_type_info (t : SimType) (info : TypeInfo) : bool :=
  match t with
  | Float => str_is (base_type info) "FLOAT" || str_is (base_type info) "float"
  | Double => str_is (base_type info) "DOUBLE" || str_is (base_type info) "double"
  | FixedOf n k | FastFixedOf n k =>
      if is_base_of_Fixed n k t then
        (str_is (base_type info) "FIXED" || str_is (base_type info) "Fixed")
        && (TypeInfo_N info =? n) && (TypeInfo_K info =? k)
      else if is_base_of_FastFixed n k t then
        (str_is (base_type info) "FAST_FIXED" || str_is (base_type info) "FastFixed")
        && (TypeInfo_N info =? n) && (TypeInfo_K info =? k)
      else false
  end.

Section Create.
Context {T Rng : Type} {NT : Numeric T} {PR : Prng T Rng} {PA : Parsers T}.

(** The handler [catch (const std::exception& e)] of
    [createSimulatorInstance]. *)
Definition rethrow {A} (r : Res A) : Res A :=
  match r with
  | Err (Thrown msg) => Err (Thrown ("Failed to create simulator: " ++ msg))
  | _ => r
  end.

(** [createSimulatorInstance(field_data_input, p_type_str, v_type_str,
    vf_type_str)].  The three scalar types are the [decltype] of a call of
    [find_matching_type<SupportedTypes>], whose declared return type is the
    first element of [SupportedTypes]; the call is not evaluated, so the
    engine is [FluidSimulator<float, float, float>] whatever the strings
    hold, and [T] stands for [float]. *)
Definition createSimulatorInstance (field_data_input : list (list ascii))
  (p_type_str v_type_str vf_type_str : list ascii) : Res (Sim T Rng) :=
  rethrow
    match parse_type_info p_type_str with
    | Err e => Err e
    | Ok _ =>
        match parse_type_info v_type_str with
        | Err e => Err e
        | Ok _ =>
            match parse_type_info vf_type_str with
            | Err e => Err e
            | Ok _ => construct 0 0 field_data_input
            end
        end
    end.
End Create.

End Config.

(** * Properties *)

(** ** Machine integers *)

Lemma in_int64_spec (z : Z) : in_int64 z = true <-> - 2 ^ 63 <= z <= 2 ^ 63 - 1.
Proof. unfold in_int64, int64_min, int64_max. lia. Qed.

Lemma wrap64_small (z : Z) : in_int64 z = true -> wrap64 z = z.
Proof.
  rewrite in_int64_spec. intros Hz. unfold wrap64.
  rewrite Z.mod_small; lia.
Qed.

Lemma to_size_small (z : Z) : 0 <= z < 2 ^ 64 -> to_size z = z.
Proof. intros Hz. unfold to_size. now apply Z.mod_small. Qed.

Lemma to_int_small (z : Z) : - 2 ^ 31 <= z < 2 ^ 31 -> to_int z = z.
Proof. intros Hz. unfold to_int. rewrite Z.mod_small; lia. Qed.

(** The quotient of [Z.quot] lies between zero and the exact quotient. *)
Lemma quot_toward_zero (n b : Z) : b <> 0 ->
  Z.abs (Z.quot n b * b) <= Z.abs n < Z.abs (Z.quot n b * b) + Z.abs b /\ 0 <= Z.quot n b * b * n.
Proof.
  intros H0.
  assert (Habs : Z.abs (Z.quot n b * b) = Z.abs b * (Z.abs n / Z.abs b)).
  { rewrite Z.abs_mul, <- Z.quot_abs by assumption.
    rewrite Z.quot_div_nonneg by lia. lia. }
  pose proof (Z.div_mod (Z.abs n) (Z.abs b) ltac:(lia)) as Hd.
  pose proof (Z.mod_pos_bound (Z.abs n) (Z.abs b) ltac:(lia)) as Hb.
  split; [lia |].
  pose proof (Z.quot_rem' n b) as Hqr.
  pose proof (Z.rem_sign_mul n b H0) as Hrs.
  set (q := Z.quot n b) in *. set (r := Z.rem n b) in *.
  assert (Hqb : q * b = n - r) by lia.
  assert (Hle : Z.abs r <= Z.abs n).
  { unfold r. rewrite <- Z.rem_abs by assumption.
    rewrite Z.rem_mod_nonneg by lia. apply Z.mod_le; lia. }
  rewrite Hqb.
  destruct (Z_lt_le_dec n 0); destruct (Z_lt_le_dec r 0); nia.
Qed.

(** ** fixed.h *)

Module FixedFacts.
Import FixedPoint.

Lemma mul_raw (K : Z) (a b : Fixed) :
  v (mul K a b) = Z.shiftr (wrap64 (v a * v b)) K.
Proof. reflexivity. Qed.

Lemma mul_floor (K : Z) (a b : Fixed) :
  0 <= K -> in_int64 (v a * v b) = true ->
  v (mul K a b) = (v a * v b) / 2 ^ K.
Proof.
  intros HK Hr. unfold mul; simpl.
  rewrite wrap64_small by assumption. now apply Z.shiftr_div_pow2.
Qed.

Lemma div_raw (K : Z) (a b : Fixed) (q : Fixed) :
  div K a b = Some q -> v q = Z.quot (wrap64 (Z.shiftl (v a) K)) (v b).
Proof.
  unfold div. destruct (v b =? 0); [discriminate |].
  destruct ((_ =? int64_min) && _); [discriminate |].
  intros [= <-]. reflexivity.
Qed.

(** The quotient exists unless the divisor is zero or the division is
    [INT64_MIN / -1]. *)
Lemma div_defined (K : Z) (a b : Fixed) :
  v b <> 0 -> ~ (wrap64 (Z.shiftl (v a) K) = int64_min /\ v b = -1) ->
  exists q, div K a b = Some q.
Proof.
  intros H0 H1. unfold div.
  destruct (v b =? 0) eqn:E0; [lia |].
  destruct (Z.eqb_spec (wrap64 (Z.shiftl (v a) K)) int64_min) as [En | En];
    destruct (Z.eqb_spec (v b) (-1)) as [E1 | E1]; cbn [andb]; eauto.
  exfalso. apply H1. auto.
Qed.

(** C5, as amended: without overflow the product is
    [(a.v * b.v) >> K], the floor of the exact product (it rounds toward
    minus infinity, also for a negative product), and the quotient is
    [(a.v << K) / b.v], the exact quotient truncated toward zero.  The
    only quotient that does not fit is [INT64_MIN / -1]. *)
Theorem fixed_mul_floor_div_trunc (K : Z) (a b : Fixed) :
  0 <= K ->
  in_int64 (v a * v b) = true ->
  in_int64 (v a * 2 ^ K) = true ->
  v b <> 0 -> ~ (v a * 2 ^ K = int64_min /\ v b = -1) ->
  (v (mul K a b) = Z.shiftr (v a * v b) K /\
   2 ^ K * v (mul K a b) <= v a * v b < 2 ^ K * (v (mul K a b) + 1)) /\
  (exists q, div K a b = Some q /\
     v q = Z.quot (Z.shiftl (v a) K) (v b) /\
     Z.abs (v q * v b) <= Z.abs (v a * 2 ^ K) < Z.abs (v q * v b) + Z.abs (v b) /\
     0 <= v q * v b * (v a * 2 ^ K)).
Proof.
  intros HK Hm Hs H0 H1.
  assert (Hp : 0 < 2 ^ K) by (apply Z.pow_pos_nonneg; lia).
  split.
  - rewrite mul_floor by assumption. rewrite Z.shiftr_div_pow2 by assumption.
    split; [reflexivity |].
    pose proof (Z.div_mod (v a * v b) (2 ^ K) ltac:(lia)) as Hd.
    pose proof (Z.mod_pos_bound (v a * v b) (2 ^ K) Hp) as Hb.
    lia.
  - assert (Hw : wrap64 (Z.shiftl (v a) K) = v a * 2 ^ K).
    { rewrite Z.shiftl_mul_pow2 by assumption. now apply wrap64_small. }
    destruct (div_defined K a b H0) as [q Hq]; [now rewrite Hw |].
    exists q. split; [exact Hq |].
    apply div_raw in Hq. rewrite Hw in Hq.
    rewrite Z.shiftl_mul_pow2 by assumption.
    split; [exact Hq |].
    rewrite Hq. apply quot_toward_zero. assumption.
Qed.

(** The claim C5 as stated fails: the product of the raw values [-1] and
    [1] with [K = 16] is [-1], not the truncation [0] of [-1 / 65536]. *)
Lemma fixed_mul_not_toward_zero :
  v (mul 16 (from_raw (-1)) (from_raw 1)) = -1 /\
  Z.quot (-1 * 1) (2 ^ 16) = 0 /\
  ~ (forall a b : Fixed, in_int64 (v a * v b) = true ->
       v (mul 16 a b) = Z.quot (v a * v b) (2 ^ 16)).
Proof.
  split; [reflexivity |]. split; [reflexivity |].
  intros H. specialize (H (from_raw (-1)) (from_raw 1) eq_refl).
  vm_compute in H. discriminate.
Qed.

(** A division by the raw value [-1], with operands of both signs in the
    product. *)
Lemma fixed_mul_floor_div_trunc_witness :
  (v (mul 16 (from_raw 65536) (from_raw (-1))) = Z.shiftr (65536 * -1) 16 /\
   2 ^ 16 * v (mul 16 (from_raw 65536) (from_raw (-1))) <= 65536 * -1
     < 2 ^ 16 * (v (mul 16 (from_raw 65536) (from_raw (-1))) + 1)) /\
  (exists q, div 16 (from_raw 65536) (from_raw (-1)) = Some q /\
     v q = Z.quot (Z.shiftl 65536 16) (-1) /\
     Z.abs (v q * -1) <= Z.abs (65536 * 2 ^ 16) < Z.abs (v q * -1) + Z.abs (-1) /\
     0 <= v q * -1 * (65536 * 2 ^ 16)).
Proof.
  apply (fixed_mul_floor_div_trunc 16 (from_raw 65536) (from_raw (-1)));
    [lia | reflexivity | reflexivity | simpl; lia |].
  simpl. intros [H _]. vm_compute in H. discriminate.
Defined.

End FixedFacts.

(** ** vector_field.h *)

Module VectorFieldFacts.
Import VectorField.

Lemma find_index_le (ds : delta_array) (dx dy : Z) :
  (find_index ds dx dy <= length ds)%nat.
Proof.
  induction ds as [| [ex ey] ds IH]; simpl; [lia |].
  destruct ((ex =? dx) && (ey =? dy)); lia.
Qed.

(** The search stops short of the end exactly on the members of the table,
    and then at the position of the first occurrence. *)
Lemma find_index_member (ds : delta_array) (dx dy : Z) :
  (find_index ds dx dy < length ds)%nat <-> In (dx, dy) ds.
Proof.
  induction ds as [| [ex ey] ds IH]; simpl.
  - split; [lia | tauto].
  - destruct ((ex =? dx) && (ey =? dy)) eqn:E.
    + apply andb_true_iff in E as [E1 E2].
      apply Z.eqb_eq in E1, E2. subst. split; [auto | lia].
    + split.
      * intros H. right. apply IH. lia.
      * intros [H | H].
        -- inversion H; subst. rewrite !Z.eqb_refl in E. discriminate.
        -- apply IH in H. lia.
Qed.

Lemma find_index_nth (ds : delta_array) (dx dy : Z) :
  In (dx, dy) ds -> nth_error ds (find_index ds dx dy) = Some (dx, dy).
Proof.
  induction ds as [| [ex ey] ds IH]; simpl; [tauto |].
  destruct ((ex =? dx) && (ey =? dy)) eqn:E.
  - apply andb_true_iff in E as [E1 E2].
    apply Z.eqb_eq in E1, E2. now subst.
  - intros [H | H]; [| auto].
    inversion H; subst. rewrite !Z.eqb_refl in E. discriminate.
Qed.

(** [add] reports a delta exactly when it is not in the table. *)
Lemma add_invalid_delta_iff {T} (plus : T -> T -> option T) (f : field T)
  (x y dx dy : Z) (dv : T) (ds : delta_array) :
  0 <= x -> 0 <= y -> is_valid_position f x y = true ->
  (add plus f x y dx dy dv ds = Err InvalidDelta <-> ~ In (dx, dy) ds).
Proof.
  intros Hx Hy Hv. unfold add.
  replace ((0 <=? x) && (0 <=? y) && is_valid_position f x y) with true
    by (rewrite Hv; symmetry; rewrite !andb_true_iff; lia).
  simpl. pose proof (find_index_le ds dx dy) as Hle.
  pose proof (find_index_member ds dx dy) as Hm.
  destruct (Nat.eqb_spec (find_index ds dx dy) (length ds)) as [E | E].
  - split; [intros _ Hin; apply Hm in Hin; lia | reflexivity].
  - split; [| intros Hn; exfalso; apply Hn, Hm; lia].
    destruct (cell f x y) as [a |]; [| discriminate].
    destruct (arr_get a _); [| discriminate].
    destruct (plus _ _); discriminate.
Qed.

(** [get] never reports a delta. *)
Lemma get_never_invalid_delta {T} (f : field T) (x y dx dy : Z) (ds : delta_array) :
  get f x y dx dy ds <> Err InvalidDelta.
Proof.
  unfold get. destruct (cell f x y) as [a |]; [| discriminate].
  destruct (arr_get a _); discriminate.
Qed.

(** C4 fails on [get]: on the one-cell field, with the offset [(2, 0)] that
    is not in the table, [add] reports [InvalidDelta] but [get] indexes the
    cell's array at position 4, outside the array, and reports nothing. *)
Theorem get_bad_delta_not_reported :
  ~ In (2, 0) deltas /\
  is_valid_position (init 0 1 1) 0 0 = true /\
  add (fun a b => Some (a + b)) (init 0 1 1) 0 0 2 0 1 deltas = Err InvalidDelta /\
  find_index deltas 2 0 = 4%nat /\
  get (init 0 1 1) 0 0 2 0 deltas = Err OutOfBounds /\
  get (init 0 1 1) 0 0 2 0 deltas <> Err InvalidDelta.
Proof.
  repeat split; try reflexivity; try discriminate.
  simpl. intros [H | [H | [H | [H | []]]]]; discriminate.
Qed.

End VectorFieldFacts.

(** ** simulator.h *)

Section EngineFacts.
Context {T Rng : Type} {NT : Numeric T} {PR : Prng T Rng}.
Local Open Scope sim_scope.
Abbreviation SM := (M (Sim T Rng)).

(** *** Inversion of the monad *)

Lemma bind_ok {St A B} (m : M St A) (f : A -> M St B) (s : St) (b : B) (s' : St) :
  bind m f s = Ok (b, s') ->
  exists a s1, m s = Ok (a, s1) /\ f a s1 = Ok (b, s').
Proof.
  unfold bind. destruct (m s) as [[a s1] | e]; [eauto | discriminate].
Qed.

Lemma ret_ok {St A} (a b : A) (s s' : St) : ret a s = Ok (b, s') -> a = b /\ s = s'.
Proof. unfold ret. intros [= -> ->]. auto. Qed.

Lemma gets_ok {St A} (f : St -> A) (a : A) (s s' : St) :
  gets f s = Ok (a, s') -> a = f s /\ s' = s.
Proof. unfold gets. intros [= <- <-]. auto. Qed.

Lemma modify_ok {St} (f : St -> St) (u : unit) (s s' : St) :
  modify f s = Ok (u, s') -> s' = f s.
Proof. unfold modify. intros [= <-]. auto. Qed.

Lemma lift_ok {St A} (r : Res A) (a : A) (s s' : St) :
  lift r s = Ok (a, s') -> r = Ok a /\ s' = s.
Proof. unfold lift. destruct r; intros [= <- <-]; auto. Qed.

Lemma arith_ok {St A} (o : option A) (a : A) (s s' : St) :
  arith o s = Ok (a, s') -> o = Some a /\ s' = s.
Proof. unfold arith. destruct o; [intros [= <- <-]; auto | discriminate]. Qed.

(** *** Cells of a directional field *)

Lemma set_cell_same (f : VectorField.field T) (x y : Z) (a : VectorField.arr4 T) :
  VectorField.cell f x y = Some a -> VectorField.set_cell f x y a = f.
Proof.
  unfold VectorField.cell, VectorField.set_cell.
  destruct ((x <? 0) || (y <? 0)); [discriminate |].
  destruct (f !! Z.to_nat x) as [row |] eqn:Hrow; [| discriminate].
  intros Ha. apply list_eq. intros i.
  destruct (decide (i = Z.to_nat x)) as [-> | Hne].
  - rewrite list_lookup_alter_eq, Hrow. simpl. now rewrite list_insert_id.
  - now rewrite list_lookup_alter_ne.
Qed.

(** [swap_with] leaves the velocity field as it was: the vector it reads
    from a cell is the vector it stores into that cell. *)
Lemma swap_with_velocity (pp pp' : ParticleParams T) (x y : Z) (s s' : Sim T Rng) :
  swap_with pp x y s = Ok (pp', s') -> velocity s' = velocity s.
Proof.
  unfold swap_with, F_at, F_set, P_at, P_set. intros H.
  apply bind_ok in H as (c & s1 & H1 & H).
  apply lift_ok in H1 as [_ ->].
  apply bind_ok in H as (u1 & s2 & H2 & H).
  destruct (grid_set (field_data s) x y _) as [fd |]; [| discriminate].
  injection H2 as <- <-.
  apply bind_ok in H as (q & s3 & H3 & H).
  apply lift_ok in H3 as [_ ->].
  apply bind_ok in H as (u2 & s4 & H4 & H).
  destruct (grid_set _ x y _) as [gr |]; [| discriminate].
  injection H4 as <- <-.
  apply bind_ok in H as (a & s5 & H5 & H).
  apply lift_ok in H5 as [H5 ->].
  apply bind_ok in H as (u3 & s6 & H6 & H).
  apply ret_ok in H as [_ <-].
  simpl in *. unfold VectorField.get_array, VectorField.set_array in *.
  destruct (VectorField.cell (velocity s) x y) as [a' |] eqn:Hc; [| discriminate].
  injection H5 as ->. injection H6 as <- <-. simpl.
  now apply set_cell_same.
Qed.

Lemma rotate_velocity (x y tx ty : Z) (pp : ParticleParams T) (s s' : Sim T Rng) :
  rotate x y tx ty s = Ok (pp, s') -> velocity s' = velocity s.
Proof.
  unfold rotate. intros H.
  apply bind_ok in H as (pp1 & s1 & H1 & H).
  apply bind_ok in H as (pp2 & s2 & H2 & H).
  apply swap_with_velocity in H1, H2, H. congruence.
Qed.

End EngineFacts.

Module RotationFacts.
Import FixedPoint Q16.

(** C2 fails: in the row [#ab #] the rotation between the cells of [a] and
    [b] exchanges the characters and the pressures, but both velocity
    vectors stay where they were, so the vector [(0,0,0,5)] of [a] is left
    behind with [b]. *)
Theorem rotation_leaves_velocity_behind :
  exists (s s' : Sim Fixed Z) (pp : ParticleParams Fixed),
    two_particles = Ok s /\ rotate 1 1 1 2 s = Ok (pp, s') /\
    (field_at (field_data s) 1 1 = Ok "a"%char /\
     field_at (field_data s) 1 2 = Ok "b"%char /\
     field_at (field_data s') 1 1 = Ok "b"%char /\
     field_at (field_data s') 1 2 = Ok "a"%char) /\
    (grid_at (p s) 1 1 = Ok (from_raw 0) /\
     grid_at (p s) 1 2 = Ok (from_raw 7) /\
     grid_at (p s') 1 1 = Ok (from_raw 7) /\
     grid_at (p s') 1 2 = Ok (from_raw 0)) /\
    (VectorField.get_array (velocity s) 1 1
       = Ok (from_raw 0, from_raw 0, from_raw 0, from_raw 5) /\
     VectorField.get_array (velocity s) 1 2
       = Ok (from_raw 0, from_raw 0, from_raw 0, from_raw 9) /\
     VectorField.get_array (velocity s') 1 1
       = Ok (from_raw 0, from_raw 0, from_raw 0, from_raw 5) /\
     VectorField.get_array (velocity s') 1 2
       = Ok (from_raw 0, from_raw 0, from_raw 0, from_raw 9)).
Proof.
  do 3 eexists.
  split; [vm_compute; reflexivity |].
  split; [vm_compute; reflexivity |].
  vm_compute. repeat split.
Qed.

End RotationFacts.

(** ** Construction, checkpoints and whole runs *)

Section ConstructFacts.
Context {T Rng : Type} {NT : Numeric T} {PR : Prng T Rng} {PA : Parsers T}.


(** [save_state] depends on the extents, the gravity, the character field
    and the density table, and on nothing else: two engines that differ in
    their pressures, velocities, visit stamps, tick counter or generator
    write the same file. *)
Lemma save_state_ignores (b : bool) (s : Sim T Rng)
  (p' op' : list (list T)) (v' vf' : VectorField.field T)
  (l' : list (list Z)) (r' : Rng) (ut' : Z) (t' : T)
  (pr' : list (list (list ascii))) (n' : nat) :
  save_state b (mkSim (field_data s) p' op' v' vf' l' r' (rows s) (cols s) ut'
                      (rho s) (g s) (static_field s) t' pr' n')
  = save_state b s.
Proof. reflexivity. Qed.

End ConstructFacts.

Module RunFacts.
Import FixedPoint Q16.


(** C1 fails on [save_state]: the engine of the two-cell column before and
    after one tick differ in a pressure, in the visit stamps and in the tick
    counter, and [save_state] writes the same file for both; so no reader of
    that file can give back both states. *)
Theorem save_state_loses_state :
  exists (s0 s1 : Sim Fixed Z) (file : list (list (Token Fixed))),
    engine_of column_input = Ok s0 /\
    simulate 20 column_input 1 = Ok s1 /\
    grid_at (p s0) 2 1 = Ok (from_raw 0) /\
    grid_at (p s1) 2 1 = Ok (from_raw 65) /\
    UT s0 = 0 /\ UT s1 = 4 /\
    save_state false s0 = Ok file /\
    save_state false s1 = Ok file /\
    length file = 6%nat /\
    (forall load : list (list (Token Fixed)) -> Res (Sim Fixed Z),
       ~ (load file = Ok s0 /\ load file = Ok s1)).
Proof.
  do 3 eexists.
  split; [vm_compute; reflexivity |].
  split; [vm_compute; reflexivity |].
  split; [vm_compute; reflexivity |].
  split; [vm_compute; reflexivity |].
  split; [reflexivity |]. split; [reflexivity |].
  split; [vm_compute; reflexivity |].
  split; [vm_compute; reflexivity |].
  split; [reflexivity |].
  intros load [H0 H1]. rewrite H0 in H1. discriminate.
Qed.

(** C3 fails: the gravity loop reads [field_data[x + 1][y]] below the last
    row of the one-cell grid, and [move_prob] reads the neighbour west of a
    fluid cell in column 0; both are accesses outside the grid. *)
Theorem engine_reads_outside_grid :
  (exists s : Sim Fixed Z,
     engine_of open_input = Ok s /\ rows s = 1 /\ cols s = 1 /\
     field_at (field_data s) 0 0 = Ok " "%char /\
     field_at (field_data s) (0 + 1) 0 = Err OutOfBounds /\
     phase_gravity s = Err OutOfBounds /\
     (forall fuel, run fuel 1 1 s = Err OutOfBounds)) /\
  (exists s : Sim Fixed Z,
     engine_of west_input = Ok s /\ rows s = 3 /\ cols s = 3 /\
     field_at (field_data s) 1 0 = Ok " "%char /\
     field_at (field_data s) 1 (0 - 1) = Err OutOfBounds /\
     move_prob 1 0 s = Err OutOfBounds /\
     run 20 1 1 s = Err OutOfBounds).
Proof.
  split; eexists; (split; [vm_compute; reflexivity |]);
    repeat split; intros; vm_compute; reflexivity.
Qed.

End RunFacts.

(** ** Grids *)

Lemma vec_at_ok {A} (l : list A) (i : Z) (a : A) :
  vec_at l i = Ok a <-> 0 <= i /\ l !! Z.to_nat i = Some a.
Proof.
  unfold vec_at. destruct (Z.ltb_spec i 0).
  - split; [discriminate | lia].
  - destruct (l !! Z.to_nat i); split; intros H'; try discriminate.
    + injection H' as ->. auto.
    + destruct H' as [_ [= ->]]. reflexivity.
    + destruct H' as [_ H']. discriminate.
Qed.

Section GridFacts.
Context {A : Type}.
Implicit Types (gr : list (list A)) (l : list A).

Lemma grid_at_ok gr (x y : Z) (a : A) :
  grid_at gr x y = Ok a <->
  0 <= x /\ 0 <= y /\ exists row, gr !! Z.to_nat x = Some row /\ row !! Z.to_nat y = Some a.
Proof.
  unfold grid_at. destruct (vec_at gr x) as [row | e] eqn:Hx.
  - apply vec_at_ok in Hx as [Hx0 Hx]. rewrite vec_at_ok. split.
    + intros [? ?]. eauto 6.
    + intros (_ & ? & row' & Hr & ?). rewrite Hx in Hr. injection Hr as <-. auto.
  - split; [discriminate |]. intros (Hx0 & _ & row & Hr & _).
    assert (vec_at gr x = Ok row) by (apply vec_at_ok; auto). congruence.
Qed.

Lemma grid_at_set gr gr' (x y x' y' : Z) (a : A) :
  grid_set gr x y a = Ok gr' ->
  grid_at gr' x' y' = if (x' =? x) && (y' =? y) then Ok a else grid_at gr x' y'.
Proof.
  unfold grid_set. destruct (grid_at gr x y) as [old |] eqn:Hold; [| discriminate].
  intros [= <-]. apply grid_at_ok in Hold as (Hx & Hy & row & Hrow & Hcell).
  unfold grid_at, vec_at.
  destruct (Z.ltb_spec x' 0); [now destruct (x' =? x) eqn:E; [lia |] |].
  destruct (Z.eqb_spec x' x) as [-> | Hne]; simpl.
  - rewrite list_lookup_alter_eq, Hrow. simpl.
    destruct (Z.ltb_spec y' 0); [now destruct (y' =? y) eqn:E; [lia |] |].
    destruct (Z.eqb_spec y' y) as [-> | Hney].
    + rewrite list_lookup_insert_eq; [reflexivity |].
      apply lookup_lt_Some in Hcell. lia.
    + rewrite list_lookup_insert_ne by lia. reflexivity.
  - rewrite list_lookup_alter_ne by lia. reflexivity.
Qed.

Lemma grid_set_ok gr (x y : Z) (a old : A) :
  grid_at gr x y = Ok old -> exists gr', grid_set gr x y a = Ok gr'.
Proof. unfold grid_set. intros ->. eauto. Qed.

End GridFacts.

Lemma field_at_wall (fd : list (list ascii)) (x y : Z) :
  field_at fd x y = Ok "#"%char <-> grid_at fd x y = Ok "#"%char.
Proof.
  unfold field_at, grid_at. destruct (vec_at fd x) as [row |]; [| tauto].
  destruct (Z.eqb_spec y (Z.of_nat (length row))) as [-> | Hne]; [| tauto].
  split; [discriminate |]. intros H. apply vec_at_ok in H as [_ H].
  apply lookup_lt_Some in H. lia.
Qed.

Lemma field_at_grid (fd : list (list ascii)) (x y : Z) (c : ascii) :
  grid_at fd x y = Ok c -> field_at fd x y = Ok c.
Proof.
  unfold field_at, grid_at. destruct (vec_at fd x) as [row |]; [| tauto].
  intros H. destruct (Z.eqb_spec y (Z.of_nat (length row))) as [-> | Hne]; [| tauto].
  apply vec_at_ok in H as [_ H]. apply lookup_lt_Some in H. lia.
Qed.

Lemma is_wall_spec (c : ascii) : is_wall c = true <-> c = "#"%char.
Proof. unfold is_wall. apply Ascii.eqb_eq. Qed.

Lemma in_cells (r c x y : Z) : In (x, y) (cells r c) <-> (0 <= x < r /\ 0 <= y < c).
Proof.
  unfold cells. rewrite in_flat_map. split.
  - intros (x' & Hx & Hy). apply in_map_iff in Hy as (y' & [= <- <-] & Hy).
    apply list_elem_of_In, elem_of_seqZ in Hx, Hy. lia.
  - intros [Hx Hy]. exists x. split.
    + apply list_elem_of_In, elem_of_seqZ. lia.
    + apply in_map_iff. exists y. split; [reflexivity |].
      apply list_elem_of_In, elem_of_seqZ. lia.
Qed.

Lemma grid_shape_at {A} (gr : list (list A)) (r c x y : Z) :
  grid_shape gr r c -> 0 <= x < r -> 0 <= y < c -> exists a, grid_at gr x y = Ok a.
Proof.
  intros [Hl Hr] Hx Hy.
  destruct (lookup_lt_is_Some_2 gr (Z.to_nat x)) as [row Hrow]; [lia |].
  assert (Hlen : length row = Z.to_nat c).
  { rewrite Forall_forall in Hr. apply Hr. eapply list_elem_of_lookup_2. exact Hrow. }
  destruct (lookup_lt_is_Some_2 row (Z.to_nat y)) as [a Ha]; [lia |].
  exists a. apply grid_at_ok. eauto 6 with lia.
Qed.

Lemma grid_set_shape {A} (gr gr' : list (list A)) (r c x y : Z) (a : A) :
  grid_set gr x y a = Ok gr' -> grid_shape gr r c -> grid_shape gr' r c.
Proof.
  unfold grid_set. destruct (grid_at gr x y); [| discriminate]. intros [= <-] [Hl Hr].
  split; [now rewrite length_alter |].
  apply Forall_alter; [assumption |]. intros row Hrow. now rewrite length_insert.
Qed.

Section SingleCell.
Context {T Rng : Type} {NT : Numeric T} {PR : Prng T Rng} {NL : NumericLaws T}.
Local Open Scope sim_scope.

Lemma forM_fixed {St B} (f : B -> M St unit) (l : list B) (s : St) :
  (forall b, In b l -> f b s = Ok (tt, s)) -> forM f l s = Ok (tt, s).
Proof.
  unfold forM. induction l as [| b l IH]; intros H; simpl; [reflexivity |].
  unfold bind. rewrite (H b) by (left; reflexivity).
  apply IH. intros b' Hb'. apply H. now right.
Qed.

Lemma foldM_inv {St A B} (I : St -> Prop) (f : A -> B -> M St A) (a : A) (l : list B) :
  (forall b s, In b l -> I s -> exists s', f a b s = Ok (a, s') /\ I s') ->
  forall s, I s -> exists s', foldM f l a s = Ok (a, s') /\ I s'.
Proof.
  induction l as [| b l IH]; intros H s Hs; simpl.
  - exists s. split; [reflexivity | assumption].
  - destruct (H b s (or_introl eq_refl) Hs) as (s1 & Hf & Hs1).
    unfold bind. rewrite Hf. apply IH; [| assumption].
    intros b' s' Hb'. apply H. now right.
Qed.

Lemma single_fluid_char (s : Sim T Rng) (x0 y0 x y : Z) :
  single_fluid s x0 y0 -> 0 <= x < rows s -> 0 <= y < cols s ->
  exists c, field_at (field_data s) x y = Ok c /\
            (is_wall c = false -> x = x0 /\ y = y0).
Proof.
  intros (_ & _ & HF & _ & _ & _ & _ & Hw) Hx Hy.
  destruct (grid_shape_at _ _ _ x y HF Hx Hy) as [c Hc].
  exists c. split; [now apply field_at_grid |].
  intros Hnw. destruct (decide ((x, y) = (x0, y0))) as [[= -> ->] | Hne]; [auto |].
  specialize (Hw x y Hx Hy Hne). unfold wall in Hw. rewrite Hc in Hw.
  injection Hw as ->. discriminate.
Qed.

(** Phase A on a grid with one fluid cell whose south neighbour is inside
    the grid changes nothing. *)
Lemma single_fluid_gravity (s : Sim T Rng) (x0 y0 : Z) :
  single_fluid s x0 y0 -> x0 + 1 < rows s -> phase_gravity s = Ok (tt, s).
Proof.
  intros Hs Hsouth. unfold phase_gravity, bind, gets.
  apply forM_fixed. intros [x y] Hin. apply in_cells in Hin as [Hx Hy].
  destruct (single_fluid_char s x0 y0 x y Hs Hx Hy) as (c & Hc & Hnw).
  unfold gravity_cell, bind, F_at, lift. rewrite Hc.
  destruct (is_wall c) eqn:Ec; [reflexivity |].
  destruct (Hnw eq_refl) as [-> ->].
  destruct (single_fluid_char s x0 y0 (x0 + 1) y0 Hs ltac:(lia) Hy) as (c' & Hc' & Hnw').
  rewrite Hc'. destruct (is_wall c') eqn:Ec'; [reflexivity |].
  destruct (Hnw' eq_refl). lia.
Qed.

Lemma flow_dirs_blocked (rec : Z -> Z -> T -> M (Sim T Rng) flow_result)
  (x y : Z) (lim acc : T) (ds : list (Z * Z)) (s : Sim T Rng) :
  (forall d, In d ds ->
     out_of_grid (rows s) (cols s) (x + fst d) (y + snd d) = true \/
     field_at (field_data s) (x + fst d) (y + snd d) = Ok "#"%char) ->
  flow_dirs rec x y lim acc ds s =
  (let* ut := gets UT in
   let* _ := L_set x y (to_int ut) in
   ret (acc, false, (0, 0))) s.
Proof.
  induction ds as [| [dx dy] ds IH]; intros H; simpl; [reflexivity |].
  specialize (IH (fun d Hd => H d (or_intror Hd))).
  destruct (H (dx, dy) (or_introl eq_refl)) as [Ho | Hw]; simpl in *.
  - unfold bind at 1 2. unfold gets at 1 2. rewrite Ho. exact IH.
  - unfold bind at 1 2. unfold gets at 1 2.
    destruct (out_of_grid _ _ _ _); [exact IH |].
    unfold bind at 1. unfold F_at, lift. rewrite Hw. simpl. exact IH.
Qed.

Lemma single_fluid_neighbours (s : Sim T Rng) (x0 y0 : Z) (d : Z * Z) :
  single_fluid s x0 y0 -> In d deltas ->
  out_of_grid (rows s) (cols s) (x0 + fst d) (y0 + snd d) = true \/
  field_at (field_data s) (x0 + fst d) (y0 + snd d) = Ok "#"%char.
Proof.
  intros Hs Hd. pose proof Hs as (Hr & Hc & _ & _ & Hx & Hy & _ & Hw).
  set (nx := x0 + fst d). set (ny := y0 + snd d).
  assert (Hne : (nx, ny) <> (x0, y0)).
  { subst nx ny. simpl in Hd.
    destruct Hd as [<- | [<- | [<- | [<- | []]]]]; simpl; intros [= ? ?]; lia. }
  assert (Hrange : -1 <= nx <= rows s /\ -1 <= ny <= cols s).
  { subst nx ny. simpl in Hd.
    destruct Hd as [<- | [<- | [<- | [<- | []]]]]; simpl; lia. }
  destruct (decide (0 <= nx < rows s /\ 0 <= ny < cols s)) as [[Hnx Hny] | Hout].
  - right. apply field_at_wall. now apply Hw.
  - left. unfold out_of_grid.
    destruct (Z.ltb_spec nx 0); [reflexivity |].
    destruct (Z.ltb_spec ny 0); [reflexivity |]. simpl.
    rewrite !to_size_small by lia.
    destruct (Z.leb_spec (rows s) nx); [reflexivity |].
    destruct (Z.leb_spec (cols s) ny); [reflexivity |]. lia.
Qed.

Lemma single_fluid_kept (s s' : Sim T Rng) (x0 y0 : Z) :
  single_fluid s x0 y0 -> flow_kept s s' -> single_fluid s' x0 y0.
Proof.
  intros (Hr & Hc & HF & HL & Hx & Hy & Hnw & Hw) (EF & Er & Ec & _ & _ & _ & _ & HL').
  unfold single_fluid, wall in *. rewrite EF, Er, Ec.
  repeat match goal with |- _ /\ _ => split end; try assumption; try lia.
Qed.

Lemma propagate_flow_single (fuel : nat) (s : Sim T Rng) (x0 y0 : Z) (lim : T) :
  single_fluid s x0 y0 ->
  exists s', propagate_flow (S fuel) x0 y0 lim s = Ok ((nzero, false, (0, 0)), s') /\
             flow_kept s s'.
Proof.
  intros Hs. pose proof Hs as (Hr & Hc & HF & HL & Hx & Hy & Hnw & Hw).
  destruct (grid_shape_at _ _ _ x0 y0 HL Hx Hy) as [l0 Hl0].
  destruct (grid_set_ok (last_use s) x0 y0 (to_int (to_size (UT s - 1))) l0 Hl0)
    as [gr1 Hgr1].
  pose proof (grid_set_shape _ _ _ _ _ _ _ Hgr1 HL) as HL1.
  destruct (grid_shape_at _ _ _ x0 y0 HL1 Hx Hy) as [l1 Hl1].
  destruct (grid_set_ok gr1 x0 y0 (to_int (UT s)) l1 Hl1) as [gr2 Hgr2].
  pose proof (grid_set_shape _ _ _ _ _ _ _ Hgr2 HL1) as HL2.
  set (s1 := with_last_use (with_flow_calls s (S (flow_calls s))) gr1).
  assert (Hk1 : flow_kept s s1) by (unfold flow_kept; simpl; tauto).
  pose proof (single_fluid_kept s s1 x0 y0 Hs Hk1) as Hs1.
  exists (with_last_use s1 gr2). split; [| unfold flow_kept; simpl; tauto].
  destruct (single_fluid_char s x0 y0 x0 y0 Hs Hx Hy) as (c & Hc0 & _).
  assert (Hcw : is_wall c = false).
  { destruct (is_wall c) eqn:E; [| reflexivity]. exfalso. apply Hnw.
    apply is_wall_spec in E. subst c. now apply field_at_wall. }
  cbn [propagate_flow]. unfold bind at 1. unfold modify at 1.
  unfold bind at 1. unfold gets at 1.
  unfold bind at 1. unfold L_set at 1. simpl last_use. simpl UT. rewrite Hgr1.
  fold s1. unfold bind at 1 2. unfold gets at 1 2.
  replace (out_of_grid (rows s1) (cols s1) x0 y0) with false.
  2:{ symmetry. unfold out_of_grid. simpl. rewrite !to_size_small by lia.
      repeat (apply orb_false_iff; split); lia. }
  unfold bind at 1. unfold F_at at 1, lift. simpl field_data. rewrite Hc0, Hcw.
  rewrite flow_dirs_blocked by (intros d Hd; now apply single_fluid_neighbours).
  unfold bind, gets, L_set. simpl. rewrite Hgr2. reflexivity.
Qed.

Lemma flow_kept_trans (s s1 s2 : Sim T Rng) :
  flow_kept s s1 -> flow_kept s1 s2 -> flow_kept s s2.
Proof.
  unfold flow_kept. intros (? & Er & Ec & ? & ? & ? & ? & ?) (? & ? & ? & ? & ? & ? & ? & ?).
  rewrite Er, Ec in *.
  repeat match goal with |- _ /\ _ => split end; try congruence; assumption.
Qed.

Lemma flow_sweep_cell_single (fuel : nat) (s s' : Sim T Rng) (x0 y0 : Z) (c : Z * Z) :
  single_fluid s x0 y0 -> flow_kept s s' -> In c (cells (rows s) (cols s)) ->
  exists s'', flow_sweep_cell (S fuel) false c s' = Ok (false, s'') /\ flow_kept s s''.
Proof.
  intros Hs Hk Hin. destruct c as [x y]. apply in_cells in Hin as [Hx Hy].
  pose proof (single_fluid_kept _ _ _ _ Hs Hk) as Hs'.
  pose proof Hk as (_ & Er & Ec & _).
  destruct (single_fluid_char s' x0 y0 x y Hs' ltac:(lia) ltac:(lia)) as (ch & Hch & Hnw).
  unfold flow_sweep_cell, bind at 1. unfold F_at at 1, lift. rewrite Hch.
  destruct (is_wall ch) eqn:Ew; [exists s'; split; [reflexivity | assumption] |].
  destruct (Hnw eq_refl) as [-> ->].
  pose proof Hs' as (_ & _ & _ & HL & _).
  destruct (grid_shape_at _ _ _ x0 y0 HL ltac:(lia) ltac:(lia)) as [l Hl].
  unfold bind at 1. unfold L_at at 1, lift. rewrite Hl.
  unfold bind at 1. unfold gets at 1.
  destruct (to_size l =? UT s'); [exists s'; split; [reflexivity | assumption] |].
  destruct (propagate_flow_single fuel s' x0 y0 (nof_int 1) Hs') as (s'' & Hp & Hk').
  unfold bind. rewrite Hp. rewrite nlt_zero_zero.
  exists s''. split; [reflexivity |]. eapply flow_kept_trans; eassumption.
Qed.

(** Phase C on a grid with one fluid cell: a single sweep, after which no
    flow at all is committed. *)
Lemma single_fluid_flow (fuel : nat) (s : Sim T Rng) (x0 y0 : Z) :
  single_fluid s x0 y0 ->
  exists s', phase_flow (S fuel) s = Ok (tt, s') /\
             velocity_flow s' = VectorField.init nzero (rows s) (cols s) /\
             velocity s' = velocity s /\ p s' = p s /\
             field_data s' = field_data s /\ UT s' = to_size (UT s + 2).
Proof.
  intros Hs. unfold phase_flow. unfold bind at 1. unfold modify at 1.
  set (s1 := with_velocity_flow s _).
  cbn [flow_sweeps]. unfold bind at 1. unfold flow_sweep.
  unfold bind at 1. unfold modify at 1. set (s2 := with_UT s1 _).
  unfold bind at 1 2. unfold gets at 1 2.
  assert (Hk2 : flow_kept s2 s2).
  { unfold flow_kept. repeat match goal with |- _ /\ _ => split end;
      try reflexivity. apply Hs. }
  assert (Hs2 : single_fluid s2 x0 y0).
  { destruct Hs as (? & ? & ? & ? & ? & ? & ? & ?). unfold single_fluid, wall in *.
    simpl. repeat match goal with |- _ /\ _ => split end; try assumption; try lia. }
  destruct (foldM_inv (flow_kept s2) (flow_sweep_cell (S fuel)) false
              (cells (rows s2) (cols s2))) with (s := s2) as (s3 & Hf & Hk3).
  - intros c s' Hin Hk. now apply (flow_sweep_cell_single fuel s2 s' x0 y0 c).
  - exact Hk2.
  - rewrite Hf. exists s3. split; [reflexivity |].
    destruct Hk3 as (? & ? & ? & ? & ? & ? & ? & ?). simpl in *. tauto.
Qed.

(** C9, as amended: on a grid whose only fluid cell has its south
    neighbour inside the grid, phase A leaves the state as it is (the south
    neighbour is a wall, so no gravity is added), and phase C ends after one
    sweep with no flow committed anywhere. *)
Theorem single_fluid_gravity_and_flow (fuel : nat) (s : Sim T Rng) (x0 y0 : Z) :
  single_fluid s x0 y0 -> x0 + 1 < rows s ->
  phase_gravity s = Ok (tt, s) /\
  exists s', phase_flow (S fuel) s = Ok (tt, s') /\
             velocity_flow s' = VectorField.init nzero (rows s) (cols s) /\
             velocity s' = velocity s /\ p s' = p s /\
             field_data s' = field_data s /\ UT s' = to_size (UT s + 2).
Proof.
  intros Hs Hsouth. split.
  - now apply (single_fluid_gravity s x0 y0).
  - now apply (single_fluid_flow fuel s x0 y0).
Qed.

End SingleCell.

(** ** The Q16.16 instance satisfies the laws *)

Module Q16Facts.
Import FixedPoint Q16.

Lemma checked_some (z : Z) (c : Fixed) : checked z = Some c -> v c = z.
Proof. unfold checked. destruct (in_int64 z); [intros [= <-]; reflexivity | discriminate]. Qed.

#[export] Instance numeric_laws : NumericLaws Fixed.
Proof.
  split.
  - reflexivity.
  - reflexivity.
  - intros a b c Ha Hb Hc. simpl in *. unfold ltb, qadd in *. simpl in *.
    apply checked_some in Hc. lia.
  - intros a Ha Hne. simpl in *. unfold ltb, eqb in *. simpl in *. lia.
Qed.

Lemma lcg_next_range (r : Z) : 0 <= lcg_next r < 2 ^ 31.
Proof. unfold lcg_next. apply Z.mod_pos_bound. lia. Qed.

Lemma draw_range (r : Z) : 0 <= Z.shiftr (lcg_next r) 15 < 2 ^ 16.
Proof.
  pose proof (lcg_next_range r) as H. rewrite Z.shiftr_div_pow2 by lia. split.
  - apply Z.div_pos; lia.
  - apply Z.div_lt_upper_bound; lia.
Qed.

#[export] Instance prng_laws : PrngLaws Fixed Z.
Proof.
  split.
  - intros r sum x Hpos Hmul. simpl in *. unfold ltb, qmul in *. simpl in *.
    pose proof (draw_range r) as Hu. set (u := Z.shiftr (lcg_next r) 15) in *.
    destruct (in_int64 (u * v sum)) eqn:Hin; [| discriminate].
    injection Hmul as <-. simpl. rewrite wrap64_small by assumption.
    rewrite Z.shiftr_div_pow2 by (unfold K; lia). unfold K.
    assert (Hs : 0 < v sum) by lia. split.
    + apply Z.ltb_ge. apply Z.div_pos; nia.
    + apply Z.ltb_lt. apply Z.div_lt_upper_bound; nia.
  - intros r. simpl. unfold ltb. simpl. pose proof (draw_range r). lia.
Qed.

Lemma single_engine_fluid : single_fluid (engine_or_blank single_input) 1 1.
Proof.
  unfold single_fluid, wall.
  repeat match goal with |- _ /\ _ => split end; try (vm_compute; congruence).
  - vm_compute. repeat constructor.
  - vm_compute. repeat constructor.
  - intros x y Hx Hy Hne. change (rows _) with 3 in Hx. change (cols _) with 3 in Hy.
    assert (Hxs : x = 0 \/ x = 1 \/ x = 2) by lia.
    assert (Hys : y = 0 \/ y = 1 \/ y = 2) by lia.
    destruct Hxs as [-> | [-> | ->]]; destruct Hys as [-> | [-> | ->]];
      try reflexivity; congruence.
Qed.

Lemma single_fluid_gravity_and_flow_witness :
  phase_gravity (engine_or_blank single_input) = Ok (tt, engine_or_blank single_input) /\
  exists s', phase_flow 1 (engine_or_blank single_input) = Ok (tt, s') /\
             velocity_flow s' = VectorField.init nzero 3 3 /\
             velocity s' = velocity (engine_or_blank single_input) /\
             p s' = p (engine_or_blank single_input) /\
             field_data s' = field_data (engine_or_blank single_input) /\
             UT s' = to_size (0 + 2).
Proof.
  apply (single_fluid_gravity_and_flow 0 (engine_or_blank single_input) 1 1).
  - exact single_engine_fluid.
  - vm_compute. reflexivity.
Defined.

(** C9 as stated fails: in the 3x3 grid with one fluid cell in the middle,
    the south velocity of that cell is [0] before phase A and still [0]
    after it, although [g] is not zero. *)
Lemma single_fluid_gets_no_gravity :
  exists s',
    phase_gravity (engine_or_blank single_input) = Ok (tt, s') /\
    single_fluid (engine_or_blank single_input) 1 1 /\
    g (engine_or_blank single_input) = from_raw 6553 /\
    V_get 1 1 1 0 (engine_or_blank single_input)
      = Ok (from_raw 0, engine_or_blank single_input) /\
    V_get 1 1 1 0 s' = Ok (from_raw 0, s') /\
    nadd (from_raw 0) (g (engine_or_blank single_input)) = Some (from_raw 6553) /\
    from_raw 0 <> from_raw 6553.
Proof.
  eexists. split; [vm_compute; reflexivity |].
  split; [exact single_engine_fluid |].
  repeat split; try (vm_compute; reflexivity). discriminate.
Qed.

End Q16Facts.

(** ** Rules for running the monad *)

Section Runs.
Context {St : Type} (bad : Error -> Prop).

Lemma runs_ret {A} (a : A) (s : St) (Q : A -> St -> Prop) :
  Q a s -> runs bad (ret a) s Q.
Proof. intros H. split; [discriminate |]. intros a' s' [= <- <-]. exact H. Qed.

Lemma runs_bind {A B} (m : M St A) (f : A -> M St B) (s : St) (Q : B -> St -> Prop) :
  runs bad m s (fun a s1 => runs bad (f a) s1 Q) -> runs bad (bind m f) s Q.
Proof.
  intros [Hbad Hok]. unfold runs, bind. destruct (m s) as [[a s1] | e] eqn:Hm.
  - exact (Hok a s1 eq_refl).
  - split; [| discriminate]. intros e' [= <-]. now apply Hbad.
Qed.

Lemma runs_gets {A} (f : St -> A) (s : St) (Q : A -> St -> Prop) :
  Q (f s) s -> runs bad (gets f) s Q.
Proof. intros H. split; [discriminate |]. intros a' s' [= <- <-]. exact H. Qed.

Lemma runs_modify (f : St -> St) (s : St) (Q : unit -> St -> Prop) :
  Q tt (f s) -> runs bad (modify f) s Q.
Proof. intros H. split; [discriminate |]. intros [] s' [= <-]. exact H. Qed.

Lemma runs_fail {A} (e : Error) (s : St) (Q : A -> St -> Prop) :
  ~ bad e -> runs bad (fail e) s Q.
Proof. intros H. split; [| discriminate]. intros e' [= <-]. exact H. Qed.

Lemma runs_arith {A} (o : option A) (s : St) (Q : A -> St -> Prop) :
  ~ bad ArithFault -> (forall a, o = Some a -> Q a s) -> runs bad (arith o) s Q.
Proof.
  intros Hb H. destruct o as [a |]; simpl.
  - apply runs_ret. now apply H.
  - now apply runs_fail.
Qed.

Lemma runs_weaken {A} (m : M St A) (s : St) (Q Q' : A -> St -> Prop) :
  runs bad m s Q -> (forall a s', Q a s' -> Q' a s') -> runs bad m s Q'.
Proof. intros [Hb Hok] H. split; [exact Hb |]. intros a s' Hm. apply H, Hok, Hm. Qed.

End Runs.

Section Primitives.
Context {T Rng : Type} {NT : Numeric T} {PR : Prng T Rng}.
Variable bad : Error -> Prop.
Hypothesis bad_fuel : forall e, bad e -> e = OutOfFuel.
Abbreviation SM := (M (Sim T Rng)).
Implicit Types (s : Sim T Rng).

Lemma vec_at_err {A} (l : list A) (i : Z) (e : Error) : vec_at l i = Err e -> e = OutOfBounds.
Proof.
  unfold vec_at. destruct (i <? 0); [intros [= <-]; reflexivity |].
  destruct (l !! Z.to_nat i); [discriminate | intros [= <-]; reflexivity].
Qed.

Lemma grid_at_err {A} (gr : list (list A)) (x y : Z) (e : Error) :
  grid_at gr x y = Err e -> e = OutOfBounds.
Proof.
  unfold grid_at. destruct (vec_at gr x) eqn:H.
  - apply vec_at_err.
  - intros [= <-]. eapply vec_at_err, H.
Qed.

Lemma grid_set_err {A} (gr : list (list A)) (x y : Z) (a : A) (e : Error) :
  grid_set gr x y a = Err e -> e = OutOfBounds.
Proof.
  unfold grid_set. destruct (grid_at gr x y) eqn:H; [discriminate |].
  intros [= <-]. eapply grid_at_err, H.
Qed.

Lemma field_at_err (fd : list (list ascii)) (x y : Z) (e : Error) :
  field_at fd x y = Err e -> e = OutOfBounds.
Proof.
  unfold field_at. destruct (vec_at fd x) eqn:H.
  - destruct (y =? _); [discriminate | apply vec_at_err].
  - intros [= <-]. eapply vec_at_err, H.
Qed.

Lemma get_err (f : VectorField.field T) (x y dx dy : Z) ds (e : Error) :
  VectorField.get f x y dx dy ds = Err e -> e = OutOfBounds.
Proof.
  unfold VectorField.get. destruct (VectorField.cell f x y); [| intros [= <-]; reflexivity].
  destruct (VectorField.arr_get _ _); [discriminate | intros [= <-]; reflexivity].
Qed.

Lemma put_err (f : VectorField.field T) (x y dx dy : Z) ds (a : T) (e : Error) :
  VectorField.put f x y dx dy ds a = Err e -> e = OutOfBounds.
Proof.
  unfold VectorField.put. destruct (VectorField.cell f x y); [| intros [= <-]; reflexivity].
  destruct (VectorField.arr_get _ _); [discriminate | intros [= <-]; reflexivity].
Qed.

Lemma add_err (plus : T -> T -> option T) (f : VectorField.field T) (x y dx dy : Z)
  (dv : T) ds (e : Error) :
  VectorField.add plus f x y dx dy dv ds = Err e -> e <> OutOfFuel.
Proof.
  unfold VectorField.add. destruct (negb _); [intros [= <-]; discriminate |].
  destruct (_ =? _)%nat; [intros [= <-]; discriminate |].
  destruct (VectorField.cell f x y); [| intros [= <-]; discriminate].
  destruct (VectorField.arr_get _ _); [| intros [= <-]; discriminate].
  destruct (plus _ _); [discriminate | intros [= <-]; discriminate].
Qed.

Lemma not_bad (e : Error) : e <> OutOfFuel -> ~ bad e.
Proof. intros Hne Hb. apply Hne. now apply bad_fuel. Qed.

Lemma runs_lift {A} (r : Res A) s (Q : A -> Sim T Rng -> Prop) :
  (forall e, r = Err e -> e <> OutOfFuel) ->
  (forall a, r = Ok a -> Q a s) -> runs bad (lift r) s Q.
Proof.
  intros He Hok. unfold runs, lift. destruct r as [a | e].
  - split; [discriminate |]. intros a' s' [= <- <-]. now apply Hok.
  - split; [| discriminate]. intros e' [= <-]. apply not_bad. now apply He.
Qed.

Lemma runs_F_at (x y : Z) s (Q : ascii -> Sim T Rng -> Prop) :
  (forall c, field_at (field_data s) x y = Ok c -> Q c s) -> runs bad (F_at x y) s Q.
Proof.
  intros H. unfold F_at. apply runs_lift; [| exact H].
  intros e He. apply field_at_err in He. now subst.
Qed.

Lemma runs_L_at (x y : Z) s (Q : Z -> Sim T Rng -> Prop) :
  (forall l, grid_at (last_use s) x y = Ok l -> Q l s) -> runs bad (L_at x y) s Q.
Proof.
  intros H. unfold L_at. apply runs_lift; [| exact H].
  intros e He. apply grid_at_err in He. now subst.
Qed.

Lemma runs_P_at (x y : Z) s (Q : T -> Sim T Rng -> Prop) :
  (forall a, grid_at (p s) x y = Ok a -> Q a s) -> runs bad (P_at x y) s Q.
Proof.
  intros H. unfold P_at. apply runs_lift; [| exact H].
  intros e He. apply grid_at_err in He. now subst.
Qed.

Lemma runs_oldP_at (x y : Z) s (Q : T -> Sim T Rng -> Prop) :
  (forall a, grid_at (old_p s) x y = Ok a -> Q a s) -> runs bad (oldP_at x y) s Q.
Proof.
  intros H. unfold oldP_at. apply runs_lift; [| exact H].
  intros e He. apply grid_at_err in He. now subst.
Qed.

Lemma runs_rho_at (c : ascii) s (Q : T -> Sim T Rng -> Prop) :
  (forall a, vec_at (rho s) (char_index c) = Ok a -> Q a s) -> runs bad (rho_at c) s Q.
Proof.
  intros H. unfold rho_at. apply runs_lift; [| exact H].
  intros e He. apply vec_at_err in He. now subst.
Qed.

Lemma runs_V_get (x y dx dy : Z) s (Q : T -> Sim T Rng -> Prop) :
  (forall a, VectorField.get (velocity s) x y dx dy deltas = Ok a -> Q a s) ->
  runs bad (V_get x y dx dy) s Q.
Proof.
  intros H. unfold V_get. apply runs_lift; [| exact H].
  intros e He. apply get_err in He. now subst.
Qed.

Lemma runs_Vf_get (x y dx dy : Z) s (Q : T -> Sim T Rng -> Prop) :
  (forall a, VectorField.get (velocity_flow s) x y dx dy deltas = Ok a -> Q a s) ->
  runs bad (Vf_get x y dx dy) s Q.
Proof.
  intros H. unfold Vf_get. apply runs_lift; [| exact H].
  intros e He. apply get_err in He. now subst.
Qed.

Lemma runs_L_set (x y v : Z) s (Q : unit -> Sim T Rng -> Prop) :
  (forall gr, grid_set (last_use s) x y v = Ok gr -> Q tt (with_last_use s gr)) ->
  runs bad (L_set x y v) s Q.
Proof.
  intros H. unfold runs, L_set. destruct (grid_set _ x y v) as [gr | e] eqn:E.
  - split; [discriminate |]. intros [] s' [= <-]. now apply H.
  - split; [| discriminate]. intros e' [= <-]. apply grid_set_err in E. subst.
    now apply not_bad.
Qed.

Lemma runs_P_set (x y : Z) (v : T) s (Q : unit -> Sim T Rng -> Prop) :
  (forall gr, grid_set (p s) x y v = Ok gr -> Q tt (with_p s gr)) ->
  runs bad (P_set x y v) s Q.
Proof.
  intros H. unfold runs, P_set. destruct (grid_set _ x y v) as [gr | e] eqn:E.
  - split; [discriminate |]. intros [] s' [= <-]. now apply H.
  - split; [| discriminate]. intros e' [= <-]. apply grid_set_err in E. subst.
    now apply not_bad.
Qed.

Lemma runs_F_set (x y : Z) (c : ascii) s (Q : unit -> Sim T Rng -> Prop) :
  (forall gr, grid_set (field_data s) x y c = Ok gr -> Q tt (with_field_data s gr)) ->
  runs bad (F_set x y c) s Q.
Proof.
  intros H. unfold runs, F_set. destruct (grid_set _ x y c) as [gr | e] eqn:E.
  - split; [discriminate |]. intros [] s' [= <-]. now apply H.
  - split; [| discriminate]. intros e' [= <-]. apply grid_set_err in E. subst.
    now apply not_bad.
Qed.

Lemma runs_V_put (x y dx dy : Z) (a : T) s (Q : unit -> Sim T Rng -> Prop) :
  (forall f, VectorField.put (velocity s) x y dx dy deltas a = Ok f ->
             Q tt (with_velocity s f)) ->
  runs bad (V_put x y dx dy a) s Q.
Proof.
  intros H. unfold runs, V_put. destruct (VectorField.put _ _ _ _ _ _ _) as [f | e] eqn:E.
  - split; [discriminate |]. intros [] s' [= <-]. now apply H.
  - split; [| discriminate]. intros e' [= <-]. apply put_err in E. subst.
    now apply not_bad.
Qed.

Lemma runs_V_add (x y dx dy : Z) (a : T) s (Q : unit -> Sim T Rng -> Prop) :
  (forall f b, VectorField.add nadd (velocity s) x y dx dy a deltas = Ok (f, b) ->
               Q tt (with_velocity s f)) ->
  runs bad (V_add x y dx dy a) s Q.
Proof.
  intros H. unfold runs, V_add.
  destruct (VectorField.add _ _ _ _ _ _ _ _) as [[f b] | e] eqn:E.
  - split; [discriminate |]. intros [] s' [= <-]. now apply (H f b).
  - split; [| discriminate]. intros e' [= <-]. apply add_err in E. now apply not_bad.
Qed.

Lemma runs_Vf_add (x y dx dy : Z) (a : T) s (Q : unit -> Sim T Rng -> Prop) :
  (forall f b, VectorField.add nadd (velocity_flow s) x y dx dy a deltas = Ok (f, b) ->
               Q tt (with_velocity_flow s f)) ->
  runs bad (Vf_add x y dx dy a) s Q.
Proof.
  intros H. unfold runs, Vf_add.
  destruct (VectorField.add _ _ _ _ _ _ _ _) as [[f b] | e] eqn:E.
  - split; [discriminate |]. intros [] s' [= <-]. now apply (H f b).
  - split; [| discriminate]. intros e' [= <-]. apply add_err in E. now apply not_bad.
Qed.

Lemma runs_random01 s (Q : T -> Sim T Rng -> Prop) :
  Q (fst (uniform_real01 (rnd s))) (with_rnd s (snd (uniform_real01 (rnd s)))) ->
  runs bad random01 s Q.
Proof.
  intros H. unfold runs, random01. destruct (uniform_real01 (rnd s)) as [u r].
  split; [discriminate |]. intros a s' [= <- <-]. exact H.
Qed.

Lemma runs_arith' {A} (o : option A) s (Q : A -> Sim T Rng -> Prop) :
  (forall a, o = Some a -> Q a s) -> runs bad (arith o) s Q.
Proof. apply runs_arith. now apply not_bad. Qed.

End Primitives.

Lemma fresh_mark (ut : Z) : 1 <= ut < 2 ^ 31 -> fresh ut (to_int (to_size (ut - 1))) = false.
Proof.
  intros H. unfold fresh. rewrite (to_size_small (ut - 1)) by lia.
  rewrite to_int_small by lia. rewrite to_size_small by lia.
  rewrite Z.eqb_refl. now rewrite andb_false_r.
Qed.

Lemma fresh_done (ut : Z) : 1 <= ut < 2 ^ 31 -> fresh ut (to_int ut) = false.
Proof.
  intros H. unfold fresh. rewrite to_int_small by lia. rewrite to_size_small by lia.
  now rewrite Z.ltb_irrefl.
Qed.

Lemma count_row_insert (ut : Z) (row : list Z) (i : nat) (old v : Z) :
  row !! i = Some old ->
  (count_row ut (<[i := v]> row) + (if fresh ut old then 1 else 0)
   = count_row ut row + (if fresh ut v then 1 else 0))%nat.
Proof.
  revert i. induction row as [| l row IH]; intros [| i] H; simpl in *; try discriminate.
  - injection H as ->. destruct (fresh ut old), (fresh ut v); lia.
  - specialize (IH i H). destruct (fresh ut old), (fresh ut v), (fresh ut l); lia.
Qed.

Lemma count_fresh_set (ut : Z) (gr gr' : list (list Z)) (x y old v : Z) :
  grid_at gr x y = Ok old -> grid_set gr x y v = Ok gr' ->
  (count_fresh ut gr' + (if fresh ut old then 1 else 0)
   = count_fresh ut gr + (if fresh ut v then 1 else 0))%nat.
Proof.
  intros Hold Hset. unfold grid_set in Hset. rewrite Hold in Hset. injection Hset as <-.
  apply grid_at_ok in Hold as (_ & _ & row & Hrow & Hcell).
  revert Hrow. generalize (Z.to_nat x) as n. clear x.
  induction gr as [| r gr IH]; intros [| n] Hrow; simpl in *; try discriminate.
  - injection Hrow as ->. pose proof (count_row_insert ut row _ old v Hcell).
    destruct (fresh ut old), (fresh ut v); lia.
  - specialize (IH n Hrow). unfold alter in IH.
    destruct (fresh ut old), (fresh ut v); lia.
Qed.

Lemma count_row_le (ut : Z) (row : list Z) : (count_row ut row <= length row)%nat.
Proof. induction row as [| l row IH]; simpl; [lia |]. destruct (fresh ut l); lia. Qed.

Lemma count_fresh_le (ut : Z) (gr : list (list Z)) : (count_fresh ut gr <= entries gr)%nat.
Proof.
  induction gr as [| row gr IH]; simpl; [lia |].
  pose proof (count_row_le ut row). lia.
Qed.

Section FlowTermination.
Context {T Rng : Type} {NT : Numeric T} {PR : Prng T Rng}.
Implicit Types (s : Sim T Rng).
Local Open Scope sim_scope.

Lemma fuel_only_fuel (e : Error) : fuel_only e -> e = OutOfFuel.
Proof. exact (fun H => H). Qed.

Lemma loop_post_finish (x y : Z) s s' (gr : list (list Z)) (m : Z) :
  ut_ok s -> grid_at (last_use s) x y = Ok m -> fresh (UT s) m = false ->
  grid_set (last_use s) x y (to_int (UT s)) = Ok gr ->
  UT s' = UT s -> rows s' = rows s -> cols s' = cols s ->
  field_data s' = field_data s -> last_use s' = gr -> flow_calls s' = flow_calls s ->
  loop_post x y s s'.
Proof.
  intros Hut Hm Hfm Hgr EU Er Ec EF EL En. unfold loop_post. rewrite EU, Er, Ec, EF, EL, En.
  repeat match goal with |- _ /\ _ => split end; try reflexivity.
  - intros i j. rewrite (grid_at_set _ _ _ _ i j _ Hgr).
    destruct (Z.eqb_spec i x), (Z.eqb_spec j y); simpl; auto.
  - rewrite (grid_at_set _ _ _ _ x y _ Hgr). now rewrite !Z.eqb_refl.
  - pose proof (count_fresh_set (UT s) _ _ _ _ _ _ Hm Hgr) as Hc.
    rewrite Hfm, (fresh_done _ Hut) in Hc. lia.
Qed.

Lemma loop_post_compose (x y : Z) s s1 s2 :
  ut_ok s -> flow_post s s1 -> loop_post x y s1 s2 -> loop_post x y s s2.
Proof.
  intros Hut (EU & Er & Ec & EF & Hmv & Hphi & Hmono)
         (EU' & Er' & Ec' & EF' & Hmv' & Hxy & Hphi' & Hmono').
  rewrite EU in *. unfold loop_post.
  repeat match goal with |- _ /\ _ => split end; try congruence; try lia.
  intros i j. destruct (Hmv' i j) as [Hc | [Hsame | (l & Hl & Hf & Hnew)]]; [auto | |].
  - right. rewrite Hsame. apply Hmv.
  - right. destruct (Hmv i j) as [Hsame | (l0 & Hl0 & Hf0 & Hnew0)].
    + right. exists l. rewrite <- Hsame. auto.
    + rewrite Hnew0 in Hl. injection Hl as <-. rewrite (fresh_done _ Hut) in Hf.
      discriminate.
Qed.

Lemma flow_dirs_runs (fuel' : nat) (rec : Z -> Z -> T -> M (Sim T Rng) flow_result)
  (x y : Z) (lim : T) :
  (forall s nx ny vp l,
     ut_ok s -> out_of_grid (rows s) (cols s) nx ny = false ->
     (exists c, field_at (field_data s) nx ny = Ok c /\ is_wall c = false) ->
     grid_at (last_use s) nx ny = Ok l -> fresh (UT s) l = true ->
     (count_fresh (UT s) (last_use s) <= fuel')%nat ->
     runs fuel_only (rec nx ny vp) s (fun _ s' => flow_post s s')) ->
  forall ds acc s m,
    ut_ok s -> (count_fresh (UT s) (last_use s) <= fuel')%nat ->
    grid_at (last_use s) x y = Ok m -> fresh (UT s) m = false ->
    runs fuel_only (flow_dirs rec x y lim acc ds) s (fun _ s' => loop_post x y s s').
Proof.
  intros Hrec. induction ds as [| [dx dy] ds IH]; intros acc s m Hut Hcnt Hm Hfm; simpl.
  - apply runs_bind, runs_gets. apply runs_bind.
    apply (runs_L_set _ fuel_only_fuel). intros gr Hgr. apply runs_ret.
    now apply (loop_post_finish x y s _ gr m).
  - apply runs_bind, runs_gets. apply runs_bind, runs_gets.
    destruct (out_of_grid _ _ _ _) eqn:Eo; [now apply (IH acc s m) |].
    apply runs_bind, (runs_F_at _ fuel_only_fuel). intros c Hc.
    destruct (is_wall c) eqn:Ew; [now apply (IH acc s m) |].
    apply runs_bind, (runs_L_at _ fuel_only_fuel). intros l Hl.
    apply runs_bind, runs_gets.
    destruct (to_size l <? UT s) eqn:Elt; [| now apply (IH acc s m)].
    apply runs_bind, (runs_V_get _ fuel_only_fuel). intros cap Hcap.
    apply runs_bind, (runs_Vf_get _ fuel_only_fuel). intros flow Hflow.
    destruct (neqb flow cap); [now apply (IH acc s m) |].
    apply runs_bind, (runs_arith' _ fuel_only_fuel). intros d Hd.
    destruct (to_size l =? to_size (UT s - 1)) eqn:Emid.
    + apply runs_bind, (runs_Vf_add _ fuel_only_fuel). intros f b Hf.
      apply runs_bind, (runs_L_set _ fuel_only_fuel). intros gr Hgr. apply runs_ret.
      now apply (loop_post_finish x y s _ gr m).
    + apply runs_bind. eapply runs_weaken.
      { apply (Hrec s (x + dx) (y + dy) _ l); try assumption; [eauto |].
        unfold fresh. now rewrite Elt, Emid. }
      intros [[t prop] fin] s1 Hpost. cbv beta iota.
      pose proof Hpost as (EU & Er & Ec & EF & Hmv & Hphi & Hmono).
      assert (Hut1 : ut_ok s1) by (unfold ut_ok in *; lia).
      assert (Hcnt1 : (count_fresh (UT s1) (last_use s1) <= fuel')%nat)
        by (rewrite EU; lia).
      assert (Hm1 : grid_at (last_use s1) x y = Ok m).
      { destruct (Hmv x y) as [-> | (l0 & Hl0 & Hf0 & _)]; [assumption |].
        congruence. }
      assert (Hfm1 : fresh (UT s1) m = false) by now rewrite EU.
      apply runs_bind, (runs_arith' _ fuel_only_fuel). intros acc' Hacc.
      destruct prop.
      * apply runs_bind, (runs_Vf_add _ fuel_only_fuel). intros f b Hf.
        apply runs_bind, (runs_L_set _ fuel_only_fuel). intros gr Hgr. apply runs_ret.
        apply (loop_post_compose x y s s1); [assumption | assumption |].
        rewrite <- EU in Hgr. now apply (loop_post_finish x y s1 _ gr m).
      * eapply runs_weaken; [now apply (IH acc' s1 m) |].
        intros r s2 Hloop. simpl in Hloop.
        now apply (loop_post_compose x y s s1).
Qed.

Lemma fresh_counted (ut : Z) (gr : list (list Z)) (x y l : Z) :
  grid_at gr x y = Ok l -> fresh ut l = true -> (1 <= count_fresh ut gr)%nat.
Proof.
  intros Hl Hf.
  destruct (grid_set_ok gr x y (ut - 1) l Hl) as [gr0 Hgr0].
  pose proof (count_fresh_set ut gr gr0 x y l (ut - 1) Hl Hgr0) as Hc0.
  rewrite Hf in Hc0. unfold fresh in Hc0.
  rewrite Z.eqb_refl, andb_false_r in Hc0. lia.
Qed.

(** Every call of [propagate_flow] on a fresh fluid cell returns when the
    fuel covers the fresh cells, and it only turns fresh stamps into the
    current [UT]. *)
Lemma propagate_flow_runs (fuel : nat) :
  forall s x y lim l0,
    ut_ok s -> out_of_grid (rows s) (cols s) x y = false ->
    (exists c, field_at (field_data s) x y = Ok c /\ is_wall c = false) ->
    grid_at (last_use s) x y = Ok l0 -> fresh (UT s) l0 = true ->
    (count_fresh (UT s) (last_use s) <= fuel)%nat ->
    runs fuel_only (propagate_flow fuel x y lim) s (fun _ s' => flow_post s s').
Proof.
  induction fuel as [| fuel' IH]; intros s x y lim l0 Hut Hin (c & Hc & Hcw) Hl0 Hf0 Hcnt.
  - pose proof (fresh_counted _ _ _ _ _ Hl0 Hf0). lia.
  - cbn [propagate_flow].
    apply runs_bind, runs_modify. apply runs_bind, runs_gets.
    apply runs_bind, (runs_L_set _ fuel_only_fuel). intros gr Hgr. simpl in Hgr.
    set (s2 := with_last_use (with_flow_calls s (S (flow_calls s))) gr).
    apply runs_bind, runs_gets. apply runs_bind, runs_gets.
    replace (out_of_grid (rows s2) (cols s2) x y) with false by (symmetry; exact Hin).
    apply runs_bind, (runs_F_at _ fuel_only_fuel). intros c' Hc'.
    simpl in Hc'. rewrite Hc in Hc'. injection Hc' as <-. rewrite Hcw.
    pose proof (count_fresh_set (UT s) _ _ _ _ _ _ Hl0 Hgr) as Hmark.
    rewrite Hf0, (fresh_mark _ Hut) in Hmark.
    eapply runs_weaken.
    { apply (flow_dirs_runs fuel' (propagate_flow fuel') x y lim IH deltas nzero s2
               (to_int (to_size (UT s - 1)))).
      - exact Hut.
      - simpl. lia.
      - simpl. rewrite (grid_at_set _ _ _ _ x y _ Hgr). now rewrite !Z.eqb_refl.
      - simpl. now apply fresh_mark. }
    intros r s' (EU & Er & Ec & EF & Hmv & Hxy & Hphi & Hmono). simpl in *.
    unfold flow_post. repeat match goal with |- _ /\ _ => split end;
      try assumption; try lia.
    intros i j. destruct (Hmv i j) as [[-> ->] | Hrest].
    + right. exists l0. auto.
    + rewrite (grid_at_set _ _ _ _ i j _ Hgr) in Hrest.
      destruct ((i =? x) && (j =? y)) eqn:E.
      * apply andb_true_iff in E as [E1 E2]. apply Z.eqb_eq in E1, E2. subst.
        right. exists l0. auto.
      * destruct Hrest as [Hsame | Hmoved]; auto.
Qed.

End FlowTermination.

Lemma runs_foldM {St A B} (bad : Error -> Prop) (I : A -> St -> Prop)
  (f : A -> B -> M St A) (l : list B) :
  (forall a b s, In b l -> I a s -> runs bad (f a b) s I) ->
  forall a s, I a s -> runs bad (foldM f l a) s I.
Proof.
  induction l as [| b l IH]; intros H a s Ha; simpl.
  - now apply runs_ret.
  - apply runs_bind. eapply runs_weaken; [apply H; [now left | exact Ha] |].
    intros a' s' Ha'. apply IH; [| exact Ha'].
    intros a0 b0 s0 Hin. apply H. now right.
Qed.

Lemma Forall_grid {A} (P : A -> Prop) (gr : list (list A)) :
  Forall (Forall P) gr <-> (forall i j a, grid_at gr i j = Ok a -> P a).
Proof.
  split.
  - intros H i j a Ha. apply grid_at_ok in Ha as (_ & _ & row & Hrow & Hcell).
    rewrite Forall_lookup in H. specialize (H _ _ Hrow).
    rewrite Forall_lookup in H. exact (H _ _ Hcell).
  - intros H. apply Forall_lookup. intros i row Hrow.
    apply Forall_lookup. intros j a Hcell.
    apply (H (Z.of_nat i) (Z.of_nat j)). apply grid_at_ok.
    split; [lia |]. split; [lia |]. exists row. now rewrite !Nat2Z.id.
Qed.

Lemma entries_shape {A} (gr : list (list A)) (r c : Z) :
  0 <= r -> 0 <= c -> grid_shape gr r c -> entries gr = Z.to_nat (r * c).
Proof.
  intros Hr Hc [Hl Hrows]. rewrite Z2Nat.inj_mul by assumption. rewrite <- Hl. clear Hl.
  induction Hrows as [| row gr Hrow _ IH]; simpl; [reflexivity |].
  rewrite IH, Hrow. lia.
Qed.

Section FlowSweep.
Context {T Rng : Type} {NT : Numeric T} {PR : Prng T Rng}.
Implicit Types (s : Sim T Rng).
Local Open Scope sim_scope.

Lemma settled_fresh (ut l : Z) :
  1 <= ut < 2 ^ 31 -> 0 <= l <= ut -> l <> ut - 1 -> (to_size l =? ut) = false ->
  fresh ut l = true.
Proof.
  intros Hut Hl Hne Hguard. rewrite to_size_small in Hguard by lia.
  unfold fresh. rewrite !to_size_small by lia.
  apply andb_true_iff. split; [lia |]. apply negb_true_iff. lia.
Qed.

Lemma flow_sweep_cell_runs (fuel : nat) (s1 : Sim T Rng) (prop : bool) (c : Z * Z) s :
  ut_ok s1 -> rows s1 < 2 ^ 64 -> cols s1 < 2 ^ 64 ->
  (entries (last_use s1) <= fuel)%nat ->
  In c (cells (rows s1) (cols s1)) -> sweep_inv s1 s ->
  runs fuel_only (flow_sweep_cell fuel prop c) s (fun _ s' => sweep_inv s1 s').
Proof.
  intros Hut Hr Hc Hfuel Hin Hinv. destruct c as [x y].
  apply in_cells in Hin as [Hx Hy].
  pose proof Hinv as (EU & Er & Ec & EF & Hset & Hphi & Hmono).
  unfold flow_sweep_cell.
  apply runs_bind, (runs_F_at _ fuel_only_fuel). intros ch Hch.
  destruct (is_wall ch) eqn:Ew; [now apply runs_ret |].
  apply runs_bind, (runs_L_at _ fuel_only_fuel). intros l Hl.
  apply runs_bind, runs_gets.
  destruct (to_size l =? UT s) eqn:Eg; [now apply runs_ret |].
  apply runs_bind. eapply runs_weaken.
  { apply (propagate_flow_runs fuel s x y (nof_int 1) l).
    - unfold ut_ok in *. lia.
    - rewrite Er, Ec. unfold out_of_grid. rewrite !to_size_small by lia.
      repeat (apply orb_false_iff; split); lia.
    - eauto.
    - exact Hl.
    - rewrite EU in *. destruct (Hset x y l Hl). now apply settled_fresh.
    - rewrite EU. pose proof (count_fresh_le (UT s1) (last_use s1)). lia. }
  intros [[t pr] fin] s' (EU' & Er' & Ec' & EF' & Hmv & Hphi' & Hmono'). cbv beta iota.
  apply runs_ret. rewrite EU in *. unfold sweep_inv.
  repeat match goal with |- _ /\ _ => split end; try congruence; try lia.
  intros i j l' Hl'. destruct (Hmv i j) as [Hsame | (l0 & _ & _ & Hnew)].
  - rewrite Hsame in Hl'. now apply (Hset i j).
  - rewrite Hnew in Hl'. injection Hl' as <-. unfold ut_ok in Hut.
    rewrite to_int_small by lia. lia.
Qed.

(** C7: a sweep of phase C started with every stamp between [0] and [UT]
    never runs out of fuel once the fuel covers the cells of the grid, so
    every call of [propagate_flow] in it returns; and the sweep enters
    [propagate_flow] at most once per cell, which bounds the iterations of
    the direction loop by four times the number of cells. *)
Theorem flow_sweep_terminates (fuel : nat) (s : Sim T Rng) :
  0 <= UT s -> UT s + 2 < 2 ^ 31 ->
  0 <= rows s < 2 ^ 64 -> 0 <= cols s < 2 ^ 64 ->
  grid_shape (last_use s) (rows s) (cols s) ->
  Forall (Forall (fun l => 0 <= l <= UT s)) (last_use s) ->
  (Z.to_nat (rows s * cols s) <= fuel)%nat ->
  flow_sweep fuel s <> Err OutOfFuel /\
  (forall prop s', flow_sweep fuel s = Ok (prop, s') ->
     (flow_calls s' <= flow_calls s + Z.to_nat (rows s * cols s))%nat /\
     ((flow_calls s' - flow_calls s) * length deltas
      <= 4 * Z.to_nat (rows s * cols s))%nat /\
     UT s' = UT s + 2 /\
     Forall (Forall (fun l => 0 <= l <= UT s')) (last_use s')).
Proof.
  intros Hut0 Hut1 Hr Hc Hshape Hstamps Hfuel.
  rewrite <- (entries_shape _ _ _ (proj1 Hr) (proj1 Hc) Hshape) in *.
  set (s1 := with_UT s (to_size (UT s + 2))).
  assert (EU1 : UT s1 = UT s + 2) by (simpl; apply to_size_small; lia).
  assert (Hok1 : ut_ok s1) by (unfold ut_ok; lia).
  assert (Hinv1 : sweep_inv s1 s1).
  { unfold sweep_inv. repeat match goal with |- _ /\ _ => split end;
      try reflexivity.
    intros i j l Hl. rewrite EU1. simpl in Hl.
    pose proof (proj1 (Forall_grid _ _) Hstamps i j l Hl) as Hb. cbv beta in Hb. lia. }
  assert (Hruns : runs fuel_only (flow_sweep fuel) s (fun _ s' => sweep_inv s1 s')).
  { unfold flow_sweep. apply runs_bind, runs_modify. fold s1.
    apply runs_bind, runs_gets. apply runs_bind, runs_gets.
    apply (runs_foldM fuel_only (fun _ s' => sweep_inv s1 s')); [| exact Hinv1].
    intros a c s' Hin Hinv. now apply flow_sweep_cell_runs. }
  destruct Hruns as [Hbad Hpost]. split.
  - intros E. exact (Hbad _ E eq_refl).
  - intros prop s' Hs'. specialize (Hpost prop s' Hs').
    destruct Hpost as (EU & _ & _ & _ & Hset & Hphi & Hmono).
    pose proof (count_fresh_le (UT s1) (last_use s1)) as Hle. simpl in Hle, Hphi, Hmono.
    assert (Hcalls : (flow_calls s' <= flow_calls s + entries (last_use s))%nat) by lia.
    split; [exact Hcalls |]. split; [simpl; lia |]. split; [congruence |].
    apply Forall_grid. intros i j l Hl. destruct (Hset i j l Hl). lia.
Qed.

End FlowSweep.

Module FlowFacts.
Import FixedPoint Q16.

Lemma flow_sweep_terminates_witness :
  flow_sweep 12 (engine_or_blank column_input) <> Err OutOfFuel /\
  (forall prop s', flow_sweep 12 (engine_or_blank column_input) = Ok (prop, s') ->
     (flow_calls s' <= flow_calls (engine_or_blank column_input)
                       + Z.to_nat (rows (engine_or_blank column_input)
                                   * cols (engine_or_blank column_input)))%nat /\
     ((flow_calls s' - flow_calls (engine_or_blank column_input)) * length deltas
      <= 4 * Z.to_nat (rows (engine_or_blank column_input)
                       * cols (engine_or_blank column_input)))%nat /\
     UT s' = UT (engine_or_blank column_input) + 2 /\
     Forall (Forall (fun l => 0 <= l <= UT s')) (last_use s')).
Proof.
  apply (flow_sweep_terminates 12 (engine_or_blank column_input)).
  - vm_compute. discriminate.
  - vm_compute. reflexivity.
  - vm_compute. split; [discriminate | reflexivity].
  - vm_compute. split; [discriminate | reflexivity].
  - vm_compute. repeat constructor.
  - vm_compute. repeat constructor; discriminate.
  - vm_compute. lia.
Defined.

End FlowFacts.

(** ** Walls are never written *)

Lemma any_error_fuel (e : Error) : any_error e -> e = OutOfFuel.
Proof. intros []. Qed.

Lemma cell_set_cell {T} (f : VectorField.field T) (x y x' y' : Z)
  (a a0 : VectorField.arr4 T) :
  VectorField.cell f x y = Some a0 ->
  VectorField.cell (VectorField.set_cell f x y a) x' y'
  = if (x' =? x) && (y' =? y) then Some a else VectorField.cell f x' y'.
Proof.
  unfold VectorField.cell, VectorField.set_cell.
  destruct (Z.ltb_spec x 0); [discriminate |].
  destruct (Z.ltb_spec y 0); [discriminate |]. simpl.
  destruct (f !! Z.to_nat x) as [row |] eqn:Hrow; [| discriminate]. intros Hcell.
  destruct (Z.ltb_spec x' 0); [now destruct (x' =? x) eqn:E; [lia |] |].
  destruct (Z.ltb_spec y' 0);
    [now destruct (y' =? y) eqn:E; [lia | rewrite andb_false_r] |]. simpl.
  destruct (Z.eqb_spec x' x) as [-> | Hne]; simpl.
  - rewrite list_lookup_alter_eq, Hrow. simpl.
    destruct (Z.eqb_spec y' y) as [-> | Hney].
    + rewrite list_lookup_insert_eq; [reflexivity |].
      apply lookup_lt_Some in Hcell. lia.
    + rewrite list_lookup_insert_ne by lia. reflexivity.
  - rewrite list_lookup_alter_ne by lia. reflexivity.
Qed.

Lemma cell_init {T} (z : T) (r c x y : Z) :
  VectorField.cell (VectorField.init z r c) x y
  = if (0 <=? x) && (x <? r) && (0 <=? y) && (y <? c)
    then Some (VectorField.arr_fill z) else None.
Proof.
  unfold VectorField.cell, VectorField.init.
  destruct (Z.ltb_spec x 0); [now destruct (0 <=? x) eqn:E; [lia |] |].
  destruct (Z.ltb_spec y 0).
  { simpl. destruct (0 <=? y) eqn:E; [lia |]. now rewrite andb_false_r. }
  simpl. destruct (Z.ltb_spec x r).
  - rewrite lookup_replicate_2 by lia.
    destruct (Z.ltb_spec y c).
    + rewrite lookup_replicate_2 by lia.
      now replace (0 <=? x) with true by lia; replace (0 <=? y) with true by lia.
    + rewrite (proj1 (lookup_replicate_None _ _ _)) by lia.
      replace (y <? c) with false by lia. now rewrite andb_false_r.
  - rewrite (proj1 (lookup_replicate_None _ _ _)) by lia.
    replace (x <? r) with false by lia. now rewrite andb_false_r.
Qed.

Section Frames.
Context {T : Type}.
Implicit Types (f : VectorField.field T).

Lemma put_frame f f' (x y dx dy : Z) ds (a : T) (x' y' : Z) :
  VectorField.put f x y dx dy ds a = Ok f' ->
  (x' = x /\ y' = y) \/ VectorField.cell f' x' y' = VectorField.cell f x' y'.
Proof.
  unfold VectorField.put. destruct (VectorField.cell f x y) as [a0 |] eqn:Hc; [| discriminate].
  destruct (VectorField.arr_get a0 _); [| discriminate]. intros [= <-].
  rewrite (cell_set_cell f x y x' y' _ a0 Hc).
  destruct (Z.eqb_spec x' x), (Z.eqb_spec y' y); simpl; auto.
Qed.

Lemma add_frame (plus : T -> T -> option T) f f' (x y dx dy : Z) ds (a b : T)
  (x' y' : Z) :
  VectorField.add plus f x y dx dy a ds = Ok (f', b) ->
  (x' = x /\ y' = y) \/ VectorField.cell f' x' y' = VectorField.cell f x' y'.
Proof.
  unfold VectorField.add. destruct (negb _); [discriminate |].
  destruct (_ =? _)%nat; [discriminate |].
  destruct (VectorField.cell f x y) as [a0 |] eqn:Hc; [| discriminate].
  destruct (VectorField.arr_get a0 _); [| discriminate].
  destruct (plus _ _); [| discriminate]. intros [= <- <-].
  rewrite (cell_set_cell f x y x' y' _ a0 Hc).
  destruct (Z.eqb_spec x' x), (Z.eqb_spec y' y); simpl; auto.
Qed.

Lemma grid_set_frame {A} (gr gr' : list (list A)) (x y : Z) (a : A) (x' y' : Z) :
  grid_set gr x y a = Ok gr' ->
  (x' = x /\ y' = y) \/ grid_at gr' x' y' = grid_at gr x' y'.
Proof.
  intros H. rewrite (grid_at_set _ _ _ _ x' y' _ H).
  destruct (Z.eqb_spec x' x), (Z.eqb_spec y' y); simpl; auto.
Qed.
End Frames.

Ltac rd_read :=
  lazymatch goal with
  | |- runs _ (gets _) _ _ => apply runs_gets
  | |- runs _ (F_at _ _) _ _ => apply (runs_F_at _ any_error_fuel); intros ? ?
  | |- runs _ (L_at _ _) _ _ => apply (runs_L_at _ any_error_fuel); intros ? ?
  | |- runs _ (P_at _ _) _ _ => apply (runs_P_at _ any_error_fuel); intros ? ?
  | |- runs _ (oldP_at _ _) _ _ => apply (runs_oldP_at _ any_error_fuel); intros ? ?
  | |- runs _ (rho_at _) _ _ => apply (runs_rho_at _ any_error_fuel); intros ? ?
  | |- runs _ (V_get _ _ _ _) _ _ => apply (runs_V_get _ any_error_fuel); intros ? ?
  | |- runs _ (Vf_get _ _ _ _) _ _ => apply (runs_Vf_get _ any_error_fuel); intros ? ?
  | |- runs _ (arith _) _ _ => apply (runs_arith' _ any_error_fuel); intros ? ?
  end.

(** Walk through the reads and the branches at the front of a member
    function. *)
Ltac rd :=
  repeat lazymatch goal with
    | |- runs _ (bind _ _) _ _ => apply runs_bind; rd_read
    | |- runs _ (if ?b then _ else _) _ _ => destruct b eqn:?
    | |- runs _ (match ?r with (_, _) => _ end) _ _ => destruct r
    end;
  cbv beta.

Section WallsKept.
Context {T Rng : Type} {NT : Numeric T} {PR : Prng T Rng}.
Variable s0 : Sim T Rng.
Implicit Types (s : Sim T Rng).
Local Open Scope sim_scope.

Lemma runs_any {A} (m : M (Sim T Rng) A) s (Q : A -> Sim T Rng -> Prop) :
  (forall a s', m s = Ok (a, s') -> Q a s') -> runs any_error m s Q.
Proof. intros H. split; [intros e _ [] | exact H]. Qed.

Lemma wk_refl : walls_kept s0 s0.
Proof. unfold walls_kept. repeat split; auto. Qed.

Lemma wk_nonwall s (x y : Z) (c : ascii) :
  walls_kept s0 s -> field_at (field_data s) x y = Ok c -> is_wall c = false ->
  ~ wall s0 x y.
Proof.
  intros (_ & _ & Hw & _) Hc Hnw H0. apply Hw in H0. unfold wall in H0.
  apply field_at_wall in H0. rewrite Hc in H0. injection H0 as ->. discriminate.
Qed.

Lemma wk_last_use s (x y v : Z) gr :
  walls_kept s0 s -> ~ wall s0 x y -> grid_set (last_use s) x y v = Ok gr ->
  walls_kept s0 (with_last_use s gr).
Proof.
  intros (Er & Ec & Hw & Hk) Hnw Hgr. unfold walls_kept, wall in *. simpl.
  repeat match goal with |- _ /\ _ => split end; try assumption.
  intros x' y' Hw0. destruct (Hk x' y' Hw0) as (? & ? & ? & HL).
  repeat match goal with |- _ /\ _ => split end; try assumption.
  destruct (grid_set_frame _ _ x y v x' y' Hgr) as [[-> ->] | ->]; [contradiction | exact HL].
Qed.

Lemma wk_p s (x y : Z) (v : T) gr :
  walls_kept s0 s -> ~ wall s0 x y -> grid_set (p s) x y v = Ok gr ->
  walls_kept s0 (with_p s gr).
Proof.
  intros (Er & Ec & Hw & Hk) Hnw Hgr. unfold walls_kept, wall in *. simpl.
  repeat match goal with |- _ /\ _ => split end; try assumption.
  intros x' y' Hw0. destruct (Hk x' y' Hw0) as (HP & ? & ? & ?).
  repeat match goal with |- _ /\ _ => split end; try assumption.
  destruct (grid_set_frame _ _ x y v x' y' Hgr) as [[-> ->] | ->]; [contradiction | exact HP].
Qed.

Lemma wk_velocity s (x y : Z) (f : VectorField.field T) :
  walls_kept s0 s -> ~ wall s0 x y ->
  (forall x' y', (x' = x /\ y' = y) \/
                 VectorField.cell f x' y' = VectorField.cell (velocity s) x' y') ->
  walls_kept s0 (with_velocity s f).
Proof.
  intros (Er & Ec & Hw & Hk) Hnw Hf. unfold walls_kept, wall in *. simpl.
  repeat match goal with |- _ /\ _ => split end; try assumption.
  intros x' y' Hw0. destruct (Hk x' y' Hw0) as (? & HV & ? & ?).
  repeat match goal with |- _ /\ _ => split end; try assumption.
  destruct (Hf x' y') as [[-> ->] | ->]; [contradiction | exact HV].
Qed.

Lemma wk_velocity_flow s (x y : Z) (f : VectorField.field T) :
  walls_kept s0 s -> ~ wall s0 x y ->
  (forall x' y', (x' = x /\ y' = y) \/
                 VectorField.cell f x' y' = VectorField.cell (velocity_flow s) x' y') ->
  walls_kept s0 (with_velocity_flow s f).
Proof.
  intros (Er & Ec & Hw & Hk) Hnw Hf. unfold walls_kept, wall in *. simpl.
  repeat match goal with |- _ /\ _ => split end; try assumption.
  intros x' y' Hw0. destruct (Hk x' y' Hw0) as (? & ? & HV & ?).
  repeat match goal with |- _ /\ _ => split end; try assumption.
  destruct (Hf x' y') as [[-> ->] | ->]; [contradiction | exact HV].
Qed.

Lemma wk_field s (x y : Z) (c : ascii) fd :
  walls_kept s0 s -> ~ wall s0 x y -> c <> "#"%char ->
  grid_set (field_data s) x y c = Ok fd ->
  walls_kept s0 (with_field_data s fd).
Proof.
  intros (Er & Ec & Hw & Hk) Hnw Hc Hfd. unfold walls_kept, wall in *. simpl.
  repeat match goal with |- _ /\ _ => split end; try assumption.
  intros x' y'. rewrite (grid_at_set _ _ _ _ x' y' _ Hfd).
  destruct ((x' =? x) && (y' =? y)) eqn:E; [| apply Hw].
  apply andb_true_iff in E as [E1 E2]. apply Z.eqb_eq in E1, E2. subst.
  split; [intros [= ->]; contradiction | intros H; contradiction].
Qed.

Lemma wk_flow_reset s :
  walls_kept s0 s -> flow_clear s0 ->
  walls_kept s0 (with_velocity_flow s (VectorField.init nzero (rows s) (cols s))).
Proof.
  intros (Er & Ec & Hw & Hk) Hclear. unfold walls_kept, wall in *. simpl.
  repeat match goal with |- _ /\ _ => split end; try assumption.
  intros x' y' Hw0. destruct (Hk x' y' Hw0) as (? & ? & ? & ?).
  repeat match goal with |- _ /\ _ => split end; try assumption.
  rewrite Er, Ec. symmetry. now apply Hclear.
Qed.

(** *** [swap_with] and the rotation *)

Lemma swap_with_walls (pp : ParticleParams T) (x y : Z) s :
  walls_kept s0 s -> ~ wall s0 x y -> pp_type pp <> "#"%char ->
  runs any_error (swap_with pp x y) s
    (fun pp' s' => walls_kept s0 s' /\ pp_type pp' <> "#"%char).
Proof.
  intros Hk Hnw Hpp. unfold swap_with. rd.
  apply runs_bind, (runs_F_set _ any_error_fuel). intros fd Hfd.
  pose proof (wk_field s x y _ fd Hk Hnw Hpp Hfd) as Hk1. rd.
  apply runs_bind, (runs_P_set _ any_error_fuel). intros gr Hgr.
  pose proof (wk_p _ x y _ gr Hk1 Hnw Hgr) as Hk2.
  apply runs_bind, runs_any. intros arr s' Ha. apply lift_ok in Ha as [Ha ->].
  apply runs_bind, runs_any. intros [] s' Hs.
  destruct (VectorField.set_array _ x y arr) as [f |] eqn:Hf; [| discriminate].
  injection Hs as <-. apply runs_ret. split.
  - apply (wk_velocity _ x y f Hk2 Hnw). intros x' y'.
    unfold VectorField.set_array in Hf.
    destruct (VectorField.cell _ x y) as [a0 |] eqn:Hc; [| discriminate].
    injection Hf as <-. rewrite (cell_set_cell _ x y x' y' _ a0 Hc).
    destruct (Z.eqb_spec x' x), (Z.eqb_spec y' y); simpl; auto.
  - simpl. intros ->.
    apply Hnw. destruct Hk as (_ & _ & Hw & _). apply Hw. unfold wall.
    now apply field_at_wall.
Qed.

Lemma rotate_walls (x y tx ty : Z) s :
  walls_kept s0 s -> ~ wall s0 x y -> ~ wall s0 tx ty ->
  runs any_error (rotate x y tx ty) s (fun _ s' => walls_kept s0 s').
Proof.
  intros Hk Hxy Ht. unfold rotate.
  apply runs_bind. eapply runs_weaken.
  { apply (swap_with_walls pp_empty x y s Hk Hxy). discriminate. }
  intros pp1 s1 [Hk1 Hpp1]. cbv beta.
  apply runs_bind. eapply runs_weaken; [exact (swap_with_walls pp1 tx ty s1 Hk1 Ht Hpp1) |].
  intros pp2 s2 [Hk2 Hpp2]. cbv beta.
  eapply runs_weaken; [exact (swap_with_walls pp2 x y s2 Hk2 Hxy Hpp2) |].
  intros pp3 s3 [Hk3 _]. exact Hk3.
Qed.

(** *** Writes at a cell that is not a wall *)

Lemma L_set_walls (x y v : Z) s :
  walls_kept s0 s -> ~ wall s0 x y ->
  runs any_error (L_set x y v) s (fun _ s' => walls_kept s0 s').
Proof.
  intros Hk Hnw. apply (runs_L_set _ any_error_fuel). intros gr Hgr.
  now apply (wk_last_use s x y v).
Qed.

Lemma P_set_walls (x y : Z) (v : T) s :
  walls_kept s0 s -> ~ wall s0 x y ->
  runs any_error (P_set x y v) s (fun _ s' => walls_kept s0 s').
Proof.
  intros Hk Hnw. apply (runs_P_set _ any_error_fuel). intros gr Hgr.
  now apply (wk_p s x y v).
Qed.

Lemma V_put_walls (x y dx dy : Z) (v : T) s :
  walls_kept s0 s -> ~ wall s0 x y ->
  runs any_error (V_put x y dx dy v) s (fun _ s' => walls_kept s0 s').
Proof.
  intros Hk Hnw. apply (runs_V_put _ any_error_fuel). intros f Hf.
  apply (wk_velocity s x y f Hk Hnw). intros x' y'. eapply put_frame, Hf.
Qed.

Lemma V_add_walls (x y dx dy : Z) (v : T) s :
  walls_kept s0 s -> ~ wall s0 x y ->
  runs any_error (V_add x y dx dy v) s (fun _ s' => walls_kept s0 s').
Proof.
  intros Hk Hnw. apply (runs_V_add _ any_error_fuel). intros f b Hf.
  apply (wk_velocity s x y f Hk Hnw). intros x' y'. eapply add_frame, Hf.
Qed.

Lemma Vf_add_walls (x y dx dy : Z) (v : T) s :
  walls_kept s0 s -> ~ wall s0 x y ->
  runs any_error (Vf_add x y dx dy v) s (fun _ s' => walls_kept s0 s').
Proof.
  intros Hk Hnw. apply (runs_Vf_add _ any_error_fuel). intros f b Hf.
  apply (wk_velocity_flow s x y f Hk Hnw). intros x' y'. eapply add_frame, Hf.
Qed.

Lemma modify_walls (f : Sim T Rng -> Sim T Rng) s :
  walls_kept s0 (f s) -> runs any_error (modify f) s (fun _ s' => walls_kept s0 s').
Proof. intros H. now apply runs_modify. Qed.

Lemma random01_walls s :
  walls_kept s0 s ->
  runs any_error random01 s
    (fun u s' => walls_kept s0 s' /\ u = fst (uniform_real01 (rnd s))).
Proof. intros H. apply (runs_random01 _). split; [exact H | reflexivity]. Qed.

End WallsKept.

(** One more statement of a member function: run something that keeps the
    walls, then go on from the state it leaves. *)
Tactic Notation "wk_bind" uconstr(H) :=
  lazymatch goal with
  | |- runs _ (bind _ _) _ _ =>
      apply runs_bind; eapply runs_weaken;
      [ eapply H; eauto using wk_nonwall | intros ? ? ?; cbv beta in * ]
  end.


Section WallsPropagation.
Context {T Rng : Type} {NT : Numeric T} {PR : Prng T Rng}.
Variable s0 : Sim T Rng.
Implicit Types (s : Sim T Rng).
Local Open Scope sim_scope.

Lemma flow_dirs_walls (rec : Z -> Z -> T -> M (Sim T Rng) flow_result) (x y : Z) (lim : T) :
  ~ wall s0 x y ->
  (forall s nx ny vp, walls_kept s0 s -> ~ wall s0 nx ny ->
     runs any_error (rec nx ny vp) s (fun _ s' => walls_kept s0 s')) ->
  forall ds acc s, walls_kept s0 s ->
    runs any_error (flow_dirs rec x y lim acc ds) s (fun _ s' => walls_kept s0 s').
Proof.
  intros Hxy Hrec. induction ds as [| [dx dy] ds IH]; intros acc s Hk; simpl.
  - rd. wk_bind (L_set_walls s0). now apply runs_ret.
  - rd; try (now apply IH).
    + wk_bind (Vf_add_walls s0). wk_bind (L_set_walls s0). now apply runs_ret.
    + wk_bind Hrec. rd.
      * wk_bind (Vf_add_walls s0). wk_bind (L_set_walls s0). now apply runs_ret.
      * now apply IH.
Qed.

Lemma propagate_flow_walls (fuel : nat) :
  forall s x y lim, walls_kept s0 s -> ~ wall s0 x y ->
    runs any_error (propagate_flow fuel x y lim) s (fun _ s' => walls_kept s0 s').
Proof.
  induction fuel as [| fuel IH]; intros s x y lim Hk Hxy; cbn [propagate_flow].
  - apply runs_any. discriminate.
  - wk_bind (modify_walls s0). rd. wk_bind (L_set_walls s0). rd; try (now apply runs_ret).
    apply flow_dirs_walls; auto.
Qed.

Lemma stop_blocked_walls (x y : Z) (ds : list (Z * Z)) s :
  walls_kept s0 s ->
  runs any_error (stop_blocked x y ds) s (fun _ s' => walls_kept s0 s').
Proof.
  intros Hk. induction ds as [| [dx dy] ds IH]; simpl.
  - now apply runs_ret.
  - rd; try assumption. now apply runs_ret.
Qed.

Lemma stop_dirs_walls (rec : Z -> Z -> M (Sim T Rng) unit) (x y : Z) :
  (forall s nx ny, walls_kept s0 s -> ~ wall s0 nx ny ->
     runs any_error (rec nx ny) s (fun _ s' => walls_kept s0 s')) ->
  forall ds s, walls_kept s0 s ->
    runs any_error (stop_dirs rec x y ds) s (fun _ s' => walls_kept s0 s').
Proof.
  intros Hrec. induction ds as [| [dx dy] ds IH]; intros s Hk; simpl.
  - now apply runs_ret.
  - rd; try (now apply IH). wk_bind Hrec. now apply IH.
Qed.

Lemma propagate_stop_walls (fuel : nat) :
  forall s x y force, walls_kept s0 s -> ~ wall s0 x y ->
    runs any_error (propagate_stop fuel x y force) s (fun _ s' => walls_kept s0 s').
Proof.
  induction fuel as [| fuel IH]; intros s x y force Hk Hxy; cbn [propagate_stop].
  - apply runs_any. discriminate.
  - apply runs_bind. apply runs_weaken with (Q := fun _ s' => walls_kept s0 s').
    { destruct force; [apply runs_ret; exact Hk | now apply stop_blocked_walls]. }
    intros blocked s1 Hk1. cbv beta. destruct blocked; [now apply runs_ret |].
    rd. wk_bind (L_set_walls s0). apply stop_dirs_walls; auto.
Qed.

Lemma move_prob_dirs_walls (x y : Z) (ds : list (Z * Z)) (sum : T) s :
  walls_kept s0 s ->
  runs any_error (move_prob_dirs x y sum ds) s (fun _ s' => walls_kept s0 s').
Proof.
  intros Hk. revert sum. induction ds as [| [dx dy] ds IH]; intros sum; simpl.
  - now apply runs_ret.
  - rd; auto.
Qed.

End WallsPropagation.

Section WallsMove.
Context {T Rng : Type} {NT : Numeric T} {PR : Prng T Rng}.
Context {NL : NumericLaws T} {PL : PrngLaws T Rng}.
Variable s0 : Sim T Rng.
Implicit Types (s : Sim T Rng).
Local Open Scope sim_scope.

Lemma thresholds_nil (x y : Z) (sum : T) : thresholds_ok s0 x y [] sum [] sum.
Proof. unfold thresholds_ok. repeat split; auto. Qed.

Lemma thresholds_skip (x y : Z) (d : Z * Z) ds (sum : T) ths total :
  thresholds_ok s0 x y ds sum ths total ->
  thresholds_ok s0 x y (d :: ds) sum (nzero :: ths) total.
Proof.
  intros (HF & Ht & Hn). unfold thresholds_ok. split; [| split].
  - constructor; auto.
  - destruct Ht; [now left | right; now right].
  - exact Hn.
Qed.

Lemma thresholds_keep (x y : Z) (d : Z * Z) ds (sum : T) ths total :
  ~ wall s0 (x + fst d) (y + snd d) ->
  thresholds_ok s0 x y ds sum ths total ->
  thresholds_ok s0 x y (d :: ds) sum (sum :: ths) total.
Proof.
  intros Hnw (HF & Ht & Hn). unfold thresholds_ok. split; [| split].
  - constructor; auto.
  - destruct Ht; [right; now left | right; now right].
  - exact Hn.
Qed.

Lemma thresholds_add (x y : Z) (d : Z * Z) ds (sum w sum' : T) ths total :
  ~ wall s0 (x + fst d) (y + snd d) ->
  nlt w nzero = false -> nadd sum w = Some sum' ->
  thresholds_ok s0 x y ds sum' ths total ->
  thresholds_ok s0 x y (d :: ds) sum (sum' :: ths) total.
Proof.
  intros Hnw Hw Hadd (HF & Ht & Hn). unfold thresholds_ok. split; [| split].
  - constructor; auto.
  - right. destruct Ht as [-> | Ht]; [now left | now right].
  - intros Hs. apply Hn. exact (nadd_nonneg sum w sum' Hs Hw Hadd).
Qed.

Lemma move_thresholds_ok (x y : Z) :
  forall ds sum s, walls_kept s0 s ->
    runs any_error (move_thresholds x y sum ds) s
      (fun r s' => s' = s /\ thresholds_ok s0 x y ds sum (fst r) (snd r)).
Proof.
  induction ds as [| [dx dy] ds IH]; intros sum s Hk; simpl.
  - apply runs_ret. split; [reflexivity | apply thresholds_nil].
  - assert (Hskip : runs any_error
              (bind (move_thresholds x y sum ds)
                 (fun r => match r with (ths, total) => ret (nzero :: ths, total) end)) s
              (fun r s' => s' = s /\
                 thresholds_ok s0 x y ((dx, dy) :: ds) sum (fst r) (snd r))).
    { apply runs_bind. eapply runs_weaken; [now apply IH |].
      intros [ths total] s1 [-> Hok]. apply runs_ret. split; [reflexivity |].
      now apply thresholds_skip. }
    rd; try exact Hskip.
    + apply runs_bind. eapply runs_weaken; [now apply IH |].
      intros [ths total] s1 [-> Hok]. apply runs_ret. split; [reflexivity |].
      apply thresholds_keep; [| exact Hok]. simpl. eauto using wk_nonwall.
    + apply runs_bind. eapply runs_weaken; [now apply IH |].
      intros [ths total] s1 [-> Hok]. apply runs_ret. split; [reflexivity |].
      eapply thresholds_add; [| eassumption | eassumption | exact Hok].
      simpl. eauto using wk_nonwall.
Qed.

Lemma pick_dir_some (ths : list T) (r : T) : forall i j,
  pick_dir ths r i = Some j ->
  exists th, ths !! (j - i)%nat = Some th /\ nlt r th = true /\ (i <= j)%nat.
Proof.
  induction ths as [| t ths IH]; intros i j H; simpl in H; [discriminate |].
  destruct (nlt r t) eqn:E.
  - injection H as <-. exists t. rewrite Nat.sub_diag. auto.
  - destruct (IH _ _ H) as (th & Hth & Hlt & Hle). exists th.
    replace (j - i)%nat with (S (j - S i)) by lia. auto with lia.
Qed.

Lemma pick_dir_found (ths : list T) (r total : T) : forall i,
  In total ths -> nlt r total = true -> exists j, pick_dir ths r i = Some j.
Proof.
  induction ths as [| t ths IH]; intros i Hin Hlt; simpl; [destruct Hin |].
  destruct (nlt r t) eqn:E; [eauto |].
  destruct Hin as [-> | Hin]; [congruence |]. now apply IH.
Qed.

Lemma target_not_wall (x y : Z) (ths : list T) (total r : T) :
  thresholds_ok s0 x y deltas nzero ths total ->
  neqb total nzero = false -> nlt r nzero = false -> nlt r total = true ->
  ~ wall s0 (x + fst (nth (default 0%nat (pick_dir ths r 0%nat)) deltas (0, 0)))
            (y + snd (nth (default 0%nat (pick_dir ths r 0%nat)) deltas (0, 0))).
Proof.
  intros (HF & Ht & _) Hne Hr0 Hrt.
  destruct Ht as [-> | Hin]; [rewrite neqb_zero_zero in Hne; discriminate |].
  destruct (pick_dir_found ths r total 0%nat Hin Hrt) as [j Hj]. rewrite Hj. simpl default.
  destruct (pick_dir_some _ _ _ _ Hj) as (th & Hth & Hlt & _).
  rewrite Nat.sub_0_r in Hth.
  destruct (Forall2_lookup_r _ _ _ _ _ HF Hth) as (d & Hd & Hcase).
  rewrite nth_lookup, Hd. simpl.
  destruct Hcase as [-> | Hnw]; [congruence | exact Hnw].
Qed.

Lemma move_loop_walls (rec : Z -> Z -> M (Sim T Rng) bool) (x y : Z) :
  (forall s nx ny, walls_kept s0 s -> ~ wall s0 nx ny ->
     runs any_error (rec nx ny) s (fun _ s' => walls_kept s0 s')) ->
  forall n tx ty s, walls_kept s0 s ->
    runs any_error (move_loop rec n x y tx ty) s
      (fun r s' => walls_kept s0 s' /\
                   (fst (fst r) = true -> ~ wall s0 (snd (fst r)) (snd r))).
Proof.
  intros Hrec. induction n as [| n IH]; intros tx ty s Hk; cbn [move_loop].
  - apply runs_any. discriminate.
  - apply runs_bind. eapply runs_weaken; [now apply move_thresholds_ok |].
    intros [ths total] s1 [-> Hok]. simpl in Hok. cbv beta iota.
    destruct (neqb total nzero) eqn:Hne.
    { apply runs_ret. split; [exact Hk | discriminate]. }
    apply runs_bind. eapply runs_weaken; [now apply (random01_walls s0) |].
    intros u s1 [Hk1 ->]. cbv beta.
    apply runs_bind, (runs_arith' _ any_error_fuel). intros r Hr. cbv zeta.
    assert (Hpos : nlt nzero total = true).
    { apply npos_of_nonneg; [| exact Hne]. apply Hok. apply nlt_zero_zero. }
    destruct (draw_scaled (rnd s) total r Hpos Hr) as [Hr0 Hrt].
    pose proof (target_not_wall x y ths total r Hok Hne Hr0 Hrt) as Htarget.
    destruct (nth (default 0%nat (pick_dir ths r 0%nat)) deltas (0, 0)) as [dx dy].
    simpl in Htarget.
    rd; [now apply IH |].
    apply runs_bind. apply runs_weaken with (Q := fun _ s' => walls_kept s0 s').
    { destruct (_ =? _); [now apply runs_ret | now apply Hrec]. }
    intros moved s2 Hk2. cbv beta. destruct moved.
    + apply runs_ret. split; [exact Hk2 | intros _; exact Htarget].
    + now apply IH.
Qed.

Lemma move_stop_dirs_walls (stop : Z -> Z -> M (Sim T Rng) unit) (x y : Z) :
  (forall s nx ny, walls_kept s0 s -> ~ wall s0 nx ny ->
     runs any_error (stop nx ny) s (fun _ s' => walls_kept s0 s')) ->
  forall ds s, walls_kept s0 s ->
    runs any_error (move_stop_dirs stop x y ds) s (fun _ s' => walls_kept s0 s').
Proof.
  intros Hstop. induction ds as [| [dx dy] ds IH]; intros s Hk; simpl.
  - now apply runs_ret.
  - rd; try (now apply IH). wk_bind Hstop. now apply IH.
Qed.

Lemma propagate_move_walls (fuel : nat) :
  forall s x y is_first depth, walls_kept s0 s -> ~ wall s0 x y ->
    runs any_error (propagate_move fuel x y is_first depth) s
      (fun _ s' => walls_kept s0 s').
Proof.
  induction fuel as [| fuel IH]; intros s x y is_first depth Hk Hxy;
    cbn [propagate_move].
  - apply runs_any. discriminate.
  - rd. wk_bind (L_set_walls s0). rd; [now apply runs_ret |].
    apply runs_bind. eapply runs_weaken.
    { apply (move_loop_walls _ x y); [| eassumption].
      intros s1 nx ny Hk1 Hn. now apply IH. }
    intros [[moved tx] ty] s2 [Hk2 Ht]. simpl in Ht. cbv beta iota.
    wk_bind (L_set_walls s0).
    wk_bind move_stop_dirs_walls.
    { intros s4 nx ny Hk4 Hn. now apply propagate_stop_walls. }
    destruct (moved && negb is_first) eqn:Em.
    + apply andb_true_iff in Em as [-> _].
      wk_bind (rotate_walls s0). now apply runs_ret.
    + now apply runs_ret.
Qed.

End WallsMove.

Section WallsRun.
Context {T Rng : Type} {NT : Numeric T} {PR : Prng T Rng}.
Context {NL : NumericLaws T} {PL : PrngLaws T Rng}.
Variable s0 : Sim T Rng.
Hypothesis clear0 : flow_clear s0.
Implicit Types (s : Sim T Rng).
Local Open Scope sim_scope.

Lemma forM_walls {B} (f : B -> M (Sim T Rng) unit) (l : list B) s :
  (forall b s1, walls_kept s0 s1 ->
     runs any_error (f b) s1 (fun _ s' => walls_kept s0 s')) ->
  walls_kept s0 s ->
  runs any_error (forM f l) s (fun _ s' => walls_kept s0 s').
Proof.
  intros Hf Hk. unfold forM.
  apply (runs_foldM any_error (fun _ s' => walls_kept s0 s')); [| exact Hk].
  intros a b s1 _ Hk1. now apply Hf.
Qed.

Lemma foldM_walls {A B} (f : A -> B -> M (Sim T Rng) A) (l : list B) (a : A) s :
  (forall a b s1, walls_kept s0 s1 ->
     runs any_error (f a b) s1 (fun _ s' => walls_kept s0 s')) ->
  walls_kept s0 s ->
  runs any_error (foldM f l a) s (fun _ s' => walls_kept s0 s').
Proof.
  intros Hf Hk.
  apply (runs_foldM any_error (fun _ s' => walls_kept s0 s')); [| exact Hk].
  intros a' b s1 _ Hk1. now apply Hf.
Qed.

Lemma mapM_walls {A B} (f : A -> M (Sim T Rng) B) (l : list A) s :
  (forall a s1, walls_kept s0 s1 ->
     runs any_error (f a) s1 (fun _ s' => walls_kept s0 s')) ->
  walls_kept s0 s ->
  runs any_error (mapM f l) s (fun _ s' => walls_kept s0 s').
Proof.
  intros Hf. revert s. induction l as [| a l IH]; intros s Hk; simpl.
  - now apply runs_ret.
  - wk_bind Hf. wk_bind IH. now apply runs_ret.
Qed.

Lemma compute_dirs_walls s :
  walls_kept s0 s -> runs any_error compute_dirs s (fun _ s' => walls_kept s0 s').
Proof.
  intros Hk. unfold compute_dirs. rd.
  apply mapM_walls; [| exact Hk]. intros x s1 Hk1.
  apply mapM_walls; [| exact Hk1]. intros y s2 Hk2.
  unfold dirs_cell. rd; [now apply runs_ret |].
  unfold dirs_count. apply foldM_walls; [| exact Hk2].
  intros d [dx dy] s3 Hk3. rd; now apply runs_ret.
Qed.

Lemma total_delta_p_walls (q : T) s :
  walls_kept s0 s ->
  runs any_error (add_total_delta_p q) s (fun _ s' => walls_kept s0 s') /\
  runs any_error (sub_total_delta_p q) s (fun _ s' => walls_kept s0 s').
Proof.
  intros Hk. unfold add_total_delta_p, sub_total_delta_p.
  split; rd; now apply runs_modify.
Qed.

Lemma phase_gravity_walls s :
  walls_kept s0 s -> runs any_error phase_gravity s (fun _ s' => walls_kept s0 s').
Proof.
  intros Hk. unfold phase_gravity. rd. apply forM_walls; [| exact Hk].
  intros [x y] s1 Hk1. unfold gravity_cell. rd; try (now apply runs_ret).
  eapply V_add_walls; eauto using wk_nonwall.
Qed.

Lemma pressure_dir_walls (dirs : list (list Z)) (x y : Z) (d : Z * Z) s :
  walls_kept s0 s -> ~ wall s0 x y ->
  runs any_error (pressure_dir dirs x y d) s (fun _ s' => walls_kept s0 s').
Proof.
  intros Hk Hxy. destruct d as [dx dy]. unfold pressure_dir. rd;
    try (now apply runs_ret).
  - eapply V_put_walls; eauto using wk_nonwall.
  - wk_bind (V_put_walls s0). rd. wk_bind (V_add_walls s0).
    apply runs_bind, runs_any. intros dd s3 Hd. apply lift_ok in Hd as [Hd ->].
    rd. wk_bind (P_set_walls s0). now apply total_delta_p_walls.
Qed.

Lemma phase_pressure_walls (dirs : list (list Z)) s :
  walls_kept s0 s ->
  runs any_error (phase_pressure dirs) s (fun _ s' => walls_kept s0 s').
Proof.
  intros Hk. unfold phase_pressure. wk_bind (modify_walls s0). rd.
  apply forM_walls; [| assumption].
  intros [x y] s1 Hk1. unfold pressure_cell. rd; [now apply runs_ret |].
  apply forM_walls; [| exact Hk1]. intros d s2 Hk2.
  apply pressure_dir_walls; eauto using wk_nonwall.
Qed.

Lemma flow_sweeps_walls (fuel : nat) : forall n s,
  walls_kept s0 s ->
  runs any_error (flow_sweeps n fuel) s (fun _ s' => walls_kept s0 s').
Proof.
  induction n as [| n IH]; intros s Hk; cbn [flow_sweeps].
  - apply runs_any. discriminate.
  - apply runs_bind. apply runs_weaken with (Q := fun _ s' => walls_kept s0 s').
    + unfold flow_sweep. wk_bind (modify_walls s0). rd.
      apply foldM_walls; [| assumption].
      intros prop [x y] s1 Hk1. unfold flow_sweep_cell. rd; try (now apply runs_ret).
      wk_bind (propagate_flow_walls s0). rd. now apply runs_ret.
    + intros prop s1 Hk1. cbv beta. destruct prop; [now apply IH | now apply runs_ret].
Qed.

Lemma phase_flow_walls (fuel : nat) s :
  walls_kept s0 s -> runs any_error (phase_flow fuel) s (fun _ s' => walls_kept s0 s').
Proof.
  intros Hk. unfold phase_flow. apply runs_bind, runs_modify.
  apply flow_sweeps_walls. now apply wk_flow_reset.
Qed.

Lemma credit_pressure_walls (x y : Z) (q : T) s :
  walls_kept s0 s -> ~ wall s0 x y ->
  runs any_error (credit_pressure x y q) s (fun _ s' => walls_kept s0 s').
Proof.
  intros Hk Hxy. unfold credit_pressure. rd. wk_bind (P_set_walls s0).
  now apply total_delta_p_walls.
Qed.

Lemma settle_dir_walls (dirs : list (list Z)) (x y : Z) (d : Z * Z) s :
  walls_kept s0 s -> ~ wall s0 x y ->
  runs any_error (settle_dir dirs x y d) s (fun _ s' => walls_kept s0 s').
Proof.
  intros Hk Hxy. destruct d as [dx dy]. unfold settle_dir. rd;
    try (now apply runs_ret); try (apply runs_any; discriminate).
  wk_bind (V_put_walls s0). rd.
  apply runs_bind. apply runs_weaken with (Q := fun _ s' => walls_kept s0 s').
  { destruct (Ascii.eqb _ _);
      [apply (runs_arith' _ any_error_fuel); auto | now apply runs_ret]. }
  intros force' s2 Hk2. cbv beta. rd.
  - apply runs_bind, runs_any. intros dd s3 Hd. apply lift_ok in Hd as [Hd ->].
    rd. now apply credit_pressure_walls.
  - apply runs_bind, runs_any. intros dd s3 Hd. apply lift_ok in Hd as [Hd ->].
    rd. apply credit_pressure_walls; eauto using wk_nonwall.
Qed.

Lemma phase_settle_walls (dirs : list (list Z)) s :
  walls_kept s0 s ->
  runs any_error (phase_settle dirs) s (fun _ s' => walls_kept s0 s').
Proof.
  intros Hk. unfold phase_settle. rd. apply forM_walls; [| exact Hk].
  intros [x y] s1 Hk1. unfold settle_cell. rd; [now apply runs_ret |].
  apply forM_walls; [| exact Hk1]. intros d s2 Hk2.
  apply settle_dir_walls; eauto using wk_nonwall.
Qed.

Lemma phase_move_walls (fuel : nat) s :
  walls_kept s0 s -> runs any_error (phase_move fuel) s (fun _ s' => walls_kept s0 s').
Proof.
  intros Hk. unfold phase_move. wk_bind (modify_walls s0). rd.
  apply foldM_walls; [| assumption].
  intros prop [x y] s1 Hk1. unfold move_cell. rd; try (now apply runs_ret).
  apply runs_bind. eapply runs_weaken; [now apply (random01_walls s0) |].
  intros pr s2 [Hk2 _]. cbv beta.
  apply runs_bind. eapply runs_weaken; [now apply (move_prob_dirs_walls s0) |].
  intros pr1 s3 Hk3. cbv beta. destruct (nlt pr pr1).
  - wk_bind (propagate_move_walls s0). now apply runs_ret.
  - wk_bind (propagate_stop_walls s0). now apply runs_ret.
Qed.

Lemma print_field_walls s :
  walls_kept s0 s -> runs any_error print_field s (fun _ s' => walls_kept s0 s').
Proof.
  intros Hk. unfold print_field. rd.
  wk_bind mapM_walls.
  { intros x s1 Hk1. apply runs_any. intros a s' Ha. apply lift_ok in Ha as [_ ->].
    exact Hk1. }
  now apply runs_modify.
Qed.

Lemma tick_walls (fuel : nat) (dirs : list (list Z)) s :
  walls_kept s0 s -> runs any_error (tick fuel dirs) s (fun _ s' => walls_kept s0 s').
Proof.
  intros Hk. unfold tick. wk_bind (modify_walls s0). wk_bind phase_gravity_walls.
  wk_bind phase_pressure_walls. wk_bind phase_flow_walls. wk_bind phase_settle_walls.
  wk_bind phase_move_walls.
  apply runs_bind. apply runs_weaken with (Q := fun _ s' => walls_kept s0 s').
  - rd; [now apply print_field_walls | now apply runs_ret].
  - intros [] s7 Hk7. now apply runs_ret.
Qed.

Lemma run_loop_walls (fuel : nat) (dirs : list (list Z)) (steps : Z) : forall n step s,
  walls_kept s0 s ->
  runs any_error (run_loop n fuel dirs step steps) s (fun _ s' => walls_kept s0 s').
Proof.
  induction n as [| n IH]; intros step s Hk; cbn [run_loop].
  - now apply runs_ret.
  - destruct (step <? steps); [| now apply runs_ret].
    wk_bind tick_walls. now apply IH.
Qed.

Lemma run_walls (fuel : nat) (steps ci : Z) s :
  walls_kept s0 s -> runs any_error (run fuel steps ci) s (fun _ s' => walls_kept s0 s').
Proof.
  intros Hk. unfold run. wk_bind compute_dirs_walls. now apply run_loop_walls.
Qed.

End WallsRun.

Section WallsTheorem.
Context {T Rng : Type} {NT : Numeric T} {PR : Prng T Rng} {PA : Parsers T}.
Context {NL : NumericLaws T} {PL : PrngLaws T Rng}.

(** The engine of the dynamic path starts with cleared flow vectors. *)
Lemma construct_flow_clear (input : list (list ascii)) (s : Sim T Rng) :
  construct 0 0 input = Ok s -> flow_clear s.
Proof.
  unfold construct. intros H.
  destruct (vec_at input 0) as [line0 |]; [| discriminate].
  destruct (vec_at input 1) as [line1 |]; [| discriminate].
  destruct (parse_real line1); [| discriminate].
  change ((0 <? 0) && (0 <? 0)) with false in H. cbv iota in H.
  repeat match type of H with
         | (if ?b then _ else _) = _ => destruct b; try discriminate
         | match ?r with Ok _ => _ | Err _ => _ end = _ => destruct r; try discriminate
         end.
  injection H as <-. intros x y _. reflexivity.
Qed.

(** C6: started from an engine whose flow vectors at the walls are cleared
    (as after construction), every completed [run], for every step count,
    and every completed tick leave the walls where they were and leave the
    pressure, the velocity vector, the flow vector and the visit stamp of
    every wall cell at their initial values. *)
Theorem walls_inviolable (s0 : Sim T Rng) :
  flow_clear s0 ->
  (forall fuel steps ci s', run fuel steps ci s0 = Ok (tt, s') -> walls_kept s0 s') /\
  (forall fuel dirs s prop s',
     walls_kept s0 s -> tick fuel dirs s = Ok (prop, s') -> walls_kept s0 s') /\
  (forall fuel steps ci s' x y,
     run fuel steps ci s0 = Ok (tt, s') -> wall s0 x y ->
     wall s' x y /\
     grid_at (p s') x y = grid_at (p s0) x y /\
     VectorField.get_array (velocity s') x y = VectorField.get_array (velocity s0) x y /\
     VectorField.get_array (velocity_flow s') x y
       = VectorField.get_array (velocity_flow s0) x y /\
     grid_at (last_use s') x y = grid_at (last_use s0) x y).
Proof.
  intros Hclear.
  assert (Hrun : forall fuel steps ci s',
            run fuel steps ci s0 = Ok (tt, s') -> walls_kept s0 s').
  { intros fuel steps ci s' Hr.
    exact (proj2 (run_walls s0 Hclear fuel steps ci s0 (wk_refl s0)) tt s' Hr). }
  split; [exact Hrun |]. split.
  - intros fuel dirs s prop s' Hk Ht.
    exact (proj2 (tick_walls s0 Hclear fuel dirs s Hk) prop s' Ht).
  - intros fuel steps ci s' x y Hr Hw.
    destruct (Hrun fuel steps ci s' Hr) as (_ & _ & Hwall & Hk).
    destruct (Hk x y Hw) as (HP & HV & HVf & HL).
    split; [now apply Hwall |]. split; [exact HP |].
    unfold VectorField.get_array. rewrite HV, HVf. auto.
Qed.

End WallsTheorem.

Module WallFacts.
Import FixedPoint Q16 Q16Facts.

Lemma walls_inviolable_witness :
  exists s' : Sim Fixed Z,
    run 20 3 1 (engine_or_blank column_input) = Ok (tt, s') /\
    walls_kept (engine_or_blank column_input) s'.
Proof.
  assert (Hc : construct 0 0 column_input = Ok (engine_or_blank column_input))
    by (vm_compute; reflexivity).
  eexists. split; [vm_compute; reflexivity |].
  apply (proj1 (walls_inviolable (engine_or_blank column_input)
                  (construct_flow_clear column_input _ Hc)) 20%nat 3 1).
  vm_compute. reflexivity.
Defined.

End WallFacts.

(** ** fixed.h: how the operations compose *)

Module FixedAlgebra.
Import FixedPoint.

Lemma from_raw_v (a : Fixed) : from_raw (v a) = a.
Proof. now destruct a. Qed.

Lemma pow2_pos (K : Z) : 0 <= K -> 0 < 2 ^ K.
Proof. intros. apply Z.pow_pos_nonneg; lia. Qed.

(** The raw value [2^K] is the unit of the product and of the quotient. *)
Theorem fixed_one_identity (K : Z) (a : Fixed) :
  0 <= K -> in_int64 (v a * 2 ^ K) = true ->
  mul K a (from_raw (2 ^ K)) = a /\
  mul K (from_raw (2 ^ K)) a = a /\
  div K a (from_raw (2 ^ K)) = Some a.
Proof.
  intros HK Hr. pose proof (pow2_pos K HK) as Hp.
  assert (Hm : Z.shiftr (wrap64 (v a * 2 ^ K)) K = v a).
  { rewrite wrap64_small by assumption.
    rewrite Z.shiftr_div_pow2 by assumption. apply Z.div_mul. lia. }
  repeat split.
  - unfold mul; simpl. rewrite Hm. apply from_raw_v.
  - unfold mul; simpl. rewrite Z.mul_comm, Hm. apply from_raw_v.
  - unfold div; simpl. rewrite Z.shiftl_mul_pow2 by assumption.
    rewrite wrap64_small by assumption.
    destruct (Z.eqb_spec (2 ^ K) 0); [lia |].
    destruct (Z.eqb_spec (2 ^ K) (-1)); [lia |]. rewrite andb_false_r.
    rewrite Z.quot_mul by lia. now rewrite from_raw_v.
Qed.

Lemma fixed_one_identity_witness :
  mul 16 (from_raw (-7)) (from_raw (2 ^ 16)) = from_raw (-7) /\
  mul 16 (from_raw (2 ^ 16)) (from_raw (-7)) = from_raw (-7) /\
  div 16 (from_raw (-7)) (from_raw (2 ^ 16)) = Some (from_raw (-7)).
Proof. apply (fixed_one_identity 16 (from_raw (-7))); [lia | reflexivity]. Defined.

(** Without overflow, subtraction undoes addition, adding the negation is
    subtracting, and negation is an involution. *)
Theorem fixed_add_sub_cancel (a b : Fixed) :
  in_int64 (v a) = true -> in_int64 (v b) = true -> in_int64 (- v b) = true ->
  in_int64 (v a + v b) = true -> in_int64 (v a - v b) = true ->
  sub (add a b) b = a /\ add (sub a b) b = a /\
  add a (neg b) = sub a b /\ neg (neg b) = b /\
  add a b = add b a.
Proof.
  intros Ha Hb Hnb Hab Hs. unfold add, sub, neg; simpl.
  rewrite !(wrap64_small _ Hab), !(wrap64_small _ Hs), !(wrap64_small _ Hnb).
  replace (v a + v b - v b) with (v a) by lia.
  replace (v a - v b + v b) with (v a) by lia.
  replace (v a + - v b) with (v a - v b) by lia.
  replace (- - v b) with (v b) by lia.
  rewrite (Z.add_comm (v b) (v a)).
  rewrite !(wrap64_small _ Ha), !(wrap64_small _ Hb), !(wrap64_small _ Hs), !(wrap64_small _ Hab).
  rewrite !from_raw_v. repeat split.
Qed.

Lemma fixed_add_sub_cancel_witness :
  sub (add (from_raw 5) (from_raw (-9))) (from_raw (-9)) = from_raw 5 /\
  add (sub (from_raw 5) (from_raw (-9))) (from_raw (-9)) = from_raw 5 /\
  add (from_raw 5) (neg (from_raw (-9))) = sub (from_raw 5) (from_raw (-9)) /\
  neg (neg (from_raw (-9))) = from_raw (-9) /\
  add (from_raw 5) (from_raw (-9)) = add (from_raw (-9)) (from_raw 5).
Proof.
  apply (fixed_add_sub_cancel (from_raw 5) (from_raw (-9))); reflexivity.
Defined.

Lemma div_add_floor (x y m : Z) : 0 < m ->
  x / m + y / m <= (x + y) / m <= x / m + y / m + 1.
Proof.
  intros Hm.
  pose proof (Z.div_mod x m ltac:(lia)) as Hx.
  pose proof (Z.mod_pos_bound x m Hm) as Hrx.
  pose proof (Z.div_mod y m ltac:(lia)) as Hy.
  pose proof (Z.mod_pos_bound y m Hm) as Hry.
  replace (x + y) with ((x / m + y / m) * m + (x mod m + y mod m)) by lia.
  rewrite Z.div_add_l by lia.
  assert (0 <= (x mod m + y mod m) / m) by (apply Z.div_pos; lia).
  assert ((x mod m + y mod m) / m < 2) by (apply Z.div_lt_upper_bound; lia).
  lia.
Qed.

(** The product distributes over the sum up to one unit of the raw value:
    each product is rounded down on its own. *)
Theorem fixed_mul_distributes_within_one (K : Z) (a b c : Fixed) :
  0 <= K ->
  in_int64 (v a + v b) = true ->
  in_int64 ((v a + v b) * v c) = true ->
  in_int64 (v a * v c) = true -> in_int64 (v b * v c) = true ->
  in_int64 (v (mul K a c) + v (mul K b c)) = true ->
  v (add (mul K a c) (mul K b c)) <= v (mul K (add a b) c)
    <= v (add (mul K a c) (mul K b c)) + 1.
Proof.
  intros HK Hab Habc Hac Hbc Hsum. pose proof (pow2_pos K HK) as Hp.
  assert (E1 : v (add (mul K a c) (mul K b c))
               = (v a * v c) / 2 ^ K + (v b * v c) / 2 ^ K).
  { unfold add. cbn [v]. rewrite (wrap64_small _ Hsum).
    unfold mul. cbn [v]. rewrite (wrap64_small _ Hac), (wrap64_small _ Hbc).
    now rewrite !Z.shiftr_div_pow2 by assumption. }
  assert (E2 : v (mul K (add a b) c) = (v a * v c + v b * v c) / 2 ^ K).
  { unfold mul, add. cbn [v]. rewrite (wrap64_small _ Hab), (wrap64_small _ Habc).
    rewrite Z.shiftr_div_pow2 by assumption. f_equal. lia. }
  rewrite E1, E2.
  apply div_add_floor. assumption.
Qed.

Lemma fixed_mul_distributes_within_one_witness :
  v (add (mul 16 (from_raw 40000) (from_raw 3)) (mul 16 (from_raw 40000) (from_raw 3)))
    <= v (mul 16 (add (from_raw 40000) (from_raw 40000)) (from_raw 3))
    <= v (add (mul 16 (from_raw 40000) (from_raw 3)) (mul 16 (from_raw 40000) (from_raw 3))) + 1.
Proof.
  apply (fixed_mul_distributes_within_one 16 (from_raw 40000) (from_raw 40000) (from_raw 3));
    [lia | reflexivity ..].
Defined.

End FixedAlgebra.

(** ** vector_field.h: reads after writes *)

Module VectorFieldOps.
Import VectorField.

Lemma arr_get_set {T} (a : arr4 T) (i j : nat) (x : T) :
  arr_get (arr_set a i x) j
  = if (i =? j)%nat && (i <? 4)%nat then Some x else arr_get a j.
Proof.
  destruct a as [[[a0 a1] a2] a3].
  destruct i as [| [| [| [| i]]]], j as [| [| [| [| j]]]]; try reflexivity.
  simpl. destruct (i =? j)%nat; reflexivity.
Qed.

Lemma arr_get_some {T} (a : arr4 T) (i : nat) (x : T) :
  arr_get a i = Some x -> (i < 4)%nat.
Proof.
  destruct a as [[[a0 a1] a2] a3].
  destruct i as [| [| [| [| i]]]]; simpl; intros; try lia. discriminate.
Qed.

Lemma rows_set_cell {T} (f : field T) (x y : Z) (a : arr4 T) :
  rows (set_cell f x y a) = rows f.
Proof. unfold rows, set_cell. now rewrite length_alter. Qed.

Lemma cols_set_cell {T} (f : field T) (x y : Z) (a : arr4 T) :
  cols (set_cell f x y a) = cols f.
Proof.
  unfold cols, set_cell. destruct f as [| r f]; [reflexivity |].
  destruct (Z.to_nat x); simpl; [| reflexivity].
  now rewrite length_insert.
Qed.

(** [add] followed by [get]: the entry that was added to reads as the sum,
    every other entry of the field reads as before, and the extents stay. *)
Theorem add_then_get {T} (plus : T -> T -> option T) (f f' : field T)
  (x y dx dy : Z) (dv new : T) (ds : delta_array) :
  add plus f x y dx dy dv ds = Ok (f', new) ->
  (exists old, get f x y dx dy ds = Ok old /\ plus old dv = Some new) /\
  get f' x y dx dy ds = Ok new /\
  (forall x' y' dx' dy',
     (x', y') <> (x, y) \/ find_index ds dx' dy' <> find_index ds dx dy ->
     get f' x' y' dx' dy' ds = get f x' y' dx' dy' ds) /\
  rows f' = rows f /\ cols f' = cols f.
Proof.
  unfold add. destruct (negb _); [discriminate |].
  destruct (_ =? _)%nat; [discriminate |].
  destruct (cell f x y) as [a |] eqn:Hc; [| discriminate].
  destruct (arr_get a _) as [old |] eqn:Ha; [| discriminate].
  destruct (plus old dv) as [n |] eqn:Hp; [| discriminate].
  intros [= <- <-].
  pose proof (arr_get_some _ _ _ Ha) as Hi.
  split; [| split; [| split; [| split]]].
  - exists old. unfold get. now rewrite Hc, Ha.
  - unfold get. rewrite (cell_set_cell f x y x y _ a Hc), !Z.eqb_refl. simpl.
    rewrite arr_get_set, Nat.eqb_refl.
    now replace (_ <? 4)%nat with true by (symmetry; apply Nat.ltb_lt; lia).
  - intros x' y' dx' dy' Hne. unfold get.
    rewrite (cell_set_cell f x y x' y' _ a Hc).
    destruct (Z.eqb_spec x' x) as [-> | Hx]; [| reflexivity].
    destruct (Z.eqb_spec y' y) as [-> | Hy]; [| reflexivity]. simpl.
    rewrite Hc, arr_get_set.
    destruct (Nat.eqb_spec (find_index ds dx dy) (find_index ds dx' dy')) as [E | E];
      [| reflexivity].
    destruct Hne as [Hne | Hne]; [now contradiction Hne | now rewrite E in Hne].
  - apply rows_set_cell.
  - apply cols_set_cell.
Qed.

Lemma add_then_get_witness :
  get (set_cell (init 0 2 2) 1 0 (0, 0, 0, 5)) 1 0 0 1 deltas = Ok 5.
Proof.
  exact (proj1 (proj2 (add_then_get (fun a b => Some (a + b)) (init 0 2 2) _
                         1 0 0 1 5 5 deltas eq_refl))).
Defined.

(** [set_array] overwrites one cell: [get_array] there returns the stored
    array, every other cell keeps its array, and storing the array that
    [get_array] has just returned leaves the field as it was. *)
Theorem set_array_then_get_array {T} (f f' : field T) (x y : Z) (a : arr4 T) :
  set_array f x y a = Ok f' ->
  get_array f' x y = Ok a /\
  (forall x' y', (x', y') <> (x, y) -> get_array f' x' y' = get_array f x' y') /\
  (get_array f x y = Ok a -> f' = f) /\
  rows f' = rows f /\ cols f' = cols f.
Proof.
  unfold set_array, get_array.
  destruct (cell f x y) as [a0 |] eqn:Hc; [| discriminate]. intros [= <-].
  split; [| split; [| split; [| split]]].
  - now rewrite (cell_set_cell f x y x y a a0 Hc), !Z.eqb_refl.
  - intros x' y' Hne. rewrite (cell_set_cell f x y x' y' a a0 Hc).
    destruct (Z.eqb_spec x' x) as [-> | Hx]; [| reflexivity].
    destruct (Z.eqb_spec y' y) as [-> | Hy]; [| reflexivity].
    now contradiction Hne.
  - intros [= ->]. now apply set_cell_same.
  - apply rows_set_cell.
  - apply cols_set_cell.
Qed.

Lemma set_array_then_get_array_witness :
  get_array (set_cell (init 0 2 2) 0 1 (1, 2, 3, 4)) 0 1 = Ok (1, 2, 3, 4).
Proof.
  exact (proj1 (set_array_then_get_array (init 0 2 2) _ 0 1 (1, 2, 3, 4) eq_refl)).
Defined.

Lemma cols_init {T} (z : T) (r c : Z) :
  0 <= r -> 0 <= c -> cols (init z r c) = if r =? 0 then 0 else c.
Proof.
  intros Hr Hc. unfold cols, init.
  destruct (Z.eqb_spec r 0) as [-> | Hne]; [reflexivity |].
  destruct (Z.to_nat r) as [| n] eqn:E; [lia |]. simpl.
  rewrite length_replicate. lia.
Qed.

(** [init(rows, cols)]: the extents are the arguments (no columns when
    there is no row), a position is valid exactly inside them, and every
    entry inside them reads as zero; outside them [get] indexes outside the
    vectors. *)
Theorem init_reads_zero {T} (z : T) (r c : Z) :
  0 <= r -> 0 <= c ->
  rows (init z r c) = r /\
  cols (init z r c) = (if r =? 0 then 0 else c) /\
  empty (init z r c) = (r =? 0) /\
  (forall x y, 0 <= x -> 0 <= y ->
     is_valid_position (init z r c) x y = (x <? r) && (y <? c)) /\
  (forall x y dx dy ds, (find_index ds dx dy < 4)%nat ->
     get (init z r c) x y dx dy ds
     = if (0 <=? x) && (x <? r) && (0 <=? y) && (y <? c) then Ok z
       else Err OutOfBounds).
Proof.
  intros Hr Hc.
  assert (Hrows : rows (init z r c) = r).
  { unfold rows, init. rewrite length_replicate. lia. }
  split; [exact Hrows |]. split; [now apply cols_init |].
  split; [| split].
  - unfold empty, init. destruct (Z.eqb_spec r 0) as [-> | Hne]; [reflexivity |].
    destruct (Z.to_nat r) eqn:E; [lia | reflexivity].
  - intros x y Hx Hy. unfold is_valid_position. rewrite Hrows, cols_init by assumption.
    destruct (Z.eqb_spec r 0) as [-> | Hne]; [| reflexivity].
    replace (x <? 0) with false by lia. reflexivity.
  - intros x y dx dy ds Hi. unfold get. rewrite cell_init.
    destruct (_ && _); [| reflexivity].
    destruct (find_index ds dx dy) as [| [| [| [| i]]]]; try reflexivity. lia.
Qed.

Lemma init_reads_zero_witness :
  get (init 7 2 3) 1 2 0 1 deltas = Ok 7 /\ get (init 7 2 3) 2 0 0 1 deltas = Err OutOfBounds.
Proof.
  pose proof (init_reads_zero 7 2 3 ltac:(lia) ltac:(lia)) as (_ & _ & _ & _ & H).
  split; [apply (H 1 2 0 1 deltas) | apply (H 2 0 0 1 deltas)]; simpl; lia.
Defined.

Lemma cell_reset {T} (z : T) (f : field T) (x y : Z) :
  cell (reset z f) x y = (fun _ => arr_fill z) <$> cell f x y.
Proof.
  unfold cell, reset. destruct ((x <? 0) || (y <? 0)); [reflexivity |].
  rewrite list_lookup_fmap. destruct (f !! Z.to_nat x) as [row |]; [| reflexivity].
  simpl. now rewrite list_lookup_fmap.
Qed.

(** [reset()] keeps the extents and every row's length, makes every entry
    that could be read read as zero, and on a rectangular field gives the
    field that [init] builds. *)
Theorem reset_zeroes_in_place {T} (z : T) (f : field T) :
  rows (reset z f) = rows f /\ cols (reset z f) = cols f /\
  (forall x y dx dy ds t,
     get f x y dx dy ds = Ok t -> get (reset z f) x y dx dy ds = Ok z) /\
  (forall x y dx dy ds e,
     get f x y dx dy ds = Err e -> get (reset z f) x y dx dy ds = Err e) /\
  (forall r c, 0 <= r -> 0 <= c -> grid_shape f r c -> reset z f = init z r c) /\
  reset z (reset z f) = reset z f.
Proof.
  split; [| split; [| split; [| split; [| split]]]].
  - unfold rows, reset. now rewrite length_map.
  - unfold cols, reset. destruct f; simpl; [reflexivity |]. now rewrite length_map.
  - intros x y dx dy ds t. unfold get. rewrite cell_reset.
    destruct (cell f x y) as [a |]; [| discriminate]. simpl.
    destruct (arr_get a _) eqn:Ha; [| discriminate]. intros _.
    apply arr_get_some in Ha.
    destruct (find_index ds dx dy) as [| [| [| [| i]]]]; try reflexivity. lia.
  - intros x y dx dy ds e. unfold get. rewrite cell_reset.
    destruct (cell f x y) as [a |]; [| auto]. simpl.
    destruct a as [[[a0 a1] a2] a3].
    destruct (find_index ds dx dy) as [| [| [| [| i]]]]; simpl; auto; discriminate.
  - intros r c Hr Hc [Hlen Hrow]. unfold reset, init.
    apply list_eq. intros i. rewrite list_lookup_fmap.
    destruct (f !! i) as [row |] eqn:Hi; simpl.
    + rewrite lookup_replicate_2 by (apply lookup_lt_Some in Hi; lia).
      f_equal. rewrite Forall_lookup in Hrow. specialize (Hrow i row Hi).
      rewrite <- Hrow. clear. induction row; simpl; congruence.
    + symmetry. apply lookup_replicate_None. apply lookup_ge_None in Hi. lia.
  - unfold reset. rewrite List.map_map. apply List.map_ext. intros row.
    now rewrite List.map_map.
Qed.

End VectorFieldOps.

Module StaticVectorFieldFacts.
Import VectorField.

Lemma arr_get_lt {T} (a : arr4 T) (i : nat) : (i < 4)%nat -> exists t, arr_get a i = Some t.
Proof.
  destruct a as [[[a0 a1] a2] a3].
  destruct i as [| [| [| [| i]]]]; simpl; eauto. lia.
Qed.

Lemma shape_cell {T} (f : field T) (N K x y : Z) :
  grid_shape f N K -> 0 <= x < N -> 0 <= y < K -> exists a, cell f x y = Some a.
Proof.
  intros [Hlen Hrow] Hx Hy. unfold cell.
  replace ((x <? 0) || (y <? 0)) with false by lia.
  destruct (lookup_lt_is_Some_2 f (Z.to_nat x) ltac:(lia)) as [row Hr]. rewrite Hr.
  rewrite Forall_lookup in Hrow. specialize (Hrow _ _ Hr).
  destruct (lookup_lt_is_Some_2 row (Z.to_nat y) ltac:(lia)) as [a Ha]. eauto.
Qed.

Lemma shape_set_cell {T} (f : field T) (N K x y : Z) (a : arr4 T) :
  grid_shape f N K -> grid_shape (set_cell f x y a) N K.
Proof.
  intros [Hlen Hrow]. unfold set_cell. split.
  - now rewrite length_alter.
  - apply Forall_alter; [assumption |]. intros row Hr. now rewrite length_insert.
Qed.

(** On a field of the static extents, [StaticVectorField::get] and [add]
    never index outside the arrays: they fail by assertion exactly when the
    position is outside [N x K] or the offset is not in the table, and
    otherwise [get] returns an entry and [add] either stores the sum, keeping
    the extents, or stops at the addition of the scalar type. *)
Theorem static_field_checked {T} (N K : Z) (plus : T -> T -> option T) (f : field T)
  (x y dx dy : Z) (dv : T) (ds : delta_array) :
  grid_shape f N K -> (length ds <= 4)%nat ->
  grid_shape (StaticVectorField.reset N K dv) N K /\
  (0 <= x < N /\ 0 <= y < K /\ In (dx, dy) ds ->
     (exists t, StaticVectorField.get N K f x y dx dy ds = Ok t /\
        (StaticVectorField.add N K plus f x y dx dy dv ds = Err ArithFault /\
           plus t dv = None \/
         exists f' new, StaticVectorField.add N K plus f x y dx dy dv ds = Ok (f', new) /\
           plus t dv = Some new /\ grid_shape f' N K /\
           StaticVectorField.get N K f' x y dx dy ds = Ok new))) /\
  (~ (0 <= x < N /\ 0 <= y < K /\ In (dx, dy) ds) ->
     StaticVectorField.get N K f x y dx dy ds = Err AssertFailed /\
     StaticVectorField.add N K plus f x y dx dy dv ds = Err AssertFailed).
Proof.
  intros Hs Hl. split; [| split].
  - unfold StaticVectorField.reset. split.
    + now rewrite length_replicate.
    + apply Forall_forall. intros row Hin. apply elem_of_replicate in Hin as [-> _].
      now rewrite length_replicate.
  - intros (Hx & Hy & Hin).
    apply VectorFieldFacts.find_index_member in Hin.
    destruct (shape_cell f N K x y Hs Hx Hy) as [a Hc].
    destruct (arr_get_lt a (find_index ds dx dy) ltac:(lia)) as [t Ht].
    unfold StaticVectorField.get, StaticVectorField.add, StaticVectorField.is_valid_position.
    replace ((0 <=? x) && (0 <=? y) && ((x <? N) && (y <? K))) with true by lia.
    replace (find_index ds dx dy <? length ds)%nat with true
      by (symmetry; now apply Nat.ltb_lt).
    simpl. rewrite Hc, Ht. exists t. split; [reflexivity |].
    destruct (plus t dv) as [new |]; [right | left; auto].
    exists (set_cell f x y (arr_set a (find_index ds dx dy) new)), new.
    split; [reflexivity |]. split; [reflexivity |].
    split; [now apply shape_set_cell |].
    rewrite (cell_set_cell f x y x y _ a Hc), !Z.eqb_refl. simpl.
    destruct a as [[[a0 a1] a2] a3].
    destruct (find_index ds dx dy) as [| [| [| [| i]]]]; try reflexivity. lia.
  - intros Hn.
    unfold StaticVectorField.get, StaticVectorField.add, StaticVectorField.is_valid_position.
    destruct ((0 <=? x) && (0 <=? y) && ((x <? N) && (y <? K))) eqn:E; simpl; [| auto].
    destruct (Nat.ltb_spec (find_index ds dx dy) (length ds)) as [Hlt | Hge]; simpl; [| auto].
    exfalso. apply Hn. apply VectorFieldFacts.find_index_member in Hlt.
    repeat split; try assumption; lia.
Qed.

Lemma static_field_checked_witness :
  StaticVectorField.get 2 2 (StaticVectorField.reset 2 2 0) 2 0 0 1 deltas = Err AssertFailed /\
  StaticVectorField.add 2 2 (fun a b => Some (a + b)) (StaticVectorField.reset 2 2 0)
    2 0 0 1 0 deltas = Err AssertFailed.
Proof.
  refine (proj2 (proj2 (static_field_checked 2 2 (fun a b => Some (a + b))
                          (StaticVectorField.reset 2 2 0) 2 0 0 1 0 deltas _ _)) _).
  - split; [reflexivity | repeat constructor].
  - simpl. lia.
  - lia.
Defined.

Lemma is_valid_delta_eq (dx dy : Z) (ds : delta_array) :
  is_valid_delta dx dy ds = negb (find_index ds dx dy =? length ds)%nat.
Proof. reflexivity. Qed.

(** The offset table of the engine holds exactly the four offsets to an
    edge neighbour, each at the position [is_valid_delta] and the search
    agree on, and with every offset its opposite: the opposite of the entry
    at index [i] is the entry at index [i xor 1]. *)
Theorem deltas_are_unit_offsets (dx dy : Z) :
  (is_valid_delta dx dy deltas = true <-> Z.abs dx + Z.abs dy = 1) /\
  (is_valid_delta dx dy deltas = true <-> In (dx, dy) deltas) /\
  is_valid_delta (- dx) (- dy) deltas = is_valid_delta dx dy deltas /\
  (is_valid_delta dx dy deltas = true ->
     nth (find_index deltas dx dy) deltas (0, 0) = (dx, dy) /\
     Z.of_nat (find_index deltas (- dx) (- dy))
     = Z.lxor (Z.of_nat (find_index deltas dx dy)) 1).
Proof.
  assert (Hno : forall a b : Z,
            ~ ((a = -1 /\ b = 0) \/ (a = 1 /\ b = 0) \/ (a = 0 /\ b = -1) \/ (a = 0 /\ b = 1)) ->
            find_index deltas a b = 4%nat).
  { intros a b Hn. unfold deltas. cbn [find_index].
    destruct (Z.eqb_spec (-1) a), (Z.eqb_spec 0 b), (Z.eqb_spec 1 a),
      (Z.eqb_spec 0 a), (Z.eqb_spec (-1) b), (Z.eqb_spec 1 b);
      simpl; try reflexivity; exfalso; apply Hn; lia. }
  assert (Hin : In (dx, dy) deltas <->
                (dx = -1 /\ dy = 0) \/ (dx = 1 /\ dy = 0) \/ (dx = 0 /\ dy = -1)
                \/ (dx = 0 /\ dy = 1)).
  { unfold deltas. cbn [In]. split.
    - intros [H | [H | [H | [H | []]]]]; injection H as <- <-; lia.
    - intros [[-> ->] | [[-> ->] | [[-> ->] | [-> ->]]]]; auto. }
  destruct (Z.eq_dec dx (-1)) as [-> | H1];
    [destruct (Z.eq_dec dy 0) as [-> | H1] |].
  1: { split; [split; [reflexivity | reflexivity] |].
       split; [split; [intros _; apply Hin; lia | reflexivity] |].
       split; [reflexivity | intros _; split; reflexivity]. }
  2: destruct (Z.eq_dec dx 1) as [-> | H2];
       [destruct (Z.eq_dec dy 0) as [-> | H2] |].
  2: { split; [split; [reflexivity | reflexivity] |].
       split; [split; [intros _; apply Hin; lia | reflexivity] |].
       split; [reflexivity | intros _; split; reflexivity]. }
  3: destruct (Z.eq_dec dx 0) as [-> | H3];
       [destruct (Z.eq_dec dy (-1)) as [-> | H3];
          [| destruct (Z.eq_dec dy 1) as [-> | H4]] |].
  3, 4: split; [split; [reflexivity | reflexivity] |];
       (split; [split; [intros _; apply Hin; lia | reflexivity] |]);
       (split; [reflexivity | intros _; split; reflexivity]).
  all: rewrite !is_valid_delta_eq, !Hno by lia;
    change (negb (4 =? length deltas)%nat) with false;
    (split; [split; [discriminate | intros; exfalso; lia] |]);
    (split; [split; [discriminate | intros H; apply Hin in H; exfalso; lia] |]);
    (split; [reflexivity | discriminate]).
Qed.

End StaticVectorFieldFacts.

(** ** utils.cpp: lines of a file *)

Lemma getlines_line (l rest acc : list ascii) :
  ~ In newline l -> getlines (l ++ newline :: rest) acc = (acc ++ l) :: getlines rest [].
Proof.
  revert acc. induction l as [| c l IH]; intros acc Hn; cbn [getlines app].
  - rewrite Ascii.eqb_refl. now rewrite app_nil_r.
  - destruct (Ascii.eqb_spec c newline) as [-> | Hc]; [exfalso; apply Hn; now left |].
    rewrite IH by (intros H; apply Hn; now right).
    now rewrite <- app_assoc.
Qed.

Lemma getlines_write_lines (ls : list (list ascii)) :
  Forall (fun l => ~ In newline l) ls -> getlines (write_lines ls) [] = ls.
Proof.
  induction 1 as [| l ls Hl _ IH]; [reflexivity |].
  unfold write_lines in *. cbn [List.flat_map].
  rewrite <- app_assoc. cbn [app]. rewrite getlines_line by assumption.
  now rewrite IH.
Qed.

Lemma getlines_no_newline (text acc : list ascii) :
  ~ In newline acc -> Forall (fun l => ~ In newline l) (getlines text acc).
Proof.
  revert acc. induction text as [| c text IH]; intros acc Hacc; simpl.
  - destruct acc; repeat constructor. assumption.
  - destruct (Ascii.eqb_spec c newline) as [-> | Hc].
    + constructor; [assumption |]. apply IH. intros [].
    + apply IH. intros H. apply in_app_or in H as [H | [H | []]]; [auto | congruence].
Qed.

Lemma write_getlines (text acc : list ascii) :
  ~ In newline acc ->
  write_lines (getlines text acc)
  = acc ++ text ++ match last (acc ++ text) with
                   | None => []
                   | Some c => if Ascii.eqb c newline then [] else [newline]
                   end.
Proof.
  revert acc. induction text as [| c text IH]; intros acc Hacc.
  - rewrite !app_nil_r. destruct acc as [| a0 acc0]; [reflexivity |].
    cbn [getlines]. set (acc := a0 :: acc0) in *.
    destruct (last acc) as [c |] eqn:El.
    + apply last_Some in El as [l' El].
      destruct (Ascii.eqb_spec c newline) as [-> | Hc].
      * exfalso. apply Hacc. rewrite El. apply in_or_app. right. now left.
      * unfold write_lines. cbn [List.flat_map]. now rewrite app_nil_r.
    + apply last_None in El. discriminate.
  - cbn [getlines]. destruct (Ascii.eqb_spec c newline) as [-> | Hc].
    + unfold write_lines in *. cbn [List.flat_map]. rewrite (IH [] ltac:(intros [])).
      cbn [app]. rewrite <- !app_assoc. cbn [app]. do 3 f_equal.
      destruct text as [| t text].
      * simpl. rewrite last_snoc. now rewrite Ascii.eqb_refl.
      * rewrite last_app, last_cons_cons.
        destruct (last (t :: text)) eqn:El; [reflexivity |].
        apply last_None in El. discriminate.
    + rewrite IH.
      * rewrite <- !app_assoc. reflexivity.
      * intros H. apply in_app_or in H as [H | [H | []]]; [auto | congruence].
Qed.

(** [readFieldFromFile] throws when the file cannot be opened, and splits the
    content at the line feeds otherwise: no line holds a line feed, writing
    the lines back gives the content (with a line feed added when the last
    line had none), and lines written one per line are read back as they
    were. *)
Theorem readFieldFromFile_lines (filename : string) :
  readFieldFromFile None filename = Err (Thrown ("Error opening file: " ++ filename)) /\
  (forall ls, Forall (fun l => ~ In newline l) ls ->
     readFieldFromFile (Some (write_lines ls)) filename = Ok ls) /\
  (forall text, exists ls,
     readFieldFromFile (Some text) filename = Ok ls /\
     Forall (fun l => ~ In newline l) ls /\
     write_lines ls = text ++ match last text with
                              | None => []
                              | Some c => if Ascii.eqb c newline then [] else [newline]
                              end).
Proof.
  split; [reflexivity |]. split.
  - intros ls Hls. unfold readFieldFromFile. now rewrite getlines_write_lines.
  - intros text. exists (getlines text []). split; [reflexivity |]. split.
    + apply getlines_no_newline. intros [].
    + apply (write_getlines text []). intros [].
Qed.

Lemma find_first_not_trimmed_split (str : list ascii) :
  match find_first_not_trimmed str with
  | None => Forall (fun c => is_trimmed c = true) str
  | Some n =>
      Forall (fun c => is_trimmed c = true) (take n str) /\
      exists c rest, drop n str = c :: rest /\ is_trimmed c = false
  end.
Proof.
  induction str as [| c str IH]; simpl; [constructor |].
  destruct (is_trimmed c) eqn:E.
  - destruct (find_first_not_trimmed str) as [n |]; simpl.
    + destruct IH as [IH1 IH2]. split; [now constructor | exact IH2].
    + now constructor.
  - split; [constructor | eauto].
Qed.

(** [trim_leading_whitespace] removes the longest prefix of blanks, tabs,
    line feeds and carriage returns and nothing else, so what it returns
    does not start with one of them, and trimming twice is trimming once. *)
Theorem trim_leading_whitespace_prefix (str : list ascii) :
  (exists pre, str = pre ++ trim_leading_whitespace str /\
               Forall (fun c => is_trimmed c = true) pre) /\
  match trim_leading_whitespace str with
  | [] => True
  | c :: _ => is_trimmed c = false
  end /\
  trim_leading_whitespace (trim_leading_whitespace str) = trim_leading_whitespace str.
Proof.
  pose proof (find_first_not_trimmed_split str) as H.
  destruct (find_first_not_trimmed str) as [n |] eqn:E.
  - destruct H as [Hpre (c & rest & Hd & Hc)].
    assert (Ht : trim_leading_whitespace str = c :: rest).
    { unfold trim_leading_whitespace. now rewrite E. }
    rewrite Ht. split; [| split].
    + exists (take n str). split; [| assumption]. rewrite <- Hd. now rewrite take_drop.
    + assumption.
    + unfold trim_leading_whitespace. cbn [find_first_not_trimmed]. now rewrite Hc.
  - assert (Ht : trim_leading_whitespace str = []).
    { unfold trim_leading_whitespace. now rewrite E. }
    rewrite Ht. split; [| split; [exact I | reflexivity]].
    exists str. split; [now rewrite app_nil_r | assumption].
Qed.

(** ** A checkpoint as a grid description *)

Section CheckpointFacts.
Context {T Rng : Type} {NT : Numeric T} {PR : Prng T Rng} {PA : Parsers T} {PT : Printers T}.

Lemma collect_rows (pre fd : list (list ascii)) :
  collect (List.map (fun x => match vec_at (pre ++ fd) x with
                              | Ok row => Ok [TkText (T := T) row]
                              | Err e => Err e
                              end)
                    (seqZ (Z.of_nat (length pre)) (Z.of_nat (length fd))))
  = Ok (List.map (fun row => [TkText row]) fd).
Proof.
  revert pre. induction fd as [| row fd IH]; intros pre; [reflexivity |].
  cbn [length]. rewrite Nat2Z.inj_succ, seqZ_cons by lia. cbn [List.map collect].
  unfold vec_at at 1.
  destruct (Z.ltb_spec (Z.of_nat (length pre)) 0) as [Hneg | _]; [lia |].
  rewrite Nat2Z.id, lookup_app_r, Nat.sub_diag by lia. cbn [lookup list_lookup].
  replace (Z.succ (Z.of_nat (length pre))) with (Z.of_nat (length (pre ++ [row])))
    by (rewrite length_app; simpl; lia).
  replace (Z.pred (Z.succ (Z.of_nat (length fd)))) with (Z.of_nat (length fd)) by lia.
  replace (pre ++ row :: fd) with ((pre ++ [row]) ++ fd) by now rewrite <- app_assoc.
  now rewrite IH.
Qed.

Lemma grid_rows (fd : list (list ascii)) (r : Z) :
  r = Z.of_nat (length fd) ->
  collect (List.map (fun x => match vec_at fd x with
                              | Ok row => Ok [TkText (T := T) row]
                              | Err e => Err e
                              end) (seqZ 0 r))
  = Ok (List.map (fun row => [TkText row]) fd).
Proof. intros ->. exact (collect_rows [] fd). Qed.

Lemma save_state_lines (s : Sim T Rng) :
  0 <= rows s -> length (field_data s) = Z.to_nat (rows s) ->
  save_state false s
  = Ok ([[TkSize (rows s); TkText (list_ascii_of_string " "); TkSize (cols s)];
         [TkNum (g s)]]
        ++ List.map (fun row => [TkText row]) (field_data s)
        ++ density_lines 0 (rho s)).
Proof.
  intros Hr Hlen. unfold save_state. cbv iota.
  now rewrite (grid_rows (field_data s) (rows s)) by lia.
Qed.

Lemma render_density (c : ascii) (l : list ascii) (r : T) :
  render_line [TkChar c; TkText l; TkNum r] = c :: l ++ print_real r.
Proof. unfold render_line. cbn [List.flat_map render_token]. now rewrite app_nil_r. Qed.

Lemma char_index_small (i : nat) : (i < 128)%nat -> char_index (ascii_of_nat i) = Z.of_nat i.
Proof.
  intros Hi. unfold char_index.
  assert (E : N_of_ascii (ascii_of_nat i) = N.of_nat i).
  { apply Nnat.N2Nat.inj. rewrite Nnat.Nat2N.id.
    apply (nat_ascii_embedding i). lia. }
  rewrite E, nat_N_Z.
  destruct (Z.ltb_spec (Z.of_nat i) 128); lia.
Qed.

Lemma ascii_of_nat_newline (i : nat) : (i < 128)%nat -> ascii_of_nat i = newline -> i = 10%nat.
Proof.
  intros Hi E. apply (f_equal nat_of_ascii) in E.
  rewrite nat_ascii_embedding in E by lia. exact E.
Qed.

Lemma density_lines_clean (rh : list T) : forall i,
  (forall j r, rh !! j = Some r -> density_printable (i + j) r) ->
  Forall (fun l => ~ In newline l) (List.map render_line (density_lines i rh)).
Proof.
  induction rh as [| r rh IH]; intros i Hp; [constructor |].
  assert (Hrest : forall j r', rh !! j = Some r' -> density_printable (S i + j) r').
  { intros j r' Hj. replace (S i + j)%nat with (i + S j)%nat by lia. now apply Hp. }
  cbn [density_lines]. pose proof (Hp 0%nat r eq_refl) as H0.
  unfold density_printable in H0. rewrite Nat.add_0_r in H0.
  destruct (neqb r nrho_default); [now apply IH |].
  cbn [List.map]. constructor; [| now apply IH].
  destruct H0 as (Hi & H10 & Hnl & _). rewrite render_density.
  intros [E | E].
  - apply H10. now apply ascii_of_nat_newline.
  - apply in_app_or in E as [E | E]; [| auto].
    simpl in E. unfold newline in E.
    destruct E as [E | [E | [E | []]]]; discriminate.
Qed.

Lemma read_densities_lines (rh : list T) : forall (i : nat) (pre : list T),
  length pre = i ->
  (forall j r, rh !! j = Some r -> density_printable (i + j) r) ->
  read_densities (List.map render_line (density_lines i rh))
                 (pre ++ replicate (length rh) nrho_default)
  = Ok (pre ++ rh).
Proof.
  induction rh as [| r rh IH]; intros i pre Hlen Hp.
  { simpl. reflexivity. }
  assert (Hrest : forall j r', rh !! j = Some r' -> density_printable (S i + j) r').
  { intros j r' Hj. replace (S i + j)%nat with (i + S j)%nat by lia. now apply Hp. }
  cbn [density_lines length replicate]. pose proof (Hp 0%nat r eq_refl) as H0.
  unfold density_printable in H0. rewrite Nat.add_0_r in H0.
  destruct (neqb r nrho_default).
  - subst r.
    replace (pre ++ nrho_default :: replicate (length rh) nrho_default)
      with ((pre ++ [nrho_default]) ++ replicate (length rh) nrho_default)
      by now rewrite <- app_assoc.
    replace (pre ++ nrho_default :: rh) with ((pre ++ [nrho_default]) ++ rh)
      by now rewrite <- app_assoc.
    apply IH; [rewrite length_app; simpl; lia | assumption].
  - destruct H0 as (Hi & _ & _ & Hparse).
    cbn [List.map]. rewrite render_density. cbn [read_densities].
    rewrite Hparse, (char_index_small i Hi).
    unfold vec_at. destruct (Z.ltb_spec (Z.of_nat i) 0) as [Hneg | _]; [lia |].
    rewrite Nat2Z.id, lookup_app_r, Hlen, Nat.sub_diag by lia.
    cbn [lookup list_lookup].
    rewrite insert_app_r_alt, Hlen, Nat.sub_diag by lia. cbn [insert list_insert].
    replace (pre ++ r :: replicate (length rh) nrho_default)
      with ((pre ++ [r]) ++ replicate (length rh) nrho_default)
      by now rewrite <- app_assoc.
    replace (pre ++ r :: rh) with ((pre ++ [r]) ++ rh) by now rewrite <- app_assoc.
    apply IH; [rewrite length_app; simpl; lia | assumption].
Qed.

(** [save_state] writes a grid description: when the text conversions give
    back the extents, the gravity and the densities that were written, the
    engine constructed from the checkpoint file has the character field, the
    extents, the gravity and the density table of the saved engine, and
    everything else as in a new engine. *)
Theorem checkpoint_reconstructs (s : Sim T Rng) :
  checkpointable s ->
  exists s' : Sim T Rng,
    reload s = Ok s' /\
    field_data s' = field_data s /\ rows s' = rows s /\ cols s' = cols s /\
    g s' = g s /\ rho s' = rho s /\
    UT s' = 0 /\ rnd s' = mt19937_seed 1337 /\
    p s' = replicate (Z.to_nat (rows s)) (replicate (Z.to_nat (cols s)) nzero) /\
    old_p s' = p s' /\
    velocity s' = VectorField.init nzero (rows s) (cols s) /\
    velocity_flow s' = velocity s' /\
    last_use s' = replicate (Z.to_nat (rows s)) (replicate (Z.to_nat (cols s)) 0).
Proof.
  intros (Hr & Hc & Hlen & Hfd & Hnr & Hnc & Hext & Hng & Hg & Hrho & Hprint).
  unfold reload. rewrite save_state_lines by lia.
  unfold file_text. rewrite !List.map_app. cbn [List.map].
  rewrite List.map_map.
  assert (Hrows : List.map (fun row => render_line [TkText (T := T) row]) (field_data s)
                  = field_data s).
  { clear. induction (field_data s) as [| row fd IH]; [reflexivity |].
    cbn [List.map]. rewrite IH. unfold render_line. cbn [List.flat_map render_token].
    now rewrite app_nil_r. }
  rewrite Hrows.
  assert (Hl0 : render_line [TkSize (T := T) (rows s); TkText (list_ascii_of_string " ");
                             TkSize (cols s)]
                = print_size (rows s) ++ list_ascii_of_string " " ++ print_size (cols s)).
  { unfold render_line. cbn [List.flat_map render_token]. now rewrite app_nil_r. }
  assert (Hl1 : render_line [TkNum (g s)] = print_real (g s)).
  { unfold render_line. cbn [List.flat_map render_token]. now rewrite app_nil_r. }
  rewrite Hl0, Hl1.
  rewrite getlines_write_lines.
  2: { constructor; [| constructor; [assumption |]].
       - intros H. apply in_app_or in H as [H | H]; [auto |].
         apply in_app_or in H as [H | H]; [| auto].
         simpl in H. unfold newline in H. destruct H as [H | []]. discriminate.
       - apply Forall_app. split; [assumption |].
         apply density_lines_clean. intros j r Hj. now apply Hprint. }
  set (L0 := print_size (rows s) ++ list_ascii_of_string " " ++ print_size (cols s)) in *.
  set (D := List.map render_line (density_lines 0 (rho s))).
  unfold construct. cbn [app].
  change (vec_at (L0 :: print_real (g s) :: field_data s ++ D) 0) with (Ok (A := list ascii) L0).
  change (vec_at (L0 :: print_real (g s) :: field_data s ++ D) 1)
    with (Ok (A := list ascii) (print_real (g s))).
  cbv iota. rewrite Hext, Hg. cbn [fst snd].
  rewrite !to_size_small by lia.
  change (0 <? rows s) with (0 <? rows s).
  replace ((0 <? rows s) && negb (0 =? 0)) with false by (now rewrite andb_false_r).
  replace ((0 <? cols s) && negb (0 =? 0)) with false by (now rewrite andb_false_r).
  destruct (Z.eqb_spec (rows s) 0) as [E0 | _]; [lia |].
  destruct (Z.eqb_spec (cols s) 0) as [E0 | _]; [lia |]. cbn [orb].
  cbn [length]. rewrite length_app.
  destruct (Z.ltb_spec (Z.of_nat (S (S (length (field_data s) + length D)))) (2 + rows s))
    as [E0 | _]; [lia |].
  replace (Z.to_nat (2 + rows s)) with (S (S (length (field_data s)))) by lia.
  cbn [drop]. rewrite drop_app_length, drop_0.
  rewrite <- Hlen, take_app_length.
  change (replicate 256 nrho_default) with ([] ++ replicate 256 (nrho_default (T := T))).
  rewrite <- Hrho. unfold D. rewrite (read_densities_lines (rho s) 0 []);
    [| reflexivity | intros j r Hj; now apply Hprint].
  change ((0 <? 0) && (0 <? 0)) with false. cbv iota.
  eexists. split; [reflexivity |]. cbn. rewrite Hlen. repeat split.
Qed.

End CheckpointFacts.

Module Q16TextFacts.
Import FixedPoint Q16 Q16Text.

Lemma no_newline_check (l : list ascii) :
  forallb (fun c => negb (Ascii.eqb c newline)) l = true -> ~ In newline l.
Proof.
  intros H Hin. rewrite forallb_forall in H. specialize (H _ Hin).
  now rewrite Ascii.eqb_refl in H.
Qed.

Lemma lookup_all {A} (P : nat -> A -> Prop) (l : list A) : forall k,
  (fix go (i : nat) (l : list A) : Prop :=
     match l with
     | [] => True
     | r :: l' => P i r /\ go (S i) l'
     end) k l ->
  forall i r, l !! i = Some r -> P (k + i)%nat r.
Proof.
  induction l as [| a l IH]; intros k H i r Hi; [discriminate |].
  destruct H as [Ha Hl]. destruct i as [| i].
  - injection Hi as <-. now rewrite Nat.add_0_r.
  - replace (k + S i)%nat with (S k + i)%nat by lia. now apply IH.
Qed.

Lemma row_engine_checkpointable : checkpointable row_engine.
Proof.
  unfold checkpointable, row_engine. cbn [rows cols field_data g rho].
  split; [lia |]. split; [lia |]. split; [reflexivity |].
  split; [repeat constructor; apply no_newline_check; vm_compute; reflexivity |].
  split; [apply no_newline_check; vm_compute; reflexivity |].
  split; [apply no_newline_check; vm_compute; reflexivity |].
  split; [vm_compute; reflexivity |].
  split; [apply no_newline_check; vm_compute; reflexivity |].
  split; [vm_compute; reflexivity |].
  split; [vm_compute; reflexivity |].
  apply (lookup_all density_printable _ 0).
  repeat match goal with |- _ /\ _ => split end; try exact I;
    try (vm_compute; reflexivity).
  unfold density_printable.
  change (neqb (from_raw 163840) nrho_default) with false. cbv iota.
  split; [lia |]. split; [lia |].
  split; [apply no_newline_check; vm_compute; reflexivity | vm_compute; reflexivity].
Qed.

Lemma checkpoint_reconstructs_witness :
  simulate 20 row_input 1 = Ok row_engine /\ UT row_engine = 4 /\
  exists s' : Sim Fixed Z,
    reload row_engine = Ok s' /\
    field_data s' = field_data row_engine /\ rows s' = rows row_engine /\
    cols s' = cols row_engine /\
    g s' = g row_engine /\ rho s' = rho row_engine /\
    UT s' = 0 /\ rnd s' = mt19937_seed 1337 /\
    p s' = replicate (Z.to_nat (rows row_engine))
             (replicate (Z.to_nat (cols row_engine)) nzero) /\
    old_p s' = p s' /\
    velocity s' = VectorField.init nzero (rows row_engine) (cols row_engine) /\
    velocity_flow s' = velocity s' /\
    last_use s' = replicate (Z.to_nat (rows row_engine))
                    (replicate (Z.to_nat (cols row_engine)) 0).
Proof.
  split; [vm_compute; reflexivity |]. split; [reflexivity |].
  exact (checkpoint_reconstructs row_engine row_engine_checkpointable).
Defined.

End Q16TextFacts.

(** ** config.h *)

Module ConfigFacts.
Import Config.

Lemma str_is_spec (str : list ascii) (lit : string) :
  str_is str lit = true <-> str = list_ascii_of_string lit.
Proof.
  unfold str_is. rewrite String.eqb_eq. split.
  - intros <-. now rewrite list_ascii_of_string_of_list_ascii.
  - intros ->. now rewrite string_of_list_ascii_of_string.
Qed.

Lemma str_is_without (str : list ascii) (lit : string) (ch : ascii) :
  In ch str -> ~ In ch (list_ascii_of_string lit) -> str_is str lit = false.
Proof.
  intros Hin Hn. destruct (str_is str lit) eqn:E; [| reflexivity].
  apply str_is_spec in E. subst. contradiction.
Qed.

Lemma find_char_lookup (ch : ascii) (str : list ascii) (i : nat) :
  find_char ch str = Some i -> str !! i = Some ch /\ ~ In ch (take i str).
Proof.
  revert i. induction str as [| c str IH]; intros i; simpl; [discriminate |].
  destruct (Ascii.eqb_spec c ch) as [-> | Hc].
  - intros [= <-]. split; [reflexivity | intros []].
  - destruct (find_char ch str) as [j |]; [| discriminate]. intros [= <-].
    destruct (IH j eq_refl) as [H1 H2]. split; [exact H1 |].
    simpl. intros [E | E]; [congruence | contradiction].
Qed.

Lemma find_char_none (ch : ascii) (str : list ascii) :
  find_char ch str = None -> ~ In ch str.
Proof.
  induction str as [| c str IH]; simpl; [intros _ [] |].
  destruct (Ascii.eqb_spec c ch) as [-> | Hc]; [discriminate |].
  destruct (find_char ch str); [discriminate |]. intros _ [E | E]; [congruence |].
  now apply IH.
Qed.

Lemma find_char_first (ch : ascii) (pre post : list ascii) :
  ~ In ch pre -> find_char ch (pre ++ ch :: post) = Some (length pre).
Proof.
  induction pre as [| c pre IH]; intros Hn; simpl.
  - now rewrite Ascii.eqb_refl.
  - destruct (Ascii.eqb_spec c ch) as [-> | Hc]; [exfalso; apply Hn; now left |].
    rewrite IH by (intros H; apply Hn; now right). reflexivity.
Qed.

Lemma find_lookup (str : list ascii) (ch : ascii) (pos i : nat) :
  find str ch pos = Some i -> (pos <= i)%nat /\ str !! i = Some ch.
Proof.
  unfold find. destruct (find_char ch (drop pos str)) as [j |] eqn:E; [| discriminate].
  intros [= <-]. apply find_char_lookup in E as [E _].
  rewrite lookup_drop in E. split; [lia | exact E].
Qed.

Lemma find_some (str : list ascii) (ch : ascii) (pos i : nat) :
  str !! i = Some ch -> (pos <= i)%nat -> exists j, find str ch pos = Some j.
Proof.
  intros Hi Hle. unfold find.
  destruct (find_char ch (drop pos str)) as [j |] eqn:E; [eauto |].
  apply find_char_none in E. exfalso. apply E.
  apply list_elem_of_In, list_elem_of_lookup. exists (i - pos)%nat.
  rewrite lookup_drop. now replace (pos + (i - pos))%nat with i by lia.
Qed.

Lemma find_at (pre post : list ascii) (ch : ascii) (skip : list ascii) :
  ~ In ch skip ->
  find (pre ++ skip ++ ch :: post) ch (length pre) = Some (length pre + length skip)%nat.
Proof.
  intros Hn. unfold find. rewrite drop_app_length.
  now rewrite find_char_first.
Qed.

Lemma substr_at (pre mid post : list ascii) :
  substr (pre ++ mid ++ post) (length pre) (length mid) = Ok mid.
Proof.
  unfold substr. destruct (Nat.ltb_spec (length (pre ++ mid ++ post)) (length pre)) as [H | _].
  - rewrite length_app in H. lia.
  - now rewrite drop_app_length, take_app_length.
Qed.

Lemma substr_in_range (str : list ascii) (pos n : nat) :
  (pos <= length str)%nat -> substr str pos n = Ok (take n (drop pos str)).
Proof.
  intros H. unfold substr.
  destruct (Nat.ltb_spec (length str) pos); [lia | reflexivity].
Qed.

(** A selector of the form [base(n,k)]: when [base] has no opening
    parenthesis, the text between the parenthesis and the first comma reads
    as [n] and the text up to the first closing parenthesis after it reads as
    [k], [parse_type_info] returns [{base, n, k}]; what follows the closing
    parenthesis is not looked at. *)
Theorem parse_type_info_selector (base a b rest : list ascii) (n k : Z) :
  ~ In "("%char base -> ~ In ","%char a -> ~ In ")"%char b ->
  stoul a = Ok n -> stoul b = Ok k ->
  parse_type_info (base ++ "("%char :: a ++ ","%char :: b ++ ")"%char :: rest)
  = Ok (mkTypeInfo base n k).
Proof.
  intros Hbase Ha Hb Hn Hk.
  set (str := base ++ "("%char :: a ++ ","%char :: b ++ ")"%char :: rest).
  assert (Hin : In "("%char str) by (apply in_or_app; right; now left).
  unfold parse_type_info.
  rewrite (str_is_without str "FLOAT" "("%char Hin)
    by (simpl; intuition discriminate).
  rewrite (str_is_without str "DOUBLE" "("%char Hin)
    by (simpl; intuition discriminate).
  assert (Hpos : find str "("%char 0 = Some (length base)).
  { unfold find. rewrite drop_0. unfold str. now rewrite find_char_first. }
  rewrite Hpos.
  assert (Hsub : substr str 0 (length base) = Ok base).
  { exact (substr_at [] base _). }
  rewrite Hsub.
  assert (Hcomma : find str ","%char (length base) = Some (length base + S (length a))%nat).
  { unfold str.
    pose proof (find_at base (b ++ ")"%char :: rest) ","%char ("("%char :: a)) as H.
    cbn [app length] in H. apply H. intros [E | E]; [discriminate | contradiction]. }
  rewrite Hcomma.
  assert (Hclose : find str ")"%char (length base + S (length a))
                   = Some (length base + S (length a) + S (length b))%nat).
  { unfold str.
    pose proof (find_at (base ++ "("%char :: a) rest ")"%char (","%char :: b)) as H.
    rewrite <- !app_assoc in H. cbn [app length] in H.
    rewrite length_app in H. cbn [length] in H. apply H.
    intros [E | E]; [discriminate | contradiction]. }
  rewrite Hclose.
  assert (Hn_str : substr str (length base + 1)
                     (length base + S (length a) - length base - 1) = Ok a).
  { replace (length base + S (length a) - length base - 1)%nat with (length a) by lia.
    unfold str.
    pose proof (substr_at (base ++ ["("%char]) a (","%char :: b ++ ")"%char :: rest)) as H.
    rewrite <- !app_assoc in H. cbn [app] in H.
    rewrite length_app in H. exact H. }
  rewrite Hn_str, Hn.
  assert (Hk_str : substr str (length base + S (length a) + 1)
                     (length base + S (length a) + S (length b)
                      - (length base + S (length a)) - 1) = Ok b).
  { replace (length base + S (length a) + S (length b)
             - (length base + S (length a)) - 1)%nat with (length b) by lia.
    unfold str.
    pose proof (substr_at (base ++ "("%char :: a ++ [","%char]) b (")"%char :: rest)) as H.
    rewrite <- !app_assoc in H. cbn [app] in H. rewrite <- !app_assoc in H. cbn [app] in H.
    rewrite length_app in H. cbn [length] in H. rewrite length_app in H. cbn [length] in H.
    replace (length base + S (length a) + 1)%nat
      with (length base + S (length a + 1))%nat by lia. exact H. }
  rewrite Hk_str, Hk. reflexivity.
Qed.

Lemma parse_type_info_selector_witness :
  parse_type_info (list_ascii_of_string "FIXED(32,16)")
  = Ok (mkTypeInfo (list_ascii_of_string "FIXED") 32 16).
Proof.
  apply (parse_type_info_selector (list_ascii_of_string "FIXED")
           (list_ascii_of_string "32") (list_ascii_of_string "16") [] 32 16);
    try reflexivity; simpl; intuition discriminate.
Defined.

Lemma parenthesised (str : list ascii) (pos comma_pos close_pos : nat) :
  str !! pos = Some "("%char -> str !! comma_pos = Some ","%char ->
  str !! close_pos = Some ")"%char ->
  (pos <= comma_pos)%nat -> (comma_pos <= close_pos)%nat ->
  exists base a b rest,
    str = base ++ "("%char :: a ++ ","%char :: b ++ ")"%char :: rest.
Proof.
  intros Hp Hc Hq Hpc Hcq.
  assert (pos <> comma_pos) by (intros ->; congruence).
  assert (comma_pos <> close_pos) by (intros ->; congruence).
  exists (take pos str), (take (comma_pos - pos - 1) (drop (S pos) str)),
    (take (close_pos - comma_pos - 1) (drop (S comma_pos) str)), (drop (S close_pos) str).
  rewrite <- (take_drop_middle str pos _ Hp) at 1. f_equal. f_equal.
  assert (Hc' : drop (S pos) str !! (comma_pos - pos - 1)%nat = Some ","%char).
  { rewrite lookup_drop. now replace (S pos + (comma_pos - pos - 1))%nat with comma_pos by lia. }
  rewrite <- (take_drop_middle _ _ _ Hc') at 1. f_equal. f_equal.
  rewrite drop_drop.
  replace (S pos + S (comma_pos - pos - 1))%nat with (S comma_pos) by lia.
  assert (Hq' : drop (S comma_pos) str !! (close_pos - comma_pos - 1)%nat = Some ")"%char).
  { rewrite lookup_drop.
    now replace (S comma_pos + (close_pos - comma_pos - 1))%nat with close_pos by lia. }
  rewrite <- (take_drop_middle _ _ _ Hq') at 1. f_equal. f_equal.
  rewrite drop_drop. f_equal. lia.
Qed.

Lemma lookup_middle (pre post : list ascii) (ch : ascii) :
  (pre ++ ch :: post) !! length pre = Some ch.
Proof. now rewrite list_lookup_middle. Qed.

Lemma find_total (str : list ascii) (ch : ascii) (pos i : nat) :
  str !! i = Some ch -> (pos <= i)%nat ->
  exists j, find str ch pos = Some j /\ (pos <= j <= i)%nat.
Proof.
  intros Hi Hle. destruct (find_some str ch pos i Hi Hle) as [j Hj].
  exists j. split; [exact Hj |]. unfold find in Hj.
  destruct (find_char ch (drop pos str)) as [j' |] eqn:E; [| discriminate].
  injection Hj as <-. apply find_char_lookup in E as [_ E].
  split; [lia |]. destruct (le_lt_dec (pos + j') i) as [Hl | Hl]; [exact Hl |].
  exfalso. apply E. apply list_elem_of_In, list_elem_of_lookup.
  exists (i - pos)%nat. rewrite lookup_take_lt by lia. rewrite lookup_drop.
  now replace (pos + (i - pos))%nat with i by lia.
Qed.

Lemma shape_positions (base a b rest : list ascii) :
  let str := base ++ "("%char :: a ++ ","%char :: b ++ ")"%char :: rest in
  exists i j q, (i < j < q)%nat /\
    str !! i = Some "("%char /\ str !! j = Some ","%char /\ str !! q = Some ")"%char.
Proof.
  intros str. exists (length base), (length (base ++ "("%char :: a)),
    (length (base ++ "("%char :: a ++ ","%char :: b)).
  split; [rewrite !length_app; cbn [length]; rewrite length_app; cbn [length]; lia |].
  split; [apply lookup_middle |]. split.
  - pose proof (lookup_middle (base ++ "("%char :: a) (b ++ ")"%char :: rest) ","%char) as H.
    rewrite <- app_assoc in H. exact H.
  - pose proof (lookup_middle (base ++ "("%char :: a ++ ","%char :: b) rest ")"%char) as H.
    rewrite <- !app_assoc in H. cbn [app] in H. rewrite <- !app_assoc in H. exact H.
Qed.

Lemma stoul_error (str : list ascii) (e : Error) : stoul str = Err e -> e = Thrown "stoul".
Proof.
  unfold stoul.
  destruct (match Q16.skip_spaces str with
            | [] => (false, Q16.skip_spaces str)
            | c :: rest => _
            end) as [negative digits].
  destruct (Q16.read_digits digits 0 0) as [[n count] tail].
  destruct count; [now intros [= <-] |].
  destruct (2 ^ 64 <=? n); [now intros [= <-] | discriminate].
Qed.

(** [parse_type_info] throws ["Invalid type format: <str>"] exactly on the
    strings other than [FLOAT] and [DOUBLE] that do not hold an opening
    parenthesis, a comma after it and a closing parenthesis after that
    comma; on every other string it returns a [TypeInfo] or fails inside
    [std::stoul]. *)
Theorem parse_type_info_invalid (str : list ascii) :
  (parse_type_info str
   = Err (Thrown ("Invalid type format: " ++ string_of_list_ascii str))
   <->
   str <> list_ascii_of_string "FLOAT" /\ str <> list_ascii_of_string "DOUBLE" /\
   ~ exists base a b rest,
       str = base ++ "("%char :: a ++ ","%char :: b ++ ")"%char :: rest) /\
  (forall e, parse_type_info str = Err e ->
     e = Thrown ("Invalid type format: " ++ string_of_list_ascii str) \/ e = Thrown "stoul").
Proof.
  unfold parse_type_info.
  destruct (str_is str "FLOAT") eqn:EF.
  { apply str_is_spec in EF. split; [split; [discriminate | tauto] | discriminate]. }
  destruct (str_is str "DOUBLE") eqn:ED.
  { apply str_is_spec in ED. split; [split; [discriminate | tauto] | discriminate]. }
  assert (HF : str <> list_ascii_of_string "FLOAT").
  { intros E. apply str_is_spec in E. congruence. }
  assert (HD : str <> list_ascii_of_string "DOUBLE").
  { intros E. apply str_is_spec in E. congruence. }
  assert (Hshape : (exists base a b rest,
                      str = base ++ "("%char :: a ++ ","%char :: b ++ ")"%char :: rest) ->
                   exists i j q, (i < j < q)%nat /\
                     str !! i = Some "("%char /\ str !! j = Some ","%char /\
                     str !! q = Some ")"%char).
  { intros (base & a & b & rest & ->). apply shape_positions. }
  destruct (find str "("%char 0) as [pos |] eqn:Epos.
  2: { split; [| intros e [= <-]; now left].
       split; [intros _ | reflexivity]. split; [exact HF |]. split; [exact HD |].
       intros Hs. destruct (Hshape Hs) as (i & j & q & Hlt & Hi & Hj & Hq).
       destruct (find_total str _ 0 i Hi ltac:(lia)) as (x & Hx & _). congruence. }
  pose proof (find_lookup _ _ _ _ Epos) as [_ Hpos].
  pose proof (lookup_lt_Some _ _ _ Hpos) as Hpos_lt.
  rewrite substr_in_range by lia.
  destruct (find str ","%char pos) as [comma_pos |] eqn:Ecomma.
  2: { split; [| intros e [= <-]; now left].
       split; [intros _ | reflexivity]. split; [exact HF |]. split; [exact HD |].
       intros Hs. destruct (Hshape Hs) as (i & j & q & Hlt & Hi & Hj & Hq).
       destruct (find_total str _ 0 i Hi ltac:(lia)) as (x & Hx & Hxi).
       assert (x = pos) by congruence. subst x.
       destruct (find_total str _ pos j Hj ltac:(lia)) as (y & Hy & _). congruence. }
  pose proof (find_lookup _ _ _ _ Ecomma) as [Hpc Hcomma].
  pose proof (lookup_lt_Some _ _ _ Hcomma) as Hcomma_lt.
  destruct (find str ")"%char comma_pos) as [close_pos |] eqn:Eclose.
  2: { split; [| intros e [= <-]; now left].
       split; [intros _ | reflexivity]. split; [exact HF |]. split; [exact HD |].
       intros Hs. destruct (Hshape Hs) as (i & j & q & Hlt & Hi & Hj & Hq).
       destruct (find_total str _ 0 i Hi ltac:(lia)) as (x & Hx & Hxi).
       assert (x = pos) by congruence. subst x.
       destruct (find_total str _ pos j Hj ltac:(lia)) as (y & Hy & Hyj).
       assert (y = comma_pos) by congruence. subst y.
       destruct (find_total str _ comma_pos q Hq ltac:(lia)) as (z & Hz & _). congruence. }
  pose proof (find_lookup _ _ _ _ Eclose) as [Hcq Hclose].
  rewrite !substr_in_range by lia.
  assert (Hyes : exists base a b rest,
             str = base ++ "("%char :: a ++ ","%char :: b ++ ")"%char :: rest)
    by (eapply parenthesised; eauto).
  destruct (stoul (take _ (drop (pos + 1) str))) as [n | e1] eqn:E1.
  - destruct (stoul (take _ (drop (comma_pos + 1) str))) as [k | e2] eqn:E2.
    + split; [split; [discriminate | tauto] | discriminate].
    + apply stoul_error in E2 as ->.
      split; [split; [discriminate | tauto] | intros e [= <-]; now right].
  - apply stoul_error in E1 as ->.
    split; [split; [discriminate | tauto] | intros e [= <-]; now right].
Qed.

(** A fixed-point type is matched through its base [Fixed<Bits, Fraction>],
    so [FastFixed<n, k>] answers to the selector of [Fixed<n, k>], and the
    selectors [FAST_FIXED] and [FastFixed] match no type at all. *)
Theorem fast_fixed_selector_unmatched (info : TypeInfo) :
  (forall n k, matches_type_info (FastFixedOf n k) info
               = matches_type_info (FixedOf n k) info) /\
  (str_is (base_type info) "FAST_FIXED" = true \/
   str_is (base_type info) "FastFixed" = true ->
   forall t, matches_type_info t info = false) /\
  parse_type_info (list_ascii_of_string "FAST_FIXED(16,8)")
  = Ok (mkTypeInfo (list_ascii_of_string "FAST_FIXED") 16 8) /\
  List.map (fun t => matches_type_info t
                       (mkTypeInfo (list_ascii_of_string "FAST_FIXED") 16 8))
           SupportedTypes
  = [false; false; false; false; false; false] /\
  List.map (fun t => matches_type_info t
                       (mkTypeInfo (list_ascii_of_string "FIXED") 16 8))
           SupportedTypes
  = [false; false; false; false; true; false].
Proof.
  split; [| split; [| split; [| split]]]; try reflexivity.
  - intros n k. unfold matches_type_info, is_base_of_Fixed. now rewrite !Z.eqb_refl.
  - intros Hb t.
    assert (Hne : forall lit, lit <> "FAST_FIXED"%string -> lit <> "FastFixed"%string ->
                    str_is (base_type info) lit = false).
    { intros lit H1 H2. destruct (str_is (base_type info) lit) eqn:E; [| reflexivity].
      apply str_is_spec in E. exfalso.
      destruct Hb as [Hb | Hb]; apply str_is_spec in Hb; rewrite Hb in E;
        apply (f_equal string_of_list_ascii) in E;
        rewrite !string_of_list_ascii_of_string in E; congruence. }
    destruct t as [| | n k | n k]; unfold matches_type_info, is_base_of_Fixed;
      rewrite ?Z.eqb_refl; cbn [andb];
      rewrite !Hne by discriminate; reflexivity.
Qed.

End ConfigFacts.

(** ** The constructor's density table *)

Section DensityFacts.
Context {T : Type} {PA : Parsers T}.

Lemma density_assignments_cons (line : list ascii) (lines : list (list ascii)) :
  density_assignments (line :: lines)
  = match line with
    | [] => []
    | _ => match parse_density line with
           | Some a => [a]
           | None => []
           end
    end ++ density_assignments lines.
Proof. reflexivity. Qed.

Lemma char_index_range (c : ascii) : -128 <= char_index c < 128.
Proof.
  unfold char_index.
  pose proof (N_ascii_bounded c) as Hb.
  destruct (Z.ltb_spec (Z.of_N (N_of_ascii c)) 128); lia.
Qed.

Lemma assigned_cons (a : ascii * T) (l : list (ascii * T)) (i : Z) (old : option T) :
  assigned (a :: l) i old
  = assigned l i (if char_index (fst a) =? i then Some (snd a) else old).
Proof.
  unfold assigned. cbn [List.filter].
  destruct (char_index (fst a) =? i); [| reflexivity].
  rewrite last_cons. now destruct (last _).
Qed.

(** The density lines are applied in order to a table of 256 entries: the
    table keeps its length, an entry ends up with the value of the last line
    that names its symbol, and the only failure is a line whose symbol is
    negative as a [char], which indexes outside the table. *)
Theorem read_densities_table (lines : list (list ascii)) (rh : list T) :
  length rh = 256%nat ->
  (forall e, read_densities lines rh = Err e -> e = OutOfBounds) /\
  ((exists e, read_densities lines rh = Err e) <->
   exists a, In a (density_assignments lines) /\ char_index (fst a) < 0) /\
  (forall rh', read_densities lines rh = Ok rh' ->
     length rh' = 256%nat /\
     forall i, 0 <= i ->
       rh' !! Z.to_nat i = assigned (density_assignments lines) i (rh !! Z.to_nat i)).
Proof.
  revert rh. induction lines as [| line lines IH]; intros rh Hlen.
  { cbn [read_densities density_assignments List.flat_map]. split; [discriminate |].
    split; [split; [intros [e [=]] | intros (a & [] & _)] |].
    intros rh' [= <-]. split; [exact Hlen | reflexivity]. }
  rewrite density_assignments_cons.
  assert (Hskip : read_densities (line :: lines) rh = read_densities lines rh ->
          match line with
          | [] => []
          | _ :: _ => match parse_density line with
                      | Some a => [a]
                      | None => []
                      end
          end = [] ->
          (forall e, read_densities (line :: lines) rh = Err e -> e = OutOfBounds) /\
          ((exists e, read_densities (line :: lines) rh = Err e) <->
           exists a, In a (match line with
                           | [] => []
                           | _ :: _ => match parse_density line with
                                       | Some a => [a]
                                       | None => []
                                       end
                           end ++ density_assignments lines) /\ char_index (fst a) < 0) /\
          (forall rh', read_densities (line :: lines) rh = Ok rh' ->
             length rh' = 256%nat /\
             forall i, 0 <= i ->
               rh' !! Z.to_nat i
               = assigned (match line with
                           | [] => []
                           | _ :: _ => match parse_density line with
                                       | Some a => [a]
                                       | None => []
                                       end
                           end ++ density_assignments lines) i (rh !! Z.to_nat i))).
  { intros -> ->. exact (IH rh Hlen). }
  destruct line as [| c0 line0]; [now apply Hskip |].
  set (line := c0 :: line0) in *.
  destruct (parse_density line) as [[symbol value] |] eqn:Hparse.
  2: { apply Hskip; [| reflexivity]. unfold line. cbn [read_densities].
       fold line. now rewrite Hparse. }
  clear Hskip.
  assert (Hread : read_densities (line :: lines) rh
                  = match vec_at rh (char_index symbol) with
                    | Ok _ => read_densities lines (<[Z.to_nat (char_index symbol) := value]> rh)
                    | Err e => Err e
                    end).
  { unfold line. cbn [read_densities]. fold line. now rewrite Hparse. }
  rewrite Hread. pose proof (char_index_range symbol) as Hrange.
  cbn [app]. unfold vec_at.
  destruct (Z.ltb_spec (char_index symbol) 0) as [Hneg | Hpos].
  { split; [now intros e [= <-] |]. split.
    - split; [intros _ | eauto]. exists (symbol, value). split; [now left | exact Hneg].
    - discriminate. }
  destruct (lookup_lt_is_Some_2 rh (Z.to_nat (char_index symbol)) ltac:(lia)) as [old Hold].
  rewrite Hold.
  destruct (IH (<[Z.to_nat (char_index symbol) := value]> rh)
              ltac:(now rewrite length_insert)) as (IH1 & IH2 & IH3).
  split; [exact IH1 |]. split.
  - rewrite IH2. split.
    + intros (a & Ha & Hlt). exists a. split; [now right | exact Hlt].
    + intros (a & [<- | Ha] & Hlt); [simpl in Hlt; lia | eauto].
  - intros rh' Hok. destruct (IH3 rh' Hok) as [Hl Hi]. split; [exact Hl |].
    intros i Hi0. rewrite (Hi i Hi0), assigned_cons. cbn [fst snd]. f_equal.
    destruct (Z.eqb_spec (char_index symbol) i) as [<- | Hne].
    + rewrite list_lookup_insert_eq; [reflexivity |]. lia.
    + rewrite list_lookup_insert_ne by lia. reflexivity.
Qed.

End DensityFacts.

Module DensityWitness.
Import FixedPoint Q16.

Lemma read_densities_table_witness :
  (exists e, read_densities (text ["a = 2.5"; ""; "a = 1"]%string) (replicate 256 q001) = Err e)
  <-> exists a, In a (density_assignments (text ["a = 2.5"; ""; "a = 1"]%string)) /\
                char_index (fst a) < 0.
Proof.
  exact (proj1 (proj2 (read_densities_table (text ["a = 2.5"; ""; "a = 1"]%string)
                         (replicate 256 q001) eq_refl))).
Defined.

End DensityWitness.

(** ** The engine that the constructor builds *)

Section NewEngine.
Context {T Rng : Type} {NT : Numeric T} {PR : Prng T Rng} {PA : Parsers T}.

(** On the dynamic path, a constructed engine has positive extents, the
    first [rows] lines after the two header lines as its character field,
    taken as they are (their lengths are not compared with [cols]),
    zero-filled grids of the extents for the pressures, the velocities, the
    flows and the visit stamps, the tick counter 0, and the density table
    of 256 entries that the remaining lines assign over the default. *)
Theorem construct_new_engine (input : list (list ascii)) (s : Sim T Rng) :
  construct 0 0 input = Ok s ->
  0 < rows s < 2 ^ 64 /\ 0 < cols s < 2 ^ 64 /\
  field_data s = take (Z.to_nat (rows s)) (drop 2 input) /\
  length (field_data s) = Z.to_nat (rows s) /\
  p s = replicate (Z.to_nat (rows s)) (replicate (Z.to_nat (cols s)) nzero) /\
  old_p s = p s /\
  velocity s = VectorField.init nzero (rows s) (cols s) /\
  velocity_flow s = velocity s /\
  last_use s = replicate (Z.to_nat (rows s)) (replicate (Z.to_nat (cols s)) 0) /\
  UT s = 0 /\ parse_real (nth 1 input []) = Some (g s) /\
  length (rho s) = 256%nat /\
  (forall i, 0 <= i < 256 ->
     rho s !! Z.to_nat i
     = assigned (density_assignments (drop (Z.to_nat (2 + rows s)) input)) i
                (Some nrho_default)).
Proof.
  unfold construct.
  destruct (vec_at input 0) as [line0 |] eqn:H0; [| discriminate].
  destruct (vec_at input 1) as [line1 |] eqn:H1; [| discriminate].
  destruct (parse_real line1) as [gv |] eqn:Hg; [| discriminate].
  set (r := to_size (fst (parse_extents line0))).
  set (c := to_size (snd (parse_extents line0))).
  assert (Hr : 0 <= r < 2 ^ 64) by (apply Z.mod_pos_bound; lia).
  assert (Hc : 0 <= c < 2 ^ 64) by (apply Z.mod_pos_bound; lia).
  destruct ((0 <? r) && negb (0 =? 0)); [discriminate |].
  destruct ((0 <? c) && negb (0 =? 0)); [discriminate |].
  destruct (Z.eqb_spec r 0) as [| Hr0]; [discriminate |].
  destruct (Z.eqb_spec c 0) as [| Hc0]; [discriminate |]. cbn [orb].
  destruct (Z.ltb_spec (Z.of_nat (length input)) (2 + r)) as [| Hlen]; [discriminate |].
  destruct (read_densities _ _) as [rh |] eqn:Hrho; [| discriminate].
  change ((0 <? 0) && (0 <? 0)) with false. cbv iota. intros [= <-].
  cbn [rows cols field_data p old_p velocity velocity_flow last_use UT rho g].
  destruct (read_densities_table (drop (Z.to_nat (2 + r)) input)
              (replicate 256 nrho_default) (length_replicate _ _)) as (_ & _ & Htab).
  destruct (Htab rh Hrho) as [Hl Hi].
  split; [lia |]. split; [lia |]. split; [reflexivity |].
  split; [rewrite length_take, length_drop; lia |].
  do 6 (split; [reflexivity |]).
  split.
  { apply vec_at_ok in H1 as [_ H1]. change (Z.to_nat 1) with 1%nat in H1.
    now rewrite (nth_lookup_Some _ _ _ _ H1). }
  split; [exact Hl |].
  intros i Hi0. rewrite (Hi i) by lia. f_equal.
  apply lookup_replicate_2. lia.
Qed.

End NewEngine.

Module NewEngineWitness.
Import FixedPoint Q16.

Lemma construct_new_engine_witness :
  0 < rows (engine_or_blank row_input) < 2 ^ 64 /\
  0 < cols (engine_or_blank row_input) < 2 ^ 64.
Proof.
  assert (Hc : construct 0 0 row_input = Ok (engine_or_blank row_input))
    by (vm_compute; reflexivity).
  pose proof (construct_new_engine row_input _ Hc) as (H1 & H2 & _).
  exact (conj H1 H2).
Defined.

End NewEngineWitness.

(** ** The table of neighbour counts *)

Section DirsFacts.
Context {T Rng : Type} {NT : Numeric T} {PR : Prng T Rng}.
Local Open Scope sim_scope.

Lemma mapM_pure {A B} (f : A -> M (Sim T Rng) B) (h : A -> B) (l : list A) (s : Sim T Rng) :
  (forall a, In a l -> f a s = Ok (h a, s)) ->
  mapM f l s = Ok (List.map h l, s).
Proof.
  induction l as [| a l IH]; intros Hf; [reflexivity |].
  cbn [mapM List.map]. unfold bind at 1. rewrite (Hf a) by now left.
  unfold bind at 1. rewrite IH by (intros b Hb; apply Hf; now right).
  reflexivity.
Qed.

Lemma mapM_reads {A B} (f : A -> M (Sim T Rng) B) (Q : A -> Prop) (l : list A)
  (s s' : Sim T Rng) (bs : list B) :
  (forall a s1 b s2, f a s1 = Ok (b, s2) -> s2 = s1) ->
  (forall a b s2, f a s = Ok (b, s2) -> Q a) ->
  mapM f l s = Ok (bs, s') -> s' = s /\ forall a, In a l -> Q a.
Proof.
  intros Hst HQ. revert bs. induction l as [| a l IH]; intros bs H.
  - injection H as <- <-. split; [reflexivity | intros a []].
  - cbn [mapM] in H. apply bind_ok in H as (b & s1 & Hb & H).
    apply bind_ok in H as (bs' & s2 & Hbs & H). apply ret_ok in H as [<- <-].
    pose proof (Hst _ _ _ _ Hb) as ->.
    destruct (IH _ Hbs) as [-> Hall]. split; [reflexivity |].
    intros a' [<- | Hin]; [eapply HQ; eauto | auto].
Qed.

Lemma mapM_error {A B} (f : A -> M (Sim T Rng) B) (l : list A) (s : Sim T Rng) (e : Error) :
  (forall a s1 e1, f a s1 = Err e1 -> e1 = OutOfBounds) ->
  mapM f l s = Err e -> e = OutOfBounds.
Proof.
  intros Hf. revert s. induction l as [| a l IH]; intros s H; [discriminate |].
  cbn [mapM] in H. unfold bind at 1 in H.
  destruct (f a s) as [[b s1] | e1] eqn:Hb.
  - unfold bind at 1 in H. destruct (mapM f l s1) as [[bs s2] | e2] eqn:Hbs.
    + discriminate.
    + injection H as <-. eapply IH; eauto.
  - injection H as <-. eapply Hf; eauto.
Qed.

Lemma F_at_read (x y : Z) (s : Sim T Rng) :
  F_at x y s = match field_at (field_data s) x y with
               | Ok c => Ok (c, s)
               | Err e => Err e
               end.
Proof. reflexivity. Qed.

(** The loop body of [dirs_count]. *)
Local Abbreviation count_step x y :=
  (fun (d : Z) '(dx, dy) =>
     let nx := to_size (x + dx) in
     let ny := to_size (y + dy) in
     let* rws := gets rows in
     let* cls := gets cols in
     if (0 <=? nx) && (nx <? rws) && (0 <=? ny) && (ny <? cls) then
       let* c := F_at nx ny in
       ret (d + (if is_wall c then 0 else 1))
     else ret d).

Lemma count_step_eq (x y d dx dy : Z) (s : Sim T Rng) :
  count_step x y d (dx, dy) s
  = if (0 <=? to_size (x + dx)) && (to_size (x + dx) <? rows s)
       && (0 <=? to_size (y + dy)) && (to_size (y + dy) <? cols s)
    then match field_at (field_data s) (to_size (x + dx)) (to_size (y + dy)) with
         | Ok c => Ok (d + (if is_wall c then 0 else 1), s)
         | Err e => Err e
         end
    else Ok (d, s).
Proof.
  cbv zeta. unfold bind at 1. cbn [gets]. unfold bind at 1. cbn [gets].
  destruct (_ && _); [| reflexivity].
  unfold bind. rewrite F_at_read. now destruct (field_at _ _ _).
Qed.

Lemma count_step_reads (x y d : Z) (dl : Z * Z) (s : Sim T Rng) :
  (forall d' s', count_step x y d dl s = Ok (d', s') -> s' = s) /\
  (forall e, count_step x y d dl s = Err e -> e = OutOfBounds).
Proof.
  destruct dl as [dx dy]. rewrite count_step_eq.
  destruct (_ && _); [| split; [intros d' s' H; now injection H as _ <- | discriminate]].
  destruct (field_at (field_data s) _ _) as [c |] eqn:E.
  - split; [intros d' s' H; now injection H as _ <- | discriminate].
  - split; [discriminate |]. intros e0 [= <-]. unfold field_at in E.
    destruct (vec_at (field_data s) _) eqn:Ev;
      [| injection E as <-; eapply vec_at_err; eauto].
    destruct (_ =? _); [discriminate |]. eapply vec_at_err; eauto.
Qed.

Lemma count_fold_reads (x y : Z) (ds : list (Z * Z)) : forall (d : Z) (s : Sim T Rng),
  (forall d' s', foldM (count_step x y) ds d s = Ok (d', s') -> s' = s) /\
  (forall e, foldM (count_step x y) ds d s = Err e -> e = OutOfBounds).
Proof.
  induction ds as [| dl ds IH]; intros d s.
  { unfold foldM, ret. split; [intros d' s' H; now injection H as _ <- | discriminate]. }
  change (foldM (count_step x y) (dl :: ds) d s)
    with (match count_step x y d dl s with
          | Ok (a, s') => foldM (count_step x y) ds a s'
          | Err e => Err e
          end).
  destruct (count_step x y d dl s) as [[d1 s1] | e1] eqn:E1.
  - pose proof (proj1 (count_step_reads x y d dl s) _ _ E1) as ->. exact (IH d1 s).
  - split; [discriminate |]. intros e [= <-].
    exact (proj2 (count_step_reads x y d dl s) _ E1).
Qed.

(** The step of [dirs_count] for one offset. *)
Lemma dirs_step (s : Sim T Rng) (x y d : Z) (dl : Z * Z) :
  0 <= rows s < 2 ^ 64 -> 0 <= cols s < 2 ^ 64 ->
  0 <= x < rows s -> 0 <= y < cols s -> In dl deltas ->
  (let nx := to_size (x + fst dl) in
   let ny := to_size (y + snd dl) in
   (0 <=? nx) && (nx <? rows s) && (0 <=? ny) && (ny <? cols s))
  = (0 <=? x + fst dl) && (x + fst dl <? rows s) && (0 <=? y + snd dl)
    && (y + snd dl <? cols s) /\
  (0 <= x + fst dl < rows s -> to_size (x + fst dl) = x + fst dl) /\
  (0 <= y + snd dl < cols s -> to_size (y + snd dl) = y + snd dl).
Proof.
  intros Hr Hc Hx Hy Hin. cbv zeta.
  assert (Hd : (fst dl = -1 \/ fst dl = 0 \/ fst dl = 1) /\
               (snd dl = -1 \/ snd dl = 0 \/ snd dl = 1)).
  { unfold deltas in Hin. cbn [In] in Hin.
    destruct Hin as [<- | [<- | [<- | [<- | []]]]]; simpl; lia. }
  assert (Hs : forall v bound, 0 <= bound < 2 ^ 64 -> -1 <= v <= bound ->
             (0 <= v -> to_size v = v) /\ (v = -1 -> to_size v = 2 ^ 64 - 1)).
  { intros v bound Hb Hv. split.
    - intros H0. apply to_size_small. lia.
    - intros ->. reflexivity. }
  destruct (Hs (x + fst dl) (rows s) Hr ltac:(lia)) as [Hx1 Hx2].
  destruct (Hs (y + snd dl) (cols s) Hc ltac:(lia)) as [Hy1 Hy2].
  split; [| split; [intros; apply Hx1; lia | intros; apply Hy1; lia]].
  destruct (Z.eq_dec (x + fst dl) (-1)) as [Ex | Ex];
    destruct (Z.eq_dec (y + snd dl) (-1)) as [Ey | Ey].
  - rewrite Hx2, Hy2, Ex, Ey by assumption.
    destruct (Z.ltb_spec (2 ^ 64 - 1) (rows s)); [lia |]. reflexivity.
  - rewrite Hx2, Ex by assumption.
    destruct (Z.ltb_spec (2 ^ 64 - 1) (rows s)); [lia |]. reflexivity.
  - rewrite Hy2, Ey, Hx1 by (assumption || lia).
    destruct (Z.ltb_spec (2 ^ 64 - 1) (cols s)); [lia |].
    now rewrite !andb_false_r.
  - rewrite Hx1, Hy1 by lia. reflexivity.
Qed.

Lemma dirs_fold (s : Sim T Rng) (x y : Z) :
  0 <= rows s < 2 ^ 64 -> 0 <= cols s < 2 ^ 64 ->
  0 <= x < rows s -> 0 <= y < cols s ->
  (forall x' y', 0 <= x' < rows s -> 0 <= y' < cols s ->
     exists c, field_at (field_data s) x' y' = Ok c) ->
  forall (ds : list (Z * Z)) (d : Z), incl ds deltas ->
  foldM (fun d '(dx, dy) =>
           let nx := to_size (x + dx) in
           let ny := to_size (y + dy) in
           let* rws := gets rows in
           let* cls := gets cols in
           if (0 <=? nx) && (nx <? rws) && (0 <=? ny) && (ny <? cls) then
             let* c := F_at nx ny in
             ret (d + (if is_wall c then 0 else 1))
           else ret d) ds d s
  = Ok (d + Z.of_nat (length (List.filter
                                (fun dl => is_open (field_data s) (rows s) (cols s)
                                             (x + fst dl) (y + snd dl)) ds)), s).
Proof.
  intros Hr Hc Hx Hy Hread ds. induction ds as [| [dx dy] ds IH]; intros d Hincl.
  { cbn. now rewrite Z.add_0_r. }
  assert (Hin : In (dx, dy) deltas) by (apply Hincl; now left).
  assert (Hrest : incl ds deltas) by (intros a Ha; apply Hincl; now right).
  destruct (dirs_step s x y d (dx, dy) Hr Hc Hx Hy Hin) as (Hb & Hnx & Hny).
  cbn [fst snd] in Hb, Hnx, Hny. cbv zeta in Hb.
  cbn [foldM List.filter fst snd]. unfold bind at 1. unfold bind at 1. cbn [gets].
  unfold bind at 1. cbn [gets]. rewrite Hb. unfold is_open at 1.
  destruct ((0 <=? x + dx) && (x + dx <? rows s) && (0 <=? y + dy) && (y + dy <? cols s))
    eqn:Ein.
  - assert (Hrange : 0 <= x + dx < rows s /\ 0 <= y + dy < cols s) by lia.
    destruct Hrange as [Hxr Hyr].
    rewrite (Hnx Hxr), (Hny Hyr). unfold bind at 1. rewrite F_at_read.
    destruct (Hread _ _ Hxr Hyr) as [c Hc']. rewrite Hc'. cbn [ret andb].
    rewrite IH by assumption.
    destruct (is_wall c); cbn [negb length]; f_equal; f_equal; lia.
  - cbn [ret andb]. now rewrite IH.
Qed.

Lemma dirs_cell_counts (s : Sim T Rng) (x y : Z) :
  0 <= rows s < 2 ^ 64 -> 0 <= cols s < 2 ^ 64 ->
  0 <= x < rows s -> 0 <= y < cols s ->
  (forall x' y', 0 <= x' < rows s -> 0 <= y' < cols s ->
     exists c, field_at (field_data s) x' y' = Ok c) ->
  dirs_cell x y s = Ok (open_neighbours (field_data s) (rows s) (cols s) x y, s).
Proof.
  intros Hr Hc Hx Hy Hread. unfold dirs_cell, open_neighbours, is_open at 1.
  unfold bind at 1. rewrite F_at_read.
  destruct (Hread x y Hx Hy) as [c Hc']. rewrite Hc'.
  replace ((0 <=? x) && (x <? rows s) && (0 <=? y) && (y <? cols s)) with true by lia.
  cbn [andb]. destruct (is_wall c); cbn [negb]; [reflexivity |].
  exact (dirs_fold s x y Hr Hc Hx Hy Hread deltas 0 (incl_refl _)).
Qed.

Lemma dirs_cell_reads (x y : Z) (s s' : Sim T Rng) (d : Z) :
  dirs_cell x y s = Ok (d, s') ->
  s' = s /\ exists c, field_at (field_data s) x y = Ok c.
Proof.
  unfold dirs_cell. intros H. apply bind_ok in H as (c & s1 & Hc & H).
  rewrite F_at_read in Hc. destruct (field_at (field_data s) x y) as [c' |] eqn:E;
    [| discriminate].
  injection Hc as Hc1 Hc2. subst c' s1. split; [| eauto].
  destruct (is_wall c).
  - apply ret_ok in H as [_ <-]. reflexivity.
  - exact (proj1 (count_fold_reads x y deltas 0 s) _ _ H).
Qed.

Lemma dirs_cell_error (x y : Z) (s : Sim T Rng) (e : Error) :
  dirs_cell x y s = Err e -> e = OutOfBounds.
Proof.
  unfold dirs_cell. unfold bind at 1. rewrite F_at_read.
  destruct (field_at (field_data s) x y) as [c |] eqn:E.
  2: { intros [= <-]. unfold field_at in E.
       destruct (vec_at (field_data s) x) eqn:Ev;
         [| injection E as <-; eapply vec_at_err; eauto].
       destruct (_ =? _); [discriminate |]. eapply vec_at_err; eauto. }
  destruct (is_wall c); [discriminate |].
  exact (proj2 (count_fold_reads x y deltas 0 s) e).
Qed.

Lemma compute_dirs_eq (s : Sim T Rng) :
  compute_dirs s
  = mapM (fun x => mapM (fun y => dirs_cell x y) (seqZ 0 (cols s))) (seqZ 0 (rows s)) s.
Proof. reflexivity. Qed.

Lemma in_seqZ (x n : Z) : In x (seqZ 0 n) <-> 0 <= x < n.
Proof. rewrite <- list_elem_of_In, elem_of_seqZ. lia. Qed.

(** [run] first fills the table [dirs].  On a grid whose cells inside the
    extents can all be read, that leaves the state as it is and gives a table
    of the extents whose entry for a cell is the number of its edge
    neighbours that lie inside the grid and are not walls, between 0 and 4,
    and 0 for a wall; so a run of no steps changes nothing.  When some cell
    inside the extents cannot be read (a row is missing or too short), the
    table cannot be filled and every run stops at the read outside the
    container. *)
Theorem compute_dirs_counts (s : Sim T Rng) :
  0 <= rows s < 2 ^ 64 -> 0 <= cols s < 2 ^ 64 ->
  ((forall x y, 0 <= x < rows s -> 0 <= y < cols s ->
      exists c, field_at (field_data s) x y = Ok c) ->
   exists dirs,
     compute_dirs s = Ok (dirs, s) /\
     grid_shape dirs (rows s) (cols s) /\
     (forall x y, 0 <= x < rows s -> 0 <= y < cols s ->
        grid_at dirs x y = Ok (open_neighbours (field_data s) (rows s) (cols s) x y) /\
        0 <= open_neighbours (field_data s) (rows s) (cols s) x y <= 4 /\
        (wall s x y -> open_neighbours (field_data s) (rows s) (cols s) x y = 0)) /\
     (forall fuel steps ci, steps <= 0 -> run fuel steps ci s = Ok (tt, s))) /\
  ((exists x y e, 0 <= x < rows s /\ 0 <= y < cols s /\
      field_at (field_data s) x y = Err e) ->
   compute_dirs s = Err OutOfBounds /\
   (forall fuel steps ci, run fuel steps ci s = Err OutOfBounds)).
Proof.
  intros Hr Hc. split.
  - intros Hread.
    set (h := fun x y => open_neighbours (field_data s) (rows s) (cols s) x y).
    assert (Hdirs : compute_dirs s
                    = Ok (List.map (fun x => List.map (h x) (seqZ 0 (cols s)))
                                   (seqZ 0 (rows s)), s)).
    { rewrite compute_dirs_eq. apply mapM_pure. intros x Hx. apply in_seqZ in Hx.
      apply mapM_pure. intros y Hy. apply in_seqZ in Hy.
      now apply dirs_cell_counts. }
    eexists. split; [exact Hdirs |]. split; [| split].
    + split.
      * rewrite length_map, length_seqZ. reflexivity.
      * apply Forall_forall. intros row Hrow. apply list_elem_of_In in Hrow.
        apply in_map_iff in Hrow as (x & <- & _).
        now rewrite length_map, length_seqZ.
    + intros x y Hx Hy. fold (h x y). split; [| split]; [| unfold h .. ].
      * unfold grid_at, vec_at.
        destruct (Z.ltb_spec x 0); [lia |]. rewrite list_lookup_fmap.
        rewrite lookup_seqZ_lt by lia. cbn [fmap option_fmap option_map].
        destruct (Z.ltb_spec y 0); [lia |]. rewrite list_lookup_fmap.
        rewrite lookup_seqZ_lt by lia. cbn [fmap option_fmap option_map].
        do 3 f_equal; lia.
      * unfold open_neighbours.
        destruct (is_open (field_data s) (rows s) (cols s) x y); cbv iota; [| lia].
        pose proof (List.filter_length_le
                      (fun d => is_open (field_data s) (rows s) (cols s)
                                  (x + fst d) (y + snd d)) deltas) as Hle.
        change (length deltas) with 4%nat in Hle. lia.
      * intros Hw. unfold open_neighbours, is_open. unfold wall in Hw.
        apply field_at_wall in Hw. rewrite Hw.
        change (negb (is_wall "#"%char)) with false. now rewrite andb_false_r.
    + intros fuel steps ci Hs. unfold run, bind. rewrite Hdirs.
      replace (Z.to_nat steps) with 0%nat by lia. reflexivity.
  - intros (x & y & e & Hx & Hy & He).
    assert (Hfail : compute_dirs s = Err OutOfBounds).
    { destruct (compute_dirs s) as [[dirs s'] | e'] eqn:E.
      - exfalso. rewrite compute_dirs_eq in E.
        apply (mapM_reads _ (fun x => forall y, In y (seqZ 0 (cols s)) ->
                                  exists c, field_at (field_data s) x y = Ok c)) in E
          as [_ Hall].
        + destruct (Hall x ltac:(now apply in_seqZ) y ltac:(now apply in_seqZ)) as [c Hc'].
          congruence.
        + intros a s1 b s2 Hm.
          apply (mapM_reads _ (fun _ => True)) in Hm as [-> _]; [reflexivity | |].
          * intros y0 s3 d s4 Hd. now apply dirs_cell_reads in Hd as [-> _].
          * auto.
        + intros a b s2 Hm.
          apply (mapM_reads _ (fun y => exists c, field_at (field_data s) a y = Ok c)) in Hm
            as [_ Hall]; [exact Hall | |].
          * intros y0 s3 d s4 Hd. now apply dirs_cell_reads in Hd as [-> _].
          * intros y0 d s3 Hd. now apply dirs_cell_reads in Hd as [_ Hd].
      - rewrite compute_dirs_eq in E. f_equal. revert E. apply mapM_error.
        intros a s1 e1. apply mapM_error. intros y0 s2 e2. apply dirs_cell_error. }
    split; [exact Hfail |]. intros fuel steps ci. unfold run, bind. now rewrite Hfail.
Qed.

End DirsFacts.

Module DirsWitness.
Import FixedPoint Q16 Q16Text.

Lemma compute_dirs_counts_witness :
  construct 0 0 short_row_input = Ok short_row_engine /\
  compute_dirs short_row_engine = Err OutOfBounds /\
  (forall fuel steps ci, run fuel steps ci short_row_engine = Err OutOfBounds).
Proof.
  split; [vm_compute; reflexivity |].
  apply (compute_dirs_counts short_row_engine); [vm_compute; split; [discriminate | reflexivity] ..|].
  exists 0, 2, OutOfBounds. repeat split; vm_compute; congruence.
Defined.

End DirsWitness.

(** ** [propagate_stop] returns *)

Lemma unstamped_done (ut : Z) : 0 <= ut < 2 ^ 31 -> unstamped ut (to_int ut) = false.
Proof.
  intros H. unfold unstamped. rewrite to_int_small by lia. rewrite to_size_small by lia.
  now rewrite Z.eqb_refl.
Qed.

Lemma count_row_unstamped_insert (ut : Z) (row : list Z) (i : nat) (old v : Z) :
  row !! i = Some old ->
  (count_row_unstamped ut (<[i := v]> row) + (if unstamped ut old then 1 else 0)
   = count_row_unstamped ut row + (if unstamped ut v then 1 else 0))%nat.
Proof.
  revert i. induction row as [| l row IH]; intros [| i] H; simpl in *; try discriminate.
  - injection H as ->. destruct (unstamped ut old), (unstamped ut v); lia.
  - specialize (IH i H).
    destruct (unstamped ut old), (unstamped ut v), (unstamped ut l); lia.
Qed.

Lemma count_unstamped_set (ut : Z) (gr gr' : list (list Z)) (x y old v : Z) :
  grid_at gr x y = Ok old -> grid_set gr x y v = Ok gr' ->
  (count_unstamped ut gr' + (if unstamped ut old then 1 else 0)
   = count_unstamped ut gr + (if unstamped ut v then 1 else 0))%nat.
Proof.
  intros Hold Hset. unfold grid_set in Hset. rewrite Hold in Hset. injection Hset as <-.
  apply grid_at_ok in Hold as (_ & _ & row & Hrow & Hcell).
  revert Hrow. generalize (Z.to_nat x) as n. clear x.
  induction gr as [| r gr IH]; intros [| n] Hrow; simpl in *; try discriminate.
  - injection Hrow as ->. pose proof (count_row_unstamped_insert ut row _ old v Hcell).
    destruct (unstamped ut old), (unstamped ut v); lia.
  - specialize (IH n Hrow). unfold alter in IH.
    destruct (unstamped ut old), (unstamped ut v); lia.
Qed.

Lemma count_row_unstamped_le (ut : Z) (row : list Z) :
  (count_row_unstamped ut row <= length row)%nat.
Proof. induction row as [| l row IH]; simpl; [lia |]. destruct (unstamped ut l); lia. Qed.

Lemma count_unstamped_le (ut : Z) (gr : list (list Z)) :
  (count_unstamped ut gr <= entries gr)%nat.
Proof.
  induction gr as [| row gr IH]; simpl; [lia |].
  pose proof (count_row_unstamped_le ut row). lia.
Qed.

Lemma unstamped_counted (ut : Z) (gr : list (list Z)) (x y l : Z) :
  0 <= ut < 2 ^ 31 ->
  grid_at gr x y = Ok l -> unstamped ut l = true -> (1 <= count_unstamped ut gr)%nat.
Proof.
  intros Hut Hl Hf.
  destruct (grid_set_ok gr x y (to_int ut) l Hl) as [gr0 Hgr0].
  pose proof (count_unstamped_set ut gr gr0 x y l _ Hl Hgr0) as Hc0.
  rewrite Hf, (unstamped_done _ Hut) in Hc0. lia.
Qed.

Lemma grid_set_old {A} (gr gr' : list (list A)) (x y : Z) (a : A) :
  grid_set gr x y a = Ok gr' -> exists old, grid_at gr x y = Ok old.
Proof. unfold grid_set. destruct (grid_at gr x y) as [old |]; [eauto | discriminate]. Qed.

Section StopTermination.
Context {T Rng : Type} {NT : Numeric T} {PR : Prng T Rng}.
Implicit Types (s : Sim T Rng).
Local Open Scope sim_scope.

Lemma stamps_post_refl s : stamps_post s s.
Proof. unfold stamps_post. repeat split; auto. Qed.

Lemma stamps_post_trans s s1 s2 :
  stamps_post s s1 -> stamps_post s1 s2 -> stamps_post s s2.
Proof.
  intros (EU & Er & Ec & Hst & Hc) (EU' & Er' & Ec' & Hst' & Hc').
  rewrite EU in *. unfold stamps_post.
  repeat match goal with |- _ /\ _ => split end; try congruence; try lia.
  intros i j. destruct (Hst' i j) as [-> | ->]; auto.
Qed.

(** Storing the current [UT] at a cell. *)
Lemma stamps_post_mark s (x y : Z) (gr : list (list Z)) :
  0 <= UT s < 2 ^ 31 ->
  grid_set (last_use s) x y (to_int (UT s)) = Ok gr ->
  stamps_post s (with_last_use s gr) /\
  (forall l, grid_at (last_use s) x y = Ok l -> unstamped (UT s) l = true ->
     (S (count_unstamped (UT s) gr) <= count_unstamped (UT s) (last_use s))%nat).
Proof.
  intros Hut Hgr. destruct (grid_set_old _ _ _ _ _ Hgr) as [old Hold].
  pose proof (count_unstamped_set (UT s) _ _ _ _ _ _ Hold Hgr) as Hc.
  rewrite (unstamped_done _ Hut) in Hc. split.
  - unfold stamps_post. cbn [UT rows cols last_use with_last_use].
    repeat match goal with |- _ /\ _ => split end; try reflexivity.
    + intros i j. rewrite (grid_at_set _ _ _ _ i j _ Hgr).
      destruct ((i =? x) && (j =? y)); auto.
    + destruct (unstamped (UT s) old); lia.
  - intros l Hl Hu. rewrite Hl in Hold. injection Hold as <-. rewrite Hu in Hc. lia.
Qed.

Lemma stop_blocked_runs (x y : Z) (ds : list (Z * Z)) s :
  runs fuel_only (stop_blocked x y ds) s (fun _ s' => s' = s).
Proof.
  induction ds as [| [dx dy] ds IH]; simpl; [now apply runs_ret |].
  apply runs_bind, runs_gets. apply runs_bind, runs_gets.
  destruct (_ && _); [| exact IH].
  apply runs_bind, (runs_F_at _ fuel_only_fuel). intros c Hc.
  destruct (is_wall c); [exact IH |].
  apply runs_bind, (runs_L_at _ fuel_only_fuel). intros l Hl.
  apply runs_bind, runs_gets.
  destruct (_ <? _); [| exact IH].
  apply runs_bind, (runs_V_get _ fuel_only_fuel). intros w Hw.
  destruct (nlt nzero w); [now apply runs_ret | exact IH].
Qed.

Lemma stop_dirs_runs (fuel' : nat) (rec : Z -> Z -> M (Sim T Rng) unit) (x y : Z) :
  (forall s nx ny l,
     0 <= UT s < 2 ^ 31 ->
     grid_at (last_use s) nx ny = Ok l -> unstamped (UT s) l = true ->
     (count_unstamped (UT s) (last_use s) <= fuel')%nat ->
     runs fuel_only (rec nx ny) s (fun _ s' => stamps_post s s')) ->
  forall ds s,
    0 <= UT s < 2 ^ 31 -> (count_unstamped (UT s) (last_use s) <= fuel')%nat ->
    runs fuel_only (stop_dirs rec x y ds) s (fun _ s' => stamps_post s s').
Proof.
  intros Hrec. induction ds as [| [dx dy] ds IH]; intros s Hut Hcnt; simpl.
  { apply runs_ret, stamps_post_refl. }
  apply runs_bind, runs_gets. apply runs_bind, runs_gets.
  destruct (out_of_grid _ _ _ _); [now apply IH |].
  apply runs_bind, (runs_F_at _ fuel_only_fuel). intros c Hc.
  destruct (is_wall c); [now apply IH |].
  apply runs_bind, (runs_L_at _ fuel_only_fuel). intros l Hl.
  apply runs_bind, runs_gets.
  destruct (to_size l =? UT s) eqn:El; [now apply IH |].
  apply runs_bind, (runs_V_get _ fuel_only_fuel). intros w Hw.
  destruct (nlt nzero w); [now apply IH |].
  apply runs_bind. eapply runs_weaken.
  { apply (Hrec s (x + dx) (y + dy) l); try assumption.
    unfold unstamped. now rewrite El. }
  intros [] s1 Hpost. cbv beta.
  pose proof Hpost as (EU & _ & _ & _ & Hc1).
  eapply runs_weaken; [apply IH; rewrite EU; [assumption | lia] |].
  intros [] s2 Hpost2. now apply (stamps_post_trans s s1).
Qed.

Lemma only_stamps_trans s s1 s2 :
  s1 = with_last_use s (last_use s1) -> s2 = with_last_use s1 (last_use s2) ->
  s2 = with_last_use s (last_use s2).
Proof. intros -> ->. reflexivity. Qed.

(** A call on a cell that can still be entered returns when the fuel covers
    the cells that can. *)
Lemma propagate_stop_runs (fuel : nat) :
  forall s x y force l,
    0 <= UT s < 2 ^ 31 ->
    grid_at (last_use s) x y = Ok l -> unstamped (UT s) l = true ->
    (count_unstamped (UT s) (last_use s) <= fuel)%nat ->
    runs fuel_only (propagate_stop fuel x y force) s (fun _ s' => stamps_post s s').
Proof.
  induction fuel as [| fuel' IH]; intros s x y force l Hut Hl Hu Hcnt.
  { pose proof (unstamped_counted _ _ _ _ _ Hut Hl Hu). lia. }
  cbn [propagate_stop]. apply runs_bind.
  apply (runs_weaken _ _ _ (fun _ s1 => s1 = s)).
  { destruct force; [now apply runs_ret | apply stop_blocked_runs]. }
  intros blocked s1 ->. destruct blocked; [apply runs_ret, stamps_post_refl |].
  apply runs_bind, runs_gets.
  apply runs_bind, (runs_L_set _ fuel_only_fuel). intros gr Hgr.
  destruct (stamps_post_mark s x y gr Hut Hgr) as [Hpost Hdec].
  specialize (Hdec l Hl Hu).
  eapply runs_weaken.
  { apply (stop_dirs_runs fuel'); [| exact Hut | cbn [UT last_use with_last_use]; lia].
    intros s0 nx ny l0 Hut0 Hl0 Hu0 Hc0. now apply (IH s0 nx ny false l0). }
  intros [] s2 Hpost2. now apply (stamps_post_trans s _ s2 Hpost).
Qed.

Lemma stop_blocked_only_stamps (x y : Z) (ds : list (Z * Z)) s (b : bool) s' :
  stop_blocked x y ds s = Ok (b, s') -> s' = s.
Proof. intros H. exact (proj2 (stop_blocked_runs x y ds s) _ _ H). Qed.

Lemma only_stamps_id s : s = with_last_use s (last_use s).
Proof. now destruct s. Qed.

Lemma stop_dirs_only_stamps (rec : Z -> Z -> M (Sim T Rng) unit) (x y : Z) :
  (forall nx ny s u s', rec nx ny s = Ok (u, s') -> s' = with_last_use s (last_use s')) ->
  forall ds s u s', stop_dirs rec x y ds s = Ok (u, s') -> s' = with_last_use s (last_use s').
Proof.
  intros Hrec. induction ds as [| [dx dy] ds IH]; intros s u s' H; simpl in H.
  { apply ret_ok in H as [_ <-]. apply only_stamps_id. }
  apply bind_ok in H as (rws & s1 & H1 & H). apply gets_ok in H1 as [-> ->].
  apply bind_ok in H as (cls & s1 & H1 & H). apply gets_ok in H1 as [-> ->].
  destruct (out_of_grid _ _ _ _); [now apply (IH s u) |].
  apply bind_ok in H as (c & s1 & H1 & H). apply lift_ok in H1 as [_ ->].
  destruct (is_wall c); [now apply (IH s u) |].
  apply bind_ok in H as (l & s1 & H1 & H). apply lift_ok in H1 as [_ ->].
  apply bind_ok in H as (ut & s1 & H1 & H). apply gets_ok in H1 as [-> ->].
  destruct (_ =? _); [now apply (IH s u) |].
  apply bind_ok in H as (w & s1 & H1 & H). apply lift_ok in H1 as [_ ->].
  destruct (nlt nzero w); [now apply (IH s u) |].
  apply bind_ok in H as (u1 & s1 & H1 & H).
  apply Hrec in H1. apply IH in H. now apply (only_stamps_trans s s1).
Qed.

Lemma propagate_stop_only_stamps (fuel : nat) :
  forall x y force s u s',
    propagate_stop fuel x y force s = Ok (u, s') -> s' = with_last_use s (last_use s').
Proof.
  induction fuel as [| fuel' IH]; intros x y force s u s' H; [discriminate |].
  cbn [propagate_stop] in H. apply bind_ok in H as (blocked & s1 & H1 & H).
  assert (s1 = s) as ->.
  { destruct force; [now apply ret_ok in H1 as [_ <-] |].
    now apply stop_blocked_only_stamps in H1. }
  clear H1.
  destruct blocked; [apply ret_ok in H as [_ <-]; apply only_stamps_id |].
  apply bind_ok in H as (ut & s1 & H1 & H). apply gets_ok in H1 as [-> ->].
  apply bind_ok in H as ([] & s1 & H1 & H).
  unfold L_set in H1. destruct (grid_set _ _ _ _) as [gr |]; [| discriminate].
  injection H1 as <-.
  apply (stop_dirs_only_stamps _ x y) in H.
  - rewrite H. reflexivity.
  - intros nx ny s0 u0 s0' H0. now apply (IH nx ny false s0 u0).
Qed.

(** [propagate_stop] returns whenever the fuel exceeds the number of cells:
    the recursion enters a cell only while its stamp is not the current
    [UT], and stamps it on entry.  It changes nothing but visit stamps, and
    a stamp it changes becomes [UT]. *)
Theorem propagate_stop_terminates (fuel : nat) (s : Sim T Rng) (x y : Z) (force : bool) :
  0 <= UT s < 2 ^ 31 -> (entries (last_use s) < fuel)%nat ->
  runs fuel_only (propagate_stop fuel x y force) s
    (fun _ s' =>
       s' = with_last_use s (last_use s') /\
       (forall i j, grid_at (last_use s') i j = grid_at (last_use s) i j \/
                    grid_at (last_use s') i j = Ok (UT s)) /\
       (count_unstamped (UT s) (last_use s') <= count_unstamped (UT s) (last_use s))%nat).
Proof.
  intros Hut Hfuel.
  pose proof (count_unstamped_le (UT s) (last_use s)) as Hle.
  assert (Hpost : runs fuel_only (propagate_stop fuel x y force) s
                    (fun _ s' => stamps_post s s')).
  { destruct fuel as [| fuel']; [lia |].
    cbn [propagate_stop]. apply runs_bind.
    apply (runs_weaken _ _ _ (fun _ s1 => s1 = s)).
    { destruct force; [now apply runs_ret | apply stop_blocked_runs]. }
    intros blocked s1 ->. destruct blocked; [apply runs_ret, stamps_post_refl |].
    apply runs_bind, runs_gets.
    apply runs_bind, (runs_L_set _ fuel_only_fuel). intros gr Hgr.
    destruct (stamps_post_mark s x y gr Hut Hgr) as [Hpost _].
    pose proof Hpost as (_ & _ & _ & _ & Hc).
    eapply runs_weaken.
    { apply (stop_dirs_runs fuel');
        [| exact Hut | cbn [UT last_use with_last_use] in *; lia].
      intros s0 nx ny l0 Hut0 Hl0 Hu0 Hc0.
      now apply (propagate_stop_runs fuel' s0 nx ny false l0). }
    intros [] s2 Hpost2. now apply (stamps_post_trans s _ s2 Hpost). }
  destruct Hpost as [Hbad Hok]. split; [exact Hbad |].
  intros u s' H. destruct (Hok u s' H) as (EU & _ & _ & Hst & Hc).
  split; [exact (propagate_stop_only_stamps fuel x y force s u s' H) |].
  split; [| exact Hc].
  intros i j. destruct (Hst i j) as [E | E]; [now left | right].
  now rewrite to_int_small in E by lia.
Qed.

End StopTermination.

Module StopWitness.
Import FixedPoint Q16 Q16Text.

Lemma propagate_stop_terminates_witness :
  runs fuel_only (propagate_stop 16 1 1 true) row_engine
    (fun _ s' =>
       s' = with_last_use row_engine (last_use s') /\
       (forall i j, grid_at (last_use s') i j = grid_at (last_use row_engine) i j \/
                    grid_at (last_use s') i j = Ok (UT row_engine)) /\
       (count_unstamped (UT row_engine) (last_use s')
        <= count_unstamped (UT row_engine) (last_use row_engine))%nat).
Proof.
  apply (propagate_stop_terminates 16 row_engine 1 1 true).
  - vm_compute. split; [discriminate | reflexivity].
  - vm_compute. lia.
Defined.

End StopWitness.

(** ** [propagate_move] returns *)

Lemma entries_set {A} (gr gr' : list (list A)) (x y : Z) (a : A) :
  grid_set gr x y a = Ok gr' -> entries gr' = entries gr.
Proof.
  unfold grid_set. destruct (grid_at gr x y) as [old |] eqn:Hold; [| discriminate].
  intros [= <-]. apply grid_at_ok in Hold as (_ & _ & row & Hrow & _).
  revert Hrow. generalize (Z.to_nat x) as n.
  induction gr as [| r gr IH]; intros [| n] Hrow; simpl in *; try discriminate.
  - now rewrite length_insert.
  - specialize (IH n Hrow). unfold alter in IH. lia.
Qed.

Section MoveTermination.
Context {T Rng : Type} {NT : Numeric T} {PR : Prng T Rng}.
Context {NL : NumericLaws T} {PL : PrngLaws T Rng}.
Implicit Types (s : Sim T Rng).
Local Open Scope sim_scope.

Lemma thresholds_open_nil s (x y : Z) (sum : T) : thresholds_open s x y [] sum [] sum.
Proof. unfold thresholds_open. repeat split; auto. Qed.

Lemma thresholds_open_skip s (x y : Z) (d : Z * Z) ds (sum : T) ths total :
  thresholds_open s x y ds sum ths total ->
  thresholds_open s x y (d :: ds) sum (nzero :: ths) total.
Proof.
  intros (HF & Ht & Hn). unfold thresholds_open. split; [| split].
  - constructor; auto.
  - destruct Ht; [now left | right; now right].
  - exact Hn.
Qed.

Lemma thresholds_open_keep s (x y : Z) (d : Z * Z) ds (sum : T) ths total :
  open_target s (x + fst d) (y + snd d) ->
  thresholds_open s x y ds sum ths total ->
  thresholds_open s x y (d :: ds) sum (sum :: ths) total.
Proof.
  intros Hopen (HF & Ht & Hn). unfold thresholds_open. split; [| split].
  - constructor; auto.
  - destruct Ht; [right; now left | right; now right].
  - exact Hn.
Qed.

Lemma thresholds_open_add s (x y : Z) (d : Z * Z) ds (sum w sum' : T) ths total :
  open_target s (x + fst d) (y + snd d) ->
  nlt w nzero = false -> nadd sum w = Some sum' ->
  thresholds_open s x y ds sum' ths total ->
  thresholds_open s x y (d :: ds) sum (sum' :: ths) total.
Proof.
  intros Hopen Hw Hadd (HF & Ht & Hn). unfold thresholds_open. split; [| split].
  - constructor; auto.
  - right. destruct Ht as [-> | Ht]; [now left | now right].
  - intros Hs. apply Hn. exact (nadd_nonneg sum w sum' Hs Hw Hadd).
Qed.

Lemma move_thresholds_open (x y : Z) :
  forall ds sum s,
    runs fuel_only (move_thresholds x y sum ds) s
      (fun r s' => s' = s /\ thresholds_open s x y ds sum (fst r) (snd r)).
Proof.
  induction ds as [| [dx dy] ds IH]; intros sum s; simpl.
  - apply runs_ret. split; [reflexivity | apply thresholds_open_nil].
  - assert (Hskip : runs fuel_only
              (bind (move_thresholds x y sum ds)
                 (fun r => match r with (ths, total) => ret (nzero :: ths, total) end)) s
              (fun r s' => s' = s /\
                 thresholds_open s x y ((dx, dy) :: ds) sum (fst r) (snd r))).
    { apply runs_bind. eapply runs_weaken; [apply IH |].
      intros [ths total] s1 [-> Hok]. apply runs_ret. split; [reflexivity |].
      now apply thresholds_open_skip. }
    apply runs_bind, runs_gets. apply runs_bind, runs_gets.
    destruct (out_of_grid_int _ _ _ _) eqn:Hin; [exact Hskip |].
    apply runs_bind, (runs_F_at _ fuel_only_fuel). intros c Hc.
    destruct (is_wall c); [exact Hskip |].
    apply runs_bind, (runs_L_at _ fuel_only_fuel). intros l Hl.
    apply runs_bind, runs_gets.
    destruct (to_size l =? UT s) eqn:El; [exact Hskip |].
    assert (Hopen : open_target s (x + fst (dx, dy)) (y + snd (dx, dy))).
    { split; [exact Hin |]. exists l. split; [exact Hl |].
      unfold unstamped. now rewrite El. }
    apply runs_bind, (runs_V_get _ fuel_only_fuel). intros w Hw.
    destruct (nlt w nzero) eqn:Ew.
    + apply runs_bind. eapply runs_weaken; [apply IH |].
      intros [ths total] s1 [-> Hok]. apply runs_ret. split; [reflexivity |].
      now apply thresholds_open_keep.
    + apply runs_bind, (runs_arith' _ fuel_only_fuel). intros sum' Hsum.
      apply runs_bind. eapply runs_weaken; [apply IH |].
      intros [ths total] s1 [-> Hok]. apply runs_ret. split; [reflexivity |].
      now apply (thresholds_open_add s x y (dx, dy) ds sum w).
Qed.

Lemma pick_dir_at (ths : list T) (r : T) : forall i j,
  pick_dir ths r i = Some j ->
  exists th, ths !! (j - i)%nat = Some th /\ nlt r th = true /\ (i <= j)%nat.
Proof.
  induction ths as [| t ths IH]; intros i j H; simpl in H; [discriminate |].
  destruct (nlt r t) eqn:E.
  - injection H as <-. exists t. rewrite Nat.sub_diag. auto.
  - destruct (IH _ _ H) as (th & Hth & Hlt & Hle). exists th.
    replace (j - i)%nat with (S (j - S i)) by lia. auto with lia.
Qed.

Lemma pick_dir_exists (ths : list T) (r total : T) : forall i,
  In total ths -> nlt r total = true -> exists j, pick_dir ths r i = Some j.
Proof.
  induction ths as [| t ths IH]; intros i Hin Hlt; simpl; [destruct Hin |].
  destruct (nlt r t) eqn:E; [eauto |].
  destruct Hin as [-> | Hin]; [congruence |]. now apply IH.
Qed.

(** The direction picked for a draw below a sum that is not zero is one
    whose neighbour can be entered. *)
Lemma target_open s (x y : Z) (ths : list T) (total r : T) :
  thresholds_open s x y deltas nzero ths total ->
  neqb total nzero = false -> nlt r nzero = false -> nlt r total = true ->
  open_target s (x + fst (nth (default 0%nat (pick_dir ths r 0%nat)) deltas (0, 0)))
                (y + snd (nth (default 0%nat (pick_dir ths r 0%nat)) deltas (0, 0))).
Proof.
  intros (HF & Ht & _) Hne Hr0 Hrt.
  destruct Ht as [-> | Hin]; [rewrite neqb_zero_zero in Hne; discriminate |].
  destruct (pick_dir_exists ths r total 0%nat Hin Hrt) as [j Hj]. rewrite Hj. simpl default.
  destruct (pick_dir_at _ _ _ _ Hj) as (th & Hth & Hlt & _).
  rewrite Nat.sub_0_r in Hth.
  destruct (Forall2_lookup_r _ _ _ _ _ HF Hth) as (d & Hd & Hcase).
  rewrite nth_lookup, Hd. simpl.
  destruct Hcase as [-> | Hopen]; [congruence | exact Hopen].
Qed.

Lemma stamps_post_rnd s (r : Rng) : stamps_post s (with_rnd s r).
Proof. unfold stamps_post. cbn [UT rows cols last_use with_rnd]. repeat split; auto. Qed.

Lemma move_loop_runs (rec : Z -> Z -> M (Sim T Rng) bool) (F : nat) (x y : Z) :
  (forall s nx ny l,
     1 <= UT s < 2 ^ 31 ->
     grid_at (last_use s) nx ny = Ok l -> unstamped (UT s) l = true ->
     (count_unstamped (UT s) (last_use s) < F)%nat ->
     runs fuel_only (rec nx ny) s
       (fun _ s' => stamps_post s s' /\
          (count_unstamped (UT s) (last_use s') < count_unstamped (UT s) (last_use s))%nat)) ->
  forall n tx ty s,
    1 <= UT s < 2 ^ 31 ->
    (count_unstamped (UT s) (last_use s) < n)%nat ->
    (count_unstamped (UT s) (last_use s) < F)%nat ->
    runs fuel_only (move_loop rec n x y tx ty) s (fun _ s' => stamps_post s s').
Proof.
  intros Hrec. induction n as [| n IH]; intros tx ty s Hut Hn HF; [lia |].
  cbn [move_loop].
  apply runs_bind. eapply runs_weaken; [apply move_thresholds_open |].
  intros [ths total] s1 [-> Hok]. simpl in Hok. cbv beta iota.
  destruct (neqb total nzero) eqn:Hne.
  { apply runs_ret, stamps_post_refl. }
  apply runs_bind, runs_random01.
  apply runs_bind, (runs_arith' _ fuel_only_fuel). intros r Hr. cbv zeta.
  assert (Hpos : nlt nzero total = true).
  { apply npos_of_nonneg; [| exact Hne]. apply Hok. apply nlt_zero_zero. }
  cbn [rnd with_rnd] in Hr.
  destruct (draw_scaled (rnd s) total r Hpos Hr) as [Hr0 Hrt].
  pose proof (target_open s x y ths total r Hok Hne Hr0 Hrt) as Htarget.
  destruct (nth (default 0%nat (pick_dir ths r 0%nat)) deltas (0, 0)) as [dx dy].
  simpl in Htarget. destruct Htarget as (Hin & l & Hl & Hu).
  set (s1 := with_rnd s _).
  assert (Hs1 : stamps_post s s1) by apply stamps_post_rnd.
  apply runs_bind, runs_gets. apply runs_bind, runs_gets.
  replace ((x + dx <? 0) || (y + dy <? 0) || (to_int (rows s1) <=? x + dx)
           || (to_int (cols s1) <=? y + dy)) with false.
  2:{ symmetry. unfold out_of_grid_int in Hin. subst s1. cbn [rows cols with_rnd].
      repeat (apply orb_false_iff in Hin as [Hin ?]).
      repeat (apply orb_false_iff; split); assumption. }
  apply runs_bind, (runs_L_at _ fuel_only_fuel). intros l' Hl'.
  apply runs_bind, runs_gets.
  apply runs_bind.
  apply (runs_weaken _ _ _
           (fun b s2 => stamps_post s s2 /\
              (b = false ->
               (count_unstamped (UT s) (last_use s2)
                < count_unstamped (UT s) (last_use s))%nat))).
  { destruct (_ =? _).
    - apply runs_ret. split; [exact Hs1 | discriminate].
    - eapply runs_weaken; [apply (Hrec s1 (x + dx) (y + dy) l); try assumption |].
      intros b s2 [Hp Hc]. split; [exact Hp | intros _; exact Hc]. }
  intros moved s2 [Hp Hc]. cbv beta. destruct moved; [now apply runs_ret |].
  specialize (Hc eq_refl). pose proof Hp as (EU & _).
  eapply runs_weaken; [apply IH; rewrite EU; try assumption; lia |].
  intros r' s3 Hp3. now apply (stamps_post_trans s s2).
Qed.

Lemma move_stop_dirs_runs (fuel' : nat) (x y : Z) :
  forall ds s,
    1 <= UT s < 2 ^ 31 -> (count_unstamped (UT s) (last_use s) <= fuel')%nat ->
    runs fuel_only
      (move_stop_dirs (fun nx ny => propagate_stop fuel' nx ny false) x y ds) s
      (fun _ s' => stamps_post s s').
Proof.
  induction ds as [| [dx dy] ds IH]; intros s Hut Hcnt; simpl.
  { apply runs_ret, stamps_post_refl. }
  apply runs_bind, runs_gets. apply runs_bind, runs_gets.
  destruct (_ && _); [| now apply IH].
  apply runs_bind, (runs_F_at _ fuel_only_fuel). intros c Hc.
  destruct (is_wall c); [now apply IH |].
  apply runs_bind, (runs_L_at _ fuel_only_fuel). intros l Hl.
  apply runs_bind, runs_gets.
  destruct (Z.ltb_spec (to_size l) (to_size (UT s - 1))) as [Hlt | _]; [| now apply IH].
  apply runs_bind, (runs_V_get _ fuel_only_fuel). intros w Hw.
  destruct (nlt w nzero); [| now apply IH].
  apply runs_bind. eapply runs_weaken.
  { apply (propagate_stop_runs fuel' s (x + dx) (y + dy) false l).
    - lia.
    - exact Hl.
    - unfold unstamped. rewrite (to_size_small (UT s - 1)) in Hlt by lia.
      destruct (Z.eqb_spec (to_size l) (UT s)); [lia | reflexivity].
    - exact Hcnt. }
  intros [] s1 Hpost. cbv beta.
  pose proof Hpost as (EU & _ & _ & _ & Hc1).
  eapply runs_weaken; [apply IH; rewrite EU; [assumption | lia] |].
  intros [] s2 Hpost2. now apply (stamps_post_trans s s1).
Qed.

Lemma swap_with_stamps (pp : ParticleParams T) (x y : Z) s :
  runs fuel_only (swap_with pp x y) s
    (fun _ s' => UT s' = UT s /\ rows s' = rows s /\ cols s' = cols s /\
                 last_use s' = last_use s).
Proof.
  unfold swap_with.
  apply runs_bind, (runs_F_at _ fuel_only_fuel). intros c Hc.
  apply runs_bind, (runs_F_set _ fuel_only_fuel). intros fd Hfd.
  apply runs_bind, (runs_P_at _ fuel_only_fuel). intros q Hq.
  apply runs_bind, (runs_P_set _ fuel_only_fuel). intros gr Hgr.
  apply runs_bind. apply (runs_lift _ fuel_only_fuel).
  { intros e He. unfold VectorField.get_array in He.
    destruct (VectorField.cell _ _ _); [discriminate | injection He as <-; discriminate]. }
  intros a Ha.
  apply runs_bind. split.
  { intros e He. unfold VectorField.set_array in He.
    destruct (VectorField.cell _ _ _); [discriminate |]. injection He as <-. discriminate. }
  intros [] s' Hs.
  destruct (VectorField.set_array _ x y a) as [f |]; [| discriminate].
  injection Hs as <-. apply runs_ret. auto.
Qed.

Lemma rotate_stamps (x y tx ty : Z) s :
  runs fuel_only (rotate x y tx ty) s
    (fun _ s' => UT s' = UT s /\ rows s' = rows s /\ cols s' = cols s /\
                 last_use s' = last_use s).
Proof.
  unfold rotate.
  apply runs_bind. eapply runs_weaken; [apply swap_with_stamps |].
  intros pp1 s1 (E1 & E2 & E3 & E4). cbv beta.
  apply runs_bind. eapply runs_weaken; [apply swap_with_stamps |].
  intros pp2 s2 (F1 & F2 & F3 & F4). cbv beta.
  eapply runs_weaken; [apply swap_with_stamps |].
  intros pp3 s3 (G1 & G2 & G3 & G4). cbv beta. repeat split; congruence.
Qed.

Lemma stamps_post_same s s' s'' :
  stamps_post s s' ->
  UT s'' = UT s' -> rows s'' = rows s' -> cols s'' = cols s' -> last_use s'' = last_use s' ->
  stamps_post s s''.
Proof.
  intros (E1 & E2 & E3 & Hst & Hc) F1 F2 F3 F4. unfold stamps_post.
  rewrite F4. repeat split; try congruence; assumption.
Qed.

(** A call returns when the fuel exceeds by two the number of cells that can
    be entered once the cell of the call carries its entry stamp. *)
Lemma propagate_move_runs (fuel : nat) :
  forall s x y is_first depth,
    1 <= UT s < 2 ^ 31 -> (0 < fuel)%nat ->
    (forall gr, grid_set (last_use s) x y (entry_stamp (UT s) is_first) = Ok gr ->
       (S (count_unstamped (UT s) gr) < fuel)%nat) ->
    runs fuel_only (propagate_move fuel x y is_first depth) s
      (fun _ s' => exists gr,
         grid_set (last_use s) x y (entry_stamp (UT s) is_first) = Ok gr /\
         stamps_post (with_last_use s gr) s' /\
         (is_first = false \/ depth <= MAX_DEPTH ->
          grid_at (last_use s') x y = Ok (to_int (UT s)))).
Proof.
  induction fuel as [| fuel' IH]; intros s x y is_first depth Hut Hpos Hfuel; [lia |].
  clear Hpos. cbn [propagate_move].
  apply runs_bind, runs_gets.
  apply runs_bind, (runs_L_set _ fuel_only_fuel). intros gr Hgr.
  fold (entry_stamp (UT s) is_first) in Hgr.
  specialize (Hfuel gr Hgr).
  set (s1 := with_last_use s gr).
  assert (Hut1 : 1 <= UT s1 < 2 ^ 31) by exact Hut.
  destruct (Z.ltb_spec MAX_DEPTH depth) as [Hdepth | Hdepth].
  { apply runs_ret. exists gr. split; [exact Hgr |]. split; [apply stamps_post_refl |].
    intros [-> | Hd]; [| lia].
    cbn [last_use with_last_use s1]. rewrite (grid_at_set _ _ _ _ x y _ Hgr).
    rewrite !Z.eqb_refl. cbn [andb]. unfold entry_stamp.
    rewrite Z.sub_0_r, to_size_small by lia. reflexivity. }
  apply runs_bind. eapply runs_weaken.
  { apply (move_loop_runs _ fuel' x y); [| exact Hut1 | cbn [UT last_use with_last_use s1]; lia ..].
    intros s0 nx ny l Hut0 Hl Hu Hc.
    destruct (grid_set_ok (last_use s0) nx ny (to_int (UT s0)) l Hl) as [gr0 Hgr0].
    pose proof (stamps_post_mark s0 nx ny gr0 ltac:(lia) Hgr0) as [Hp0 Hdec].
    specialize (Hdec l Hl Hu).
    assert (Estamp : entry_stamp (UT s0) false = to_int (UT s0)).
    { unfold entry_stamp. rewrite Z.sub_0_r, to_size_small by lia. reflexivity. }
    eapply runs_weaken.
    { apply (IH s0 nx ny false (depth + 1) Hut0); [lia |].
      intros gr' Hgr'. rewrite Estamp, Hgr0 in Hgr'. injection Hgr' as <-. lia. }
    intros b s' (gr' & Hgr' & Hp' & _). cbv beta.
    rewrite Estamp, Hgr0 in Hgr'. injection Hgr' as <-.
    split; [now apply (stamps_post_trans s0 _ s' Hp0) |].
    destruct Hp' as (_ & _ & _ & _ & Hc'). cbn [UT last_use with_last_use] in Hc'. lia. }
  intros [[moved tx] ty] s2 Hp2. cbv beta iota.
  pose proof Hp2 as (EU2 & _ & _ & _ & Hc2).
  apply runs_bind, (runs_L_set _ fuel_only_fuel). intros gr3 Hgr3.
  assert (Hut2 : 1 <= UT s2 < 2 ^ 31) by (rewrite EU2; exact Hut1).
  change (UT s) with (UT s1) in Hgr3. rewrite <- EU2 in Hgr3.
  pose proof (stamps_post_mark s2 x y gr3 ltac:(lia) Hgr3) as [Hp3 _].
  set (s3 := with_last_use s2 gr3) in *.
  assert (Hcell3 : grid_at (last_use s3) x y = Ok (to_int (UT s))).
  { cbn [last_use with_last_use s3]. rewrite (grid_at_set _ _ _ _ x y _ Hgr3).
    rewrite !Z.eqb_refl. cbn [andb]. now rewrite EU2. }
  pose proof Hp3 as (EU3 & _ & _ & _ & Hc3).
  apply runs_bind. eapply runs_weaken.
  { apply (move_stop_dirs_runs fuel' x y deltas s3).
    - rewrite EU3. exact Hut2.
    - rewrite EU3, EU2 in *. change (UT s1) with (UT s) in *.
      change (last_use s1) with gr in *. lia. }
  intros [] s4 Hp4. cbv beta.
  assert (Hp14 : stamps_post s1 s4).
  { apply (stamps_post_trans s1 s2 s4 Hp2), (stamps_post_trans s2 s3 s4 Hp3 Hp4). }
  assert (Hcell4 : grid_at (last_use s4) x y = Ok (to_int (UT s))).
  { destruct Hp4 as (_ & _ & _ & Hst & _). destruct (Hst x y) as [E | E].
    - now rewrite E.
    - rewrite E, EU3, EU2. reflexivity. }
  destruct (moved && negb is_first).
  - apply runs_bind. eapply runs_weaken; [apply rotate_stamps |].
    intros pp s5 (E1 & E2 & E3 & E4). apply runs_ret.
    exists gr. split; [exact Hgr |]. split.
    + now apply (stamps_post_same s1 s4 s5).
    + intros _. now rewrite E4.
  - apply runs_ret. exists gr. split; [exact Hgr |]. split; [exact Hp14 |].
    intros _. exact Hcell4.
Qed.

(** [propagate_move] returns whenever the fuel exceeds the number of cells
    by two: every pass of its loop that does not end it leaves one more
    neighbour stamped with [UT], and a recursive call is made only on a cell
    whose stamp is not [UT].  The counter and the extents stay, every other
    cell keeps its stamp or gets [UT], and the cell of the call ends with
    the stamp [UT] unless the depth limit was hit on a first call. *)
Theorem propagate_move_terminates (fuel : nat) (s : Sim T Rng) (x y : Z)
  (is_first : bool) (depth : Z) :
  1 <= UT s < 2 ^ 31 -> (S (entries (last_use s)) < fuel)%nat ->
  runs fuel_only (propagate_move fuel x y is_first depth) s
    (fun _ s' =>
       UT s' = UT s /\ rows s' = rows s /\ cols s' = cols s /\
       (forall i j, (i =? x) && (j =? y) = false ->
          grid_at (last_use s') i j = grid_at (last_use s) i j \/
          grid_at (last_use s') i j = Ok (UT s)) /\
       (is_first = false \/ depth <= MAX_DEPTH -> grid_at (last_use s') x y = Ok (UT s))).
Proof.
  intros Hut Hfuel. eapply runs_weaken.
  { apply (propagate_move_runs fuel s x y is_first depth Hut); [lia |].
    intros gr Hgr. pose proof (count_unstamped_le (UT s) gr).
    rewrite (entries_set _ _ _ _ _ Hgr) in *. lia. }
  intros b s' (gr & Hgr & (EU & Er & Ec & Hst & _) & Hcell). cbv beta.
  cbn [UT rows cols last_use with_last_use] in *.
  rewrite to_int_small in * by lia.
  repeat match goal with |- _ /\ _ => split end; try assumption.
  intros i j Hij. destruct (Hst i j) as [E | E]; [left | now right].
  rewrite E, (grid_at_set _ _ _ _ i j _ Hgr), Hij. reflexivity.
Qed.

End MoveTermination.

Module MoveWitness.
Import FixedPoint Q16 Q16Facts Q16Text.

Lemma propagate_move_terminates_witness :
  runs fuel_only (propagate_move 20 1 1 true 0) row_engine
    (fun _ s' =>
       UT s' = UT row_engine /\ rows s' = rows row_engine /\ cols s' = cols row_engine /\
       (forall i j, (i =? 1) && (j =? 1) = false ->
          grid_at (last_use s') i j = grid_at (last_use row_engine) i j \/
          grid_at (last_use s') i j = Ok (UT row_engine)) /\
       (true = false \/ 0 <= MAX_DEPTH -> grid_at (last_use s') 1 1 = Ok (UT row_engine))).
Proof.
  apply (propagate_move_terminates 20 row_engine 1 1 true 0).
  - vm_compute. split; discriminate || reflexivity.
  - vm_compute. lia.
Defined.

End MoveWitness.

(** ** The movement sweep of a tick returns *)

Section MoveSweep.
Context {T Rng : Type} {NT : Numeric T} {PR : Prng T Rng}.
Context {NL : NumericLaws T} {PL : PrngLaws T Rng}.
Implicit Types (s : Sim T Rng).
Local Open Scope sim_scope.

Lemma move_prob_dirs_runs (x y : Z) :
  forall ds sum s, runs fuel_only (move_prob_dirs x y sum ds) s (fun _ s' => s' = s).
Proof.
  induction ds as [| [dx dy] ds IH]; intros sum s; simpl; [now apply runs_ret |].
  apply runs_bind, (runs_F_at _ fuel_only_fuel). intros c Hc.
  destruct (is_wall c); [apply IH |].
  apply runs_bind, (runs_L_at _ fuel_only_fuel). intros l Hl.
  apply runs_bind, runs_gets.
  destruct (_ =? _); [apply IH |].
  apply runs_bind, (runs_V_get _ fuel_only_fuel). intros w Hw.
  destruct (nle nzero w); [| apply IH].
  apply runs_bind, (runs_arith' _ fuel_only_fuel). intros sum' Hsum. apply IH.
Qed.

Lemma move_first_runs (fuel : nat) s (x y l : Z) :
  1 <= UT s < 2 ^ 31 ->
  grid_at (last_use s) x y = Ok l -> unstamped (UT s) l = true ->
  (S (count_unstamped (UT s) (last_use s)) < fuel)%nat ->
  runs fuel_only (propagate_move fuel x y true 0) s (fun _ s' => stamps_post s s').
Proof.
  intros Hut Hl Hu Hfuel.
  assert (Hle : forall gr, grid_set (last_use s) x y (entry_stamp (UT s) true) = Ok gr ->
                  (count_unstamped (UT s) gr <= count_unstamped (UT s) (last_use s))%nat).
  { intros gr Hgr. pose proof (count_unstamped_set (UT s) _ _ _ _ _ _ Hl Hgr) as Hc.
    rewrite Hu in Hc. destruct (unstamped (UT s) (entry_stamp (UT s) true)); lia. }
  eapply runs_weaken.
  { apply (propagate_move_runs fuel s x y true 0 Hut); [lia |].
    intros gr Hgr. specialize (Hle gr Hgr). lia. }
  intros b s' (gr & Hgr & (EU & Er & Ec & Hst & Hc) & Hcell). cbv beta.
  specialize (Hle gr Hgr). cbn [UT rows cols last_use with_last_use] in *.
  unfold stamps_post. repeat match goal with |- _ /\ _ => split end; try assumption; [| lia].
  intros i j. destruct (Z.eqb_spec i x) as [-> | Hi].
  - destruct (Z.eqb_spec j y) as [-> | Hj].
    + right. apply Hcell. right. unfold MAX_DEPTH. lia.
    + destruct (Hst x j) as [E | E]; [left | now right].
      rewrite E, (grid_at_set _ _ _ _ x j _ Hgr).
      destruct (Z.eqb_spec j y); [contradiction |]. now rewrite andb_false_r.
  - destruct (Hst i j) as [E | E]; [left | now right].
    rewrite E, (grid_at_set _ _ _ _ i j _ Hgr).
    destruct (Z.eqb_spec i x); [contradiction | reflexivity].
Qed.

Lemma move_cell_runs (fuel : nat) (prop : bool) (c : Z * Z) s :
  1 <= UT s < 2 ^ 31 ->
  (S (count_unstamped (UT s) (last_use s)) < fuel)%nat ->
  runs fuel_only (move_cell fuel prop c) s (fun _ s' => stamps_post s s').
Proof.
  intros Hut Hfuel. destruct c as [x y]. unfold move_cell.
  apply runs_bind, (runs_F_at _ fuel_only_fuel). intros ch Hch.
  destruct (is_wall ch); [apply runs_ret, stamps_post_refl |].
  apply runs_bind, (runs_L_at _ fuel_only_fuel). intros l Hl.
  apply runs_bind, runs_gets.
  destruct (to_size l =? UT s) eqn:El; [apply runs_ret, stamps_post_refl |].
  assert (Hu : unstamped (UT s) l = true) by (unfold unstamped; now rewrite El).
  apply runs_bind, runs_random01.
  set (s1 := with_rnd s _).
  assert (Hs1 : stamps_post s s1) by apply stamps_post_rnd.
  apply runs_bind. eapply runs_weaken; [apply move_prob_dirs_runs |].
  intros pr1 s2 ->. cbv beta.
  destruct (nlt _ pr1).
  - apply runs_bind. eapply runs_weaken.
    { apply (move_first_runs fuel s1 x y l); assumption. }
    intros b s3 Hp. apply runs_ret. now apply (stamps_post_trans s s1).
  - apply runs_bind. eapply runs_weaken.
    { apply (propagate_stop_runs fuel s1 x y true l).
      - change (UT s1) with (UT s). lia.
      - exact Hl.
      - exact Hu.
      - change (UT s1) with (UT s). change (last_use s1) with (last_use s). lia. }
    intros [] s3 Hp. apply runs_ret. now apply (stamps_post_trans s s1).
Qed.

(** The movement sweep of a tick returns whenever the fuel exceeds the
    number of cells by two: every call of [propagate_move] and of
    [propagate_stop] it makes returns.  It advances [UT] by two, keeps the
    extents, and leaves every stamp as it was or equal to the new [UT]. *)
Theorem phase_move_terminates (fuel : nat) (s : Sim T Rng) :
  0 <= UT s -> UT s + 2 < 2 ^ 31 -> (S (entries (last_use s)) < fuel)%nat ->
  runs fuel_only (phase_move fuel) s
    (fun _ s' =>
       UT s' = UT s + 2 /\ rows s' = rows s /\ cols s' = cols s /\
       forall i j, grid_at (last_use s') i j = grid_at (last_use s) i j \/
                   grid_at (last_use s') i j = Ok (UT s + 2)).
Proof.
  intros Hut0 Hut1 Hfuel. unfold phase_move.
  apply runs_bind, runs_modify.
  set (s1 := with_UT s (to_size (UT s + 2))).
  assert (EU1 : UT s1 = UT s + 2) by (simpl; apply to_size_small; lia).
  apply runs_bind, runs_gets. apply runs_bind, runs_gets.
  pose proof (count_unstamped_le (UT s1) (last_use s1)) as Hle.
  change (last_use s1) with (last_use s) in Hle.
  eapply runs_weaken.
  { apply (runs_foldM fuel_only (fun _ s' => stamps_post s1 s')); [| apply stamps_post_refl].
    intros prop c s2 _ Hp. pose proof Hp as (EU & _ & _ & _ & Hc).
    eapply runs_weaken.
    - apply move_cell_runs; rewrite EU; [lia |].
      change (last_use s1) with (last_use s) in Hc. lia.
    - intros b s3 Hp3. now apply (stamps_post_trans s1 s2). }
  intros b s' (EU & Er & Ec & Hst & _). cbv beta.
  rewrite EU1 in *. rewrite to_int_small in Hst by lia.
  repeat split; assumption.
Qed.

End MoveSweep.

Module MoveSweepWitness.
Import FixedPoint Q16 Q16Facts Q16Text.

Lemma phase_move_terminates_witness :
  runs fuel_only (phase_move 20) row_engine
    (fun _ s' =>
       UT s' = UT row_engine + 2 /\ rows s' = rows row_engine /\
       cols s' = cols row_engine /\
       forall i j, grid_at (last_use s') i j = grid_at (last_use row_engine) i j \/
                   grid_at (last_use s') i j = Ok (UT row_engine + 2)).
Proof.
  apply (phase_move_terminates 20 row_engine).
  - vm_compute. discriminate.
  - vm_compute. reflexivity.
  - vm_compute. lia.
Defined.

End MoveSweepWitness.

(** ** The particles of a field are conserved *)

Lemma count_row_char_insert (c : ascii) (row : list ascii) (i : nat) (old v : ascii) :
  row !! i = Some old ->
  (count_row_char c (<[i := v]> row) + (if Ascii.eqb old c then 1 else 0)
   = count_row_char c row + (if Ascii.eqb v c then 1 else 0))%nat.
Proof.
  revert i. induction row as [| ch row IH]; intros [| i] H; simpl in *; try discriminate.
  - injection H as ->. lia.
  - specialize (IH i H). lia.
Qed.

Lemma count_char_set (c : ascii) (fd fd' : list (list ascii)) (x y : Z) (old v : ascii) :
  grid_at fd x y = Ok old -> grid_set fd x y v = Ok fd' ->
  (count_char c fd' + (if Ascii.eqb old c then 1 else 0)
   = count_char c fd + (if Ascii.eqb v c then 1 else 0))%nat.
Proof.
  intros Hold Hset. unfold grid_set in Hset. rewrite Hold in Hset. injection Hset as <-.
  apply grid_at_ok in Hold as (_ & _ & row & Hrow & Hcell).
  revert Hrow. generalize (Z.to_nat x) as n. clear x.
  induction fd as [| r fd IH]; intros [| n] Hrow; simpl in *; try discriminate.
  - injection Hrow as ->. pose proof (count_row_char_insert c row _ old v Hcell). lia.
  - specialize (IH n Hrow). unfold alter in IH. lia.
Qed.

(** A character that can be overwritten is one of the grid, not the
    terminating zero of its line. *)
Lemma field_at_set (fd fd' : list (list ascii)) (x y : Z) (c v : ascii) :
  field_at fd x y = Ok c -> grid_set fd x y v = Ok fd' -> grid_at fd x y = Ok c.
Proof.
  intros Hc Hset. destruct (grid_set_old _ _ _ _ _ Hset) as [old Hold].
  rewrite (field_at_grid _ _ _ _ Hold) in Hc. now rewrite Hold, <- Hc.
Qed.

Ltac ck_prim :=
  lazymatch goal with
  | |- runs _ (ret _) _ _ => apply runs_ret
  | |- runs _ (gets _) _ _ => apply runs_gets
  | |- runs _ (modify _) _ _ => apply runs_modify
  | |- runs _ (fail _) _ _ => apply runs_any; discriminate
  | |- runs _ (F_at _ _) _ _ => apply (runs_F_at _ any_error_fuel); intros ? ?
  | |- runs _ (L_at _ _) _ _ => apply (runs_L_at _ any_error_fuel); intros ? ?
  | |- runs _ (P_at _ _) _ _ => apply (runs_P_at _ any_error_fuel); intros ? ?
  | |- runs _ (oldP_at _ _) _ _ => apply (runs_oldP_at _ any_error_fuel); intros ? ?
  | |- runs _ (rho_at _) _ _ => apply (runs_rho_at _ any_error_fuel); intros ? ?
  | |- runs _ (V_get _ _ _ _) _ _ => apply (runs_V_get _ any_error_fuel); intros ? ?
  | |- runs _ (Vf_get _ _ _ _) _ _ => apply (runs_Vf_get _ any_error_fuel); intros ? ?
  | |- runs _ (arith _) _ _ => apply (runs_arith' _ any_error_fuel); intros ? ?
  | |- runs _ (L_set _ _ _) _ _ => apply (runs_L_set _ any_error_fuel); intros ? ?
  | |- runs _ (P_set _ _ _) _ _ => apply (runs_P_set _ any_error_fuel); intros ? ?
  | |- runs _ (V_put _ _ _ _ _) _ _ => apply (runs_V_put _ any_error_fuel); intros ? ?
  | |- runs _ (V_add _ _ _ _ _) _ _ => apply (runs_V_add _ any_error_fuel); intros ? ? ?
  | |- runs _ (Vf_add _ _ _ _ _) _ _ => apply (runs_Vf_add _ any_error_fuel); intros ? ? ?
  | |- runs _ random01 _ _ => apply runs_random01
  | |- runs _ (lift _) _ _ =>
      apply runs_any;
      let H := fresh "Hlift" in intros ? ? H; apply lift_ok in H as [? ->]
  end.

(** A call whose statement is among the hypotheses or the hints. *)
Ltac ck_call :=
  eapply runs_weaken; [solve [eauto with chars] | intros ? ? ?].

Ltac ck_step :=
  lazymatch goal with
  | |- runs _ (bind _ _) _ _ => apply runs_bind; first [ck_prim | ck_call]
  | |- runs _ (if ?b then _ else _) _ _ => destruct b eqn:?
  | |- runs _ (match ?r with (_, _) => _ end) _ _ => destruct r
  | |- runs _ _ _ _ => ck_prim
  end.

Ltac ck := repeat (ck_step; cbv beta); try assumption; try solve [eauto with chars].

Create HintDb chars.

Section CharsKept.
Context {T Rng : Type} {NT : Numeric T} {PR : Prng T Rng}.
Variable s0 : Sim T Rng.
Implicit Types (s : Sim T Rng).
Local Open Scope sim_scope.

Abbreviation kept := (fun (_ : _) s' => chars_kept s0 s').

Lemma foldM_chars {A B} (f : A -> B -> M (Sim T Rng) A) (l : list B) (a : A) s :
  (forall a b s1, chars_kept s0 s1 -> runs any_error (f a b) s1 kept) ->
  chars_kept s0 s -> runs any_error (foldM f l a) s kept.
Proof.
  intros Hf Hk. apply (runs_foldM any_error (fun _ s' => chars_kept s0 s')); [| exact Hk].
  intros a' b s1 _ Hk1. now apply Hf.
Qed.

Lemma forM_chars {B} (f : B -> M (Sim T Rng) unit) (l : list B) s :
  (forall b s1, chars_kept s0 s1 -> runs any_error (f b) s1 kept) ->
  chars_kept s0 s -> runs any_error (forM f l) s kept.
Proof. intros Hf Hk. unfold forM. apply foldM_chars; auto. Qed.

Lemma mapM_chars {A B} (f : A -> M (Sim T Rng) B) (l : list A) s :
  (forall a s1, chars_kept s0 s1 -> runs any_error (f a) s1 kept) ->
  chars_kept s0 s -> runs any_error (mapM f l) s kept.
Proof.
  intros Hf. revert s. induction l as [| a l IH]; intros s Hk; simpl; ck.
Qed.

Lemma flow_dirs_chars (rec : Z -> Z -> T -> M (Sim T Rng) flow_result) (x y : Z) (lim : T) :
  (forall s nx ny vp, chars_kept s0 s -> runs any_error (rec nx ny vp) s kept) ->
  forall ds acc s, chars_kept s0 s ->
    runs any_error (flow_dirs rec x y lim acc ds) s kept.
Proof.
  intros Hrec. induction ds as [| [dx dy] ds IH]; intros acc s Hk; simpl; ck.
Qed.

Lemma propagate_flow_chars (fuel : nat) :
  forall s x y lim, chars_kept s0 s ->
    runs any_error (propagate_flow fuel x y lim) s kept.
Proof.
  induction fuel as [| fuel IH]; intros s x y lim Hk; cbn [propagate_flow]; ck.
  apply flow_dirs_chars; auto.
Qed.

Lemma stop_blocked_chars (x y : Z) (ds : list (Z * Z)) s :
  chars_kept s0 s -> runs any_error (stop_blocked x y ds) s kept.
Proof. intros Hk. induction ds as [| [dx dy] ds IH]; simpl; ck. Qed.

Lemma stop_dirs_chars (rec : Z -> Z -> M (Sim T Rng) unit) (x y : Z) :
  (forall s nx ny, chars_kept s0 s -> runs any_error (rec nx ny) s kept) ->
  forall ds s, chars_kept s0 s -> runs any_error (stop_dirs rec x y ds) s kept.
Proof.
  intros Hrec. induction ds as [| [dx dy] ds IH]; intros s Hk; simpl; ck.
Qed.

Lemma propagate_stop_chars (fuel : nat) :
  forall s x y force, chars_kept s0 s ->
    runs any_error (propagate_stop fuel x y force) s kept.
Proof.
  induction fuel as [| fuel IH]; intros s x y force Hk; cbn [propagate_stop]; ck.
  apply runs_bind. apply runs_weaken with (Q := fun _ s' => chars_kept s0 s').
  { destruct force; [now apply runs_ret | now apply stop_blocked_chars]. }
  intros blocked s1 Hk1. cbv beta. ck. apply stop_dirs_chars; auto.
Qed.

Lemma move_prob_dirs_chars (x y : Z) (ds : list (Z * Z)) (sum : T) s :
  chars_kept s0 s -> runs any_error (move_prob_dirs x y sum ds) s kept.
Proof.
  intros Hk. revert sum. induction ds as [| [dx dy] ds IH]; intros sum; simpl; ck.
Qed.

(** [swap_with]: the character of the cell and the one carried are
    exchanged. *)
Lemma swap_with_chars (pp : ParticleParams T) (x y : Z) s :
  runs any_error (swap_with pp x y) s
    (fun pp' s' =>
       grid_at (field_data s) x y = Ok (pp_type pp') /\
       grid_set (field_data s) x y (pp_type pp) = Ok (field_data s')).
Proof.
  unfold swap_with.
  apply runs_bind, (runs_F_at _ any_error_fuel). intros c Hc.
  apply runs_bind, (runs_F_set _ any_error_fuel). intros fd Hfd.
  apply runs_bind, (runs_P_at _ any_error_fuel). intros q Hq.
  apply runs_bind, (runs_P_set _ any_error_fuel). intros gr Hgr.
  apply runs_bind, runs_any. intros arr s' Ha. apply lift_ok in Ha as [Ha ->].
  apply runs_bind, runs_any. intros [] s' Hs.
  destruct (VectorField.set_array _ x y arr) as [f |]; [| discriminate].
  injection Hs as <-. apply runs_ret. cbn [pp_type field_data with_velocity with_p
    with_field_data]. split; [| exact Hfd]. exact (field_at_set _ _ _ _ _ _ Hc Hfd).
Qed.

(** The rotation exchanges the characters of two different cells. *)
Lemma rotate_chars (x y tx ty : Z) s :
  (tx =? x) && (ty =? y) = false -> chars_kept s0 s ->
  runs any_error (rotate x y tx ty) s kept.
Proof.
  intros Hne Hk. unfold rotate.
  apply runs_bind. eapply runs_weaken; [apply swap_with_chars |].
  intros pp1 s1 [Ha1 Hs1]. cbv beta.
  apply runs_bind. eapply runs_weaken; [apply swap_with_chars |].
  intros pp2 s2 [Ha2 Hs2]. cbv beta.
  eapply runs_weaken; [apply swap_with_chars |].
  intros pp3 s3 [Ha3 Hs3]. cbv beta.
  assert (E3 : pp_type pp3 = Ascii.zero).
  { rewrite (grid_at_set _ _ _ _ x y _ Hs2) in Ha3.
    rewrite (grid_at_set _ _ _ _ x y _ Hs1) in Ha3.
    assert (Hxy : (x =? tx) && (y =? ty) = false).
    { rewrite (Z.eqb_sym x tx), (Z.eqb_sym y ty). exact Hne. }
    rewrite Hxy, !Z.eqb_refl in Ha3. cbn [andb] in Ha3. now injection Ha3 as <-. }
  intros c. rewrite <- (Hk c).
  pose proof (count_char_set c _ _ _ _ _ _ Ha1 Hs1) as C1.
  pose proof (count_char_set c _ _ _ _ _ _ Ha2 Hs2) as C2.
  pose proof (count_char_set c _ _ _ _ _ _ Ha3 Hs3) as C3.
  rewrite E3 in C3. cbn [pp_type pp_empty] in C1. lia.
Qed.

Lemma move_thresholds_length (x y : Z) :
  forall ds sum s,
    runs any_error (move_thresholds x y sum ds) s
      (fun r s' => s' = s /\ length (fst r) = length ds).
Proof.
  induction ds as [| [dx dy] ds IH]; intros sum s; simpl.
  - now apply runs_ret.
  - assert (Hskip : runs any_error
              (bind (move_thresholds x y sum ds)
                 (fun r => match r with (ths, total) => ret (nzero :: ths, total) end)) s
              (fun r s' => s' = s /\ length (fst r) = S (length ds))).
    { apply runs_bind. eapply runs_weaken; [apply IH |].
      intros [ths total] s1 [-> Hl]. apply runs_ret. simpl in *. auto. }
    rd; try exact Hskip.
    + apply runs_bind. eapply runs_weaken; [apply IH |].
      intros [ths total] s1 [-> Hl]. apply runs_ret. simpl in *. auto.
    + apply runs_bind. eapply runs_weaken; [apply IH |].
      intros [ths total] s1 [-> Hl]. apply runs_ret. simpl in *. auto.
Qed.

Lemma pick_dir_lt (ths : list T) (r : T) : forall i j,
  pick_dir ths r i = Some j -> (j < i + length ths)%nat.
Proof.
  induction ths as [| t ths IH]; intros i j H; simpl in H; [discriminate |].
  destruct (nlt r t).
  - injection H as <-. simpl. lia.
  - apply IH in H. simpl. lia.
Qed.

(** The direction picked is never the zero offset. *)
Lemma picked_delta (ths : list T) (r : T) :
  length ths = length deltas ->
  let d := nth (default 0%nat (pick_dir ths r 0%nat)) deltas (0, 0) in
  (fst d =? 0) && (snd d =? 0) = false.
Proof.
  intros Hlen. destruct (pick_dir ths r 0%nat) as [j |] eqn:Hj; [| reflexivity].
  apply pick_dir_lt in Hj. rewrite Hlen in Hj. simpl in Hj. cbn [default].
  destruct j as [| [| [| [| j]]]]; try reflexivity. lia.
Qed.

Lemma move_loop_chars (rec : Z -> Z -> M (Sim T Rng) bool) (x y : Z) :
  (forall s nx ny, chars_kept s0 s -> runs any_error (rec nx ny) s kept) ->
  forall n tx ty s, chars_kept s0 s ->
    runs any_error (move_loop rec n x y tx ty) s
      (fun r s' => chars_kept s0 s' /\
                   (fst (fst r) = true ->
                    (snd (fst r) =? x) && (snd r =? y) = false)).
Proof.
  intros Hrec. induction n as [| n IH]; intros tx ty s Hk; cbn [move_loop].
  - apply runs_any. discriminate.
  - apply runs_bind. eapply runs_weaken; [apply move_thresholds_length |].
    intros [ths total] s1 [-> Hlen]. simpl in Hlen. cbv beta iota.
    destruct (neqb total nzero).
    { apply runs_ret. split; [exact Hk | discriminate]. }
    apply runs_bind, runs_random01.
    apply runs_bind, (runs_arith' _ any_error_fuel). intros r Hr. cbv zeta.
    pose proof (picked_delta ths r Hlen) as Hd. cbv zeta in Hd.
    destruct (nth (default 0%nat (pick_dir ths r 0%nat)) deltas (0, 0)) as [dx dy].
    simpl in Hd.
    assert (Htarget : (x + dx =? x) && (y + dy =? y) = false).
    { destruct (Z.eqb_spec dx 0), (Z.eqb_spec dy 0); try discriminate;
        destruct (Z.eqb_spec (x + dx) x), (Z.eqb_spec (y + dy) y);
        try reflexivity; lia. }
    clear Hd. rd; [now apply IH |].
    apply runs_bind. apply runs_weaken with (Q := fun _ s' => chars_kept s0 s').
    { destruct (to_size l =? _); [now apply runs_ret | now apply Hrec]. }
    intros moved s2 Hk2. cbv beta. destruct moved.
    + apply runs_ret. split; [exact Hk2 | intros _; exact Htarget].
    + now apply IH.
Qed.

Lemma move_stop_dirs_chars (stop : Z -> Z -> M (Sim T Rng) unit) (x y : Z) :
  (forall s nx ny, chars_kept s0 s -> runs any_error (stop nx ny) s kept) ->
  forall ds s, chars_kept s0 s -> runs any_error (move_stop_dirs stop x y ds) s kept.
Proof.
  intros Hstop. induction ds as [| [dx dy] ds IH]; intros s Hk; simpl; ck.
Qed.

Lemma propagate_move_chars (fuel : nat) :
  forall s x y is_first depth, chars_kept s0 s ->
    runs any_error (propagate_move fuel x y is_first depth) s kept.
Proof.
  induction fuel as [| fuel IH]; intros s x y is_first depth Hk;
    cbn [propagate_move]; ck.
  apply runs_bind. eapply runs_weaken.
  { apply (move_loop_chars _ x y); [| eassumption].
    intros s1 nx ny Hk1. now apply IH. }
  intros [[moved tx] ty] s2 [Hk2 Ht]. simpl in Ht. cbv beta iota.
  apply runs_bind, (runs_L_set _ any_error_fuel). intros gr3 Hgr3.
  apply runs_bind. eapply runs_weaken.
  { apply (move_stop_dirs_chars _ x y); [| exact Hk2].
    intros s4 nx ny Hk4. now apply propagate_stop_chars. }
  intros [] s4 Hk4. cbv beta.
  destruct (moved && negb is_first) eqn:Em; [| now apply runs_ret].
  apply andb_true_iff in Em as [-> _].
  apply runs_bind. eapply runs_weaken; [apply rotate_chars; auto |].
  intros pp s5 Hk5. now apply runs_ret.
Qed.

#[local] Hint Resolve propagate_flow_chars propagate_stop_chars propagate_move_chars
  move_prob_dirs_chars : chars.

Lemma compute_dirs_chars s :
  chars_kept s0 s -> runs any_error compute_dirs s kept.
Proof.
  intros Hk. unfold compute_dirs. ck.
  apply mapM_chars; [| exact Hk]. intros x s1 Hk1.
  apply mapM_chars; [| exact Hk1]. intros y s2 Hk2.
  unfold dirs_cell. ck.
  unfold dirs_count. apply foldM_chars; [| exact Hk2].
  intros d [dx dy] s3 Hk3. ck.
Qed.

Lemma phase_gravity_chars s :
  chars_kept s0 s -> runs any_error phase_gravity s kept.
Proof.
  intros Hk. unfold phase_gravity. ck. apply forM_chars; [| exact Hk].
  intros [x y] s1 Hk1. unfold gravity_cell. ck.
Qed.

Lemma pressure_dir_chars (dirs : list (list Z)) (x y : Z) (d : Z * Z) s :
  chars_kept s0 s -> runs any_error (pressure_dir dirs x y d) s kept.
Proof.
  intros Hk. destruct d as [dx dy].
  unfold pressure_dir, sub_total_delta_p. ck.
Qed.

Lemma phase_pressure_chars (dirs : list (list Z)) s :
  chars_kept s0 s -> runs any_error (phase_pressure dirs) s kept.
Proof.
  intros Hk. unfold phase_pressure. ck. apply forM_chars; [| assumption].
  intros [x y] s1 Hk1. unfold pressure_cell. ck.
  apply forM_chars; [| exact Hk1]. intros d s2 Hk2. now apply pressure_dir_chars.
Qed.

Lemma flow_sweeps_chars (fuel : nat) : forall n s,
  chars_kept s0 s -> runs any_error (flow_sweeps n fuel) s kept.
Proof.
  induction n as [| n IH]; intros s Hk; cbn [flow_sweeps]; ck.
  apply runs_bind. apply runs_weaken with (Q := fun _ s' => chars_kept s0 s').
  - unfold flow_sweep. ck. apply foldM_chars; [| assumption].
    intros prop [x y] s1 Hk1. unfold flow_sweep_cell. ck.
  - intros prop s1 Hk1. cbv beta. destruct prop; [now apply IH | now apply runs_ret].
Qed.

Lemma phase_flow_chars (fuel : nat) s :
  chars_kept s0 s -> runs any_error (phase_flow fuel) s kept.
Proof.
  intros Hk. unfold phase_flow. apply runs_bind, runs_modify.
  now apply flow_sweeps_chars.
Qed.

Lemma settle_dir_chars (dirs : list (list Z)) (x y : Z) (d : Z * Z) s :
  chars_kept s0 s -> runs any_error (settle_dir dirs x y d) s kept.
Proof.
  intros Hk. destruct d as [dx dy].
  unfold settle_dir, credit_pressure, add_total_delta_p. ck.
  apply runs_bind. apply runs_weaken with (Q := fun _ s' => chars_kept s0 s').
  { destruct (Ascii.eqb _ _); ck. }
  intros force' s2 Hk2. cbv beta. ck.
Qed.

Lemma phase_settle_chars (dirs : list (list Z)) s :
  chars_kept s0 s -> runs any_error (phase_settle dirs) s kept.
Proof.
  intros Hk. unfold phase_settle. ck. apply forM_chars; [| exact Hk].
  intros [x y] s1 Hk1. unfold settle_cell. ck.
  apply forM_chars; [| exact Hk1]. intros d s2 Hk2. now apply settle_dir_chars.
Qed.

Lemma phase_move_chars (fuel : nat) s :
  chars_kept s0 s -> runs any_error (phase_move fuel) s kept.
Proof.
  intros Hk. unfold phase_move. ck. apply foldM_chars; [| assumption].
  intros prop [x y] s1 Hk1. unfold move_cell, move_prob. ck.
Qed.

Lemma print_field_chars s :
  chars_kept s0 s -> runs any_error print_field s kept.
Proof.
  intros Hk. unfold print_field. ck.
  apply runs_bind. eapply runs_weaken.
  { apply mapM_chars; [| exact Hk]. intros x s1 Hk1.
    apply runs_any. intros a s' Ha. apply lift_ok in Ha as [_ ->]. exact Hk1. }
  intros lines s1 Hk1. now apply runs_modify.
Qed.

#[local] Hint Resolve phase_gravity_chars phase_pressure_chars phase_flow_chars
  phase_settle_chars phase_move_chars print_field_chars compute_dirs_chars : chars.

Lemma tick_chars (fuel : nat) (dirs : list (list Z)) s :
  chars_kept s0 s -> runs any_error (tick fuel dirs) s kept.
Proof.
  intros Hk. unfold tick. ck.
  apply runs_bind. apply runs_weaken with (Q := fun _ s' => chars_kept s0 s').
  - destruct a; ck.
  - intros [] s7 Hk7. now apply runs_ret.
Qed.

Lemma run_loop_chars (fuel : nat) (dirs : list (list Z)) (steps : Z) : forall n step s,
  chars_kept s0 s -> runs any_error (run_loop n fuel dirs step steps) s kept.
Proof.
  induction n as [| n IH]; intros step s Hk; cbn [run_loop]; ck.
  apply runs_bind. eapply runs_weaken; [now apply tick_chars |].
  intros prop s1 Hk1. now apply IH.
Qed.

End CharsKept.

(** [run] neither creates nor destroys a particle: whenever it
    completes, the field holds every character exactly as often as before.
    The only writes to the field are those of the rotation at the end of
    [propagate_move], which exchanges the characters of two different
    cells. *)
Theorem run_conserves_characters {T Rng : Type} {NT : Numeric T} {PR : Prng T Rng}
  (fuel : nat) (steps checkpoint_interval : Z) (s s' : Sim T Rng) :
  run fuel steps checkpoint_interval s = Ok (tt, s') ->
  forall c, count_char c (field_data s') = count_char c (field_data s).
Proof.
  intros Hrun.
  assert (H : runs any_error (run fuel steps checkpoint_interval) s
                (fun _ s1 => chars_kept s s1)).
  { unfold run. apply runs_bind. eapply runs_weaken.
    - apply (compute_dirs_chars s). intros c. reflexivity.
    - intros dirs s1 Hk1. now apply run_loop_chars. }
  exact (proj2 H tt s' Hrun).
Qed.

Module ConservationWitness.
Import FixedPoint Q16 Q16Facts Q16Text.

Lemma run_conserves_characters_witness :
  run 20 1 1 (engine_or_blank row_input) = Ok (tt, row_engine) /\
  count_char "a" (field_data row_engine)
  = count_char "a" (field_data (engine_or_blank row_input)).
Proof.
  assert (H : run 20 1 1 (engine_or_blank row_input) = Ok (tt, row_engine))
    by (vm_compute; reflexivity).
  split; [exact H |].
  exact (run_conserves_characters 20 1 1 _ _ H "a"%char).
Defined.

End ConservationWitness.

(** ** What the phases of a tick leave alone *)

Create HintDb frame.

Section Frame.
Context {T Rng : Type} {NT : Numeric T} {PR : Prng T Rng}.
Variable R : Sim T Rng -> Sim T Rng -> Prop.
Context {PV : Preserved R}.
Variable s0 : Sim T Rng.
Implicit Types (s : Sim T Rng).
Local Open Scope sim_scope.

Abbreviation framed := (fun (_ : _) s' => R s0 s').

(** One store. *)
Ltac fr_store :=
  first [ apply pr_refl
        | eapply pr_field_data; eassumption
        | eapply pr_p; eassumption
        | eapply pr_last_use; eassumption
        | eapply pr_put; eassumption
        | eapply pr_add; eassumption
        | eapply pr_set_array; eassumption
        | apply pr_flow
        | apply pr_old_p
        | apply pr_rnd
        | apply pr_UT
        | apply pr_total_delta_p
        | apply pr_flow_calls ].

(** The relation at the state the goal has reached. *)
Ltac fr_state :=
  lazymatch goal with
  | |- runs _ _ ?s _ =>
      lazymatch goal with
      | H : R s0 s |- _ => idtac
      | _ =>
          match goal with
          | H : R s0 ?m |- _ =>
              assert (R s0 s) by (apply (pr_trans _ m _ H); fr_store)
          end
      end
  | |- R s0 ?s =>
      first [ assumption
            | match goal with
              | H : R s0 ?m |- _ => apply (pr_trans _ m _ H); fr_store
              end ]
  | _ => idtac
  end.

Ltac fr_prim :=
  lazymatch goal with
  | |- runs _ (ret _) _ _ => apply runs_ret
  | |- runs _ (gets _) _ _ => apply runs_gets
  | |- runs _ (modify _) _ _ => apply runs_modify
  | |- runs _ (fail _) _ _ => apply runs_any; discriminate
  | |- runs _ (F_at _ _) _ _ => apply (runs_F_at _ any_error_fuel); intros ? ?
  | |- runs _ (L_at _ _) _ _ => apply (runs_L_at _ any_error_fuel); intros ? ?
  | |- runs _ (P_at _ _) _ _ => apply (runs_P_at _ any_error_fuel); intros ? ?
  | |- runs _ (oldP_at _ _) _ _ => apply (runs_oldP_at _ any_error_fuel); intros ? ?
  | |- runs _ (rho_at _) _ _ => apply (runs_rho_at _ any_error_fuel); intros ? ?
  | |- runs _ (V_get _ _ _ _) _ _ => apply (runs_V_get _ any_error_fuel); intros ? ?
  | |- runs _ (Vf_get _ _ _ _) _ _ => apply (runs_Vf_get _ any_error_fuel); intros ? ?
  | |- runs _ (arith _) _ _ => apply (runs_arith' _ any_error_fuel); intros ? ?
  | |- runs _ (L_set _ _ _) _ _ => apply (runs_L_set _ any_error_fuel); intros ? ?
  | |- runs _ (P_set _ _ _) _ _ => apply (runs_P_set _ any_error_fuel); intros ? ?
  | |- runs _ (F_set _ _ _) _ _ => apply (runs_F_set _ any_error_fuel); intros ? ?
  | |- runs _ (V_put _ _ _ _ _) _ _ => apply (runs_V_put _ any_error_fuel); intros ? ?
  | |- runs _ (V_add _ _ _ _ _) _ _ => apply (runs_V_add _ any_error_fuel); intros ? ? ?
  | |- runs _ (Vf_add _ _ _ _ _) _ _ => apply (runs_Vf_add _ any_error_fuel); intros ? ? ?
  | |- runs _ random01 _ _ => apply runs_random01
  | |- runs _ (lift _) _ _ =>
      apply runs_any;
      let H := fresh "Hlift" in intros ? ? H; apply lift_ok in H as [? ->]
  end.

Ltac fr_call :=
  eapply runs_weaken;
  [solve [eauto with frame] | let H := fresh "Hk" in intros ? ? H; cbv beta in H].

Ltac fr_step :=
  lazymatch goal with
  | |- runs _ (bind _ _) _ _ => apply runs_bind; first [fr_prim | fr_call]
  | |- runs _ (if ?b then _ else _) _ _ => destruct b eqn:?
  | |- runs _ (match ?r with (_, _) => _ end) _ _ => destruct r
  | |- runs _ _ _ _ => fr_prim
  end.

Ltac fr := repeat (fr_step; cbv beta; fr_state); try solve [eauto with frame].

Lemma foldM_frame {A B} (f : A -> B -> M (Sim T Rng) A) (l : list B) (a : A) s :
  (forall a b s1, R s0 s1 -> runs any_error (f a b) s1 framed) ->
  R s0 s -> runs any_error (foldM f l a) s framed.
Proof.
  intros Hf Hk. apply (runs_foldM any_error (fun _ s' => R s0 s')); [| exact Hk].
  intros a' b s1 _ Hk1. now apply Hf.
Qed.

Lemma forM_frame {B} (f : B -> M (Sim T Rng) unit) (l : list B) s :
  (forall b s1, R s0 s1 -> runs any_error (f b) s1 framed) ->
  R s0 s -> runs any_error (forM f l) s framed.
Proof. intros Hf Hk. unfold forM. apply foldM_frame; auto. Qed.

Lemma mapM_frame {A B} (f : A -> M (Sim T Rng) B) (l : list A) s :
  (forall a s1, R s0 s1 -> runs any_error (f a) s1 framed) ->
  R s0 s -> runs any_error (mapM f l) s framed.
Proof.
  intros Hf. revert s. induction l as [| a l IH]; intros s Hk; simpl; fr.
Qed.

Lemma flow_dirs_frame (rec : Z -> Z -> T -> M (Sim T Rng) flow_result) (x y : Z) (lim : T) :
  (forall s nx ny vp, R s0 s -> runs any_error (rec nx ny vp) s framed) ->
  forall ds acc s, R s0 s -> runs any_error (flow_dirs rec x y lim acc ds) s framed.
Proof.
  intros Hrec. induction ds as [| [dx dy] ds IH]; intros acc s Hk; simpl; fr.
Qed.

Lemma propagate_flow_frame (fuel : nat) :
  forall s x y lim, R s0 s -> runs any_error (propagate_flow fuel x y lim) s framed.
Proof.
  induction fuel as [| fuel IH]; intros s x y lim Hk; cbn [propagate_flow]; fr.
  apply flow_dirs_frame; auto.
Qed.

Lemma stop_blocked_frame (x y : Z) (ds : list (Z * Z)) s :
  R s0 s -> runs any_error (stop_blocked x y ds) s framed.
Proof. intros Hk. induction ds as [| [dx dy] ds IH]; simpl; fr. Qed.

Lemma stop_dirs_frame (rec : Z -> Z -> M (Sim T Rng) unit) (x y : Z) :
  (forall s nx ny, R s0 s -> runs any_error (rec nx ny) s framed) ->
  forall ds s, R s0 s -> runs any_error (stop_dirs rec x y ds) s framed.
Proof.
  intros Hrec. induction ds as [| [dx dy] ds IH]; intros s Hk; simpl; fr.
Qed.

Lemma propagate_stop_frame (fuel : nat) :
  forall s x y force, R s0 s -> runs any_error (propagate_stop fuel x y force) s framed.
Proof.
  induction fuel as [| fuel IH]; intros s x y force Hk; cbn [propagate_stop]; fr.
  apply runs_bind. apply runs_weaken with (Q := fun _ s' => R s0 s').
  { destruct force; [now apply runs_ret | now apply stop_blocked_frame]. }
  intros blocked s1 Hk1. cbv beta. fr. apply stop_dirs_frame; auto.
Qed.

Lemma move_prob_dirs_frame (x y : Z) (ds : list (Z * Z)) (sum : T) s :
  R s0 s -> runs any_error (move_prob_dirs x y sum ds) s framed.
Proof.
  intros Hk. revert sum. induction ds as [| [dx dy] ds IH]; intros sum; simpl; fr.
Qed.

Lemma swap_with_frame (pp : ParticleParams T) (x y : Z) s :
  R s0 s -> runs any_error (swap_with pp x y) s framed.
Proof.
  intros Hk. unfold swap_with. fr.
  apply runs_bind, runs_any. intros arr s' Ha. apply lift_ok in Ha as [Ha ->].
  apply runs_bind, runs_any. intros [] s' Hs.
  destruct (VectorField.set_array _ x y arr) as [f |] eqn:Hf; [| discriminate].
  injection Hs as <-. apply runs_ret.
  match goal with H : R s0 ?m |- _ => apply (pr_trans _ m _ H) end.
  eapply pr_set_array. exact Hf.
Qed.

Lemma rotate_frame (x y tx ty : Z) s :
  R s0 s -> runs any_error (rotate x y tx ty) s framed.
Proof.
  intros Hk. unfold rotate.
  apply runs_bind. eapply runs_weaken; [now apply swap_with_frame |].
  intros pp1 s1 Hk1. cbv beta.
  apply runs_bind. eapply runs_weaken; [now apply swap_with_frame |].
  intros pp2 s2 Hk2. cbv beta. now apply swap_with_frame.
Qed.

Lemma move_thresholds_frame (x y : Z) :
  forall ds sum s, R s0 s -> runs any_error (move_thresholds x y sum ds) s framed.
Proof.
  induction ds as [| [dx dy] ds IH]; intros sum s Hk; simpl; fr.
  all: apply runs_bind; eapply runs_weaken; [now apply IH |];
    intros [ths total] s1 Hk1; now apply runs_ret.
Qed.

Lemma move_loop_frame (rec : Z -> Z -> M (Sim T Rng) bool) (x y : Z) :
  (forall s nx ny, R s0 s -> runs any_error (rec nx ny) s framed) ->
  forall n tx ty s, R s0 s -> runs any_error (move_loop rec n x y tx ty) s framed.
Proof.
  intros Hrec. induction n as [| n IH]; intros tx ty s Hk; cbn [move_loop]; fr.
  apply runs_bind. eapply runs_weaken; [now apply move_thresholds_frame |].
  intros [ths total] s1 Hk1. cbv beta iota. fr.
  apply runs_bind. apply runs_weaken with (Q := fun _ s' => R s0 s').
  { destruct (to_size _ =? _); fr. }
  intros moved s2 Hk2. cbv beta. destruct moved; fr.
Qed.

Lemma move_stop_dirs_frame (stop : Z -> Z -> M (Sim T Rng) unit) (x y : Z) :
  (forall s nx ny, R s0 s -> runs any_error (stop nx ny) s framed) ->
  forall ds s, R s0 s -> runs any_error (move_stop_dirs stop x y ds) s framed.
Proof.
  intros Hstop. induction ds as [| [dx dy] ds IH]; intros s Hk; simpl; fr.
Qed.

Lemma propagate_move_frame (fuel : nat) :
  forall s x y is_first depth, R s0 s ->
    runs any_error (propagate_move fuel x y is_first depth) s framed.
Proof.
  induction fuel as [| fuel IH]; intros s x y is_first depth Hk;
    cbn [propagate_move]; fr.
  apply runs_bind. eapply runs_weaken.
  { apply (move_loop_frame _ x y); [| eassumption].
    intros s1 nx ny Hk1. now apply IH. }
  intros [[moved tx] ty] s2 Hk2. cbv beta iota. fr.
  apply runs_bind. eapply runs_weaken.
  { apply (move_stop_dirs_frame _ x y); [| eassumption].
    intros s4 nx ny Hk4. now apply propagate_stop_frame. }
  intros [] s4 Hk4. cbv beta.
  destruct (moved && negb is_first); [| now apply runs_ret].
  apply runs_bind. eapply runs_weaken; [now apply rotate_frame |].
  intros pp s5 Hk5. now apply runs_ret.
Qed.

#[local] Hint Resolve propagate_flow_frame propagate_stop_frame propagate_move_frame
  move_prob_dirs_frame : frame.

Lemma compute_dirs_frame s : R s0 s -> runs any_error compute_dirs s framed.
Proof.
  intros Hk. unfold compute_dirs. fr.
  apply mapM_frame; [| exact Hk]. intros x s1 Hk1.
  apply mapM_frame; [| exact Hk1]. intros y s2 Hk2.
  unfold dirs_cell. fr.
  unfold dirs_count. apply foldM_frame; [| exact Hk2].
  intros d [dx dy] s3 Hk3. fr.
Qed.

Lemma phase_gravity_frame s : R s0 s -> runs any_error phase_gravity s framed.
Proof.
  intros Hk. unfold phase_gravity. fr. apply forM_frame; [| exact Hk].
  intros [x y] s1 Hk1. unfold gravity_cell. fr.
Qed.

Lemma pressure_dir_frame (dirs : list (list Z)) (x y : Z) (d : Z * Z) s :
  R s0 s -> runs any_error (pressure_dir dirs x y d) s framed.
Proof.
  intros Hk. destruct d as [dx dy].
  unfold pressure_dir, sub_total_delta_p. fr.
Qed.

Lemma phase_pressure_frame (dirs : list (list Z)) s :
  R s0 s -> runs any_error (phase_pressure dirs) s framed.
Proof.
  intros Hk. unfold phase_pressure. fr. apply forM_frame; [| assumption].
  intros [x y] s1 Hk1. unfold pressure_cell. fr.
  apply forM_frame; [| exact Hk1]. intros d s2 Hk2. now apply pressure_dir_frame.
Qed.

Lemma flow_sweeps_frame (fuel : nat) : forall n s,
  R s0 s -> runs any_error (flow_sweeps n fuel) s framed.
Proof.
  induction n as [| n IH]; intros s Hk; cbn [flow_sweeps]; fr.
  apply runs_bind. apply runs_weaken with (Q := fun _ s' => R s0 s').
  - unfold flow_sweep. fr. apply foldM_frame; [| assumption].
    intros prop [x y] s1 Hk1. unfold flow_sweep_cell. fr.
  - intros prop s1 Hk1. cbv beta. destruct prop; [now apply IH | now apply runs_ret].
Qed.

Lemma phase_flow_frame (fuel : nat) s :
  R s0 s -> runs any_error (phase_flow fuel) s framed.
Proof.
  intros Hk. unfold phase_flow. fr. now apply flow_sweeps_frame.
Qed.

Lemma settle_dir_frame (dirs : list (list Z)) (x y : Z) (d : Z * Z) s :
  R s0 s -> runs any_error (settle_dir dirs x y d) s framed.
Proof.
  intros Hk. destruct d as [dx dy].
  unfold settle_dir, credit_pressure, add_total_delta_p. fr.
  apply runs_bind. apply runs_weaken with (Q := fun _ s' => R s0 s').
  { destruct (Ascii.eqb _ _); fr. }
  intros force' s2 Hk2. cbv beta. fr.
Qed.

Lemma phase_settle_frame (dirs : list (list Z)) s :
  R s0 s -> runs any_error (phase_settle dirs) s framed.
Proof.
  intros Hk. unfold phase_settle. fr. apply forM_frame; [| exact Hk].
  intros [x y] s1 Hk1. unfold settle_cell. fr.
  apply forM_frame; [| exact Hk1]. intros d s2 Hk2. now apply settle_dir_frame.
Qed.

Lemma phase_move_frame (fuel : nat) s :
  R s0 s -> runs any_error (phase_move fuel) s framed.
Proof.
  intros Hk. unfold phase_move. fr. apply foldM_frame; [| assumption].
  intros prop [x y] s1 Hk1. unfold move_cell, move_prob. fr.
Qed.

#[local] Hint Resolve phase_gravity_frame phase_pressure_frame phase_flow_frame
  phase_settle_frame phase_move_frame : frame.

(** A tick: its phases, then whatever the printout does. *)
Lemma tick_frame (fuel : nat) (dirs : list (list Z)) s (Q : bool -> Sim T Rng -> Prop) :
  R s0 s ->
  (forall (prop : bool) s1, R s0 s1 ->
     runs any_error
       (let* _ := (if prop then print_field else ret tt) in ret prop) s1 Q) ->
  runs any_error (tick fuel dirs) s Q.
Proof. intros Hk Hrest. unfold tick. fr. Qed.

End Frame.

(** ** [run] keeps the extents, the parameters and the shape of every grid *)

Lemma grid_set_lengths {A} (gr gr' : list (list A)) (x y : Z) (a : A) :
  grid_set gr x y a = Ok gr' -> map length gr' = map length gr.
Proof.
  unfold grid_set. destruct (grid_at gr x y); [| discriminate]. intros [= <-].
  generalize (Z.to_nat x) as n. induction gr as [| r gr IH]; intros [| n]; simpl;
    try reflexivity.
  - now rewrite length_insert.
  - f_equal. apply IH.
Qed.

Lemma set_cell_lengths {T} (f : VectorField.field T) (x y : Z) (a : VectorField.arr4 T) :
  map length (VectorField.set_cell f x y a) = map length f.
Proof.
  unfold VectorField.set_cell. generalize (Z.to_nat x) as n.
  induction f as [| r f IH]; intros [| n]; simpl; try reflexivity.
  - now rewrite length_insert.
  - f_equal. apply IH.
Qed.

Section ShapeKept.
Context {T Rng : Type} {NT : Numeric T} {PR : Prng T Rng}.
Implicit Types (s : Sim T Rng).
Local Open Scope sim_scope.

#[local] Instance same_shape_preserved : Preserved (@same_shape T Rng).
Proof.
  constructor; unfold same_shape.
  - intros s. repeat split.
  - intros s1 s2 s3 H12 H23.
    destruct H12 as (A1 & A2 & A3 & A4 & A5 & A6 & A7 & A8).
    destruct H23 as (B1 & B2 & B3 & B4 & B5 & B6 & B7 & B8).
    repeat split; congruence.
  - intros s x y c fd H. cbn. repeat split. exact (grid_set_lengths _ _ _ _ _ H).
  - intros s x y a gr H. cbn. repeat split. exact (grid_set_lengths _ _ _ _ _ H).
  - intros s x y a gr H. cbn. repeat split. exact (grid_set_lengths _ _ _ _ _ H).
  - intros s x y dx dy a f H. cbn. repeat split.
    unfold VectorField.put in H. destruct (VectorField.cell _ _ _); [| discriminate].
    destruct (VectorField.arr_get _ _); [| discriminate]. injection H as <-.
    apply set_cell_lengths.
  - intros s x y dx dy a f b H. cbn. repeat split.
    unfold VectorField.add in H. destruct (negb _); [discriminate |].
    destruct (_ =? _)%nat; [discriminate |].
    destruct (VectorField.cell _ _ _); [| discriminate].
    destruct (VectorField.arr_get _ _); [| discriminate].
    destruct (nadd _ _); [| discriminate]. injection H as <- _.
    apply set_cell_lengths.
  - intros s x y a f H. cbn. repeat split.
    unfold VectorField.set_array in H. destruct (VectorField.cell _ _ _); [| discriminate].
    injection H as <-. apply set_cell_lengths.
  - intros s f. cbn. repeat split.
  - intros s. cbn. repeat split.
  - intros s. cbn. repeat split.
  - intros s u. cbn. repeat split.
  - intros s q. cbn. repeat split.
  - intros s n. cbn. repeat split.
Qed.

Lemma print_field_shape s0 s :
  same_shape s0 s -> runs any_error print_field s (fun _ s' => same_shape s0 s').
Proof.
  intros Hk. unfold print_field. apply runs_bind, runs_gets.
  apply runs_bind. eapply runs_weaken.
  { apply (mapM_frame same_shape s0); [| exact Hk]. intros x s1 Hk1.
    apply runs_any. intros a s' Ha. apply lift_ok in Ha as [_ ->]. exact Hk1. }
  intros lines s1 Hk1. apply runs_modify. exact Hk1.
Qed.

Lemma run_loop_shape (fuel : nat) (dirs : list (list Z)) (steps : Z) s0 :
  forall n step s, same_shape s0 s ->
    runs any_error (run_loop n fuel dirs step steps) s (fun _ s' => same_shape s0 s').
Proof.
  induction n as [| n IH]; intros step s Hk; cbn [run_loop]; [now apply runs_ret |].
  destruct (step <? steps); [| now apply runs_ret].
  apply runs_bind. apply (tick_frame same_shape s0 fuel dirs s _ Hk).
  intros prop s1 Hk1. apply runs_bind.
  apply runs_weaken with (Q := fun _ s' => same_shape s0 s').
  { destruct prop; [now apply print_field_shape | now apply runs_ret]. }
  intros [] s2 Hk2. apply runs_ret. now apply IH.
Qed.

(** [run] changes neither the extents, the gravity nor the density table,
    and never resizes a grid: whenever it completes, the character field,
    the pressures, the visit stamps and the velocities have the rows, and
    the row lengths, they had before. *)
Theorem run_keeps_shape (fuel : nat) (steps checkpoint_interval : Z) (s s' : Sim T Rng) :
  run fuel steps checkpoint_interval s = Ok (tt, s') -> same_shape s s'.
Proof.
  intros Hrun.
  assert (H : runs any_error (run fuel steps checkpoint_interval) s
                (fun _ s1 => same_shape s s1)).
  { unfold run. apply runs_bind. eapply runs_weaken.
    - apply (compute_dirs_frame same_shape s). apply pr_refl.
    - intros dirs s1 Hk1. now apply run_loop_shape. }
  exact (proj2 H tt s' Hrun).
Qed.

End ShapeKept.

(** ** The printouts of a run *)

Section Printouts.
Context {T Rng : Type} {NT : Numeric T} {PR : Prng T Rng}.
Implicit Types (s : Sim T Rng).
Local Open Scope sim_scope.

#[local] Instance prints_nothing_preserved :
  Preserved (fun s s' : Sim T Rng => prints s s' []).
Proof.
  constructor; unfold prints; try (intros; cbn; rewrite app_nil_r; now repeat split).
  intros s1 s2 s3 (A1 & A2 & _) (B1 & B2 & _). rewrite app_nil_r in *.
  repeat split; congruence || constructor.
Qed.

Lemma prints_refl s : prints s s [].
Proof. unfold prints. rewrite app_nil_r. now repeat split. Qed.

Lemma mapM_length {A B} (f : A -> M (Sim T Rng) B) :
  forall l s bs s', mapM f l s = Ok (bs, s') -> length bs = length l.
Proof.
  induction l as [| a l IH]; intros s bs s' H; simpl in H.
  - apply ret_ok in H as [<- _]. reflexivity.
  - apply bind_ok in H as (b & s1 & _ & H).
    apply bind_ok in H as (bs' & s2 & H2 & H).
    apply ret_ok in H as [<- _]. simpl. f_equal. exact (IH _ _ _ H2).
Qed.

Lemma prints_app s0 s1 s2 b1 b2 :
  prints s0 s1 b1 -> prints s1 s2 b2 -> prints s0 s2 (b1 ++ b2).
Proof.
  intros (A1 & A2 & A3) (B1 & B2 & B3). unfold prints. rewrite B1, A1, B2, A2.
  rewrite app_assoc. repeat split. apply Forall_app. split; [exact A3 |].
  now rewrite A2 in B3.
Qed.

(** The printout of a tick: one block of [rows] lines. *)
Lemma print_field_prints s :
  runs any_error print_field s (fun _ s' => exists b, prints s s' [b]).
Proof.
  unfold print_field. apply runs_bind, runs_gets.
  apply runs_bind, runs_any. intros lines s1 Hl.
  assert (Hlen : length lines = Z.to_nat (rows s)).
  { rewrite (mapM_length _ _ _ _ _ Hl), length_seqZ. reflexivity. }
  assert (Hs1 : prints s s1 []).
  { pose proof (mapM_frame (fun s s' : Sim T Rng => prints s s' []) s
                  (fun x : Z => fun s => lift (vec_at (field_data s) x) s)
                  (seqZ 0 (rows s)) s) as Hm.
    apply (fun H => proj2 (Hm H (prints_refl s)) _ _ Hl).
    intros x s2 Hk2. apply runs_any. intros a s' Ha. apply lift_ok in Ha as [_ ->].
    exact Hk2. }
  apply runs_modify. exists lines. destruct Hs1 as (E1 & E2 & _).
  rewrite app_nil_r in E1. unfold prints. cbn [printed rows with_printed].
  rewrite E1, E2. repeat split. now repeat constructor.
Qed.

Lemma run_loop_prints (fuel : nat) (dirs : list (list Z)) (steps : Z) :
  forall n step s,
    runs any_error (run_loop n fuel dirs step steps) s
      (fun _ s' => exists blocks, prints s s' blocks /\
         (2 * length blocks <= Z.to_nat (steps - step) + 1)%nat).
Proof.
  induction n as [| n IH]; intros step s; cbn [run_loop].
  { apply runs_ret. exists []. split; [apply (prints_refl s) | simpl; lia]. }
  destruct (Z.ltb_spec step steps) as [Hlt | Hge].
  2:{ apply runs_ret. exists []. split; [apply (prints_refl s) | simpl; lia]. }
  apply runs_bind.
  apply (tick_frame (fun s s' : Sim T Rng => prints s s' []) s fuel dirs s _ (prints_refl s)).
  intros prop s1 Hk1. apply runs_bind.
  apply runs_weaken with
    (Q := fun _ s2 => exists b1, prints s s2 b1 /\
            length b1 = (if prop then 1 else 0)%nat).
  { destruct prop.
    - eapply runs_weaken; [apply print_field_prints |].
      intros [] s2 [b Hb]. exists [b]. split; [| reflexivity].
      exact (prints_app s s1 s2 [] [b] Hk1 Hb).
    - apply runs_ret. exists []. split; [exact Hk1 | reflexivity]. }
  intros [] s2 (b1 & Hb1 & Hlen1). apply runs_ret.
  eapply runs_weaken; [apply IH |].
  intros [] s3 (b2 & Hb2 & Hlen2). cbv beta.
  exists (b1 ++ b2). split; [exact (prints_app s s2 s3 b1 b2 Hb1 Hb2) |].
  rewrite length_app, Hlen1. destruct prop; lia.
Qed.

(** The printout of a tick that moved something increments the step
    counter of the loop, so such a tick uses up two of the [steps]: a run
    prints at most [(steps + 1) / 2] blocks, never one per step when
    [steps] is two or more.  Each block has [rows] lines, and nothing else
    is added to the printouts. *)
Theorem run_prints_every_other_step (fuel : nat) (steps checkpoint_interval : Z)
  (s s' : Sim T Rng) :
  run fuel steps checkpoint_interval s = Ok (tt, s') ->
  exists blocks,
    printed s' = printed s ++ blocks /\
    Forall (fun b => length b = Z.to_nat (rows s)) blocks /\
    (2 * length blocks <= Z.to_nat steps + 1)%nat.
Proof.
  intros Hrun.
  assert (H : runs any_error (run fuel steps checkpoint_interval) s
                (fun _ s1 => exists blocks, prints s s1 blocks /\
                   (2 * length blocks <= Z.to_nat steps + 1)%nat)).
  { unfold run. apply runs_bind. eapply runs_weaken.
    - apply (compute_dirs_frame (fun s s' : Sim T Rng => prints s s' []) s).
      apply (prints_refl s).
    - intros dirs s1 Hk1. cbv beta. eapply runs_weaken; [apply run_loop_prints |].
      intros [] s2 (b & Hb & Hlen). exists b. rewrite Z.sub_0_r in Hlen.
      split; [| exact Hlen]. exact (prints_app s s1 s2 [] b Hk1 Hb). }
  destruct (proj2 H tt s' Hrun) as (blocks & (E1 & _ & E3) & Hlen).
  exists blocks. auto.
Qed.

End Printouts.

Module ShapeWitness.
Import FixedPoint Q16 Q16Facts Q16Text.

Lemma run_keeps_shape_witness :
  run 20 1 1 (engine_or_blank row_input) = Ok (tt, row_engine) /\
  same_shape (engine_or_blank row_input) row_engine.
Proof.
  assert (H : run 20 1 1 (engine_or_blank row_input) = Ok (tt, row_engine))
    by (vm_compute; reflexivity).
  split; [exact H |].
  exact (run_keeps_shape 20 1 1 _ _ H).
Defined.

Lemma run_prints_every_other_step_witness :
  run 20 1 1 (engine_or_blank row_input) = Ok (tt, row_engine) /\
  exists blocks,
    printed row_engine = printed (engine_or_blank row_input) ++ blocks /\
    Forall (fun b => length b = Z.to_nat (rows (engine_or_blank row_input))) blocks /\
    (2 * length blocks <= Z.to_nat 1 + 1)%nat.
Proof.
  assert (H : run 20 1 1 (engine_or_blank row_input) = Ok (tt, row_engine))
    by (vm_compute; reflexivity).
  split; [exact H |].
  exact (run_prints_every_other_step 20 1 1 _ _ H).
Defined.

End ShapeWitness.

(** ** Two runs on one grid description *)




Create HintDb mono.



Section FuelMonotone.
Context {T Rng : Type} {NT : Numeric T} {PR : Prng T Rng}.
Local Open Scope sim_scope.













End FuelMonotone.

Section Determinism.
Context {T Rng : Type} {NT : Numeric T} {PR : Prng T Rng} {PA : Parsers T}.
Implicit Types (s : Sim T Rng).
Local Open Scope sim_scope.


(** No phase touches the generator but by drawing from it. *)
#[local] Instance advanced_preserved : Preserved (@advanced T Rng PR).
Proof.
  constructor; unfold advanced; try (intros; exists 0%nat; reflexivity).
  - intros s1 s2 s3 [k1 H1] [k2 H2]. exists (k2 + k1)%nat.
    rewrite H2, H1. unfold draws. now rewrite Nat.iter_add.
  - intros s. exists 1%nat. reflexivity.
Qed.





End Determinism.

Module DeterminismWitness.
Import FixedPoint Q16.


End DeterminismWitness.

(** ** Gravity *)

Lemma NoDup_cells (r c : Z) : NoDup (cells r c).
Proof.
  unfold cells. generalize (NoDup_seqZ 0 r). generalize (seqZ 0 r) as xs.
  induction xs as [| x xs IH]; intros Hxs; simpl; [constructor |].
  apply NoDup_cons in Hxs as [Hx Hxs]. apply NoDup_app. split; [| split].
  - apply (NoDup_fmap_2 (pair x)), NoDup_seqZ.
  - intros [x' y'] H1 H2. apply list_elem_of_fmap in H1 as (y1 & [= -> ->] & _).
    apply list_elem_of_In, in_flat_map in H2 as (x2 & Hx2 & Hy2).
    apply in_map_iff in Hy2 as (y2 & [= -> ->] & _).
    apply Hx. now apply list_elem_of_In.
  - now apply IH.
Qed.

Section Gravity.
Context {T Rng : Type} {NT : Numeric T} {PR : Prng T Rng}.
Implicit Types (s : Sim T Rng).
Local Open Scope sim_scope.

Lemma gravity_cell_done s s' (x y : Z) :
  0 <= x < rows s -> 0 <= y < cols s ->
  gravity_cell (x, y) s = Ok (tt, s') -> gravity_done s s' [(x, y)].
Proof.
  intros Hx Hy H. unfold gravity_cell in H.
  assert (Hrange : (0 <=? x) && (x <? rows s) && (0 <=? y) && (y <? cols s) = true).
  { repeat (apply andb_true_iff; split); lia. }
  assert (Hsame : falls s x y = false -> s' = s -> gravity_done s s' [(x, y)]).
  { intros Hf ->. split; [now destruct s |]. intros x' y'. split.
    - intros [[= -> ->] | []] Hf'. congruence.
    - reflexivity. }
  apply bind_ok in H as (here & s1 & H1 & H). apply lift_ok in H1 as [Hhere ->].
  destruct (is_wall here) eqn:Eh.
  { apply ret_ok in H as [_ <-]. apply Hsame; [| reflexivity].
    unfold falls. rewrite Hrange, Hhere. cbv iota beta.
    rewrite Eh. destruct (field_at (field_data s) (x + 1) y); reflexivity. }
  apply bind_ok in H as (south & s1 & H1 & H). apply lift_ok in H1 as [Hsouth ->].
  destruct (is_wall south) eqn:Es.
  { apply ret_ok in H as [_ <-]. apply Hsame; [| reflexivity].
    unfold falls. rewrite Hrange, Hhere, Hsouth. cbv iota beta.
    rewrite Eh, Es. reflexivity. }
  apply bind_ok in H as (gv & s1 & H1 & H). apply gets_ok in H1 as [-> ->].
  unfold V_add in H.
  destruct (VectorField.add nadd (velocity s) x y 1 0 (g s) deltas) as [[f b] |] eqn:Ha;
    [| discriminate].
  injection H as <-. split; [reflexivity |]. cbn [velocity with_velocity].
  unfold VectorField.add in Ha. destruct (negb _); [discriminate |].
  change (VectorField.find_index deltas 1 0) with 1%nat in Ha.
  change (1 =? length deltas)%nat with false in Ha. cbv iota in Ha.
  destruct (VectorField.cell (velocity s) x y) as [a |] eqn:Hc; [| discriminate].
  destruct (VectorField.arr_get a 1) as [v |] eqn:Hv; [| discriminate].
  destruct (nadd v (g s)) as [v' |] eqn:Hadd; [| discriminate].
  injection Ha as <- <-. intros x' y'.
  rewrite (cell_set_cell _ x y x' y' _ a Hc). split.
  - intros [[= -> ->] | []] _. rewrite !Z.eqb_refl. cbn [andb]. eauto 8.
  - intros Hn. destruct (Z.eqb_spec x' x) as [-> | ?]; [| reflexivity].
    destruct (Z.eqb_spec y' y) as [-> | ?]; [| reflexivity].
    exfalso. apply Hn. split; [now left |].
    unfold falls. rewrite Hrange, Hhere, Hsouth. cbv iota beta.
    rewrite Eh, Es. reflexivity.
Qed.

Lemma gravity_done_app s s1 s' (b : Z * Z) (l : list (Z * Z)) :
  ~ In b l -> gravity_done s s1 [b] -> gravity_done s1 s' l -> gravity_done s s' (b :: l).
Proof.
  intros Hb [E1 H1] [E2 H2]. split.
  { rewrite E2 at 1. rewrite E1 at 1. reflexivity. }
  assert (Hf : forall x y, falls s1 x y = falls s x y) by (intros; now rewrite E1).
  assert (Hg : g s1 = g s) by now rewrite E1.
  intros x y. destruct (H1 x y) as [H1a H1b]. destruct (H2 x y) as [H2a H2b].
  rewrite Hf, Hg in *. split.
  - intros [Eb | Hin] Hfall.
    + destruct (H1a (or_introl Eb) Hfall) as (a & v & v' & Ha & Hv & Hadd & Hc).
      exists a, v, v'. repeat split; try assumption.
      rewrite H2b; [exact Hc |]. intros [Hin _]. apply Hb. now rewrite Eb.
    + destruct (H2a Hin Hfall) as (a & v & v' & Ha & Hv & Hadd & Hc).
      exists a, v, v'. repeat split; try assumption.
      rewrite <- Ha. symmetry. apply H1b. intros [[Eb | []] _].
      apply Hb. now rewrite Eb.
  - intros Hn. rewrite H2b, H1b; [reflexivity | |].
    + intros [[Eb | []] Hfall]. apply Hn. split; [now left | exact Hfall].
    + intros [Hin Hfall]. apply Hn. split; [now right | exact Hfall].
Qed.

Lemma gravity_cells_done (l : list (Z * Z)) :
  NoDup l ->
  forall s s',
    (forall x y, In (x, y) l -> 0 <= x < rows s /\ 0 <= y < cols s) ->
    forM gravity_cell l s = Ok (tt, s') -> gravity_done s s' l.
Proof.
  induction 1 as [| b l Hb Hl IH]; intros s s' Hin H.
  - unfold forM in H. simpl in H. apply ret_ok in H as [_ <-].
    split; [now destruct s |]. intros x y. split; [intros [] | reflexivity].
  - unfold forM in H. simpl in H. apply bind_ok in H as ([] & s1 & H1 & H).
    destruct b as [x y]. destruct (Hin x y (or_introl eq_refl)) as [Hx Hy].
    pose proof (gravity_cell_done s s1 x y Hx Hy H1) as Hd1.
    apply (gravity_done_app s s1 s' (x, y) l).
    + intros Hc. apply Hb. now apply list_elem_of_In.
    + exact Hd1.
    + apply IH; [| exact H]. destruct Hd1 as [-> _]. cbn [rows cols with_velocity].
      intros x' y' Hin'. apply Hin. now right.
Qed.

Lemma classic_falls s (x y : Z) (l : list (Z * Z)) :
  (In (x, y) l /\ falls s x y = true) \/ ~ (In (x, y) l /\ falls s x y = true).
Proof.
  destruct (falls s x y); [| right; intros [_ ?]; discriminate].
  destruct (in_dec (fun a b : Z * Z => decide (a = b)) (x, y) l) as [Hin | Hout];
    [now left |].
  right. intros [Hin _]. contradiction.
Qed.

(** Gravity adds [g] exactly once to the downward velocity of every cell
    that falls, and changes nothing else: whenever the phase completes, the
    state differs from the one before in the velocity field only; at a cell
    that falls the entry of direction [(1, 0)] held some [v] and now holds
    [v + g]; every other entry of every cell reads as before. *)
Theorem phase_gravity_adds_g_once (s s' : Sim T Rng) :
  phase_gravity s = Ok (tt, s') ->
  s' = with_velocity s (velocity s') /\
  (forall x y, falls s x y = true ->
     exists v v',
       VectorField.get (velocity s) x y 1 0 deltas = Ok v /\
       nadd v (g s) = Some v' /\
       VectorField.get (velocity s') x y 1 0 deltas = Ok v') /\
  (forall x y dx dy, falls s x y = false \/ (dx =? 1) && (dy =? 0) = false ->
     VectorField.get (velocity s') x y dx dy deltas
     = VectorField.get (velocity s) x y dx dy deltas).
Proof.
  intros H. unfold phase_gravity in H.
  apply bind_ok in H as (rws & s1 & H1 & H). apply gets_ok in H1 as [-> ->].
  apply bind_ok in H as (cls & s1 & H1 & H). apply gets_ok in H1 as [-> ->].
  apply gravity_cells_done in H; [| apply NoDup_cells | intros x y; apply in_cells].
  destruct H as [E Hcells]. split; [exact E |]. split.
  - intros x y Hf.
    assert (Hin : In (x, y) (cells (rows s) (cols s))).
    { apply in_cells. unfold falls in Hf.
      repeat (apply andb_true_iff in Hf as [Hf ?]). lia. }
    destruct (proj1 (Hcells x y) Hin Hf) as (a & v & v' & Ha & Hv & Hadd & Hc).
    exists v, v'. unfold VectorField.get.
    change (VectorField.find_index deltas 1 0) with 1%nat.
    rewrite Ha, Hv, Hc. repeat split; try assumption.
    destruct a as [[[a0 a1] a2] a3]. reflexivity.
  - intros x y dx dy Hcase. unfold VectorField.get.
    destruct (classic_falls s x y (cells (rows s) (cols s))) as [[Hin Hf] | Hn].
    + destruct Hcase as [Hff | Hd]; [congruence |].
      destruct (proj1 (Hcells x y) Hin Hf) as (a & v & v' & Ha & Hv & Hadd & Hc).
      rewrite Ha, Hc. destruct a as [[[a0 a1] a2] a3].
      assert (Hi : VectorField.find_index deltas dx dy <> 1%nat).
      { unfold deltas. cbn [VectorField.find_index].
        destruct ((-1 =? dx) && (0 =? dy)); [discriminate |].
        destruct (Z.eqb_spec 1 dx) as [<- | ?].
        - destruct (Z.eqb_spec 0 dy) as [<- | ?]; [discriminate |]. cbn [andb].
          destruct (_ && _); [discriminate |]. destruct (_ && _); discriminate.
        - cbn [andb]. destruct (_ && _); [discriminate |].
          destruct (_ && _); discriminate. }
      destruct (VectorField.find_index deltas dx dy) as [| [| [| [| i]]]];
        try reflexivity. contradiction.
    + now rewrite (proj2 (Hcells x y) Hn).
Qed.

End Gravity.

Module GravityWitness.
Import FixedPoint Q16.

Lemma phase_gravity_adds_g_once_witness :
  exists s' : Sim Fixed Z,
    phase_gravity (engine_or_blank column_input) = Ok (tt, s') /\
    falls (engine_or_blank column_input) 1 1 = true /\
    s' = with_velocity (engine_or_blank column_input) (velocity s') /\
    (forall x y, falls (engine_or_blank column_input) x y = true ->
       exists v v',
         VectorField.get (velocity (engine_or_blank column_input)) x y 1 0 deltas = Ok v /\
         nadd v (g (engine_or_blank column_input)) = Some v' /\
         VectorField.get (velocity s') x y 1 0 deltas = Ok v') /\
    (forall x y dx dy,
       falls (engine_or_blank column_input) x y = false \/ (dx =? 1) && (dy =? 0) = false ->
       VectorField.get (velocity s') x y dx dy deltas
       = VectorField.get (velocity (engine_or_blank column_input)) x y dx dy deltas).
Proof.
  eexists. split; [vm_compute; reflexivity |].
  split; [vm_compute; reflexivity |].
  apply (phase_gravity_adds_g_once (engine_or_blank column_input)).
  vm_compute. reflexivity.
Defined.

End GravityWitness.
